(** * demucs-js: spectral transform engine and chunked inference

    A shallow embedding of [src/dsp.ts], [src/apply.ts], the functions
    of [src/wav-utils.ts] and the parts of [src/onnx-htdemucs.ts] that
    [apply.ts] calls, with the properties of the specification stated
    over it.

    Conventions of the embedding.
    - Indices, lengths and shape entries are JavaScript numbers that hold
      integers on every path considered; they are embedded as [Z].
      Operators that go through 32-bit integers ([&], [>>], [<<]) have
      their wrap-around written out ([toInt32]).
    - The contents of a [Float32Array] and the floating-point temporaries
      are values of a type [F] with the operations of [Scalar] (and of
      [Floor] and [Pcm] where the code takes integers out of them);
      rounding is not modelled, so a statement proved for every [F] holds
      for every interpretation of the arithmetic, and a statement proved
      for the instance over [R] holds for exact real arithmetic.
    - A [throw] is the [Throw] branch of [result]; [new Float32Array(n)]
      with a negative [n] throws a [RangeError].  Loops whose exit is not
      evident from their header run on fuel: [OutOfFuel] stands for a
      loop that is still running when the fuel is spent. *)

From Stdlib Require Import String ZArith List Lia Bool.
From Stdlib Require Import QArith Qround.
From Stdlib Require Import Reals Lra.
Import ListNotations.

#[local] Open Scope Z_scope.

(** ** Errors *)

Inductive exn : Type :=
| Error (message : string)       (* [throw new Error(message)]; interpolated values are left out *)
| RangeError (message : string)  (* thrown by the runtime itself *)
| TypeError (message : string)   (* thrown by the runtime itself *)
| OutOfFuel.

Inductive result (A : Type) : Type :=
| Ok (a : A)
| Throw (e : exn).

Arguments Ok {A} a.
Arguments Throw {A} e.

Definition bind {A B : Type} (m : result A) (k : A -> result B) : result B :=
  match m with
  | Ok a => k a
  | Throw e => Throw e
  end.

Declare Scope result_scope.
Delimit Scope result_scope with result.
Notation "x <- m ;; k" := (bind m (fun x => k))
  (at level 100, m at next level, right associativity) : result_scope.
Notation "' pat <- m ;; k" := (bind m (fun x => match x with pat => k end))
  (at level 100, pat pattern, m at next level, right associativity) : result_scope.
#[local] Open Scope result_scope.

Definition succeeds {A : Type} (m : result A) : Prop := exists a, m = Ok a.

(** ** Loops *)

(** [for (let i = lo; i < hi; i++) s = body i s] *)
Fixpoint iterate {St : Type} (body : Z -> St -> St) (i : Z) (count : nat) (s : St) : St :=
  match count with
  | O => s
  | S c => iterate body (i + 1) c (body i s)
  end.

Definition for_ {St : Type} (lo hi : Z) (body : Z -> St -> St) (s : St) : St :=
  iterate body lo (Z.to_nat (hi - lo)) s.

(** The same loop with a body that may throw. *)
Fixpoint iterateM {St : Type} (body : Z -> St -> result St) (i : Z) (count : nat) (s : St)
  : result St :=
  match count with
  | O => Ok s
  | S c => s' <- body i s ;; iterateM body (i + 1) c s'
  end.

Definition forM {St : Type} (lo hi : Z) (body : Z -> St -> result St) (s : St) : result St :=
  iterateM body lo (Z.to_nat (hi - lo)) s.

(** [while (cond s) s = body s], on fuel. *)
Fixpoint while_ {St : Type} (fuel : nat) (cond : St -> bool) (body : St -> result St) (s : St)
  : result St :=
  match fuel with
  | O => Throw OutOfFuel
  | S f => if cond s then s' <- body s ;; while_ f cond body s' else Ok s
  end.

(** ** 32-bit integer operators *)

Definition toInt32 (x : Z) : Z := (x + 2 ^ 31) mod 2 ^ 32 - 2 ^ 31.

(** [a & b] *)
Definition and32 (a b : Z) : Z := Z.land (toInt32 a) (toInt32 b).
(** [a >> k] *)
Definition sar32 (a k : Z) : Z := Z.shiftr (toInt32 a) (k mod 32).
(** [a << k] *)
Definition shl32 (a k : Z) : Z := toInt32 (Z.shiftl (toInt32 a) (k mod 32)).

(** [Math.ceil(a / b)] for integers [a] and [b].  For [b = 0] the source
    gets an infinity or NaN, which [Z] does not hold; the embedding is
    exact for [b <> 0]. *)
Definition ceil_div (a b : Z) : Z := - ((- a) / b).

(** ** Typed arrays *)

(** What a [Float32Array] needs of its elements: the value a fresh array
    is filled with, and the value that reading outside the array leaves
    once it is stored or computed with. *)
Class Cell (F : Type) : Type := {
  fzero : F;
  fnan : F
}.

(** The floating-point operations the code uses. *)
Class Scalar (F : Type) : Type := {
  scalar_cell :: Cell F;
  of_Z : Z -> F;                 (* an integer used as a number *)
  of_Q : Q -> F;                 (* a decimal literal *)
  fadd : F -> F -> F;
  fsub : F -> F -> F;
  fmul : F -> F -> F;
  fdiv : F -> F -> F;
  fneg : F -> F;
  fcos : F -> F;                 (* [Math.cos] *)
  fsin : F -> F;                 (* [Math.sin] *)
  fsqrt : F -> F;                (* [Math.sqrt] *)
  fpi : F;                       (* [Math.PI] *)
  fneg_infinity : F;             (* [-Infinity] *)
  fmax : F -> F -> F;            (* [Math.max] *)
  fgtb : F -> F -> bool          (* [a > b] *)
}.

(** [dsp.ts]: [Tensor] and [ComplexTensor]. *)
Record Tensor (F : Type) : Type := mkTensor {
  data : list F;
  shape : list Z
}.

Record ComplexTensor (F : Type) : Type := mkComplex {
  real : Tensor F;
  imag : Tensor F
}.

Arguments mkTensor {F} data shape.
Arguments data {F} t.
Arguments shape {F} t.
Arguments mkComplex {F} real imag.
Arguments real {F} c.
Arguments imag {F} c.

(** ** Shapes *)

(** [shape[shape.length - 1]] and its neighbours.  A missing entry is
    [undefined] in the source and is embedded as 0.  This is exact where
    the entry only reaches loop bounds and buffer sizes, where NaN and 0
    act alike (no iteration, empty buffer).  It is not where the entry is
    compared or tested: the constructor of [TensorChunk] compares the
    offset with the last entry and [istft] tests [2 * freqs - 2], so
    their embeddings are exact on shapes that have these entries, and the
    statements about them say so. *)
Definition dim (s : list Z) (i : nat) : Z := nth i s 0.
Definition last_dim (s : list Z) : Z := last s 0.
Definition last_dim2 (s : list Z) : Z := last (removelast s) 0.

(** [shape[shape.length - 1] = v] on a copy of [shape]. *)
Fixpoint set_last (s : list Z) (v : Z) : list Z :=
  match s with
  | [] => []
  | [_] => [v]
  | d :: s' => d :: set_last s' v
  end.

(** [shape[shape.length - 2] = v] on a copy of [shape]. *)
Definition set_last2 (s : list Z) (v : Z) : list Z :=
  match s with
  | [] | [_] => s
  | _ => set_last (removelast s) v ++ [last s 0]
  end.

(** [shape.reduce((a, b) => a * b, 1)] *)
Definition product (s : list Z) : Z := fold_left Z.mul s 1.

(** [a.length !== b.length || !a.every((dim, i) => dim === b[i])], negated. *)
Fixpoint same_shape (a b : list Z) : bool :=
  match a, b with
  | [], [] => true
  | x :: a', y :: b' => (x =? y) && same_shape a' b'
  | _, _ => false
  end.

Inductive PadMode : Type := constant | reflect.

Section Arrays.
Context {F : Type} {CF : Cell F}.

Definition alen (a : list F) : Z := Z.of_nat (length a).

Definition in_range (a : list F) (i : Z) : bool := (0 <=? i) && (i <? alen a).

(** [a[i]]: [undefined] outside the array, which becomes NaN. *)
Definition aget (a : list F) (i : Z) : F :=
  if in_range a i then nth (Z.to_nat i) a fnan else fnan.

(** [a[i] = v]: ignored outside the array. *)
Definition aset (a : list F) (i : Z) (v : F) : list F :=
  if in_range a i
  then firstn (Z.to_nat i) a ++ v :: skipn (S (Z.to_nat i)) a
  else a.

Definition zeros (n : Z) : list F := repeat fzero (Z.to_nat n).

(** [new Float32Array(n)] *)
Definition alloc (n : Z) : result (list F) :=
  if n <? 0 then Throw (RangeError "Invalid typed array length")
  else Ok (zeros n).

(** [a.slice(lo, hi)] for [0 <= lo]. *)
Definition aslice (a : list F) (lo hi : Z) : list F :=
  firstn (Z.to_nat (hi - lo)) (skipn (Z.to_nat lo) a).

(** [new Float32Array(a.buffer, start * 4, n)], for an [a] that fills
    its buffer: the [n] elements from [start] on. *)
Definition aview (a : list F) (start n : Z) : result (list F) :=
  if (start <? 0) || (n <? 0) || (alen a <? start + n)
  then Throw (RangeError "Invalid typed array length")
  else Ok (aslice a start (start + n)).

(** [a.set(src, at)] *)
Definition aset_all (a src : list F) (at_ : Z) : result (list F) :=
  if (at_ <? 0) || (alen a <? at_ + alen src)
  then Throw (RangeError "offset is out of bounds")
  else Ok (for_ 0 (alen src) (fun i a => aset a (at_ + i) (aget src i)) a).

(** [padReflect] of [dsp.ts]. *)
Definition padReflect (arr : list F) (padLeft padRight : Z) : result (list F) :=
  let length := alen arr in
  let newLength := length + padLeft + padRight in
  result0 <- alloc newLength ;;
  (* Copy original data *)
  let result1 :=
    for_ 0 length (fun i result => aset result (padLeft + i) (aget arr i)) result0 in
  (* Reflect left *)
  let result2 :=
    for_ 0 padLeft (fun i result =>
      let srcIdx := padLeft - i in
      aset result i (aget result srcIdx)) result1 in
  (* Reflect right *)
  let result3 :=
    for_ 0 padRight (fun i result =>
      let dstIdx := padLeft + length + i in
      let srcIdx := padLeft + length - 2 - i in
      aset result dstIdx (aget result srcIdx)) result2 in
  Ok result3.

(** [pad1d] of [dsp.ts]; [paddings] is the pair [[left, right]]. *)
Definition pad1d (x : Tensor F) (paddings : Z * Z) (mode : PadMode) : result (Tensor F) :=
  let length := last_dim (shape x) in
  let '(paddingLeft, paddingRight) := paddings in
  (* Handle reflect mode with small input *)
  '(xData, xShape, actualPaddingLeft, actualPaddingRight) <-
    match mode with
    | reflect =>
        let maxPad := Z.max paddingLeft paddingRight in
        if length <=? maxPad then
          let extraPad := maxPad - length + 1 in
          let extraPadRight := Z.min paddingRight extraPad in
          let extraPadLeft := extraPad - extraPadRight in
          (* First pad with zeros *)
          let shape := set_last (shape x) (length + extraPadLeft + extraPadRight) in
          let totalSize := product shape in
          tempData <- alloc totalSize ;;
          let outerSize := totalSize / last_dim shape in
          let newLength := last_dim shape in
          let tempData :=
            for_ 0 outerSize (fun i tempData =>
              for_ 0 length (fun j tempData =>
                aset tempData (i * newLength + extraPadLeft + j) (aget (data x) (i * length + j)))
                tempData) tempData in
          Ok (tempData, shape, paddingLeft - extraPadLeft, paddingRight - extraPadRight)
        else Ok (data x, shape x, paddingLeft, paddingRight)
    | constant => Ok (data x, shape x, paddingLeft, paddingRight)
    end ;;
  let currentLength := last_dim xShape in
  let shape := set_last xShape (currentLength + actualPaddingLeft + actualPaddingRight) in
  let totalSize := product shape in
  out <- alloc totalSize ;;
  let outerSize := totalSize / last_dim shape in
  let outputLength := last_dim shape in
  out <- forM 0 outerSize (fun i out =>
    let srcOffset := i * currentLength in
    let dstOffset := i * outputLength in
    match mode with
    | constant =>
        (* Copy data with zero padding *)
        Ok (for_ 0 currentLength (fun j out =>
              aset out (dstOffset + actualPaddingLeft + j) (aget xData (srcOffset + j))) out)
    | reflect =>
        (* Extract slice for this outer dimension *)
        let slice := aslice xData srcOffset (srcOffset + currentLength) in
        padded <- padReflect slice actualPaddingLeft actualPaddingRight ;;
        Ok (for_ 0 outputLength (fun j out => aset out (dstOffset + j) (aget padded j)) out)
    end) out ;;
  Ok (mkTensor out shape).

(** [magnitude] of [dsp.ts]. *)
Definition magnitude (z : ComplexTensor F) : result (Tensor F) :=
  let s := shape (real z) in
  let B := dim s 0 in let C := dim s 1 in let Fr := dim s 2 in let T := dim s 3 in
  let outShape := [B; C * 2; Fr; T] in
  let outSize := B * C * 2 * Fr * T in
  out <- alloc outSize ;;
  let out :=
    for_ 0 B (fun b out =>
      for_ 0 C (fun c out =>
        for_ 0 Fr (fun fr out =>
          for_ 0 T (fun t out =>
            let srcIdx := b * C * Fr * T + c * Fr * T + fr * T + t in
            (* Real part goes to channel c*2 *)
            let dstIdxReal := b * (C * 2) * Fr * T + c * 2 * Fr * T + fr * T + t in
            let out := aset out dstIdxReal (aget (data (real z)) srcIdx) in
            (* Imag part goes to channel c*2+1 *)
            let dstIdxImag := b * (C * 2) * Fr * T + (c * 2 + 1) * Fr * T + fr * T + t in
            aset out dstIdxImag (aget (data (imag z)) srcIdx)) out) out) out) out in
  Ok (mkTensor out outShape).

(** [padComplex] of [dsp.ts]; [padFreq] and [padTime] are the pairs
    [[left, right]]. *)
Definition padComplex (z : ComplexTensor F) (padFreq padTime : Z * Z)
  : result (ComplexTensor F) :=
  let shape := shape (real z) in
  let '(padFreqLeft, padFreqRight) := padFreq in
  let '(padTimeLeft, padTimeRight) := padTime in
  let oldFreqs := last_dim2 shape in
  let oldFrames := last_dim shape in
  let newFreqs := oldFreqs + padFreqLeft + padFreqRight in
  let newFrames := oldFrames + padTimeLeft + padTimeRight in
  let newShape := set_last (set_last2 shape newFreqs) newFrames in
  let totalSize := product newShape in
  newReal <- alloc totalSize ;;
  newImag <- alloc totalSize ;;
  let outerSize := totalSize / (newFreqs * newFrames) in
  let '(newReal, newImag) :=
    for_ 0 outerSize (fun i acc =>
      for_ 0 oldFreqs (fun freq acc =>
        for_ 0 oldFrames (fun frame '(newReal, newImag) =>
          let oldIdx := i * oldFreqs * oldFrames + freq * oldFrames + frame in
          let newIdx := i * newFreqs * newFrames + (freq + padFreqLeft) * newFrames
                        + (frame + padTimeLeft) in
          (aset newReal newIdx (aget (data (real z)) oldIdx),
           aset newImag newIdx (aget (data (imag z)) oldIdx))) acc) acc)
      (newReal, newImag) in
  Ok (mkComplex (mkTensor newReal newShape) (mkTensor newImag newShape)).

End Arrays.

(** Integer samples, with [None] for NaN: enough to run the code that only
    moves samples around. *)
#[export] Instance Cell_sample : Cell (option Z) := {| fzero := Some 0; fnan := None |}.


(** ** [dsp.ts]: the transform engine *)

Section Dsp.
Context {F : Type} {SF : Scalar F}.

(** [fft] of [dsp.ts]; [imagInput] is [None] for [null]. *)
Definition fft (fuel : nat) (realInput : list F) (imagInput : option (list F))
  : result (list F * list F) :=
  let n := alen realInput in
  (* Check if power of 2 *)
  if negb (and32 n (n - 1) =? 0) then Throw (Error "FFT size must be power of 2") else
  let real := realInput in
  imag <- match imagInput with
          | Some imagInput => Ok imagInput
          | None => alloc n
          end ;;
  (* Bit-reversal permutation *)
  '(real, imag, j) <-
    forM 0 (n - 1) (fun i '(real, imag, j) =>
      let '(real, imag) :=
        if i <? j then
          (aset (aset real i (aget real j)) j (aget real i),
           aset (aset imag i (aget imag j)) j (aget imag i))
        else (real, imag) in
      '(j, k) <- while_ fuel (fun '(j, k) => k <=? j)
                   (fun '(j, k) => Ok (j - k, sar32 k 1)) (j, sar32 n 1) ;;
      Ok (real, imag, j + k)) (real, imag, 0) ;;
  (* Cooley-Tukey decimation-in-time *)
  '(real, imag, _) <-
    while_ fuel (fun '(_, _, len) => len <=? n)
      (fun '(real, imag, len) =>
        let halfLen := sar32 len 1 in
        let angle := fdiv (fmul (of_Z (-2)) fpi) (of_Z len) in
        '(real, imag, _) <-
          while_ fuel (fun '(_, _, i) => i <? n)
            (fun '(real, imag, i) =>
              let '(real, imag, _, _) :=
                for_ 0 halfLen (fun j '(real, imag, wr, wi) =>
                  let k := i + j in
                  let l := k + halfLen in
                  let tr := fsub (fmul wr (aget real l)) (fmul wi (aget imag l)) in
                  let ti := fadd (fmul wr (aget imag l)) (fmul wi (aget real l)) in
                  let real := aset real l (fsub (aget real k) tr) in
                  let imag := aset imag l (fsub (aget imag k) ti) in
                  let real := aset real k (fadd (aget real k) tr) in
                  let imag := aset imag k (fadd (aget imag k) ti) in
                  let wtemp := wr in
                  let wr := fsub (fmul wtemp (fcos angle)) (fmul wi (fsin angle)) in
                  let wi := fadd (fmul wtemp (fsin angle)) (fmul wi (fcos angle)) in
                  (real, imag, wr, wi)) (real, imag, of_Z 1, of_Z 0) in
              Ok (real, imag, i + len)) (real, imag, 0) ;;
        Ok (real, imag, shl32 len 1)) (real, imag, 2) ;;
  Ok (real, imag).

(** [ifft] of [dsp.ts]. *)
Definition ifft (fuel : nat) (realInput imagInput : list F) : result (list F * list F) :=
  let n := alen realInput in
  (* Conjugate input *)
  imagConj <- alloc n ;;
  let imagConj := for_ 0 n (fun i imagConj => aset imagConj i (fneg (aget imagInput i))) imagConj in
  (* Forward FFT *)
  '(real, imag) <- fft fuel realInput (Some imagConj) ;;
  (* Conjugate and normalize output *)
  Ok (for_ 0 n (fun i '(real, imag) =>
        let real := aset real i (fdiv (aget real i) (of_Z n)) in
        let imag := aset imag i (fdiv (fneg (aget imag i)) (of_Z n)) in
        (real, imag)) (real, imag)).

(** [hannWindow] of [dsp.ts]. *)
Definition hannWindow (n : Z) : result (list F) :=
  window <- alloc n ;;
  Ok (for_ 0 n (fun i window =>
        aset window i
          (fmul (of_Q 0.5)
             (fsub (of_Z 1) (fcos (fdiv (fmul (fmul (of_Z 2) fpi) (of_Z i)) (of_Z n))))))
        window).

(** [stft] of [dsp.ts].  [numFrames] is exact for [hopLength <> 0]; for 0
    the source gets NaN or an infinity, which [Z] does not hold. *)
Definition stft (fuel : nat) (x : Tensor F) (nFft hopLength : Z) (window : list F)
    (normalized center : bool) (padMode : PadMode) : result (ComplexTensor F) :=
  let batch := dim (shape x) 0 in
  let length := dim (shape x) 1 in
  (* Center padding *)
  '(inputData, inputLength) <-
    (if center then
       let pad := nFft / 2 in
       padded <- pad1d x (pad, pad) padMode ;;
       Ok (data padded, last_dim (shape padded))
     else Ok (data x, length)) ;;
  (* Calculate number of frames *)
  let numFrames := (inputLength - nFft) / hopLength + 1 in
  let numFreqs := nFft / 2 + 1 in
  realOut <- alloc (batch * numFreqs * numFrames) ;;
  imagOut <- alloc (batch * numFreqs * numFrames) ;;
  (* Normalization factor *)
  let norm := if normalized then fdiv (of_Z 1) (fsqrt (of_Z nFft)) else of_Z 1 in
  '(realOut, imagOut) <-
    forM 0 batch (fun b acc =>
      forM 0 numFrames (fun frame '(realOut, imagOut) =>
        let frameStart := frame * hopLength in
        (* Apply window and prepare for FFT *)
        frameData <- alloc nFft ;;
        let frameData :=
          for_ 0 nFft (fun i frameData =>
            let idx := b * inputLength + frameStart + i in
            aset frameData i (fmul (fmul (aget inputData idx) (aget window i)) norm))
            frameData in
        (* Compute FFT *)
        '(real, imag) <- fft fuel frameData None ;;
        (* Store only positive frequencies (up to Nyquist) *)
        Ok (for_ 0 numFreqs (fun freq '(realOut, imagOut) =>
              let outIdx := b * numFreqs * numFrames + freq * numFrames + frame in
              (aset realOut outIdx (aget real freq), aset imagOut outIdx (aget imag freq)))
              (realOut, imagOut))) acc)
      (realOut, imagOut) ;;
  Ok (mkComplex (mkTensor realOut [batch; numFreqs; numFrames])
                (mkTensor imagOut [batch; numFreqs; numFrames])).

(** [spectro] of [dsp.ts]; [hopLength] is [None] for [null]. *)
Definition spectro (fuel : nat) (x : Tensor F) (nFft : Z) (hopLength : option Z)
  : result (ComplexTensor F) :=
  let hopLength := match hopLength with Some h => h | None => nFft / 4 end in
  let originalShape := shape x in
  let length := last_dim originalShape in
  (* Reshape to [batch, length] *)
  let otherSize := alen (data x) / length in
  let reshapedX := mkTensor (data x) [otherSize; length] in
  window <- hannWindow nFft ;;
  result <- stft fuel reshapedX nFft hopLength window true true reflect ;;
  (* Reshape back to [..., freqs, frames] *)
  let freqs := dim (shape (real result)) 1 in
  let frames := dim (shape (real result)) 2 in
  let outputShape := removelast originalShape ++ [freqs; frames] in
  Ok (mkComplex (mkTensor (data (real result)) outputShape)
                (mkTensor (data (imag result)) outputShape)).

(** [spec] of [dsp.ts]. *)
Definition spec (fuel : nat) (x : Tensor F) : result (ComplexTensor F) :=
  let hl := 1024 in
  let lastDimLength := last_dim (shape x) in
  let le := ceil_div lastDimLength hl in
  let pad := hl / 2 * 3 in
  (* Pad input *)
  let paddingRight := pad + le * hl - lastDimLength in
  paddedX <- pad1d x (pad, paddingRight) reflect ;;
  (* Compute spectrogram *)
  z <- spectro fuel paddedX 4096 (Some hl) ;;
  (* z[..., :-1, :] - remove last frequency bin *)
  let zShape := shape (real z) in
  let newFreqs := last_dim2 zShape - 1 in
  let frames := last_dim zShape in
  let outerSize := alen (data (real z)) / (last_dim2 zShape * frames) in
  let newShape := set_last2 zShape newFreqs in
  let newSize := product newShape in
  newReal <- alloc newSize ;;
  newImag <- alloc newSize ;;
  let '(newReal, newImag) :=
    for_ 0 outerSize (fun i acc =>
      for_ 0 newFreqs (fun freq acc =>
        for_ 0 frames (fun frame '(newReal, newImag) =>
          let oldIdx := i * last_dim2 zShape * frames + freq * frames + frame in
          let newIdx := i * newFreqs * frames + freq * frames + frame in
          (aset newReal newIdx (aget (data (real z)) oldIdx),
           aset newImag newIdx (aget (data (imag z)) oldIdx))) acc) acc)
      (newReal, newImag) in
  (* z[..., 2:2+le] - slice frames *)
  let slicedShape := set_last newShape le in
  let slicedSize := product slicedShape in
  slicedReal <- alloc slicedSize ;;
  slicedImag <- alloc slicedSize ;;
  let '(slicedReal, slicedImag) :=
    for_ 0 outerSize (fun i acc =>
      for_ 0 newFreqs (fun freq acc =>
        for_ 0 le (fun frame '(slicedReal, slicedImag) =>
          let srcIdx := i * newFreqs * frames + freq * frames + (2 + frame) in
          let dstIdx := i * newFreqs * le + freq * le + frame in
          (aset slicedReal dstIdx (aget newReal srcIdx),
           aset slicedImag dstIdx (aget newImag srcIdx))) acc) acc)
      (slicedReal, slicedImag) in
  Ok (mkComplex (mkTensor slicedReal slicedShape) (mkTensor slicedImag slicedShape)).

(** [istft] of [dsp.ts]; [length] is [None] for [null].  Exact for an
    input with the three dimensions the source destructures. *)
Definition istft (fuel : nat) (z : ComplexTensor F) (nFft hopLength : Z) (window : list F)
    (normalized : bool) (length : option Z) (center : bool) : result (Tensor F) :=
  let batch := dim (shape (real z)) 0 in
  let freqs := dim (shape (real z)) 1 in
  let numFrames := dim (shape (real z)) 2 in
  if negb (2 * freqs - 2 =? nFft) then Throw (Error "Expected freqs = nFft/2 + 1") else
  (* Calculate output length *)
  let outputLength :=
    match length with
    | Some length => length
    | None => nFft + (numFrames - 1) * hopLength
    end in
  (* Account for center padding *)
  let outputLength := if center then outputLength - nFft else outputLength in
  (* Initialize output *)
  output <- alloc (batch * outputLength) ;;
  windowSum <- alloc (batch * outputLength) ;;
  (* Normalization factor *)
  let norm := if normalized then fsqrt (of_Z nFft) else of_Z 1 in
  '(output, windowSum) <-
    forM 0 batch (fun b acc =>
      forM 0 numFrames (fun frame '(output, windowSum) =>
        (* Reconstruct full FFT spectrum (including negative frequencies) *)
        fullReal <- alloc nFft ;;
        fullImag <- alloc nFft ;;
        (* Positive frequencies (0 to Nyquist) *)
        let '(fullReal, fullImag) :=
          for_ 0 freqs (fun freq '(fullReal, fullImag) =>
            let idx := b * freqs * numFrames + freq * numFrames + frame in
            (aset fullReal freq (aget (data (real z)) idx),
             aset fullImag freq (aget (data (imag z)) idx))) (fullReal, fullImag) in
        (* Negative frequencies (conjugate symmetry) *)
        let '(fullReal, fullImag) :=
          for_ freqs nFft (fun freq '(fullReal, fullImag) =>
            let mirrorFreq := nFft - freq in
            (aset fullReal freq (aget fullReal mirrorFreq),
             aset fullImag freq (fneg (aget fullImag mirrorFreq)))) (fullReal, fullImag) in
        (* Inverse FFT *)
        '(frameReal, _) <- ifft fuel fullReal fullImag ;;
        (* Apply window and overlap-add *)
        let frameStart := frame * hopLength - (if center then nFft / 2 else 0) in
        Ok (for_ 0 nFft (fun i '(output, windowSum) =>
              let outputIdx := frameStart + i in
              if (0 <=? outputIdx) && (outputIdx <? outputLength) then
                let globalIdx := b * outputLength + outputIdx in
                (aset output globalIdx
                   (fadd (aget output globalIdx)
                      (fmul (fmul (aget frameReal i) (aget window i)) norm)),
                 aset windowSum globalIdx
                   (fadd (aget windowSum globalIdx) (fmul (aget window i) (aget window i))))
              else (output, windowSum)) (output, windowSum))) acc)
      (output, windowSum) ;;
  (* Normalize by window sum *)
  let output :=
    for_ 0 (alen output) (fun i output =>
      if fgtb (aget windowSum i) (of_Q 1e-8)
      then aset output i (fdiv (aget output i) (aget windowSum i))
      else output) output in
  Ok (mkTensor output [batch; outputLength]).

(** [ispectro] of [dsp.ts]; [hopLength] and [length] are [None] for [null]. *)
Definition ispectro (fuel : nat) (z : ComplexTensor F) (hopLength length : option Z)
  : result (Tensor F) :=
  let originalShape := shape (real z) in
  let freqs := last_dim2 originalShape in
  let frames := last_dim originalShape in
  let nFft := 2 * freqs - 2 in
  let hopLength := match hopLength with Some h => h | None => nFft / 4 end in
  (* Reshape to [batch, freqs, frames] *)
  let otherSize := alen (data (real z)) / (freqs * frames) in
  let reshapedZ :=
    mkComplex (mkTensor (data (real z)) [otherSize; freqs; frames])
              (mkTensor (data (imag z)) [otherSize; freqs; frames]) in
  window <- hannWindow nFft ;;
  result <- istft fuel reshapedZ nFft hopLength window true length true ;;
  (* Reshape back to [..., length] *)
  let outputLength := dim (shape result) 1 in
  let outputShape := removelast (removelast originalShape) ++ [outputLength] in
  Ok (mkTensor (data result) outputShape).

(** [ispec] of [dsp.ts]. *)
Definition ispec (fuel : nat) (z : ComplexTensor F) (length : Z) : result (Tensor F) :=
  let hl := 1024 in
  (* pad frequency dimension by 1 on the right *)
  paddedZ <- padComplex z (0, 1) (0, 0) ;;
  (* pad time dimension by 2 on each side *)
  paddedZ <- padComplex paddedZ (0, 0) (2, 2) ;;
  (* Compute parameters *)
  let pad := hl / 2 * 3 in
  let le := hl * ceil_div length hl + 2 * pad in
  (* Inverse spectrogram *)
  x <- ispectro fuel paddedZ (Some hl) (Some le) ;;
  (* Crop to desired length: x[..., pad: pad + length] *)
  let shape := shape x in
  let totalLength := last_dim shape in
  let newShape := set_last shape length in
  let totalSize := product newShape in
  newData <- alloc totalSize ;;
  let outerSize := totalSize / length in
  let newData :=
    for_ 0 outerSize (fun i newData =>
      for_ 0 length (fun j newData =>
        let oldIdx := i * totalLength + pad + j in
        let newIdx := i * length + j in
        aset newData newIdx (aget (data x) oldIdx)) newData) newData in
  Ok (mkTensor newData newShape).

End Dsp.

(** ** [apply.ts]: chunks *)

(** [class TensorChunk] *)
Module TensorChunk.

Record t (F : Type) : Type := mk {
  tensor : Tensor F;
  offset : Z;
  length : Z
}.

Arguments mk {F} tensor offset length.
Arguments tensor {F} t.
Arguments offset {F} t.
Arguments length {F} t.

Section Methods.
Context {F : Type} {CF : Cell F}.

(** [constructor(tensor, offset, length)]; [length] is [None] for
    [null].  Exact for a tensor with a last dimension: without one the
    source compares with [undefined] and makes a chunk of length NaN. *)
Definition new (tensor : Tensor F) (offset : Z) (length : option Z) : result (t F) :=
  let totalLength := last_dim (shape tensor) in
  if offset <? 0 then Throw (Error "offset must be >= 0") else
  if offset >=? totalLength then Throw (Error "offset must be < totalLength") else
  let length :=
    match length with
    | None => totalLength - offset
    | Some length => Z.min (totalLength - offset) length
    end in
  Ok (mk tensor offset length).

(** [padded(targetLength)] *)
Definition padded (this : t F) (targetLength : Z) : result (Tensor F) :=
  let delta := targetLength - length this in
  let totalLength := last_dim (shape (tensor this)) in
  if delta <? 0 then Throw (Error "targetLength must be >= length") else
  let start := offset this - delta / 2 in
  let end_ := start + targetLength in
  let correctStart := Z.max 0 start in
  let correctEnd := Z.min totalLength end_ in
  let padLeft := correctStart - start in
  let padRight := end_ - correctEnd in
  let shape := set_last (shape (tensor this)) targetLength in
  (* Calculate total size *)
  let totalSize := product shape in
  out <- alloc totalSize ;;
  (* Copy sliced data with padding *)
  let sliceLength := correctEnd - correctStart in
  let innerSize := last_dim shape in
  let outerSize := totalSize / innerSize in
  let out :=
    for_ 0 outerSize (fun i out =>
      let srcOffset := i * totalLength + correctStart in
      let dstOffset := i * innerSize + padLeft in
      (* Copy the valid slice *)
      for_ 0 sliceLength (fun j out =>
        aset out (dstOffset + j) (aget (data (tensor this)) (srcOffset + j))) out) out in
  if negb (alen out =? totalSize) then Throw (Error "Output size mismatch") else
  Ok (mkTensor out shape).

End Methods.
End TensorChunk.

Section Chunks.
Context {F : Type} {CF : Cell F}.

(** [padToTrainingLength] of [apply.ts]. *)
Definition padToTrainingLength (mix : Tensor F) (trainingLength : Z) : result (Tensor F) :=
  let currentLength := last_dim (shape mix) in
  if currentLength >=? trainingLength then Ok mix else
  let shape := set_last (shape mix) trainingLength in
  let totalSize := product shape in
  out <- alloc totalSize ;;
  let outerSize := totalSize / trainingLength in
  let out :=
    for_ 0 outerSize (fun i out =>
      let srcOffset := i * currentLength in
      let dstOffset := i * trainingLength in
      for_ 0 currentLength (fun j out =>
        aset out (dstOffset + j) (aget (data mix) (srcOffset + j))) out) out in
  Ok (mkTensor out shape).

(** [mask] of [apply.ts].  [C / 2] is exact for the even [C] the
    function is written for. *)
Definition mask (m : Tensor F) : result (ComplexTensor F) :=
  let s := shape m in
  let B := dim s 0 in let S := dim s 1 in let C := dim s 2 in
  let Fr := dim s 3 in let T := dim s 4 in
  let C_half := C / 2 in
  let outShape := [B; S; C_half; Fr; T] in
  let outSize := product outShape in
  realOut <- alloc outSize ;;
  imagOut <- alloc outSize ;;
  let '(realOut, imagOut) :=
    for_ 0 B (fun b acc =>
      for_ 0 S (fun s acc =>
        for_ 0 C_half (fun c acc =>
          for_ 0 Fr (fun fr acc =>
            for_ 0 T (fun t '(realOut, imagOut) =>
              (* Input indices for real and imag channels *)
              let realChannel := c * 2 in
              let imagChannel := c * 2 + 1 in
              let realInIdx := b * S * C * Fr * T + s * C * Fr * T + realChannel * Fr * T
                               + fr * T + t in
              let imagInIdx := b * S * C * Fr * T + s * C * Fr * T + imagChannel * Fr * T
                               + fr * T + t in
              (* Output index *)
              let outIdx := b * S * C_half * Fr * T + s * C_half * Fr * T + c * Fr * T
                            + fr * T + t in
              (aset realOut outIdx (aget (data m) realInIdx),
               aset imagOut outIdx (aget (data m) imagInIdx))) acc) acc) acc) acc)
      (realOut, imagOut) in
  Ok (mkComplex (mkTensor realOut outShape) (mkTensor imagOut outShape)).

(** [cropToValidLength] of [apply.ts]. *)
Definition cropToValidLength (x : Tensor F) (validLength : Z) : result (Tensor F) :=
  let shape := shape x in
  let currentLength := last_dim shape in
  if validLength >=? currentLength then Ok x else
  let newShape := set_last shape validLength in
  let totalSize := product newShape in
  out <- alloc totalSize ;;
  let outerSize := totalSize / validLength in
  let out :=
    for_ 0 outerSize (fun i out =>
      for_ 0 validLength (fun j out =>
        let srcIdx := i * currentLength + j in
        let dstIdx := i * validLength + j in
        aset out dstIdx (aget (data x) srcIdx)) out) out in
  Ok (mkTensor out newShape).

(** [centerTrim] of [apply.ts]. *)
Definition centerTrim (tensor : Tensor F) (reference : Z) : result (Tensor F) :=
  let tensorLength := last_dim (shape tensor) in
  let refSize := reference in
  let delta := tensorLength - refSize in
  if delta <? 0 then Throw (Error "tensor must be larger than reference") else
  if delta =? 0 then Ok tensor else
  (* Calculate trim indices *)
  let start := delta / 2 in
  let end_ := tensorLength - (delta - delta / 2) in
  let newLength := end_ - start in
  let shape := set_last (shape tensor) newLength in
  let totalSize := product shape in
  out <- alloc totalSize ;;
  let outerSize := totalSize / newLength in
  let out :=
    for_ 0 outerSize (fun i out =>
      for_ 0 newLength (fun j out =>
        let srcIdx := i * tensorLength + start + j in
        let dstIdx := i * newLength + j in
        aset out dstIdx (aget (data tensor) srcIdx)) out) out in
  Ok (mkTensor out shape).

End Chunks.

(** ** The model and the orchestrators *)

(** [class ONNXHTDemucs] of [onnx-htdemucs.ts], as [apply.ts] uses it.
    [session] stands for the ONNX runtime session behind [forward]: given
    the two input tensors it yields the two output tensors or fails. *)
Record ONNXHTDemucs (F : Type) : Type := mkModel {
  sources : list string;
  audioChannels : Z;
  samplerate : Q;
  segment : Q;
  session : Tensor F -> Tensor F -> result (Tensor F * Tensor F)
}.

Arguments mkModel {F} sources audioChannels samplerate segment session.
Arguments sources {F} o.
Arguments audioChannels {F} o.
Arguments samplerate {F} o.
Arguments segment {F} o.
Arguments session {F} o.

(** [model.sources], for where a local [sources] hides the field. *)
Definition model_sources {F : Type} (model : ONNXHTDemucs F) : list string := sources model.

(** The field initialisers of the class. *)
Definition ONNXHTDemucs_init {F : Type}
    (session : Tensor F -> Tensor F -> result (Tensor F * Tensor F)) : ONNXHTDemucs F :=
  mkModel ["drums"; "bass"; "other"; "vocals"]%string 2 44100%Q 7.8%Q session.

(** [ONNXHTDemucs.validLength] *)
Definition validLength {F : Type} (this : ONNXHTDemucs F) (length : Z) : result Z :=
  let trainingLength := Qfloor (segment this * samplerate this) in
  if trainingLength <? length
  then Throw (Error "Given length is longer than training length")
  else Ok trainingLength.

(** [ONNXHTDemucs.forward]: the tensors go to the session and come back
    as [{ data, shape }] pairs. *)
Definition forward {F : Type} (this : ONNXHTDemucs F) (mix magspec : Tensor F)
  : result (Tensor F * Tensor F) :=
  '(outX, outXt) <- session this mix magspec ;;
  Ok (mkTensor (data outX) (shape outX), mkTensor (data outXt) (shape outXt)).

(** [RawAudio] of [wav-utils.ts]. *)
Record RawAudio (F : Type) : Type := mkRawAudio {
  channelData : list (list F);
  sampleRate : Z
}.

Arguments mkRawAudio {F} channelData sampleRate.
Arguments channelData {F} r.
Arguments sampleRate {F} r.

(** [tracks[name] = v] on an object used as a map, in insertion order. *)
Fixpoint assoc_set {V : Type} (name : string) (v : V) (tracks : list (string * V))
  : list (string * V) :=
  match tracks with
  | [] => [(name, v)]
  | (name', v') :: rest =>
      if String.eqb name name' then (name, v) :: rest
      else (name', v') :: assoc_set name v rest
  end.

Section Apply.
Context {F : Type} {SF : Scalar F}.

(** [planarize] of [wav-utils.ts].  Typed-array buffers are not part of
    the embedding: where the channels are consecutive views of one
    buffer the source returns a view over all of them, which holds the
    same samples as the copy made here. *)
Definition planarize (channelData : list (list F)) : result (list F) :=
  let channels := alen channelData in
  match channelData with
  | [] => Throw (TypeError "Cannot read properties of undefined")
  | channel0 :: _ =>
      let samples := alen channel0 in
      if channels =? 1 then Ok channel0 else
      data <- alloc (channels * samples) ;;
      forM 0 channels (fun c data =>
        aset_all data (nth (Z.to_nat c) channelData []) (c * samples)) data
  end.

(** [addTensors] of [apply.ts]. *)
Definition addTensors (a b : Tensor F) : result (Tensor F) :=
  (* Verify shapes match *)
  if negb (same_shape (shape a) (shape b))
  then Throw (Error "Tensor shapes must match for addition") else
  out <- alloc (alen (data a)) ;;
  let out :=
    for_ 0 (alen (data a)) (fun i out =>
      aset out i (fadd (aget (data a) i) (aget (data b) i))) out in
  Ok (mkTensor out (shape a)).

(** [applyInference] of [apply.ts]; the awaited call is made in place. *)
Definition applyInference (fuel : nat) (model : ONNXHTDemucs F) (mix : TensorChunk.t F)
  : result (Tensor F) :=
  let length := TensorChunk.length mix in
  validLength <- validLength model length ;;
  paddedMix <- TensorChunk.padded mix validLength ;;
  let trainingLength := Qfloor (segment model * samplerate model) in
  (* Pad to training length *)
  paddedPaddedMix <- padToTrainingLength paddedMix trainingLength ;;
  (* Compute spectrogram *)
  z <- spec fuel paddedPaddedMix ;;
  (* Compute magnitude spectrogram *)
  magspec <- magnitude z ;;
  (* Run model forward *)
  '(outX, outXt) <- forward model paddedMix magspec ;;
  (* Convert mask to complex *)
  zout <- mask outX ;;
  (* Inverse spectrogram *)
  timeFromSpec <- ispec fuel zout trainingLength ;;
  (* Add time and frequency branches *)
  sumBeforeCrop <- addTensors outXt timeFromSpec ;;
  (* Crop to valid length *)
  out <- cropToValidLength sumBeforeCrop validLength ;;
  (* Center trim to original chunk length *)
  centerTrim out length.

End Apply.

(** What [applySplits] needs of its numbers beyond [Scalar]. *)
Class Floor (F : Type) : Type := {
  floor_scalar :: Scalar F;
  ffloor : F -> Z                (* [Math.floor], of a finite number *)
}.

Section Splits.
Context {F : Type} {FF : Floor F}.

(** The triangle-shaped weight of [applySplits]. *)
Definition applySplits_weight (segment : Z) : result (list F) :=
  weight <- alloc segment ;;
  let weight := for_ 0 (segment / 2 + 1) (fun i weight => aset weight i (of_Z (i + 1))) weight in
  let weight :=
    for_ (segment / 2 + 1) segment (fun i weight => aset weight i (of_Z (segment - i))) weight in
  let maxWeight := fold_left (fun max current => fmax max current) weight fneg_infinity in
  let weight :=
    for_ 0 segment (fun i weight => aset weight i (fdiv (aget weight i) maxWeight)) weight in
  Ok weight.

(** The variables of the chunk loop of [applySplits]: [outData],
    [sumWeight], [offset], [chunkIndex], and the calls made to
    [progressCallback] so far, in order, as [(step, total)] pairs. *)
Definition chunk_state : Type := (list F * list F * Z * Z * list (Z * Z))%type.

(** One turn of the chunk loop of [applySplits]. *)
Definition applySplits_chunk (fuel : nat) (model : ONNXHTDemucs F) (mix : Tensor F)
    (segment stride total : Z) (weight : list F) : chunk_state -> result chunk_state :=
  fun '(outData, sumWeight, offset, chunkIndex, calls) =>
    let batch := dim (shape mix) 0 in
    let channels := dim (shape mix) 1 in
    let length := dim (shape mix) 2 in
    let sources := alen (sources model) in
    chunk <- TensorChunk.new mix offset (Some segment) ;;
    chunkOut <- applyInference fuel model chunk ;;
    let chunkLength := last_dim (shape chunkOut) in
    (* Add weighted chunk to output *)
    let outData :=
      for_ 0 batch (fun b outData =>
        for_ 0 sources (fun s outData =>
          for_ 0 channels (fun c outData =>
            for_ 0 chunkLength (fun t outData =>
              let outIdx := b * sources * channels * length + s * channels * length
                            + c * length + offset + t in
              let chunkIdx := b * sources * channels * chunkLength
                              + s * channels * chunkLength + c * chunkLength + t in
              aset outData outIdx
                (fadd (aget outData outIdx)
                   (fmul (aget weight t) (aget (data chunkOut) chunkIdx))))
              outData) outData) outData) outData in
    (* Add weights *)
    let sumWeight :=
      for_ 0 chunkLength (fun t sumWeight =>
        aset sumWeight (offset + t) (fadd (aget sumWeight (offset + t)) (aget weight t)))
        sumWeight in
    let offset := offset + stride in
    let chunkIndex := chunkIndex + 1 in
    Ok (outData, sumWeight, offset, chunkIndex, calls ++ [(chunkIndex, total)]).

(** [applySplits] up to the end of its chunk loop: [outData],
    [sumWeight] and the calls made to [progressCallback].  [segment] is
    the floor of the exact product, which is the floor of the rounded
    one for the 44100 and 7.8 of the class; [total] is exact for a
    [stride] other than 0. *)
Definition applySplits_chunks (fuel : nat) (model : ONNXHTDemucs F) (mix : Tensor F)
    (overlap : F) : result (list F * list F * list (Z * Z)) :=
  let batch := dim (shape mix) 0 in
  let channels := dim (shape mix) 1 in
  let length := dim (shape mix) 2 in
  (* Initialize output arrays *)
  let sources := alen (sources model) in
  outData <- alloc (batch * sources * channels * length) ;;
  sumWeight <- alloc length ;;
  let segment := Qfloor (samplerate model * segment model) in
  let stride := ffloor (fmul (fsub (of_Z 1) overlap) (of_Z segment)) in
  (* Create triangle-shaped weight for smooth transitions *)
  weight <- applySplits_weight segment ;;
  let total := ceil_div length stride in
  let calls := [(0, total)] in
  (* Process each chunk *)
  '(outData, sumWeight, _, _, calls) <-
    while_ fuel (fun '(_, _, offset, _, _) => offset <? length)
      (applySplits_chunk fuel model mix segment stride total weight)
      (outData, sumWeight, 0, 0, calls) ;;
  Ok (outData, sumWeight, calls).

(** [applySplits] of [apply.ts]: the result, and the calls made to
    [progressCallback]. *)
Definition applySplits (fuel : nat) (model : ONNXHTDemucs F) (mix : Tensor F) (overlap : F)
  : result (Tensor F * list (Z * Z)) :=
  let batch := dim (shape mix) 0 in
  let channels := dim (shape mix) 1 in
  let length := dim (shape mix) 2 in
  let sources := alen (sources model) in
  '(outData, sumWeight, calls) <- applySplits_chunks fuel model mix overlap ;;
  (* Normalize by sum of weights *)
  let outData :=
    for_ 0 (alen outData) (fun i outData =>
      let timeIdx := Z.rem i length in
      aset outData i (fdiv (aget outData i) (aget sumWeight timeIdx))) outData in
  Ok (mkTensor outData [batch; sources; channels; length], calls).

(** [applyModel] of [apply.ts]. *)
Definition applyModel (fuel : nat) (model : ONNXHTDemucs F) (mix : Tensor F) (overlap : F)
  : result (Tensor F * list (Z * Z)) :=
  applySplits fuel model mix overlap.

(** [separateTracks] of [apply.ts]: the tracks by source name, and the
    calls made to [progressCallback].  The default of [overlap] is
    [of_Q 0.25]. *)
Definition separateTracks (fuel : nat) (model : ONNXHTDemucs F) (rawAudio : RawAudio F)
    (overlap : F) : result (list (string * RawAudio F) * list (Z * Z)) :=
  let channels := alen (channelData rawAudio) in
  match channelData rawAudio with
  | [] => Throw (TypeError "Cannot read properties of undefined")
  | channel0 :: _ =>
      let samples := alen channel0 in
      data_ <- planarize (channelData rawAudio) ;;
      let mix := mkTensor data_ [1; channels; samples] in
      '(result, calls) <- applyModel fuel model mix overlap ;;
      let sources := dim (shape result) 1 in
      let length := dim (shape result) 3 in
      (* Extract each source *)
      tracks <-
        forM 0 sources (fun s tracks =>
          let sourceName := nth (Z.to_nat s) (model_sources model) "undefined"%string in
          channelData <-
            forM 0 channels (fun c channelData =>
              let startIdx := s * channels * length + c * length in
              channelArray <- aview (data result) startIdx length ;;
              Ok (channelData ++ [channelArray])) [] ;;
          Ok (assoc_set sourceName (mkRawAudio channelData (sampleRate rawAudio)) tracks))
          [] ;;
      Ok (tracks, calls)
  end.

End Splits.

(** ** [wav-utils.ts]: WAV files *)

(** What the WAV code needs of its samples beyond [Scalar]. *)
Class Pcm (F : Type) : Type := {
  pcm_scalar :: Scalar F;
  fmin : F -> F -> F;            (* [Math.min] *)
  fround : F -> F;               (* [Math.round] *)
  to_integer : F -> Z;           (* the integer an integer setter of a [DataView] makes
                                    of a number: its integral part, 0 for NaN and the
                                    infinities *)
  float32_bits : F -> Z;         (* the 32 bits that [setFloat32] writes *)
  of_float32_bits : Z -> F;      (* the number that [getFloat32] reads *)
  of_float64_bits : Z -> F       (* the number that [getFloat64] reads *)
}.

(** A [Uint8Array] is the list of its bytes. *)
Definition blen (buffer : list Z) : Z := Z.of_nat (List.length buffer).

Definition bzeros (n : Z) : list Z := repeat 0 (Z.to_nat n).

(** [buffer[i]]: [None] is [undefined]. *)
Definition bget (buffer : list Z) (i : Z) : option Z :=
  if (0 <=? i) && (i <? blen buffer) then nth_error buffer (Z.to_nat i) else None.

(** [buffer[i] = v]: ignored outside the array. *)
Definition bset (buffer : list Z) (i v : Z) : list Z :=
  if (0 <=? i) && (i <? blen buffer)
  then firstn (Z.to_nat i) buffer ++ v mod 256 :: skipn (S (Z.to_nat i)) buffer
  else buffer.

(** [str.charCodeAt(i)], for [i] inside the string. *)
Definition charCodeAt (str : string) (i : Z) : Z :=
  match String.get (Z.to_nat i) str with
  | Some c => Z.of_nat (Ascii.nat_of_ascii c)
  | None => 0
  end.

(** [String.fromCharCode(b)] for a byte or [undefined]. *)
Definition fromCharCode (b : option Z) : string :=
  String (Ascii.ascii_of_nat (Z.to_nat (match b with Some b => b | None => 0 end)))
         EmptyString.

(** Little-endian bytes of the low [8 * n] bits of [v], and back. *)
Fixpoint le_bytes (n : nat) (v : Z) : list Z :=
  match n with
  | O => []
  | S n => v mod 256 :: le_bytes n (v / 256)
  end.

Fixpoint le_value (bytes : list Z) : Z :=
  match bytes with
  | [] => 0
  | b :: bytes => b + 256 * le_value bytes
  end.

(** A two's complement reading of [bits] bits. *)
Definition signed (bits v : Z) : Z := if v <? 2 ^ (bits - 1) then v else v - 2 ^ bits.

(** The accessors of a [DataView] over the whole array, little-endian. *)
Definition view_get (buffer : list Z) (offset : Z) (n : nat) : result Z :=
  if (offset <? 0) || (blen buffer <? offset + Z.of_nat n)
  then Throw (RangeError "Offset is outside the bounds of the DataView")
  else Ok (le_value (firstn n (skipn (Z.to_nat offset) buffer))).

Definition view_set (buffer : list Z) (offset : Z) (n : nat) (v : Z) : result (list Z) :=
  if (offset <? 0) || (blen buffer <? offset + Z.of_nat n)
  then Throw (RangeError "Offset is outside the bounds of the DataView")
  else Ok (firstn (Z.to_nat offset) buffer ++ le_bytes n v
           ++ skipn (Z.to_nat offset + n) buffer).

Definition getUint16 (buffer : list Z) (offset : Z) : result Z := view_get buffer offset 2.
Definition getUint32 (buffer : list Z) (offset : Z) : result Z := view_get buffer offset 4.

Definition getInt16 (buffer : list Z) (offset : Z) : result Z :=
  v <- view_get buffer offset 2 ;; Ok (signed 16 v).

Definition getInt32 (buffer : list Z) (offset : Z) : result Z :=
  v <- view_get buffer offset 4 ;; Ok (signed 32 v).

Definition setUint16 (buffer : list Z) (offset v : Z) : result (list Z) :=
  view_set buffer offset 2 v.

Definition setUint32 (buffer : list Z) (offset v : Z) : result (list Z) :=
  view_set buffer offset 4 v.

Section Wav.
Context {F : Type} {PF : Pcm F}.

Definition setInt16 (buffer : list Z) (offset : Z) (v : F) : result (list Z) :=
  view_set buffer offset 2 (to_integer v).

Definition setFloat32 (buffer : list Z) (offset : Z) (v : F) : result (list Z) :=
  view_set buffer offset 4 (float32_bits v).

Definition getFloat32 (buffer : list Z) (offset : Z) : result F :=
  v <- view_get buffer offset 4 ;; Ok (of_float32_bits v).

Definition getFloat64 (buffer : list Z) (offset : Z) : result F :=
  v <- view_get buffer offset 8 ;; Ok (of_float64_bits v).

(** The helper [readString] of [wavToSamples]. *)
Definition readString (buffer : list Z) (offset length : Z) : string :=
  for_ 0 length (fun i str => (str ++ fromCharCode (bget buffer (offset + i)))%string)
    EmptyString.

(** The helper [writeString] of [samplesToWav]. *)
Definition writeString (buffer : list Z) (str : string) (offset : Z) : list Z :=
  for_ 0 (Z.of_nat (String.length str)) (fun i buffer =>
    bset buffer (offset + i) (charCodeAt str i)) buffer.

(** One sample of [wavToSamples], read at [offset]. *)
Definition readSample (buffer : list Z) (audioFormat bitsPerSample offset : Z) : result F :=
  if audioFormat =? 1 then
    (* PCM integer format *)
    if bitsPerSample =? 16 then
      sample <- getInt16 buffer offset ;;
      Ok (fdiv (of_Z sample) (of_Z 32768))
    else if bitsPerSample =? 24 then
      let byte n := match bget buffer (offset + n) with Some b => b | None => 0 end in
      let byte1 := byte 0 in
      let byte2 := byte 1 in
      let byte3 := byte 2 in
      (* Reconstruct 24-bit signed integer *)
      let sample := Z.lor (Z.lor byte1 (shl32 byte2 8)) (shl32 byte3 16) in
      (* Sign extend if negative *)
      let sample :=
        if negb (and32 sample 8388608 =? 0) then Z.lor sample (Z.lnot 16777215)
        else sample in
      Ok (fdiv (of_Z sample) (of_Z 8388608))
    else if bitsPerSample =? 32 then
      sample <- getInt32 buffer offset ;;
      Ok (fdiv (of_Z sample) (of_Z 2147483648))
    else if bitsPerSample =? 8 then
      match bget buffer offset with
      | Some sample => Ok (fdiv (fsub (of_Z sample) (of_Z 128)) (of_Z 128))
      | None => Ok fnan
      end
    else Throw (Error "Unsupported bits per sample")
  else if audioFormat =? 3 then
    (* IEEE float format *)
    if bitsPerSample =? 32 then getFloat32 buffer offset
    else if bitsPerSample =? 64 then getFloat64 buffer offset
    else Throw (Error "Unsupported float bits per sample")
  else Throw (Error "Unsupported audio format").

(** [wavToSamples] of [wav-utils.ts].  [bytesPerSample] is
    [bitsPerSample / 8], a fraction for the sample sizes that the loop
    rejects before it uses it; it is written [bitsPerSample / 8] where it
    is whole.  [numSamples] is NaN or [Infinity] when a header announces
    no channel or no bit per sample: three cases, spelled out. *)
Definition wavToSamples (fuel : nat) (buffer : list Z) : result (RawAudio F) :=
  let offset := 0 in
  (* Read RIFF header *)
  let riff := readString buffer offset 4 in
  let offset := offset + 4 in
  if negb (riff =? "RIFF")%string
  then Throw (Error "Not a valid WAV file (missing RIFF header)") else
  fileSize <- getUint32 buffer offset ;;
  let offset := offset + 4 in
  let wave := readString buffer offset 4 in
  let offset := offset + 4 in
  if negb (wave =? "WAVE")%string
  then Throw (Error "Not a valid WAV file (missing WAVE header)") else
  (* Read fmt chunk *)
  let fmtChunk := readString buffer offset 4 in
  let offset := offset + 4 in
  (* Skip any non-fmt chunks *)
  '(_, offset) <-
    while_ fuel (fun '(fmtChunk, _) => negb (fmtChunk =? "fmt ")%string)
      (fun '(_, offset) =>
        chunkSize <- getUint32 buffer offset ;;
        let offset := offset + 4 in
        let offset := offset + chunkSize in
        let fmtChunk := readString buffer offset 4 in
        let offset := offset + 4 in
        Ok (fmtChunk, offset))
      (fmtChunk, offset) ;;
  fmtSize <- getUint32 buffer offset ;;
  let offset := offset + 4 in
  audioFormat <- getUint16 buffer offset ;;
  let offset := offset + 2 in
  numChannels <- getUint16 buffer offset ;;
  let offset := offset + 2 in
  sampleRate <- getUint32 buffer offset ;;
  let offset := offset + 4 in
  byteRate <- getUint32 buffer offset ;;
  let offset := offset + 4 in
  blockAlign <- getUint16 buffer offset ;;
  let offset := offset + 2 in
  bitsPerSample <- getUint16 buffer offset ;;
  let offset := offset + 2 in
  (* Skip any extra fmt bytes *)
  let offset := offset + (fmtSize - 16) in
  (* Find data chunk *)
  let dataChunk := readString buffer offset 4 in
  let offset := offset + 4 in
  '(_, offset) <-
    while_ fuel (fun '(dataChunk, _) => negb (dataChunk =? "data")%string)
      (fun '(_, offset) =>
        chunkSize <- getUint32 buffer offset ;;
        let offset := offset + 4 in
        let offset := offset + chunkSize in
        if offset >=? blen buffer
        then Throw (Error "No data chunk found in WAV file") else
        let dataChunk := readString buffer offset 4 in
        let offset := offset + 4 in
        Ok (dataChunk, offset))
      (dataChunk, offset) ;;
  dataSize <- getUint32 buffer offset ;;
  let offset := offset + 4 in
  (* Read audio data *)
  if numChannels * bitsPerSample =? 0 then
    if dataSize =? 0 then
      (* numSamples is NaN: empty arrays, no iteration *)
      Ok (mkRawAudio (repeat [] (Z.to_nat numChannels)) sampleRate)
    else if numChannels =? 0 then
      (* numSamples is Infinity and the inner loop is empty: the outer loop never ends *)
      Throw OutOfFuel
    else
      (* new Float32Array(Infinity) *)
      Throw (RangeError "Invalid typed array length")
  else
  let numSamples := 8 * dataSize / (numChannels * bitsPerSample) in
  (* Create single buffer to hold all channel data *)
  buffer_data <- alloc (numChannels * numSamples) ;;
  (* Convert samples to float32 [-1, 1] *)
  '(buffer_data, _) <-
    forM 0 numSamples (fun s acc =>
      forM 0 numChannels (fun c '(buffer_data, offset) =>
        sample <- readSample buffer audioFormat bitsPerSample offset ;;
        Ok (aset buffer_data (c * numSamples + s) sample, offset + bitsPerSample / 8)) acc)
      (buffer_data, offset) ;;
  (* Create separate Float32Array views for each channel *)
  channelData <-
    forM 0 numChannels (fun c channelData =>
      channel <- aview buffer_data (c * numSamples) numSamples ;;
      Ok (channelData ++ [channel])) [] ;;
  Ok (mkRawAudio channelData sampleRate).

(** [samplesToWav] of [wav-utils.ts]; the sample rate is an integer. *)
Definition samplesToWav (channelData : list (list F)) (sampleRate : Z) (asFloat : bool)
  : result (list Z) :=
  let channels := alen channelData in
  match channelData with
  | [] => Throw (TypeError "Cannot read properties of undefined")
  | channel0 :: _ =>
      let samples := alen channel0 in
      let bitsPerSample := if asFloat then 32 else 16 in
      let bytesPerSample := bitsPerSample / 8 in
      let audioFormat := if asFloat then 3 else 1 in (* 3 = IEEE float, 1 = PCM *)
      let dataSize := samples * channels * bytesPerSample in
      let fileSize := 36 + dataSize in
      let buffer := bzeros (44 + dataSize) in
      let offset := 0 in
      (* RIFF header *)
      let buffer := writeString buffer "RIFF" offset in
      let offset := offset + 4 in
      buffer <- setUint32 buffer offset fileSize ;;
      let offset := offset + 4 in
      let buffer := writeString buffer "WAVE" offset in
      let offset := offset + 4 in
      (* fmt chunk *)
      let buffer := writeString buffer "fmt " offset in
      let offset := offset + 4 in
      buffer <- setUint32 buffer offset 16 ;; (* fmt chunk size *)
      let offset := offset + 4 in
      buffer <- setUint16 buffer offset audioFormat ;;
      let offset := offset + 2 in
      buffer <- setUint16 buffer offset channels ;;
      let offset := offset + 2 in
      buffer <- setUint32 buffer offset sampleRate ;;
      let offset := offset + 4 in
      buffer <- setUint32 buffer offset (sampleRate * channels * bytesPerSample) ;; (* byte rate *)
      let offset := offset + 4 in
      buffer <- setUint16 buffer offset (channels * bytesPerSample) ;; (* block align *)
      let offset := offset + 2 in
      buffer <- setUint16 buffer offset bitsPerSample ;;
      let offset := offset + 2 in
      (* data chunk *)
      let buffer := writeString buffer "data" offset in
      let offset := offset + 4 in
      buffer <- setUint32 buffer offset dataSize ;;
      let offset := offset + 4 in
      (* Write audio data (interleaved) *)
      '(buffer, _) <-
        forM 0 samples (fun s acc =>
          forM 0 channels (fun c '(buffer, offset) =>
            let sample := aget (nth (Z.to_nat c) channelData []) s in
            buffer <-
              (if asFloat then setFloat32 buffer offset sample
               else
                 (* Convert float [-1, 1] to int16 [-32768, 32767] *)
                 let clampedSample := fmax (of_Z (-1)) (fmin (of_Z 1) sample) in
                 let int16Sample := fround (fmul clampedSample (of_Z 32767)) in
                 setInt16 buffer offset int16Sample) ;;
            Ok (buffer, offset + bytesPerSample)) acc)
          (buffer, offset) ;;
      Ok buffer
  end.

End Wav.

(** ** Instances *)

(** Exact real arithmetic.  [R] has no NaN and no infinity: both are sent
    to 0, and the statements about this instance are about runs that
    read inside their arrays and take the maximum of a non-empty array of
    positive weights. *)
#[export] Instance Cell_R : Cell R := {| fzero := 0%R; fnan := 0%R |}.

#[export] Instance Scalar_R : Scalar R := {|
  scalar_cell := Cell_R;
  of_Z := IZR;
  of_Q := Q2R;
  fadd := Rplus;
  fsub := Rminus;
  fmul := Rmult;
  fdiv := Rdiv;
  fneg := Ropp;
  fcos := cos;
  fsin := sin;
  fsqrt := sqrt;
  fpi := PI;
  fneg_infinity := 0%R;
  fmax := Rmax;
  fgtb := fun a b => if Rgt_dec a b then true else false
|}.

(** [Math.floor] of a real number. *)
#[export] Instance Floor_R : Floor R := {|
  floor_scalar := Scalar_R;
  ffloor := Int_part
|}.

(** ** Notions used by the statements *)

Section Notions.
Context {F : Type} {CF : Cell F}.

(** The tensor invariant of the data model: as many elements as the
    shape announces, and no negative dimension. *)
Definition wf_tensor (x : Tensor F) : Prop :=
  alen (data x) = product (shape x) /\ Forall (fun d => 0 <= d) (shape x).

Definition functional (R : Z -> F -> Prop) : Prop :=
  forall j v v', R j v -> R j v' -> v = v'.

(** [w] keeps the length of the array under [proj], stores [v] at [j]
    whenever [R j v], and leaves every other element as it was. *)
Definition scatters {St : Type} (proj : St -> list F) (R : Z -> F -> Prop)
    (w : St -> St) : Prop :=
  forall s,
    alen (proj (w s)) = alen (proj s)
    /\ (forall j v, R j v -> 0 <= j < alen (proj s) -> aget (proj (w s)) j = v)
    /\ (forall j, aget (proj (w s)) j = aget (proj s) j
                  \/ exists v, R j v /\ aget (proj (w s)) j = v).

End Notions.

(** The bit reversal of [x] on [m] bits. *)
Fixpoint rev_bits (m : nat) (x : Z) : Z :=
  match m with
  | O => 0
  | S m' => (x mod 2) * 2 ^ Z.of_nat m' + rev_bits m' (x / 2)
  end.

Section FftNotions.
Context {F : Type} {SF : Scalar F}.

(** The loops of [fft] on [n = 2^m] samples, as counted loops: the
    bodies are the ones of the source, with the bit-reversed counter [j]
    replaced by its value. *)
Definition bitrev_step (m : nat) (i : Z) (s : list F * list F) : list F * list F :=
  let '(real, imag) := s in
  let j := rev_bits m i in
  if i <? j then
    (aset (aset real i (aget real j)) j (aget real i),
     aset (aset imag i (aget imag j)) j (aget imag i))
  else (real, imag).

Definition butterfly (angle : F) (halfLen i j : Z) (s : list F * list F * F * F)
  : list F * list F * F * F :=
  let '(real, imag, wr, wi) := s in
  let k := i + j in
  let l := k + halfLen in
  let tr := fsub (fmul wr (aget real l)) (fmul wi (aget imag l)) in
  let ti := fadd (fmul wr (aget imag l)) (fmul wi (aget real l)) in
  let real := aset real l (fsub (aget real k) tr) in
  let imag := aset imag l (fsub (aget imag k) ti) in
  let real := aset real k (fadd (aget real k) tr) in
  let imag := aset imag k (fadd (aget imag k) ti) in
  let wtemp := wr in
  let wr := fsub (fmul wtemp (fcos angle)) (fmul wi (fsin angle)) in
  let wi := fadd (fmul wtemp (fsin angle)) (fmul wi (fcos angle)) in
  (real, imag, wr, wi).

Definition fft_block (angle : F) (halfLen i : Z) (s : list F * list F) : list F * list F :=
  let '(real, imag) := s in
  let '(real, imag, _, _) :=
    for_ 0 halfLen (butterfly angle halfLen i) (real, imag, of_Z 1, of_Z 0) in
  (real, imag).

Definition fft_stage (n len : Z) (s : list F * list F) : list F * list F :=
  let halfLen := len / 2 in
  let angle := fdiv (fmul (of_Z (-2)) fpi) (of_Z len) in
  for_ 0 (n / len) (fun b s => fft_block angle halfLen (b * len) s) s.

Definition fft_stages (n : Z) (count : Z) (s : list F * list F) : list F * list F :=
  for_ 0 count (fun st s => fft_stage n (2 ^ (st + 1)) s) s.

Definition fft_loops (m : nat) (real imag : list F) : list F * list F :=
  fft_stages (2 ^ Z.of_nat m) (Z.of_nat m)
    (for_ 0 (2 ^ Z.of_nat m - 1) (bitrev_step m) (real, imag)).

End FftNotions.

(** The errors of [fft]. *)
Definition fft_exn (e : exn) : Prop :=
  e = Error "FFT size must be power of 2"
  \/ e = RangeError "Invalid typed array length"
  \/ e = OutOfFuel.

(** Exact reals as samples of a WAV file.  [R] has no bit patterns: the
    float accessors are not interpreted over it, and the statements about
    this instance are about 16-bit PCM. *)
#[export] Instance Pcm_R : Pcm R := {|
  pcm_scalar := Scalar_R;
  fmin := Rmin;
  fround := fun x => IZR (Int_part (x + / 2));
  to_integer := fun x => if Rle_dec 0 x then Int_part x else - Int_part (- x);
  float32_bits := fun _ => 0;
  of_float32_bits := fun _ => 0%R;
  of_float64_bits := fun _ => 0%R
|}.

(** ** Notions used by the statements on WAV files *)

(** The char codes of a string. *)
Definition charCodes (str : string) : list Z :=
  map (fun c => Z.of_nat (Ascii.nat_of_ascii c)) (list_ascii_of_string str).

(** The 44 bytes of a header with one [fmt ] chunk of 16 bytes followed by
    the [data] chunk. *)
Definition wav_header (fileSize audioFormat numChannels sampleRate byteRate blockAlign
                       bitsPerSample dataSize : Z) : list Z :=
  charCodes "RIFF" ++ le_bytes 4 fileSize ++ charCodes "WAVE"
  ++ charCodes "fmt " ++ le_bytes 4 16 ++ le_bytes 2 audioFormat ++ le_bytes 2 numChannels
  ++ le_bytes 4 sampleRate ++ le_bytes 4 byteRate ++ le_bytes 2 blockAlign
  ++ le_bytes 2 bitsPerSample
  ++ charCodes "data" ++ le_bytes 4 dataSize.

(** [0; 1; ...; n - 1] *)
Definition zseq (n : Z) : list Z := map Z.of_nat (seq 0 (Z.to_nat n)).

(** Interleaved samples of [n] bytes: for every sample index, one block
    per channel. *)
Definition interleaved (n : nat) (code : Z -> Z -> Z) (samples channels : Z) : list Z :=
  flat_map (fun s => flat_map (fun c => le_bytes n (code s c)) (zseq channels)) (zseq samples).

Section WavNotions.
Context {F : Type} {PF : Pcm F}.

(** The integer that [samplesToWav] hands to [setInt16] for a sample. *)
Definition pcm16 (sample : F) : Z :=
  to_integer (fround (fmul (fmax (of_Z (-1)) (fmin (of_Z 1) sample)) (of_Z 32767))).

(** The sample that [wavToSamples] makes of the 16 bits of an integer. *)
Definition of_pcm16 (v : Z) : F := fdiv (of_Z (signed 16 (v mod 2 ^ 16))) (of_Z 32768).

End WavNotions.

(** ** Notions used by the statements on the chunk loop *)

(** [k] turns of a loop body, one after the other. *)
Fixpoint turns {St : Type} (body : St -> result St) (k : nat) (s : St) : result St :=
  match k with
  | O => Ok s
  | S k => s' <- body s ;; turns body k s'
  end.

(** What the chunk loop adds to [sumWeight] for a chunk of
    [chunkLength] samples at [offset]. *)
Definition add_weights {F : Type} {SF : Scalar F} (weight : list F) (chunkLength offset : Z)
    (sumWeight : list F) : list F :=
  for_ 0 chunkLength (fun t sumWeight =>
    aset sumWeight (offset + t) (fadd (aget sumWeight (offset + t)) (aget weight t)))
    sumWeight.

(** The calls made to [progressCallback] up to step [k]:
    [(0, total)], [(1, total)], ..., [(k, total)]. *)
Definition progress (total k : Z) : list (Z * Z) :=
  map (fun step => (step, total)) (zseq (k + 1)).

(** ** Notions used by the statements on the Fourier transform *)

(** Complex numbers as pairs of reals. *)
Definition complex : Type := (R * R)%type.

Definition cadd (a b : complex) : complex := (fst a + fst b, snd a + snd b)%R.
Definition csub (a b : complex) : complex := (fst a - fst b, snd a - snd b)%R.
Definition cmul (a b : complex) : complex :=
  (fst a * fst b - snd a * snd b, fst a * snd b + snd a * fst b)%R.
Definition cconj (a : complex) : complex := (fst a, - snd a)%R.
Definition cscale (r : R) (a : complex) : complex := (r * fst a, r * snd a)%R.

(** [exp (-2 pi i e / n)] *)
Definition root (n e : Z) : complex :=
  (cos (- (2 * PI * IZR e) / IZR n), sin (- (2 * PI * IZR e) / IZR n)).

(** [f 0 + f 1 + ... + f (n - 1)] *)
Fixpoint csum (n : nat) (f : Z -> complex) : complex :=
  match n with
  | O => (0, 0)%R
  | S k => cadd (csum k f) (f (Z.of_nat k))
  end.

(** The discrete Fourier transform of [x 0], ..., [x (n - 1)], at [k]. *)
Definition dft (n : Z) (x : Z -> complex) (k : Z) : complex :=
  csum (Z.to_nat n) (fun t => cmul (x t) (root n (k * t))).

(** The complex number at index [p] of a pair of arrays. *)
Definition cget (s : list R * list R) (p : Z) : complex :=
  (aget (CF := Cell_R) (fst s) p, aget (CF := Cell_R) (snd s) p).

(** One array through the bit-reversal loop. *)
Definition swap_step {F : Type} {CF : Cell F} (m : nat) (i : Z) (a : list F) : list F :=
  let j := rev_bits m i in
  if i <? j then aset (aset a i (aget a j)) j (aget a i) else a.

(** What the element of index [b * 2^s + j] holds after [s] stages: the
    transform, at [j], of the [2^s] inputs whose indices end in the
    bits of [b] reversed. *)
Definition stage_sum (m s : nat) (x : Z -> complex) (b j : Z) : complex :=
  csum (Z.to_nat (2 ^ Z.of_nat s))
    (fun t => cmul (x (t * 2 ^ Z.of_nat (m - s) + rev_bits (m - s) b))
                (root (2 ^ Z.of_nat s) (j * t))).

(** * Properties *)

(** ** Loops *)

Lemma iterate_snoc {St : Type} (body : Z -> St -> St) (count : nat) :
  forall i s, iterate body i (S count) s
              = body (i + Z.of_nat count) (iterate body i count s).
Proof.
  induction count as [|c IH]; intros i s.
  - simpl. now rewrite Z.add_0_r.
  - change (iterate body i (S (S c)) s) with (iterate body (i + 1) (S c) (body i s)).
    rewrite IH. simpl iterate at 2.
    f_equal. lia.
Qed.

Lemma for_nop {St : Type} (lo hi : Z) (body : Z -> St -> St) (s : St) :
  hi <= lo -> for_ lo hi body s = s.
Proof.
  intros H. unfold for_. replace (Z.to_nat (hi - lo)) with O by lia. reflexivity.
Qed.

Lemma for_last {St : Type} (lo hi : Z) (body : Z -> St -> St) (s : St) :
  lo <= hi -> for_ lo (hi + 1) body s = body hi (for_ lo hi body s).
Proof.
  intros H. unfold for_.
  replace (Z.to_nat (hi + 1 - lo)) with (S (Z.to_nat (hi - lo))) by lia.
  rewrite iterate_snoc. f_equal. lia.
Qed.

Lemma for_first {St : Type} (lo hi : Z) (body : Z -> St -> St) (s : St) :
  lo < hi -> for_ lo hi body s = for_ (lo + 1) hi body (body lo s).
Proof.
  intros H. unfold for_.
  replace (Z.to_nat (hi - lo)) with (S (Z.to_nat (hi - (lo + 1)))) by lia.
  reflexivity.
Qed.

(** Invariant rule for the counted loop. *)
Lemma for_invariant {St : Type} (P : Z -> St -> Prop) (lo hi : Z)
    (body : Z -> St -> St) (s : St) :
  lo <= hi ->
  P lo s ->
  (forall i s', lo <= i < hi -> P i s' -> P (i + 1) (body i s')) ->
  P hi (for_ lo hi body s).
Proof.
  intros Hle H0 Hstep.
  assert (G : forall k : nat, lo + Z.of_nat k <= hi ->
            P (lo + Z.of_nat k) (for_ lo (lo + Z.of_nat k) body s)).
  { induction k as [|k IH]; intros Hk.
    - rewrite Z.add_0_r, for_nop by lia. exact H0.
    - replace (lo + Z.of_nat (S k)) with (lo + Z.of_nat k + 1) by lia.
      rewrite for_last by lia. apply Hstep; [lia|]. apply IH. lia. }
  specialize (G (Z.to_nat (hi - lo))).
  replace (lo + Z.of_nat (Z.to_nat (hi - lo))) with hi in G by lia.
  apply G. lia.
Qed.

(** A property kept by every iteration is kept by the loop. *)
Lemma for_preserves {St : Type} (P : St -> Prop) (lo hi : Z)
    (body : Z -> St -> St) (s : St) :
  P s ->
  (forall i s', lo <= i < hi -> P s' -> P (body i s')) ->
  P (for_ lo hi body s).
Proof.
  intros H0 Hstep.
  destruct (Z_le_gt_dec lo hi) as [Hle|Hgt].
  - apply (for_invariant (fun _ => P)); auto.
  - rewrite for_nop by lia. exact H0.
Qed.

Lemma for_ext {St : Type} (lo hi : Z) (f g : Z -> St -> St) (s : St) :
  (forall i s', lo <= i < hi -> f i s' = g i s') ->
  for_ lo hi f s = for_ lo hi g s.
Proof.
  intros H.
  destruct (Z_le_gt_dec lo hi) as [Hle|Hgt].
  - apply (for_invariant (fun i s' => for_ lo i f s = s')); auto.
    + now rewrite for_nop by lia.
    + intros i s' Hi <-. rewrite for_last by lia. apply H. lia.
  - now rewrite !for_nop by lia.
Qed.

(** A loop over a pair of arrays that are updated side by side is a pair
    of loops. *)
Lemma for_pair {A B : Type} (lo hi : Z) (f : Z -> A -> A) (g : Z -> B -> B) (a : A) (b : B) :
  for_ lo hi (fun i '(x, y) => (f i x, g i y)) (a, b)
  = (for_ lo hi f a, for_ lo hi g b).
Proof.
  destruct (Z_le_gt_dec lo hi) as [Hle|Hgt].
  - apply (for_invariant
             (fun i s' => s' = (for_ lo i f a, for_ lo i g b))); auto.
    + now rewrite !for_nop by lia.
    + intros i s' Hi ->. now rewrite !for_last by lia.
  - now rewrite !for_nop by lia.
Qed.

Lemma forM_nop {St : Type} (lo hi : Z) (body : Z -> St -> result St) (s : St) :
  hi <= lo -> forM lo hi body s = Ok s.
Proof.
  intros H. unfold forM. replace (Z.to_nat (hi - lo)) with O by lia. reflexivity.
Qed.

Lemma forM_first {St : Type} (lo hi : Z) (body : Z -> St -> result St) (s : St) :
  lo < hi -> forM lo hi body s = (s' <- body lo s ;; forM (lo + 1) hi body s').
Proof.
  intros H. unfold forM.
  replace (Z.to_nat (hi - lo)) with (S (Z.to_nat (hi - (lo + 1)))) by lia.
  reflexivity.
Qed.

(** A throwing loop whose body never throws on states that satisfy the
    invariant runs to its end, and the invariant holds there. *)
Lemma forM_invariant {St : Type} (P : Z -> St -> Prop) (lo hi : Z)
    (body : Z -> St -> result St) (s : St) :
  lo <= hi ->
  P lo s ->
  (forall i s', lo <= i < hi -> P i s' -> exists s'', body i s' = Ok s'' /\ P (i + 1) s'') ->
  exists s', forM lo hi body s = Ok s' /\ P hi s'.
Proof.
  intros Hle H0 Hstep. unfold forM.
  remember (Z.to_nat (hi - lo)) as k eqn:Hk.
  revert lo s Hle H0 Hstep Hk.
  induction k as [|k IH]; intros lo s Hle H0 Hstep Hk.
  - exists s. split; [reflexivity|]. now replace hi with lo by lia.
  - simpl. destruct (Hstep lo s) as (s'' & Hb & HP); [lia|exact H0|].
    rewrite Hb. simpl. apply IH; try lia; auto.
    intros i s' Hi. apply Hstep. lia.
Qed.

Lemma forM_preserves {St : Type} (P : St -> Prop) (lo hi : Z)
    (body : Z -> St -> result St) (s : St) :
  P s ->
  (forall i s', lo <= i < hi -> P s' -> exists s'', body i s' = Ok s'' /\ P s'') ->
  exists s', forM lo hi body s = Ok s' /\ P s'.
Proof.
  intros H0 Hstep.
  destruct (Z_le_gt_dec lo hi) as [Hle|Hgt].
  - apply (forM_invariant (fun _ => P)); auto.
  - rewrite forM_nop by lia. eauto.
Qed.

(** ** Arrays *)

Section ArrayFacts.
Context {F : Type} {CF : Cell F}.
Implicit Types (a : list F) (i j n : Z) (v : F).

Lemma alen_nonneg a : 0 <= alen a.
Proof. unfold alen. lia. Qed.

Lemma in_range_iff a i : in_range a i = true <-> 0 <= i < alen a.
Proof. unfold in_range. rewrite andb_true_iff, Z.leb_le, Z.ltb_lt. tauto. Qed.

Lemma in_range_false a i : ~ (0 <= i < alen a) -> in_range a i = false.
Proof.
  intros H. destruct (in_range a i) eqn:E; [|reflexivity].
  apply in_range_iff in E. contradiction.
Qed.

Lemma in_range_true a i : 0 <= i < alen a -> in_range a i = true.
Proof. apply in_range_iff. Qed.

Lemma alen_aset a i v : alen (aset a i v) = alen a.
Proof.
  unfold aset. destruct (in_range a i) eqn:E; [|reflexivity].
  apply in_range_iff in E. unfold alen in *.
  rewrite length_app, length_firstn. cbn [List.length].
  rewrite length_skipn. lia.
Qed.

Lemma aget_outside a i : ~ (0 <= i < alen a) -> aget a i = fnan.
Proof. intros H. unfold aget. now rewrite in_range_false. Qed.

Lemma aget_aset_same a i v : 0 <= i < alen a -> aget (aset a i v) i = v.
Proof.
  intros H. unfold aget. rewrite in_range_true by now rewrite alen_aset.
  unfold aset. rewrite in_range_true by assumption.
  unfold alen in H.
  rewrite app_nth2; rewrite length_firstn; [|lia].
  replace (Z.to_nat i - Nat.min (Z.to_nat i) (List.length a))%nat with O by lia.
  reflexivity.
Qed.

Lemma aget_aset_other a i j v : i <> j -> aget (aset a i v) j = aget a j.
Proof.
  intros H. unfold aget.
  destruct (in_range a j) eqn:Ej.
  - rewrite (in_range_true (aset a i v)) by (rewrite alen_aset; now apply in_range_iff).
    apply in_range_iff in Ej.
    unfold aset. destruct (in_range a i) eqn:Ei; [|reflexivity].
    apply in_range_iff in Ei. unfold alen in *.
    destruct (Z_lt_ge_dec j i) as [Hlt|Hge].
    + rewrite app_nth1 by (rewrite length_firstn; lia).
      rewrite nth_firstn.
      destruct (Nat.ltb_spec (Z.to_nat j) (Z.to_nat i)); [reflexivity|lia].
    + rewrite app_nth2 by (rewrite length_firstn; lia).
      rewrite length_firstn.
      replace (Z.to_nat j - Nat.min (Z.to_nat i) (List.length a))%nat
        with (S (Z.to_nat j - S (Z.to_nat i)))%nat by lia.
      cbn [nth]. rewrite nth_skipn. f_equal. lia.
  - rewrite in_range_false; [reflexivity|].
    rewrite alen_aset. intros Hc. apply in_range_iff in Hc. congruence.
Qed.

Lemma alloc_ok n : 0 <= n -> alloc n = Ok (zeros n).
Proof. intros H. unfold alloc. destruct (Z.ltb_spec n 0); [lia|reflexivity]. Qed.

Lemma alloc_inv n a : alloc n = Ok a -> 0 <= n /\ a = zeros n.
Proof.
  unfold alloc. destruct (Z.ltb_spec n 0); [discriminate|].
  intros [= <-]. split; [lia|reflexivity].
Qed.

Lemma alen_zeros n : 0 <= n -> alen (zeros n) = n.
Proof. intros H. unfold alen, zeros. rewrite repeat_length. lia. Qed.

Lemma aget_zeros n i : 0 <= i < n -> aget (zeros n) i = fzero.
Proof.
  intros H. unfold aget. rewrite in_range_true by (rewrite alen_zeros; lia).
  unfold zeros. apply nth_repeat_lt. lia.
Qed.

(** Two arrays of one length with the same elements are equal. *)
Lemma array_ext a b :
  alen a = alen b ->
  (forall i, 0 <= i < alen a -> aget a i = aget b i) ->
  a = b.
Proof.
  intros Hlen H. apply (nth_ext a b fnan fnan).
  - unfold alen in Hlen. lia.
  - intros k Hk. specialize (H (Z.of_nat k)).
    unfold aget in H.
    rewrite !in_range_true in H by (unfold alen in *; lia).
    rewrite Nat2Z.id in H. apply H. unfold alen. lia.
Qed.

End ArrayFacts.

(** ** Reflect padding *)

(** C1, at [x = [1, 2, 3]] and [p = 2]: [padReflect] returns
    [[1, 0, 1, 2, 3, 2, 1]].  The right pad mirrors the signal around its
    last sample, the left pad does not mirror it around the first one:
    the sample at [p - 1 - 0] is 0 and the sample at [p + 1 + 0] is 2,
    where a reflection would have given [[3, 2, 1, 2, 3, 2, 1]]. *)
Theorem padReflect_left_pad_not_mirrored :
  exists r,
    padReflect [Some 1; Some 2; Some 3] 2 2 = Ok r
    /\ r = [Some 1; Some 0; Some 1; Some 2; Some 3; Some 2; Some 1]
    /\ aget r (2 - 1 - 0) = Some 0
    /\ aget r (2 + 1 + 0) = Some 2
    /\ aget r (2 - 1 - 0) <> aget r (2 + 1 + 0).
Proof.
  eexists. split; [reflexivity|].
  repeat split. discriminate.
Qed.

(** ** Shapes *)

Lemma fold_left_mul_scale (s : list Z) :
  forall a b, fold_left Z.mul s (a * b) = a * fold_left Z.mul s b.
Proof.
  induction s as [|d s IH]; intros a b; cbn [fold_left].
  - reflexivity.
  - now rewrite <- Z.mul_assoc, IH.
Qed.

Lemma fold_left_mul (s : list Z) (a : Z) : fold_left Z.mul s a = a * product s.
Proof. unfold product. now rewrite <- fold_left_mul_scale, Z.mul_1_r. Qed.

Lemma product_nil : product [] = 1.
Proof. reflexivity. Qed.

Lemma product_cons (d : Z) (s : list Z) : product (d :: s) = d * product s.
Proof. unfold product at 1. cbn [fold_left]. now rewrite Z.mul_1_l, fold_left_mul. Qed.

Lemma product_app (s t : list Z) : product (s ++ t) = product s * product t.
Proof.
  induction s as [|d s IH]; cbn [app].
  - rewrite product_nil. lia.
  - rewrite !product_cons, IH. lia.
Qed.

Lemma product_snoc (s : list Z) (d : Z) : product (s ++ [d]) = product s * d.
Proof. rewrite product_app, product_cons, product_nil. lia. Qed.

Lemma product_nonneg (s : list Z) : Forall (fun d => 0 <= d) s -> 0 <= product s.
Proof.
  induction 1 as [|d s Hd _ IH].
  - rewrite product_nil. lia.
  - rewrite product_cons. lia.
Qed.

Lemma last_dim_snoc (s : list Z) (d : Z) : last_dim (s ++ [d]) = d.
Proof. unfold last_dim. apply last_last. Qed.

Lemma last_dim2_snoc (s : list Z) (c d : Z) : last_dim2 (s ++ [c; d]) = c.
Proof.
  unfold last_dim2.
  replace (s ++ [c; d]) with ((s ++ [c]) ++ [d]) by now rewrite <- app_assoc.
  rewrite removelast_last. apply last_last.
Qed.

Lemma set_last_snoc (s : list Z) (d v : Z) : set_last (s ++ [d]) v = s ++ [v].
Proof.
  induction s as [|c s IH]; [reflexivity|].
  simpl. rewrite IH. destruct s; reflexivity.
Qed.

Lemma set_last2_long (s : list Z) (v : Z) :
  (2 <= List.length s)%nat -> set_last2 s v = set_last (removelast s) v ++ [last s 0].
Proof. destruct s as [|x [|y s]]; cbn [List.length]; intros; try lia; reflexivity. Qed.

Lemma set_last2_snoc (s : list Z) (c d v : Z) : set_last2 (s ++ [c; d]) v = s ++ [v; d].
Proof.
  rewrite set_last2_long by (rewrite length_app; cbn [List.length]; lia).
  replace (s ++ [c; d]) with ((s ++ [c]) ++ [d]) by now rewrite <- app_assoc.
  rewrite removelast_last, last_last, set_last_snoc, <- app_assoc.
  reflexivity.
Qed.

Lemma shape_snoc (s : list Z) : s <> [] -> s = removelast s ++ [last_dim s].
Proof. intros H. now apply app_removelast_last. Qed.

Lemma Forall_snoc_inv (P : Z -> Prop) (s : list Z) (d : Z) :
  Forall P (s ++ [d]) -> Forall P s /\ P d.
Proof.
  intros H. apply Forall_app in H. destruct H as [H1 H2].
  split; [assumption|]. now inversion H2.
Qed.

(** ** Lengths through loops *)

Section LoopLengths.
Context {F : Type} {CF : Cell F}.

Lemma for_alen {St : Type} (proj : St -> list F) (lo hi : Z)
    (body : Z -> St -> St) (s : St) :
  (forall i s', lo <= i < hi -> alen (proj (body i s')) = alen (proj s')) ->
  alen (proj (for_ lo hi body s)) = alen (proj s).
Proof.
  intros H.
  apply (for_preserves (fun s' => alen (proj s') = alen (proj s))); [reflexivity|].
  intros i s' Hi Hs. now rewrite H.
Qed.

Lemma for_alen_id (lo hi : Z) (body : Z -> list F -> list F) (a : list F) :
  (forall i a', lo <= i < hi -> alen (body i a') = alen a') ->
  alen (for_ lo hi body a) = alen a.
Proof. apply (for_alen (fun a => a)). Qed.

End LoopLengths.

(** Lengths of arrays built by nests of loops that only store. *)
Ltac alen_loops :=
  repeat first
    [ rewrite alen_aset
    | rewrite for_alen_id; [|intros; cbv beta zeta]
    | rewrite (for_alen fst); [|intros ? [? ?] ?; cbv beta zeta; cbn [fst snd]]
    | rewrite (for_alen snd); [|intros ? [? ?] ?; cbv beta zeta; cbn [fst snd]]
    | reflexivity ].

(** ** Chunks *)

Section ChunkFacts.
Context {F : Type} {CF : Cell F}.

Lemma new_inv (tensor : Tensor F) (offset : Z) (length : option Z) (c : TensorChunk.t F) :
  TensorChunk.new tensor offset length = Ok c ->
  0 <= offset < last_dim (shape tensor)
  /\ c = TensorChunk.mk tensor offset
           match length with
           | None => last_dim (shape tensor) - offset
           | Some length => Z.min (last_dim (shape tensor) - offset) length
           end.
Proof.
  unfold TensorChunk.new.
  destruct (Z.ltb_spec offset 0); [discriminate|].
  destruct (Z.geb_spec offset (last_dim (shape tensor))); [discriminate|].
  intros [= <-]. split; [lia|reflexivity].
Qed.

Lemma new_throws (tensor : Tensor F) (offset : Z) (length : option Z) :
  (exists e, TensorChunk.new tensor offset length = Throw e)
  <-> (offset < 0 \/ last_dim (shape tensor) <= offset).
Proof.
  unfold TensorChunk.new.
  destruct (Z.ltb_spec offset 0).
  - split; [intros _; lia|intros _; eauto].
  - destruct (Z.geb_spec offset (last_dim (shape tensor))).
    + split; [intros _; lia|intros _; eauto].
    + split; [intros [e He]; discriminate|lia].
Qed.

(** [padded] allocates [product (pre ++ [targetLength])] elements and
    stores into them. *)
Lemma padded_ok (this : TensorChunk.t F) (targetLength : Z) (pre : list Z) (total : Z) :
  shape (TensorChunk.tensor this) = pre ++ [total] ->
  Forall (fun d => 0 <= d) pre ->
  0 <= targetLength ->
  TensorChunk.length this <= targetLength ->
  exists out,
    TensorChunk.padded this targetLength = Ok (mkTensor out (pre ++ [targetLength]))
    /\ alen out = product pre * targetLength.
Proof.
  intros Hs Hpre Ht Hlen. unfold TensorChunk.padded.
  destruct (Z.ltb_spec (targetLength - TensorChunk.length this) 0); [lia|].
  rewrite Hs, set_last_snoc, product_snoc.
  pose proof (product_nonneg _ Hpre) as Hp.
  rewrite alloc_ok by nia. cbn [bind].
  match goal with
  | |- context [alen ?o =? _] =>
      assert (Ho : alen o = product pre * targetLength)
        by (alen_loops; apply alen_zeros; nia)
  end.
  rewrite Ho, Z.eqb_refl. cbn [negb].
  eexists. split; [reflexivity|exact Ho].
Qed.

Lemma padded_throws (this : TensorChunk.t F) (targetLength : Z) (pre : list Z) (total : Z) :
  shape (TensorChunk.tensor this) = pre ++ [total] ->
  Forall (fun d => 0 <= d) pre ->
  0 <= TensorChunk.length this ->
  (exists e, TensorChunk.padded this targetLength = Throw e)
  <-> targetLength < TensorChunk.length this.
Proof.
  intros Hs Hpre Hlen. split.
  - intros [e He].
    destruct (Z_lt_ge_dec targetLength (TensorChunk.length this)) as [|Hge]; [assumption|].
    destruct (padded_ok this targetLength pre total Hs Hpre)
      as (out & Hout & _); [lia|lia|].
    congruence.
  - intros Hlt. unfold TensorChunk.padded.
    destruct (Z.ltb_spec (targetLength - TensorChunk.length this) 0); [eauto|lia].
Qed.

End ChunkFacts.

(** C7, as the source has it: a requested length that goes past the end
    of the tensor is cut down with [Math.min], it is not an error.  Here
    the tensor has 10 samples and 20 are requested from offset 0. *)
Lemma TensorChunk_long_length_is_clamped :
  let t := mkTensor (zeros 10 : list (option Z)) [10] in
  ~ (20 <= last_dim (shape t) - 0)
  /\ TensorChunk.new t 0 (Some 20) = Ok (TensorChunk.mk t 0 10).
Proof. split; [cbn; lia|reflexivity]. Qed.

(** C7, amended.  On a tensor with a last dimension [totalLength], the
    constructor throws exactly when [offset < 0] or
    [offset >= totalLength]; otherwise it returns the chunk at [offset]
    whose length is [totalLength - offset] when none is requested and the
    smaller of [totalLength - offset] and the requested length when one
    is: a requested length that is too long is cut down, it is not an
    error.  So every chunk it returns has [0 <= offset < totalLength] and
    [length <= totalLength - offset].  On a chunk of non-negative length
    over a tensor without negative dimensions, [padded(targetLength)]
    throws exactly when [targetLength < length]. *)
Theorem TensorChunk_errors {F : Type} {CF : Cell F}
    (tensor : Tensor F) (offset : Z) (length : option Z) (pre : list Z) (totalLength : Z) :
  shape tensor = pre ++ [totalLength] ->
  ((exists e, TensorChunk.new tensor offset length = Throw e)
   <-> (offset < 0 \/ totalLength <= offset))
  /\ (forall c, TensorChunk.new tensor offset length = Ok c ->
        c = TensorChunk.mk tensor offset
              match length with
              | None => totalLength - offset
              | Some length => Z.min (totalLength - offset) length
              end
        /\ 0 <= TensorChunk.offset c < totalLength
        /\ TensorChunk.length c <= totalLength - TensorChunk.offset c
        /\ (Forall (fun d => 0 <= d) pre ->
            0 <= TensorChunk.length c ->
            forall targetLength,
              (exists e, TensorChunk.padded c targetLength = Throw e)
              <-> targetLength < TensorChunk.length c)).
Proof.
  intros Hs.
  assert (Hl : last_dim (shape tensor) = totalLength) by (rewrite Hs; apply last_dim_snoc).
  split; [rewrite <- Hl; apply new_throws|].
  intros c Hc. apply new_inv in Hc. rewrite Hl in Hc. destruct Hc as [Hoff ->].
  split; [reflexivity|].
  split; [cbn; lia|]. split; [destruct length; cbn; lia|].
  intros Hpre Hlen targetLength.
  match goal with
  | |- context [TensorChunk.padded ?c _] =>
      apply (padded_throws c targetLength pre totalLength Hs Hpre Hlen)
  end.
Qed.

(** C7 at a tensor of 10 samples: offset 3 and a requested length of 20
    give a chunk of 7 samples, and [padded(5)] on it throws. *)
Lemma TensorChunk_errors_witness :
  let t := mkTensor (zeros 10 : list (option Z)) [10] in
  exists c,
    TensorChunk.new t 3 (Some 20) = Ok c
    /\ c = TensorChunk.mk t 3 7
    /\ exists e, TensorChunk.padded c 5 = Throw e.
Proof.
  intros t.
  destruct (TensorChunk_errors t 3 (Some 20) [] 10 eq_refl) as [_ H].
  exists (TensorChunk.mk t 3 7).
  split; [reflexivity|].
  destruct (H (TensorChunk.mk t 3 7) eq_refl) as (Hc & _ & _ & Hp).
  split; [exact Hc|].
  apply Hp; cbn.
  - constructor.
  - lia.
  - lia.
Defined.

(** ** Loops that store each element once *)

Section Scatter.
Context {F : Type} {CF : Cell F}.

Lemma scatters_equiv {St : Type} (proj : St -> list F) (R R' : Z -> F -> Prop)
    (w : St -> St) :
  (forall j v, R j v <-> R' j v) -> scatters proj R w -> scatters proj R' w.
Proof.
  intros E H s. destruct (H s) as (Hl & Hw & Hk).
  split; [assumption|]. split.
  - intros j v Hr. apply Hw. now apply E.
  - intros j. destruct (Hk j) as [|(v & Hr & Hv)]; [now left|].
    right. exists v. split; [now apply E|assumption].
Qed.

Lemma scatters_aset (d : Z) (x : F) :
  scatters (fun a => a) (fun j v => j = d /\ v = x) (fun a => aset a d x).
Proof.
  intros a. split; [apply alen_aset|]. split.
  - intros j v [-> ->] Hj. now apply aget_aset_same.
  - intros j. destruct (Z.eq_dec d j) as [->|Hne].
    + destruct (Z_le_gt_dec 0 j) as [H0|H0];
        [destruct (Z_lt_ge_dec j (alen a)) as [H1|H1]|].
      * right. exists x. split; [tauto|]. apply aget_aset_same. lia.
      * left. rewrite !aget_outside; [reflexivity|lia|rewrite alen_aset; lia].
      * left. rewrite !aget_outside; [reflexivity|lia|rewrite alen_aset; lia].
    + left. now apply aget_aset_other.
Qed.

Lemma scatters_aset_fst {B : Type} (d : Z) (x : F) (g : list F -> B -> B) :
  scatters fst (fun j v => j = d /\ v = x)
    (fun '(a, b) => (aset a d x, g a b)).
Proof.
  intros [a b]. cbn [fst]. apply (scatters_aset d x a).
Qed.

Lemma scatters_aset_snd {A : Type} (d : Z) (x : F) (g : A -> list F -> A) :
  scatters snd (fun j v => j = d /\ v = x)
    (fun '(a, b) => (g a b, aset b d x)).
Proof.
  intros [a b]. cbn [snd]. apply (scatters_aset d x b).
Qed.

(** Two stores in a row. *)
Lemma scatters_seq {St : Type} (proj : St -> list F) (Rtot R1 R2 : Z -> F -> Prop)
    (w1 w2 : St -> St) :
  functional Rtot ->
  (forall j v, R1 j v -> Rtot j v) ->
  (forall j v, R2 j v -> Rtot j v) ->
  scatters proj R1 w1 ->
  scatters proj R2 w2 ->
  scatters proj (fun j v => R1 j v \/ R2 j v) (fun s => w2 (w1 s)).
Proof.
  intros Hf H1 H2 S1 S2 s.
  destruct (S1 s) as (L1 & W1 & K1). destruct (S2 (w1 s)) as (L2 & W2 & K2).
  split; [congruence|]. split.
  - intros j v Hr Hj.
    destruct (K2 j) as [E|(v' & Hr' & Hv')].
    + destruct Hr as [Hr|Hr].
      * rewrite E. now apply W1.
      * apply W2; [assumption|]. now rewrite L1.
    + rewrite Hv'. apply (Hf j); [now apply H2|destruct Hr; auto].
  - intros j. destruct (K2 j) as [E|(v' & Hr' & Hv')].
    + destruct (K1 j) as [E1|(v1 & Hr1 & Hv1)].
      * left. congruence.
      * right. exists v1. split; [now left|congruence].
    + right. exists v'. split; [now right|assumption].
Qed.

(** A loop whose iterations store at different places. *)
Lemma scatters_for {St : Type} (proj : St -> list F) (Rtot : Z -> F -> Prop)
    (R : Z -> Z -> F -> Prop) (lo hi : Z) (body : Z -> St -> St) :
  functional Rtot ->
  (forall i j v, lo <= i < hi -> R i j v -> Rtot j v) ->
  (forall i, lo <= i < hi -> scatters proj (R i) (body i)) ->
  scatters proj (fun j v => exists i, lo <= i < hi /\ R i j v) (for_ lo hi body).
Proof.
  intros Hf Hin Hb s.
  destruct (Z_le_gt_dec lo hi) as [Hle|Hgt].
  2:{ rewrite for_nop by lia. split; [reflexivity|]. split.
      - intros j v (i & Hi & _). lia.
      - intros j. now left. }
  apply (for_invariant
           (fun k s' =>
              alen (proj s') = alen (proj s)
              /\ (forall j v, (exists i, lo <= i < k /\ R i j v) ->
                    0 <= j < alen (proj s) -> aget (proj s') j = v)
              /\ (forall j, aget (proj s') j = aget (proj s) j
                    \/ exists v, (exists i, lo <= i < k /\ R i j v)
                                 /\ aget (proj s') j = v))); [assumption| |].
  - split; [reflexivity|]. split.
    + intros j v (i & Hi & _). lia.
    + intros j. now left.
  - intros k s' Hk (L & W & K).
    destruct (Hb k Hk s') as (L' & W' & K').
    split; [congruence|]. split.
    + intros j v (i & Hi & Hr) Hj.
      destruct (K' j) as [E|(v' & Hr' & Hv')].
      * destruct (Z.eq_dec i k) as [->|Hne].
        -- apply W'; [assumption|]. now rewrite L.
        -- rewrite E. apply W; [|assumption]. exists i. split; [lia|assumption].
      * rewrite Hv'. apply (Hf j); [apply (Hin k); assumption|].
        apply (Hin i); [lia|assumption].
    + intros j. destruct (K' j) as [E|(v' & Hr' & Hv')].
      * destruct (K j) as [E1|(v1 & (i & Hi & Hr1) & Hv1)].
        -- left. congruence.
        -- right. exists v1. split; [|congruence].
           exists i. split; [lia|assumption].
      * right. exists v'. split; [|assumption].
        exists k. split; [lia|assumption].
Qed.

(** What a scattering loop leaves in a fresh array. *)
Lemma scatters_zeros {St : Type} (proj : St -> list F) (R : Z -> F -> Prop)
    (w : St -> St) (s : St) (n : Z) :
  scatters proj R w ->
  proj s = zeros n ->
  0 <= n ->
  alen (proj (w s)) = n
  /\ (forall j v, R j v -> 0 <= j < n -> aget (proj (w s)) j = v)
  /\ (forall j, 0 <= j < n -> (forall v, ~ R j v) -> aget (proj (w s)) j = fzero).
Proof.
  intros H Hs Hn. destruct (H s) as (L & W & K).
  rewrite Hs, alen_zeros in * by assumption.
  split; [assumption|]. split; [assumption|].
  intros j Hj Hno. destruct (K j) as [E|(v & Hr & _)].
  - rewrite E. now apply aget_zeros.
  - now destruct (Hno v).
Qed.

End Scatter.

(** ** Row-major indices *)

Lemma index_bound (x X y Y : Z) : 0 <= x < X -> 0 <= y < Y -> 0 <= x * Y + y < X * Y.
Proof. intros Hx Hy. nia. Qed.

Lemma index_inj (x x' y y' Y : Z) :
  0 <= y < Y -> 0 <= y' < Y -> x * Y + y = x' * Y + y' -> x = x' /\ y = y'.
Proof.
  intros Hy Hy' E.
  assert (Hx : x = x').
  { destruct (Z.eq_dec x x') as [|Hne]; [assumption|exfalso].
    assert (H : x - x' >= 1 \/ x - x' <= -1) by lia.
    destruct H; nia. }
  subst x'. split; [reflexivity|lia].
Qed.

Lemma index_split (j X Y : Z) :
  0 <= j < X * Y -> 0 <= X ->
  exists x y, 0 <= x < X /\ 0 <= y < Y /\ j = x * Y + y.
Proof.
  intros Hj HX.
  assert (HY : 0 < Y) by nia.
  exists (j / Y), (j mod Y).
  pose proof (Z.mod_pos_bound j Y HY).
  pose proof (Z.div_mod j Y ltac:(lia)).
  split; [|split; [assumption|lia]].
  split; [apply Z.div_pos; lia|].
  apply Z.div_lt_upper_bound; lia.
Qed.

(** ** Channel interleaving *)

Section Interleave.
Context {F : Type} {CF : Cell F}.

(** [magnitude] stores the real part of channel [c] in channel [2c] and
    its imaginary part in channel [2c + 1]. *)
Lemma magnitude_spec (z : ComplexTensor F) (B C Fr T : Z) :
  shape (real z) = [B; C; Fr; T] ->
  0 <= B -> 0 <= C -> 0 <= Fr -> 0 <= T ->
  exists out,
    magnitude z = Ok (mkTensor out [B; C * 2; Fr; T])
    /\ alen out = B * C * 2 * Fr * T
    /\ forall b c fr t,
         0 <= b < B -> 0 <= c < C -> 0 <= fr < Fr -> 0 <= t < T ->
         aget out (((b * (C * 2) + c * 2) * Fr + fr) * T + t)
         = aget (data (real z)) (((b * C + c) * Fr + fr) * T + t)
         /\ aget out (((b * (C * 2) + (c * 2 + 1)) * Fr + fr) * T + t)
            = aget (data (imag z)) (((b * C + c) * Fr + fr) * T + t).
Proof.
  intros Hs HB HC HFr HT. unfold magnitude. rewrite Hs. cbn [dim nth].
  rewrite alloc_ok by nia. cbn [bind].
  set (Rtot := fun (j : Z) (v : F) =>
    exists b c fr t, (0 <= b < B /\ 0 <= c < C /\ 0 <= fr < Fr /\ 0 <= t < T)
      /\ ((j = ((b * (C * 2) + c * 2) * Fr + fr) * T + t
           /\ v = aget (data (real z)) (((b * C + c) * Fr + fr) * T + t))
          \/ (j = ((b * (C * 2) + (c * 2 + 1)) * Fr + fr) * T + t
              /\ v = aget (data (imag z)) (((b * C + c) * Fr + fr) * T + t)))).
  assert (Hf : functional Rtot).
  { intros j v v' (b & c & fr & t & Hr & Hv) (b' & c' & fr' & t' & Hr' & Hv').
    assert (E : b = b' /\ c = c' /\ fr = fr' /\ t = t'
                /\ ((v = aget (data (real z)) (((b * C + c) * Fr + fr) * T + t)
                     /\ v' = aget (data (real z)) (((b' * C + c') * Fr + fr') * T + t'))
                    \/ (v = aget (data (imag z)) (((b * C + c) * Fr + fr) * T + t)
                        /\ v' = aget (data (imag z)) (((b' * C + c') * Fr + fr') * T + t')))).
    { destruct Hv as [[Hj Hv]|[Hj Hv]], Hv' as [[Hj' Hv']|[Hj' Hv']];
        rewrite Hj in Hj';
        apply index_inj in Hj'; try lia; destruct Hj' as [Hj' ?];
        apply index_inj in Hj'; try lia; destruct Hj' as [Hj' ?];
        assert (b = b') by nia; subst b';
        assert (c = c' \/ c <> c') as [?|?] by lia; try lia; subst; tauto. }
    destruct E as (-> & -> & -> & -> & [[-> ->]|[-> ->]]); reflexivity. }
  eexists. split; [reflexivity|].
  match goal with
  | |- alen (?w (zeros ?n)) = _ /\ _ =>
      assert (S : scatters (fun a => a) Rtot w)
  end.
  { eapply scatters_equiv; cycle 1.
    - eapply (scatters_for (fun a => a) Rtot); [exact Hf| |]; cycle 1.
      + intros b Hb.
        eapply (scatters_for (fun a => a) Rtot); [exact Hf| |]; cycle 1.
        * intros c Hc.
          eapply (scatters_for (fun a => a) Rtot); [exact Hf| |]; cycle 1.
          -- intros fr Hfr.
             eapply (scatters_for (fun a => a) Rtot); [exact Hf| |]; cycle 1.
             ++ intros t Ht. cbv beta zeta.
                eapply (scatters_seq (fun a => a) Rtot
                          (fun j v => j = b * (C * 2) * Fr * T + c * 2 * Fr * T + fr * T + t
                                      /\ v = aget (data (real z))
                                               (b * C * Fr * T + c * Fr * T + fr * T + t))
                          (fun j v => j = b * (C * 2) * Fr * T + (c * 2 + 1) * Fr * T + fr * T + t
                                      /\ v = aget (data (imag z))
                                               (b * C * Fr * T + c * Fr * T + fr * T + t))
                          (fun a => aset a _ _) (fun a => aset a _ _));
                  [exact Hf| | |apply scatters_aset|apply scatters_aset].
                ** intros j v [-> ->]. exists b, c, fr, t. split; [lia|]. left.
                   split; [ring|f_equal; ring].
                ** intros j v [-> ->]. exists b, c, fr, t. split; [lia|]. right.
                   split; [ring|f_equal; ring].
             ++ cbv beta. intros t j v Ht [[-> ->]|[-> ->]];
                  exists b, c, fr, t; (split; [lia|]); [left|right];
                  (split; [ring|f_equal; ring]).
          -- cbv beta. intros fr j v Hfr (t & Ht & [[-> ->]|[-> ->]]);
               exists b, c, fr, t; (split; [lia|]); [left|right];
               (split; [ring|f_equal; ring]).
        * cbv beta. intros c j v Hc (fr & Hfr & t & Ht & [[-> ->]|[-> ->]]);
            exists b, c, fr, t; (split; [lia|]); [left|right];
            (split; [ring|f_equal; ring]).
      + cbv beta. intros b j v Hb (c & Hc & fr & Hfr & t & Ht & [[-> ->]|[-> ->]]);
          exists b, c, fr, t; (split; [lia|]); [left|right];
          (split; [ring|f_equal; ring]).
    - cbv beta. intros j v. split.
      + intros (b & Hb & c & Hc & fr & Hfr & t & Ht & [[-> ->]|[-> ->]]);
          exists b, c, fr, t; (split; [lia|]); [left|right];
          (split; [ring|f_equal; ring]).
      + intros (b & c & fr & t & (Hb & Hc & Hfr & Ht) & H).
        exists b. split; [lia|]. exists c. split; [lia|].
        exists fr. split; [lia|]. exists t. split; [lia|].
        destruct H as [[-> ->]|[-> ->]]; [left|right];
          (split; [ring|f_equal; ring]). }
  destruct (scatters_zeros (fun a => a) Rtot _ (zeros (B * C * 2 * Fr * T))
              (B * C * 2 * Fr * T) S eq_refl ltac:(nia)) as (L & W & _).
  split; [exact L|].
  intros b c fr t Hb Hc Hfr Ht.
  assert (Hi : forall ch, 0 <= ch < C * 2 ->
            0 <= ((b * (C * 2) + ch) * Fr + fr) * T + t < B * C * 2 * Fr * T).
  { intros ch Hch.
    replace (B * C * 2 * Fr * T) with (((B * (C * 2)) * Fr) * T) by ring.
    apply index_bound; [|lia]. apply index_bound; [|lia]. apply index_bound; lia. }
  split; (apply W; [|apply Hi; lia]); exists b, c, fr, t; (split; [lia|]);
    [left|right]; split; reflexivity.
Qed.

End Interleave.

(** Descent through a nest of storing loops: [inner] handles the body of
    the innermost loop, and every level is included in [Rtot] by naming
    the loop counters. *)
Ltac scatter_incl :=
  cbv beta; intros;
  repeat match goal with
         | H : exists _, _ |- _ => destruct H
         | H : _ /\ _ |- _ => destruct H
         | H : ?x = _ |- _ => subst x
         end;
  hnf;
  repeat match goal with |- exists _, _ => eexists end;
  (split; [|split; reflexivity]); lia.

Ltac scatter_nest proj Rtot Hf inner :=
  cbv beta;
  lazymatch goal with
  | |- scatters _ _ (for_ _ _ _) =>
      eapply (scatters_for proj Rtot); [exact Hf| |]; cycle 1;
      [ intros ? ?; scatter_nest proj Rtot Hf inner | scatter_incl ]
  | |- scatters _ _ (fun acc => for_ _ _ _ acc) =>
      eapply (scatters_for proj Rtot); [exact Hf| |]; cycle 1;
      [ intros ? ?; scatter_nest proj Rtot Hf inner | scatter_incl ]
  | |- _ => cbv beta zeta; inner
  end.

Section Deinterleave.
Context {F : Type} {CF : Cell F}.

(** [mask] reads the real part of channel [c] from channel [2c] and its
    imaginary part from channel [2c + 1]. *)
Lemma mask_spec (m : Tensor F) (B S C Fr T : Z) :
  shape m = [B; S; C * 2; Fr; T] ->
  0 <= B -> 0 <= S -> 0 <= C -> 0 <= Fr -> 0 <= T ->
  exists ro io,
    mask m = Ok (mkComplex (mkTensor ro [B; S; C; Fr; T]) (mkTensor io [B; S; C; Fr; T]))
    /\ alen ro = B * S * C * Fr * T
    /\ alen io = B * S * C * Fr * T
    /\ forall b s c fr t,
         0 <= b < B -> 0 <= s < S -> 0 <= c < C -> 0 <= fr < Fr -> 0 <= t < T ->
         aget ro ((((b * S + s) * C + c) * Fr + fr) * T + t)
         = aget (data m) ((((b * S + s) * (C * 2) + c * 2) * Fr + fr) * T + t)
         /\ aget io ((((b * S + s) * C + c) * Fr + fr) * T + t)
            = aget (data m) ((((b * S + s) * (C * 2) + (c * 2 + 1)) * Fr + fr) * T + t).
Proof.
  intros Hs HB HS HC HFr HT. unfold mask. rewrite Hs. cbn [dim nth].
  rewrite Z.div_mul by lia.
  assert (Hp : product [B; S; C; Fr; T] = B * S * C * Fr * T).
  { rewrite !product_cons, product_nil. ring. }
  rewrite Hp, alloc_ok by nia. cbn [bind].
  set (N := B * S * C * Fr * T).
  set (Rre := fun (j : Z) (v : F) =>
    exists b s c fr t,
      (0 <= b < B /\ 0 <= s < S /\ 0 <= c < C /\ 0 <= fr < Fr /\ 0 <= t < T)
      /\ j = b * S * C * Fr * T + s * C * Fr * T + c * Fr * T + fr * T + t
      /\ v = aget (data m)
               (b * S * (C * 2) * Fr * T + s * (C * 2) * Fr * T + c * 2 * Fr * T
                + fr * T + t)).
  set (Rim := fun (j : Z) (v : F) =>
    exists b s c fr t,
      (0 <= b < B /\ 0 <= s < S /\ 0 <= c < C /\ 0 <= fr < Fr /\ 0 <= t < T)
      /\ j = b * S * C * Fr * T + s * C * Fr * T + c * Fr * T + fr * T + t
      /\ v = aget (data m)
               (b * S * (C * 2) * Fr * T + s * (C * 2) * Fr * T + (c * 2 + 1) * Fr * T
                + fr * T + t)).
  assert (Hinj : forall b s c fr t b' s' c' fr' t',
            0 <= s < S -> 0 <= c < C -> 0 <= fr < Fr -> 0 <= t < T ->
            0 <= s' < S -> 0 <= c' < C -> 0 <= fr' < Fr -> 0 <= t' < T ->
            b * S * C * Fr * T + s * C * Fr * T + c * Fr * T + fr * T + t
            = b' * S * C * Fr * T + s' * C * Fr * T + c' * Fr * T + fr' * T + t' ->
            b = b' /\ s = s' /\ c = c' /\ fr = fr' /\ t = t').
  { intros b s c fr t b' s' c' fr' t' ? ? ? ? ? ? ? ? E.
    replace (b * S * C * Fr * T + s * C * Fr * T + c * Fr * T + fr * T + t)
      with ((((b * S + s) * C + c) * Fr + fr) * T + t) in E by ring.
    replace (b' * S * C * Fr * T + s' * C * Fr * T + c' * Fr * T + fr' * T + t')
      with ((((b' * S + s') * C + c') * Fr + fr') * T + t') in E by ring.
    apply index_inj in E; try lia. destruct E as [E ?].
    apply index_inj in E; try lia. destruct E as [E ?].
    apply index_inj in E; try lia. destruct E as [E ?].
    apply index_inj in E; try lia. }
  assert (Hfre : functional Rre).
  { intros j v v' (b & s & c & fr & t & Hr & Hj & Hv)
           (b' & s' & c' & fr' & t' & Hr' & Hj' & Hv').
    rewrite Hj in Hj'. apply Hinj in Hj'; try lia.
    destruct Hj' as (<- & <- & <- & <- & <-). congruence. }
  assert (Hfim : functional Rim).
  { intros j v v' (b & s & c & fr & t & Hr & Hj & Hv)
           (b' & s' & c' & fr' & t' & Hr' & Hj' & Hv').
    rewrite Hj in Hj'. apply Hinj in Hj'; try lia.
    destruct Hj' as (<- & <- & <- & <- & <-). congruence. }
  match goal with
  | |- context [for_ 0 B ?body (zeros N, zeros N)] =>
      set (w := for_ 0 B body);
      assert (Sre : scatters fst
                      (fun j v => exists b, 0 <= b < B /\ exists s, 0 <= s < S
                         /\ exists c, 0 <= c < C /\ exists fr, 0 <= fr < Fr
                         /\ exists t, 0 <= t < T
                         /\ j = b * S * C * Fr * T + s * C * Fr * T + c * Fr * T
                                + fr * T + t
                         /\ v = aget (data m)
                                  (b * S * (C * 2) * Fr * T + s * (C * 2) * Fr * T
                                   + c * 2 * Fr * T + fr * T + t)) w)
        by (subst w; scatter_nest (@fst (list F) (list F)) Rre Hfre
              ltac:(apply scatters_aset_fst));
      assert (Sim : scatters snd
                      (fun j v => exists b, 0 <= b < B /\ exists s, 0 <= s < S
                         /\ exists c, 0 <= c < C /\ exists fr, 0 <= fr < Fr
                         /\ exists t, 0 <= t < T
                         /\ j = b * S * C * Fr * T + s * C * Fr * T + c * Fr * T
                                + fr * T + t
                         /\ v = aget (data m)
                                  (b * S * (C * 2) * Fr * T + s * (C * 2) * Fr * T
                                   + (c * 2 + 1) * Fr * T + fr * T + t)) w)
        by (subst w; scatter_nest (@snd (list F) (list F)) Rim Hfim
              ltac:(apply scatters_aset_snd))
  end.
  assert (HN : 0 <= N) by (subst N; nia).
  destruct (scatters_zeros fst _ w (zeros N, zeros N) N Sre eq_refl HN) as (Lr & Wr & _).
  destruct (scatters_zeros snd _ w (zeros N, zeros N) N Sim eq_refl HN) as (Li & Wi & _).
  destruct (w (zeros N, zeros N)) as [ro io]. cbn [fst snd] in *.
  exists ro, io. split; [reflexivity|]. split; [exact Lr|]. split; [exact Li|].
  intros b s c fr t Hb Hs' Hc Hfr Ht.
  assert (Hi : 0 <= (((b * S + s) * C + c) * Fr + fr) * T + t < N).
  { subst N. replace (B * S * C * Fr * T) with ((((B * S) * C) * Fr) * T) by ring.
    apply index_bound; [|lia]. apply index_bound; [|lia].
    apply index_bound; [|lia]. apply index_bound; lia. }
  split.
  - apply Wr; [|exact Hi].
    exists b; split; [lia|]. exists s; split; [lia|]. exists c; split; [lia|].
    exists fr; split; [lia|]. exists t; split; [lia|].
    split; [ring|f_equal; ring].
  - apply Wi; [|exact Hi].
    exists b; split; [lia|]. exists s; split; [lia|]. exists c; split; [lia|].
    exists fr; split; [lia|]. exists t; split; [lia|].
    split; [ring|f_equal; ring].
Qed.

End Deinterleave.

(** C6, as the source has it: [magnitude] reads four dimensions and
    returns a tensor of four, [mask] reads five, so the plain composition
    finds no fifth dimension and returns empty buffers.  Here [z] has the
    shape [[1, 1, 2, 1, 1]], real part [[1, 2]] and imaginary part
    [[3, 4]]. *)
Lemma mask_of_magnitude_loses_the_tensor :
  let z := mkComplex (mkTensor [Some 1; Some 2] [1; 1; 2; 1; 1])
                     (mkTensor [Some 3; Some 4] [1; 1; 2; 1; 1]) in
  magnitude z = Ok (mkTensor [Some 1; Some 2; Some 3; Some 4] [1; 2; 2; 1])
  /\ exists z',
       (m <- magnitude z ;; mask m) = Ok z'
       /\ data (real z') = []
       /\ data (imag z') = []
       /\ z' <> z.
Proof.
  split; [reflexivity|].
  eexists. split; [reflexivity|].
  split; [reflexivity|]. split; [reflexivity|]. discriminate.
Qed.

(** C6, amended.  For a complex tensor [z] of shape [[B, S, C, Fr, T]],
    take [magnitude] of [z] seen as [[B*S, C, Fr, T]] (the same buffers,
    batch and source dimensions taken together) and [mask] of the result
    seen as [[B, S, 2*C, Fr, T]]: this gives back [z], buffers and shape,
    exactly. *)
Theorem mask_inverts_magnitude {F : Type} {CF : Cell F}
    (z : ComplexTensor F) (B S C Fr T : Z) :
  shape (real z) = [B; S; C; Fr; T] ->
  shape (imag z) = [B; S; C; Fr; T] ->
  alen (data (real z)) = B * S * C * Fr * T ->
  alen (data (imag z)) = B * S * C * Fr * T ->
  0 <= B -> 0 <= S -> 0 <= C -> 0 <= Fr -> 0 <= T ->
  exists m,
    magnitude (mkComplex (mkTensor (data (real z)) [B * S; C; Fr; T])
                         (mkTensor (data (imag z)) [B * S; C; Fr; T])) = Ok m
    /\ shape m = [B * S; C * 2; Fr; T]
    /\ mask (mkTensor (data m) [B; S; C * 2; Fr; T]) = Ok z.
Proof.
  intros Hsr Hsi Hlr Hli HB HS HC HFr HT.
  destruct (magnitude_spec
              (mkComplex (mkTensor (data (real z)) [B * S; C; Fr; T])
                         (mkTensor (data (imag z)) [B * S; C; Fr; T]))
              (B * S) C Fr T eq_refl ltac:(nia) HC HFr HT) as (out & Hm & Lm & Wm).
  cbn [real imag data] in Wm.
  exists (mkTensor out [B * S; C * 2; Fr; T]).
  split; [exact Hm|]. split; [reflexivity|]. cbn [data].
  destruct (mask_spec (mkTensor out [B; S; C * 2; Fr; T]) B S C Fr T
              eq_refl HB HS HC HFr HT) as (ro & io & Hk & Lr & Li & Wk).
  cbn [data] in Wk. rewrite Hk.
  assert (Hdec : forall j, 0 <= j < B * S * C * Fr * T ->
            exists b s c fr t,
              (0 <= b < B /\ 0 <= s < S /\ 0 <= c < C /\ 0 <= fr < Fr /\ 0 <= t < T)
              /\ j = (((b * S + s) * C + c) * Fr + fr) * T + t).
  { intros j Hj.
    destruct (index_split j (B * S * C * Fr) T Hj ltac:(nia)) as (x1 & t & H1 & Ht & ->).
    destruct (index_split x1 (B * S * C) Fr H1 ltac:(nia)) as (x2 & fr & H2 & Hfr & ->).
    destruct (index_split x2 (B * S) C H2 ltac:(nia)) as (x3 & c & H3 & Hc & ->).
    destruct (index_split x3 B S H3 HB) as (b & s & Hb & Hs & ->).
    exists b, s, c, fr, t. split; [lia|reflexivity]. }
  assert (Er : ro = data (real z)).
  { apply array_ext; [congruence|]. intros j Hj. rewrite Lr in Hj.
    destruct (Hdec j Hj) as (b & s & c & fr & t & (Hb & Hs & Hc & Hfr & Ht) & ->).
    destruct (Wk b s c fr t Hb Hs Hc Hfr Ht) as [-> _].
    assert (Hbs : 0 <= b * S + s < B * S) by (apply index_bound; lia).
    now destruct (Wm (b * S + s) c fr t Hbs Hc Hfr Ht) as [-> _]. }
  assert (Ei : io = data (imag z)).
  { apply array_ext; [congruence|]. intros j Hj. rewrite Li in Hj.
    destruct (Hdec j Hj) as (b & s & c & fr & t & (Hb & Hs & Hc & Hfr & Ht) & ->).
    destruct (Wk b s c fr t Hb Hs Hc Hfr Ht) as [_ ->].
    assert (Hbs : 0 <= b * S + s < B * S) by (apply index_bound; lia).
    now destruct (Wm (b * S + s) c fr t Hbs Hc Hfr Ht) as [_ ->]. }
  subst ro io. destruct z as [[dr sr] [di si]]. cbn in *. now subst.
Qed.

(** C6 on the tensor of the example above. *)
Lemma mask_inverts_magnitude_witness :
  let z := mkComplex (mkTensor [Some 1; Some 2] [1; 1; 2; 1; 1])
                     (mkTensor [Some 3; Some 4] [1; 1; 2; 1; 1]) in
  exists m,
    magnitude (mkComplex (mkTensor [Some 1; Some 2] [1 * 1; 2; 1; 1])
                         (mkTensor [Some 3; Some 4] [1 * 1; 2; 1; 1])) = Ok m
    /\ shape m = [1 * 1; 2 * 2; 1; 1]
    /\ mask (mkTensor (data m) [1; 1; 2 * 2; 1; 1]) = Ok z.
Proof.
  intros z.
  apply (mask_inverts_magnitude z 1 1 2 1 1); try reflexivity; lia.
Defined.

(** ** 32-bit operators on small numbers *)

Lemma toInt32_small (x : Z) : - 2 ^ 31 <= x < 2 ^ 31 -> toInt32 x = x.
Proof.
  intros H. unfold toInt32.
  rewrite Z.mod_small by lia. lia.
Qed.

Lemma sar32_1 (x : Z) : 0 <= x < 2 ^ 31 -> sar32 x 1 = x / 2.
Proof.
  intros H. unfold sar32. rewrite toInt32_small by lia.
  change (1 mod 32) with 1. now rewrite Z.shiftr_div_pow2 by lia.
Qed.

Lemma shl32_1 (x : Z) : 0 <= x < 2 ^ 30 -> shl32 x 1 = 2 * x.
Proof.
  intros H. unfold shl32. rewrite (toInt32_small x) by lia.
  change (1 mod 32) with 1. rewrite Z.shiftl_mul_pow2 by lia.
  rewrite toInt32_small; lia.
Qed.

Lemma and32_pred (n : Z) : 0 <= n < 2 ^ 31 -> and32 n (n - 1) = Z.land n (n - 1).
Proof. intros H. unfold and32. now rewrite !toInt32_small by lia. Qed.

Lemma land_double (a c : Z) (b d : bool) :
  Z.land (2 * a + Z.b2z b) (2 * c + Z.b2z d) = 2 * Z.land a c + Z.b2z (b && d).
Proof.
  apply Z.bits_inj'. intros k Hk. rewrite Z.land_spec.
  destruct (Z.eq_dec k 0) as [->|Hne].
  - now rewrite !Z.testbit_0_r.
  - replace k with (Z.succ (k - 1)) by lia.
    rewrite !Z.testbit_succ_r by lia. now rewrite Z.land_spec.
Qed.

(** [n & (n - 1)] is 0 exactly on the powers of two, among the positive
    numbers. *)
Lemma land_pred_pow2 (p : positive) :
  Z.land (Z.pos p) (Z.pos p - 1) = 0 <-> exists m, 0 <= m /\ Z.pos p = 2 ^ m.
Proof.
  induction p as [p IH|p IH|].
  - (* 2p + 1 *)
    replace (Z.pos p~1) with (2 * Z.pos p + Z.b2z true) by (cbn [Z.b2z]; lia).
    replace (2 * Z.pos p + Z.b2z true - 1) with (2 * Z.pos p + Z.b2z false) by (cbn [Z.b2z]; lia).
    rewrite land_double, Z.land_diag. cbn [andb Z.b2z]. split; [lia|].
    intros (m & Hm & E). exfalso.
    destruct (Z.eq_dec m 0) as [->|Hne]; [cbn in E; lia|].
    replace m with (Z.succ (m - 1)) in E by lia.
    rewrite Z.pow_succ_r in E by lia. lia.
  - (* 2p *)
    replace (Z.pos p~0) with (2 * Z.pos p + Z.b2z false) by (cbn [Z.b2z]; lia).
    replace (2 * Z.pos p + Z.b2z false - 1)
      with (2 * (Z.pos p - 1) + Z.b2z true) by (cbn [Z.b2z]; lia).
    rewrite land_double. cbn [andb Z.b2z]. split.
    + intros H. destruct IH as [IH _].
      destruct IH as (m & Hm & E); [lia|].
      exists (Z.succ m). split; [lia|]. rewrite Z.pow_succ_r by lia. lia.
    + intros (m & Hm & E).
      destruct (Z.eq_dec m 0) as [->|Hne]; [cbn in E; lia|].
      replace m with (Z.succ (m - 1)) in E by lia.
      rewrite Z.pow_succ_r in E by lia.
      destruct IH as [_ IH]. rewrite IH; [lia|].
      exists (m - 1). split; lia.
  - split; [intros _; exists 0; split; [lia|reflexivity]|reflexivity].
Qed.

Lemma pow2_check (n : Z) :
  0 < n < 2 ^ 31 -> (and32 n (n - 1) = 0 <-> exists m, 0 <= m /\ n = 2 ^ m).
Proof.
  intros H. rewrite and32_pred by lia.
  destruct n as [|p|p]; try lia. apply land_pred_pow2.
Qed.

Lemma pow2_check_pow (m : Z) : 0 <= m < 31 -> and32 (2 ^ m) (2 ^ m - 1) = 0.
Proof.
  intros H. apply pow2_check.
  - split; [apply Z.pow_pos_nonneg; lia|apply Z.pow_lt_mono_r; lia].
  - exists m. split; [lia|reflexivity].
Qed.

(** ** The size check of [fft] *)

Section FftCheck.
Context {F : Type} {SF : Scalar F}.

(** C8, on the empty array: 0 is not a power of two, and [fft] returns
    (two empty arrays) instead of throwing, because [0 & -1] is 0. *)
Theorem fft_accepts_the_empty_array (fuel : nat) :
  and32 0 (0 - 1) = 0
  /\ (forall m, 0 <= m -> 0 <> 2 ^ m)
  /\ fft (S fuel) ([] : list F) None = Ok ([], []).
Proof.
  split; [reflexivity|]. split; [|reflexivity].
  intros m Hm. pose proof (Z.pow_pos_nonneg 2 m). lia.
Qed.

(** On the other lengths the check is the one that is meant: [fft]
    throws its size error on every length that is not a power of two. *)
Lemma fft_rejects_non_powers (fuel : nat) (realInput : list F) (imagInput : option (list F)) :
  0 < alen realInput < 2 ^ 31 ->
  ~ (exists m, 0 <= m /\ alen realInput = 2 ^ m) ->
  fft fuel realInput imagInput = Throw (Error "FFT size must be power of 2").
Proof.
  intros Hn Hnot. unfold fft.
  destruct (Z.eqb_spec (and32 (alen realInput) (alen realInput - 1)) 0) as [E|E].
  - apply pow2_check in E; [contradiction|assumption].
  - reflexivity.
Qed.

End FftCheck.

(** ** The loops of [fft] *)

(** A [while] loop that goes through the states [g 0], [g 1], ... and
    leaves at [g count]. *)
Lemma while_counted {St : Type} (cond : St -> bool) (body : St -> result St) (count : nat) :
  forall (fuel : nat) (g : nat -> St),
    (forall k, (k < count)%nat -> cond (g k) = true /\ body (g k) = Ok (g (S k))) ->
    cond (g count) = false ->
    (count < fuel)%nat ->
    while_ fuel cond body (g O) = Ok (g count).
Proof.
  induction count as [|count IH]; intros fuel g Hstep Hend Hfuel.
  - destruct fuel as [|fuel]; [lia|]. cbn [while_]. now rewrite Hend.
  - destruct fuel as [|fuel]; [lia|]. cbn [while_].
    destruct (Hstep O ltac:(lia)) as [-> ->]. cbn [bind].
    apply (IH fuel (fun k => g (S k))); [|assumption|lia].
    intros k Hk. apply Hstep. lia.
Qed.

Lemma rev_bits_bound (m : nat) : forall x, 0 <= rev_bits m x < 2 ^ Z.of_nat m.
Proof.
  induction m as [|m IH]; intros x; cbn [rev_bits].
  - cbn. lia.
  - rewrite Nat2Z.inj_succ, Z.pow_succ_r by lia.
    specialize (IH (x / 2)). pose proof (Z.mod_pos_bound x 2 ltac:(lia)). nia.
Qed.

(** The inner loop of the bit-reversal permutation takes the reversal of
    [i] to the reversal of [i + 1]. *)
Lemma bitrev_counter (m : nat) :
  forall (i : Z) (fuel : nat),
    (m <= 31)%nat -> 0 <= i -> i + 1 < 2 ^ Z.of_nat m -> (m <= fuel)%nat ->
    exists j' k',
      while_ fuel (fun '(j, k) => k <=? j) (fun '(j, k) => Ok (j - k, sar32 k 1))
        (rev_bits m i, 2 ^ (Z.of_nat m - 1)) = Ok (j', k')
      /\ j' + k' = rev_bits m (i + 1).
Proof.
  induction m as [|m IH]; intros i fuel Hm Hi Hlt Hfuel.
  - cbn in Hlt. lia.
  - destruct fuel as [|fuel]; [lia|].
    replace (Z.of_nat (S m) - 1) with (Z.of_nat m) by lia.
    rewrite Nat2Z.inj_succ, Z.pow_succ_r in Hlt by lia.
    cbn [rev_bits while_].
    pose proof (rev_bits_bound m (i / 2)) as Hb.
    pose proof (Z.div_mod i 2 ltac:(lia)) as Hdm.
    pose proof (Z.mod_pos_bound i 2 ltac:(lia)) as Hmod.
    assert (Hcase : i mod 2 = 0 \/ i mod 2 = 1) by lia.
    destruct Hcase as [E|E]; rewrite E.
    + destruct (Z.leb_spec (2 ^ Z.of_nat m) (0 * 2 ^ Z.of_nat m + rev_bits m (i / 2))); [lia|].
      eexists _, _. split; [reflexivity|].
      replace ((i + 1) mod 2) with 1 by (apply (Z.mod_unique_pos _ 2 (i / 2)); lia).
      replace ((i + 1) / 2) with (i / 2)
        by (apply (Z.div_unique_pos _ 2 (i / 2) 1); lia).
      lia.
    + destruct (Z.leb_spec (2 ^ Z.of_nat m) (1 * 2 ^ Z.of_nat m + rev_bits m (i / 2))); [|lia].
      cbn [bind].
      assert (Hm1 : (1 <= m)%nat).
      { destruct m; [cbn in Hlt; lia|lia]. }
      assert (Hp : 2 ^ Z.of_nat m = 2 * 2 ^ (Z.of_nat m - 1)).
      { rewrite <- Z.pow_succ_r by lia. f_equal. lia. }
      assert (Hk : sar32 (2 ^ Z.of_nat m) 1 = 2 ^ (Z.of_nat m - 1)).
      { rewrite sar32_1.
        - rewrite Hp at 1. rewrite Z.mul_comm. apply Z.div_mul. lia.
        - split; [apply Z.pow_nonneg; lia|apply Z.pow_lt_mono_r; lia]. }
      rewrite Hk.
      replace (1 * 2 ^ Z.of_nat m + rev_bits m (i / 2) - 2 ^ Z.of_nat m)
        with (rev_bits m (i / 2)) by lia.
      destruct (IH (i / 2) fuel) as (j' & k' & Hw & Hjk); try lia.
      exists j', k'. split; [exact Hw|].
      rewrite Hjk.
      replace ((i + 1) mod 2) with 0 by (apply (Z.mod_unique_pos _ 2 (i / 2 + 1)); lia).
      replace ((i + 1) / 2) with (i / 2 + 1)
        by (apply (Z.div_unique_pos _ 2 (i / 2 + 1) 0); lia).
      lia.
Qed.

Section FftLoops.
Context {F : Type} {SF : Scalar F}.

Lemma pow2_pos (m : nat) : 0 < 2 ^ Z.of_nat m.
Proof. apply Z.pow_pos_nonneg; lia. Qed.

Lemma pow2_le_mono (a b : Z) : 0 <= a <= b -> 2 ^ a <= 2 ^ b.
Proof. intros H. apply Z.pow_le_mono_r; lia. Qed.

Lemma rev_bits_0 (m : nat) : rev_bits m 0 = 0.
Proof.
  induction m as [|m IH]; cbn [rev_bits]; [reflexivity|].
  change (0 / 2) with 0. change (0 mod 2) with 0. rewrite IH. lia.
Qed.

Lemma pow2_succ (k : Z) : 0 <= k -> 2 ^ (k + 1) = 2 * 2 ^ k.
Proof. intros H. now rewrite Z.pow_add_r, Z.pow_1_r, Z.mul_comm by lia. Qed.

(** On [2^m] samples, with fuel for its loops, [fft] runs the counted
    loops of [fft_loops]. *)
Lemma fft_eval (m : nat) (fuel : nat) (realInput imag : list F) :
  (m <= 29)%nat ->
  alen realInput = 2 ^ Z.of_nat m ->
  (Z.to_nat (2 ^ Z.of_nat m) <= fuel)%nat ->
  fft fuel realInput (Some imag) = Ok (fft_loops m realInput imag).
Proof.
  intros Hm Hn Hfuel.
  pose proof (pow2_pos m) as Hpos.
  assert (Hmn : Z.of_nat m < 2 ^ Z.of_nat m) by (apply Z.pow_gt_lin_r; lia).
  assert (Hsmall : 2 ^ Z.of_nat m <= 2 ^ 29) by (apply pow2_le_mono; lia).
  unfold fft. rewrite Hn, pow2_check_pow by lia. cbn [Z.eqb negb bind].
  set (n := 2 ^ Z.of_nat m) in *.
  (* the bit-reversal permutation *)
  match goal with
  | |- context [forM 0 ?hi ?body ?s0] =>
      destruct (forM_invariant
                  (fun i s => s = (for_ 0 i (bitrev_step m) (realInput, imag), rev_bits m i))
                  0 hi body s0) as (s' & E & ->)
  end.
  { lia. }
  { now rewrite for_nop, rev_bits_0 by lia. }
  { intros i s' Hi ->. cbv beta.
    destruct (for_ 0 i (bitrev_step m) (realInput, imag)) as [re im] eqn:Es.
    cbv iota beta.
    assert (Hm1 : (1 <= m)%nat).
    { destruct m; [subst n; cbn in Hi; lia|lia]. }
    assert (Hk : sar32 n 1 = 2 ^ (Z.of_nat m - 1)).
    { rewrite sar32_1 by lia. subst n.
      replace (Z.of_nat m) with (Z.of_nat m - 1 + 1) at 1 by lia.
      rewrite pow2_succ by lia. rewrite Z.mul_comm. apply Z.div_mul. lia. }
    rewrite Hk.
    destruct (bitrev_counter m i fuel) as (j' & k' & Hw & Hjk); try lia.
    rewrite Hw.
    destruct (i <? rev_bits m i) eqn:Ec; cbn [bind];
      (eexists; split; [reflexivity|]);
      rewrite for_last, Es, Hjk by lia; unfold bitrev_step; now rewrite Ec. }
  rewrite E. cbn [bind]. cbv iota beta.
  unfold fft_loops. fold n.
  destruct (for_ 0 (n - 1) (bitrev_step m) (realInput, imag)) as [re0 im0].
  (* the stages *)
  match goal with
  | |- context [while_ fuel ?cond ?body (re0, im0, 2)] =>
      assert (Hw : while_ fuel cond body (re0, im0, 2)
                   = Ok (let s := fft_stages n (Z.of_nat m) (re0, im0) in
                         (fst s, snd s, 2 ^ (Z.of_nat m + 1))))
  end.
  { apply (while_counted _ _ m fuel
             (fun k => let s := fft_stages n (Z.of_nat k) (re0, im0) in
                       (fst s, snd s, 2 ^ (Z.of_nat k + 1)))).
    - intros k Hk. cbv zeta. split.
      { cbv beta iota. apply Z.leb_le. subst n. apply pow2_le_mono. lia. }
      cbv beta iota.
      assert (Hlen : 2 <= 2 ^ (Z.of_nat k + 1) <= n).
      { split; [|subst n; apply pow2_le_mono; lia].
        rewrite pow2_succ by lia. pose proof (pow2_pos k). lia. }
      set (len := 2 ^ (Z.of_nat k + 1)) in *.
      set (S0 := fft_stages n (Z.of_nat k) (re0, im0)).
      rewrite sar32_1, shl32_1 by lia.
      assert (Hdiv : n = (n / len) * len).
      { subst n len. replace (Z.of_nat m) with ((Z.of_nat m - (Z.of_nat k + 1)) + (Z.of_nat k + 1)) at 1 2 by lia.
        rewrite Z.pow_add_r by lia. now rewrite Z.div_mul by lia. }
      assert (Hq : 0 < n / len) by nia.
      match goal with
      | |- context [while_ fuel ?cond ?body (fst S0, snd S0, 0)] =>
          assert (Hb : while_ fuel cond body (fst S0, snd S0, 0)
                       = Ok (let s := fft_stage n len S0 in (fst s, snd s, n)))
      end.
      { unfold fft_stage.
        set (angle := fdiv (fmul (of_Z (-2)) fpi) (of_Z len)).
        set (blk := fun b s => fft_block angle (len / 2) (b * len) s).
        replace n with (Z.of_nat (Z.to_nat (n / len)) * len) at 3 by lia.
        replace (n / len) with (Z.of_nat (Z.to_nat (n / len))) at 1 2 by lia.
        apply (while_counted _ _ (Z.to_nat (n / len)) fuel
                 (fun b => let s := for_ 0 (Z.of_nat b) blk S0 in
                           (fst s, snd s, Z.of_nat b * len))).
        - intros b Hb. cbv zeta beta iota. split; [apply Z.ltb_lt; nia|].
          rewrite Nat2Z.inj_succ, <- Z.add_1_r, for_last by lia.
          destruct (for_ 0 (Z.of_nat b) blk S0) as [re im]. cbn [fst snd].
          unfold blk at 1 2. unfold fft_block, butterfly.
          match goal with
          | |- context [for_ 0 (len / 2) ?f ?s] => destruct (for_ 0 (len / 2) f s) as [[[re' im'] wr] wi]
          end.
          cbn [fst snd]. do 2 f_equal. lia.
        - cbv zeta beta iota. apply Z.ltb_ge. lia.
        - assert (n / len <= n / 2) by (apply Z.div_le_compat_l; lia).
          assert (n / 2 < n) by (apply Z.div_lt; lia). lia. }
      rewrite Hb. cbn [bind]. cbv zeta iota beta.
      rewrite Nat2Z.inj_succ, <- Z.add_1_r.
      assert (Est : fft_stages n (Z.of_nat k + 1) (re0, im0) = fft_stage n len S0)
        by (unfold fft_stages; rewrite for_last by lia; reflexivity).
      rewrite Est. do 2 f_equal.
      subst len. now rewrite (pow2_succ (Z.of_nat k + 1)) by lia.
    - cbv zeta beta iota. apply Z.leb_gt. subst n. apply Z.pow_lt_mono_r; lia.
    - lia. }
  rewrite Hw. cbn [bind]. cbv zeta iota beta.
  now destruct (fft_stages n (Z.of_nat m) (re0, im0)).
Qed.

End FftLoops.

Section FftLengths.
Context {F : Type} {SF : Scalar F}.

Lemma bitrev_step_alen (m : nat) (i : Z) (s : list F * list F) :
  alen (fst (bitrev_step m i s)) = alen (fst s)
  /\ alen (snd (bitrev_step m i s)) = alen (snd s).
Proof.
  destruct s as [re im]. unfold bitrev_step.
  destruct (i <? rev_bits m i); cbn [fst snd]; now rewrite ?alen_aset.
Qed.

Lemma butterfly_alen (angle : F) (halfLen i j : Z) (s : list F * list F * F * F) :
  alen (fst (fst (fst (butterfly angle halfLen i j s)))) = alen (fst (fst (fst s)))
  /\ alen (snd (fst (fst (butterfly angle halfLen i j s)))) = alen (snd (fst (fst s))).
Proof.
  destruct s as [[[re im] wr] wi]. unfold butterfly. cbn [fst snd].
  now rewrite !alen_aset.
Qed.

Lemma fft_block_alen (angle : F) (halfLen i : Z) (s : list F * list F) :
  alen (fst (fft_block angle halfLen i s)) = alen (fst s)
  /\ alen (snd (fft_block angle halfLen i s)) = alen (snd s).
Proof.
  destruct s as [re im]. unfold fft_block.
  pose proof (for_alen (fun s : list F * list F * F * F => fst (fst (fst s))) 0 halfLen
                (butterfly angle halfLen i) (re, im, of_Z 1, of_Z 0)
                (fun j s _ => proj1 (butterfly_alen angle halfLen i j s))) as H1.
  pose proof (for_alen (fun s : list F * list F * F * F => snd (fst (fst s))) 0 halfLen
                (butterfly angle halfLen i) (re, im, of_Z 1, of_Z 0)
                (fun j s _ => proj2 (butterfly_alen angle halfLen i j s))) as H2.
  destruct (for_ 0 halfLen (butterfly angle halfLen i) (re, im, of_Z 1, of_Z 0))
    as [[[re' im'] wr] wi].
  cbn [fst snd] in *. tauto.
Qed.

Lemma fft_stage_alen (n len : Z) (s : list F * list F) :
  alen (fst (fft_stage n len s)) = alen (fst s)
  /\ alen (snd (fft_stage n len s)) = alen (snd s).
Proof.
  unfold fft_stage. split.
  - apply (for_alen fst). intros b s' _. apply fft_block_alen.
  - apply (for_alen snd). intros b s' _. apply fft_block_alen.
Qed.

Lemma fft_loops_alen (m : nat) (real imag : list F) :
  alen (fst (fft_loops m real imag)) = alen real
  /\ alen (snd (fft_loops m real imag)) = alen imag.
Proof.
  unfold fft_loops, fft_stages. split.
  - rewrite (for_alen fst) by (intros; apply fft_stage_alen).
    rewrite (for_alen fst) by (intros; apply bitrev_step_alen). reflexivity.
  - rewrite (for_alen snd) by (intros; apply fft_stage_alen).
    rewrite (for_alen snd) by (intros; apply bitrev_step_alen). reflexivity.
Qed.

(** [fft] returns on every power of two below [2^30], given fuel for its
    loops, and keeps the lengths. *)
Lemma fft_ok (m : nat) (fuel : nat) (realInput : list F) (imagInput : option (list F)) :
  (m <= 29)%nat ->
  alen realInput = 2 ^ Z.of_nat m ->
  (Z.to_nat (2 ^ Z.of_nat m) <= fuel)%nat ->
  exists real imag,
    fft fuel realInput imagInput = Ok (real, imag)
    /\ alen real = 2 ^ Z.of_nat m
    /\ alen imag = match imagInput with
                   | Some imagInput => alen imagInput
                   | None => 2 ^ Z.of_nat m
                   end.
Proof.
  intros Hm Hn Hfuel.
  pose proof (pow2_pos m) as Hpos.
  assert (E : fft fuel realInput imagInput
              = fft fuel realInput
                  (Some match imagInput with
                        | Some imagInput => imagInput
                        | None => zeros (2 ^ Z.of_nat m)
                        end)).
  { destruct imagInput as [im|]; [reflexivity|].
    unfold fft. rewrite Hn. now rewrite alloc_ok by lia. }
  rewrite E, (fft_eval m) by assumption.
  match goal with
  | |- context [fft_loops m ?re ?im] =>
      destruct (fft_loops_alen m re im) as [H1 H2];
      destruct (fft_loops m re im) as [re' im']
  end.
  cbn [fst snd] in *. exists re', im'.
  split; [reflexivity|]. split; [congruence|].
  destruct imagInput; [assumption|]. rewrite H2. apply alen_zeros. lia.
Qed.

End FftLengths.

(** ** Where an error can come from *)

Lemma forM_throws {St : Type} (E : exn -> Prop) (lo hi : Z)
    (body : Z -> St -> result St) (s : St) (e : exn) :
  (forall i s' e', body i s' = Throw e' -> E e') ->
  forM lo hi body s = Throw e -> E e.
Proof.
  intros Hb. unfold forM. generalize (Z.to_nat (hi - lo)) as count.
  intros count. revert lo s.
  induction count as [|count IH]; intros lo s; cbn [iterateM]; [discriminate|].
  destruct (body lo s) as [s'|e'] eqn:Eb; cbn [bind].
  - apply IH.
  - intros [= <-]. eapply Hb, Eb.
Qed.

Lemma while_throws {St : Type} (E : exn -> Prop) (fuel : nat) (cond : St -> bool)
    (body : St -> result St) (s : St) (e : exn) :
  E OutOfFuel ->
  (forall s' e', body s' = Throw e' -> E e') ->
  while_ fuel cond body s = Throw e -> E e.
Proof.
  intros H0 Hb. revert s.
  induction fuel as [|fuel IH]; intros s; cbn [while_].
  - now intros [= <-].
  - destruct (cond s); [|discriminate].
    destruct (body s) as [s'|e'] eqn:Eb; cbn [bind].
    + apply IH.
    + intros [= <-]. eapply Hb, Eb.
Qed.

Section Throws.
Context {F : Type} {SF : Scalar F}.

Lemma alloc_throws (n : Z) (e : exn) :
  alloc (F := F) n = Throw e -> e = RangeError "Invalid typed array length".
Proof. unfold alloc. destruct (n <? 0); [now intros [= <-]|discriminate]. Qed.

Lemma fft_throws (fuel : nat) (realInput : list F) (imagInput : option (list F)) (e : exn) :
  fft fuel realInput imagInput = Throw e -> fft_exn e.
Proof.
  unfold fft.
  destruct (negb _); [intros [= <-]; left; reflexivity|].
  destruct (match imagInput with Some i => Ok i | None => alloc _ end) as [imag|e0] eqn:Ei;
    cbn [bind].
  2:{ intros [= <-]. destruct imagInput; [discriminate|].
      apply alloc_throws in Ei. right. now left. }
  match goal with
  | |- bind ?m _ = _ -> _ => destruct m as [[[re im] j]|e0] eqn:E1; cbn [bind]
  end.
  2:{ intros [= <-]. revert E1. apply forM_throws.
      intros i [[re im] j] e'. cbv beta iota.
      destruct (if i <? j then _ else _) as [re' im'].
      match goal with
      | |- bind ?m _ = _ -> _ => destruct m as [[j' k']|e1] eqn:E2; cbn [bind]
      end; [discriminate|].
      intros [= <-]. revert E2. apply while_throws.
      - right. now right.
      - intros [j' k'] e'. discriminate. }
  match goal with
  | |- bind ?m _ = _ -> _ => destruct m as [[[re' im'] len]|e0] eqn:E2; cbn [bind]
  end; [discriminate|].
  intros [= <-]. revert E2. apply while_throws.
  - right. now right.
  - intros [[re' im'] len] e'.
    match goal with
    | |- bind ?m _ = _ -> _ => destruct m as [[[re2 im2] i2]|e1] eqn:E3; cbn [bind]
    end; [discriminate|].
    intros [= <-]. revert E3. apply while_throws.
    + right. now right.
    + intros [[re2 im2] i2] e'. cbv beta iota.
      destruct (for_ _ _ _ _) as [[[? ?] ?] ?]. discriminate.
Qed.

Lemma ifft_throws (fuel : nat) (realInput imagInput : list F) (e : exn) :
  ifft fuel realInput imagInput = Throw e -> fft_exn e.
Proof.
  unfold ifft.
  destruct (alloc _) as [imagConj|e0] eqn:Ea; cbn [bind].
  2:{ intros [= <-]. apply alloc_throws in Ea. right. now left. }
  destruct (fft _ _ _) as [[re im]|e0] eqn:Ef; cbn [bind]; [discriminate|].
  intros [= <-]. eapply fft_throws, Ef.
Qed.

Lemma ifft_ok (m : nat) (fuel : nat) (realInput imagInput : list F) :
  (m <= 29)%nat ->
  alen realInput = 2 ^ Z.of_nat m ->
  (Z.to_nat (2 ^ Z.of_nat m) <= fuel)%nat ->
  exists real imag,
    ifft fuel realInput imagInput = Ok (real, imag)
    /\ alen real = 2 ^ Z.of_nat m
    /\ alen imag = 2 ^ Z.of_nat m.
Proof.
  intros Hm Hn Hfuel. pose proof (pow2_pos m) as Hpos.
  unfold ifft. rewrite Hn, alloc_ok by lia. cbn [bind].
  match goal with
  | |- context [fft fuel realInput (Some ?im)] =>
      destruct (fft_ok m fuel realInput (Some im) Hm Hn Hfuel) as (re & im' & Ef & Lr & Li);
      assert (Lim : alen im = 2 ^ Z.of_nat m)
        by (alen_loops; apply alen_zeros; lia)
  end.
  rewrite Ef. cbn [bind].
  match goal with
  | |- context [for_ 0 ?n ?body (re, im')] =>
      pose proof (for_alen fst 0 n body (re, im')) as H1;
      pose proof (for_alen snd 0 n body (re, im')) as H2;
      destruct (for_ 0 n body (re, im')) as [re2 im2]
  end.
  cbn [fst snd] in *.
  exists re2, im2. split; [reflexivity|]. split.
  - rewrite H1; [assumption|]. intros i [a b] _. cbn [fst]. now rewrite alen_aset.
  - rewrite H2; [congruence|]. intros i [a b] _. cbn [snd]. now rewrite alen_aset.
Qed.

End Throws.

(** Lengths through a loop over a pair of arrays. *)
Ltac pair_body_alen :=
  intros ? [? ?] ?; cbv beta iota zeta;
  repeat match goal with |- context [if ?c then _ else _] => destruct c end;
  cbn [fst snd]; rewrite ?alen_aset; reflexivity.

Ltac destruct_pair_loop :=
  match goal with
  | |- context [for_ ?lo ?hi ?body (?a, ?b)] =>
      let H1 := fresh "L" in
      let H2 := fresh "L" in
      assert (H1 : alen (fst (for_ lo hi body (a, b))) = alen a)
        by (rewrite (for_alen fst); [reflexivity|pair_body_alen]);
      assert (H2 : alen (snd (for_ lo hi body (a, b))) = alen b)
        by (rewrite (for_alen snd); [reflexivity|pair_body_alen]);
      destruct (for_ lo hi body (a, b)) as [? ?];
      cbn [fst snd] in H1, H2; cbv iota beta
  end.

Section Istft.
Context {F : Type} {SF : Scalar F}.

(** [istft] returns when its frames have a power-of-two length and its
    output length is not negative. *)
Lemma istft_ok (fuel : nat) (z : ComplexTensor F) (nFft hopLength : Z) (window : list F)
    (normalized : bool) (length : option Z) (center : bool)
    (m : nat) (batch freqs numFrames : Z) :
  shape (real z) = [batch; freqs; numFrames] ->
  2 * freqs - 2 = nFft ->
  nFft = 2 ^ Z.of_nat m ->
  (m <= 29)%nat ->
  (Z.to_nat nFft <= fuel)%nat ->
  let outputLength :=
    (match length with
     | Some length => length
     | None => nFft + (numFrames - 1) * hopLength
     end) - (if center then nFft else 0) in
  0 <= batch * outputLength ->
  exists out,
    istft fuel z nFft hopLength window normalized length center
    = Ok (mkTensor out [batch; outputLength])
    /\ alen out = batch * outputLength.
Proof.
  intros Hs Hf Hn Hm Hfuel outputLength Hout.
  pose proof (pow2_pos m) as Hpos.
  unfold istft. rewrite Hs. cbn [dim nth].
  rewrite Hf, Z.eqb_refl. cbn [negb].
  assert (Eo : (if center
                then match length with
                     | Some length => length
                     | None => nFft + (numFrames - 1) * hopLength
                     end - nFft
                else match length with
                     | Some length => length
                     | None => nFft + (numFrames - 1) * hopLength
                     end) = outputLength).
  { subst outputLength. destruct center; lia. }
  rewrite Eo. clear Eo.
  set (N := batch * outputLength) in *.
  rewrite alloc_ok by assumption. cbn [bind].
  match goal with
  | |- context [forM 0 batch ?body ?s0] =>
      destruct (forM_preserves
                  (fun s : list F * list F => alen (fst s) = N /\ alen (snd s) = N)
                  0 batch body s0) as ([output windowSum] & E & Lo & Lw)
  end.
  { cbn [fst snd]. now rewrite alen_zeros. }
  { intros b s' Hb Hs'. cbv beta.
    apply forM_preserves; [exact Hs'|].
    intros frame [output windowSum] Hframe [Lo Lw]. cbn [fst snd] in Lo, Lw. cbv beta iota.
    rewrite alloc_ok by lia. cbn [bind].
    destruct_pair_loop. destruct_pair_loop.
    rewrite alen_zeros in * by lia.
    match goal with
    | |- context [ifft fuel ?re ?im] =>
        destruct (ifft_ok m fuel re im Hm) as (fr & fi & Ei & _ & _); [congruence|lia|]
    end.
    rewrite Ei. cbn [bind].
    destruct_pair_loop.
    eexists. split; [reflexivity|]. cbn [fst snd]. split; congruence. }
  rewrite E. cbn [bind]. cbn [fst snd] in Lo, Lw.
  eexists. split; [reflexivity|].
  rewrite for_alen_id; [assumption|].
  intros i a _. cbv beta. destruct (fgtb _ _); [apply alen_aset|reflexivity].
Qed.

(** The errors of [istft] past its shape check are those of the frame
    transform and of the allocations. *)
Lemma istft_throws (fuel : nat) (z : ComplexTensor F) (nFft hopLength : Z) (window : list F)
    (normalized : bool) (length : option Z) (center : bool) (e : exn) :
  2 * dim (shape (real z)) 1 - 2 = nFft ->
  istft fuel z nFft hopLength window normalized length center = Throw e ->
  fft_exn e.
Proof.
  intros Hf. unfold istft. rewrite Hf, Z.eqb_refl. cbn [negb].
  destruct (alloc _) as [output|e0] eqn:Ea; cbn [bind].
  2:{ intros [= <-]. apply alloc_throws in Ea. right. now left. }
  match goal with
  | |- bind ?m _ = _ -> _ => destruct m as [[o w]|e1] eqn:E1; cbn [bind]
  end; [discriminate|].
  intros [= <-]. revert E1. apply forM_throws.
  intros b s' e'. apply forM_throws.
  intros frame [o w] e''. cbv beta iota.
  destruct (alloc nFft) as [full|e2] eqn:Ef; cbn [bind].
  2:{ intros [= <-]. apply alloc_throws in Ef. right. now left. }
  destruct (for_ 0 _ _ _) as [fullReal fullImag].
  destruct (for_ _ nFft _ _) as [fullReal' fullImag'].
  destruct (ifft _ _ _) as [[fr fi]|e3] eqn:Ei; cbn [bind]; [discriminate|].
  intros [= <-]. eapply ifft_throws, Ei.
Qed.

End Istft.

(** C9, as the source has it: with four bins and [nFft = 6] the
    precondition [2 * freqs - 2 = nFft] holds, and [istft] throws the size
    error of [fft], which takes powers of two only. *)
Lemma istft_throws_on_six_point_frames :
  let z := mkComplex (mkTensor [0; 0; 0; 0]%R [1; 4; 1])
                     (mkTensor [0; 0; 0; 0]%R [1; 4; 1]) in
  2 * dim (shape (real z)) 1 - 2 = 6
  /\ istft 8 z 6 1 (zeros 6) true None true
     = Throw (Error "FFT size must be power of 2").
Proof.
  split; [reflexivity|]. vm_compute. reflexivity.
Qed.

(** C9, amended.  On an input of shape [[batch; freqs; numFrames]],
    [istft] throws its shape error exactly when [2 * freqs - 2 <> nFft].
    When [2 * freqs - 2 = nFft] it throws no shape error, and whatever it
    throws is the size error of the frame transform or the error of a
    negative buffer length (a loop still running when the fuel is spent
    is the third outcome that is not a return); and it returns whenever,
    moreover, [nFft] is a power of two up to [2^29], the fuel covers
    [nFft] steps and [batch] times the output length is not negative. *)
Theorem istft_errors {F : Type} {SF : Scalar F}
    (fuel : nat) (z : ComplexTensor F) (nFft hopLength : Z) (window : list F)
    (normalized : bool) (length : option Z) (center : bool)
    (batch freqs numFrames : Z) :
  shape (real z) = [batch; freqs; numFrames] ->
  (istft fuel z nFft hopLength window normalized length center
   = Throw (Error "Expected freqs = nFft/2 + 1")
   <-> 2 * freqs - 2 <> nFft)
  /\ (2 * freqs - 2 = nFft ->
      forall e, istft fuel z nFft hopLength window normalized length center = Throw e ->
                e = Error "FFT size must be power of 2"
                \/ e = RangeError "Invalid typed array length"
                \/ e = OutOfFuel)
  /\ (forall m : nat,
        2 * freqs - 2 = nFft ->
        nFft = 2 ^ Z.of_nat m ->
        (m <= 29)%nat ->
        (Z.to_nat nFft <= fuel)%nat ->
        0 <= batch * ((match length with
                       | Some length => length
                       | None => nFft + (numFrames - 1) * hopLength
                       end) - (if center then nFft else 0)) ->
        exists out,
          istft fuel z nFft hopLength window normalized length center
          = Ok (mkTensor out
                  [batch;
                   (match length with
                    | Some length => length
                    | None => nFft + (numFrames - 1) * hopLength
                    end) - (if center then nFft else 0)])).
Proof.
  intros Hs.
  assert (Hd : dim (shape (real z)) 1 = freqs) by (rewrite Hs; reflexivity).
  split; [|split].
  - split.
    + intros H Hf. apply istft_throws in H; [|now rewrite Hd].
      destruct H as [H|[H|H]]; discriminate.
    + intros Hne. unfold istft. rewrite Hd.
      destruct (Z.eqb_spec (2 * freqs - 2) nFft); [contradiction|].
      reflexivity.
  - intros Hf e He. apply istft_throws in He; [exact He|now rewrite Hd].
  - intros m Hf Hn Hm Hfuel Hout.
    destruct (istft_ok fuel z nFft hopLength window normalized length center
                m batch freqs numFrames Hs Hf Hn Hm Hfuel Hout) as (out & E & _).
    now exists out.
Qed.

(** C9 on one frame of three bins: [2 * 3 - 2 = 4], and [istft] returns
    one row of [4 + (1 - 1) * 1 - 4 = 0] samples. *)
Lemma istft_errors_witness :
  let z := mkComplex (mkTensor [0; 0; 0]%R [1; 3; 1]) (mkTensor [0; 0; 0]%R [1; 3; 1]) in
  exists out, istft 8 z 4 1 (zeros 4) true None true = Ok (mkTensor out [1; 0]).
Proof.
  intros z.
  destruct (istft_errors 8 z 4 1 (zeros 4) true None true 1 3 1 eq_refl) as (_ & _ & H).
  apply (H 2%nat); try reflexivity; cbn; lia.
Defined.

(** ** Shapes through the transform engine *)

Section DspShapes.
Context {F : Type} {CF : Cell F}.

Lemma padReflect_ok (arr : list F) (padLeft padRight : Z) :
  0 <= alen arr + padLeft + padRight ->
  exists r, padReflect arr padLeft padRight = Ok r
            /\ alen r = alen arr + padLeft + padRight.
Proof.
  intros H. unfold padReflect. rewrite alloc_ok by assumption. cbn [bind].
  eexists. split; [reflexivity|].
  alen_loops. now apply alen_zeros.
Qed.

(** [pad1d] adds [left + right] to the last dimension. *)
Lemma pad1d_ok (x : Tensor F) (left right : Z) (mode : PadMode) (pre : list Z) (len : Z) :
  shape x = pre ++ [len] ->
  Forall (fun d => 0 <= d) pre ->
  1 <= len -> 0 <= left -> 0 <= right ->
  exists out,
    pad1d x (left, right) mode = Ok (mkTensor out (pre ++ [len + left + right]))
    /\ alen out = product pre * (len + left + right).
Proof.
  intros Hs Hpre Hlen Hl Hr. pose proof (product_nonneg _ Hpre) as Hp.
  unfold pad1d. rewrite Hs, !last_dim_snoc.
  match goal with
  | |- context [bind ?first _] =>
      assert (Hfirst :
        exists xData xShape aL aR,
          first = Ok (xData, xShape, aL, aR)
          /\ (exists cur, xShape = pre ++ [cur] /\ 1 <= cur
                          /\ cur + aL + aR = len + left + right)
          /\ 0 <= aL /\ 0 <= aR)
  end.
  { destruct mode.
    - exists (data x), (pre ++ [len]), left, right. split; [reflexivity|].
      split; [exists len; repeat split; lia|lia].
    - destruct (Z.leb_spec len (Z.max left right)).
      + rewrite set_last_snoc, product_snoc, alloc_ok by nia. cbn [bind].
        eexists _, _, _, _. split; [reflexivity|].
        split; [eexists; split; [reflexivity|]; lia|lia].
      + exists (data x), (pre ++ [len]), left, right. split; [reflexivity|].
        split; [exists len; repeat split; lia|lia]. }
  destruct Hfirst as (xData & xShape & aL & aR & E & (cur & -> & Hcur & Hsum) & HaL & HaR).
  rewrite E. cbn [bind]. rewrite !last_dim_snoc, set_last_snoc, last_dim_snoc, product_snoc.
  rewrite Hsum. rewrite alloc_ok by nia. cbn [bind].
  match goal with
  | |- context [forM 0 ?hi ?body ?s0] =>
      destruct (forM_preserves
                  (fun out : list F => alen out = product pre * (len + left + right))
                  0 hi body s0) as (out & Eo & Lo)
  end.
  { apply alen_zeros. nia. }
  { intros i out Hi Lo. cbv beta zeta. destruct mode.
    - eexists. split; [reflexivity|]. alen_loops. assumption.
    - match goal with
      | |- context [padReflect ?sl aL aR] =>
          destruct (padReflect_ok sl aL aR) as (r & Er & _);
            [pose proof (alen_nonneg sl); lia|]
      end.
      rewrite Er. cbn [bind]. eexists. split; [reflexivity|]. alen_loops. assumption. }
  rewrite Eo. cbn [bind]. exists out. split; [reflexivity|assumption].
Qed.

End DspShapes.

Section StftShapes.
Context {F : Type} {SF : Scalar F}.

Lemma hannWindow_ok (n : Z) :
  0 <= n -> exists w, hannWindow (F := F) n = Ok w /\ alen w = n.
Proof.
  intros H. unfold hannWindow. rewrite alloc_ok by assumption. cbn [bind].
  eexists. split; [reflexivity|]. alen_loops. now apply alen_zeros.
Qed.

(** The centred [stft] of [batch] signals of [length] samples has
    [nFft / 2 + 1] bins and [(length + 2 * (nFft / 2) - nFft) / hop + 1]
    frames. *)
Lemma stft_ok (fuel : nat) (x : Tensor F) (nFft hopLength : Z) (window : list F)
    (normalized : bool) (padMode : PadMode) (m : nat) (batch length : Z) :
  shape x = [batch; length] ->
  0 <= batch -> 1 <= length ->
  nFft = 2 ^ Z.of_nat m -> (m <= 29)%nat ->
  (Z.to_nat nFft <= fuel)%nat ->
  0 < hopLength ->
  nFft <= length + 2 * (nFft / 2) ->
  let numFrames := (length + nFft / 2 + nFft / 2 - nFft) / hopLength + 1 in
  let numFreqs := nFft / 2 + 1 in
  exists realOut imagOut,
    stft fuel x nFft hopLength window normalized true padMode
    = Ok (mkComplex (mkTensor realOut [batch; numFreqs; numFrames])
                    (mkTensor imagOut [batch; numFreqs; numFrames]))
    /\ alen realOut = batch * numFreqs * numFrames
    /\ alen imagOut = batch * numFreqs * numFrames.
Proof.
  intros Hs Hb Hlen Hn Hm Hfuel Hhop Hfit numFrames numFreqs.
  pose proof (pow2_pos m) as Hpos.
  assert (Hhalf : 0 <= nFft / 2) by (apply Z.div_pos; lia).
  unfold stft. rewrite Hs. cbn [dim nth].
  destruct (pad1d_ok x (nFft / 2) (nFft / 2) padMode [batch] length Hs
              ltac:(repeat constructor; lia) Hlen Hhalf Hhalf) as (pd & Ep & Lp).
  rewrite Ep. cbn [bind data shape].
  change ([batch] ++ [length + nFft / 2 + nFft / 2])
    with ([batch; length + nFft / 2 + nFft / 2]).
  change (last_dim [batch; length + nFft / 2 + nFft / 2])
    with (length + nFft / 2 + nFft / 2).
  fold numFrames. fold numFreqs.
  assert (Hfr : 1 <= numFrames).
  { subst numFrames. pose proof (Z.div_pos (length + nFft / 2 + nFft / 2 - nFft) hopLength).
    lia. }
  assert (Hfq : 1 <= numFreqs) by (subst numFreqs; lia).
  set (N := batch * numFreqs * numFrames).
  assert (HN : 0 <= N) by (subst N; nia).
  rewrite alloc_ok by assumption. cbn [bind].
  match goal with
  | |- context [forM 0 batch ?body ?s0] =>
      destruct (forM_preserves
                  (fun s : list F * list F => alen (fst s) = N /\ alen (snd s) = N)
                  0 batch body s0) as ([realOut imagOut] & E & Lo & Lw)
  end.
  { cbn [fst snd]. now rewrite alen_zeros. }
  { intros b s' Hb' Hs'. cbv beta.
    apply forM_preserves; [exact Hs'|].
    intros frame [realOut imagOut] Hframe [Lo Lw]. cbn [fst snd] in Lo, Lw. cbv beta iota zeta.
    rewrite alloc_ok by lia. cbn [bind].
    match goal with
    | |- context [fft fuel ?fd None] =>
        destruct (fft_ok m fuel fd None Hm) as (re & im & Ef & _ & _);
          [alen_loops; rewrite alen_zeros; lia|lia|]
    end.
    rewrite Ef. cbn [bind].
    destruct_pair_loop.
    eexists. split; [reflexivity|]. cbn [fst snd]. split; congruence. }
  rewrite E. cbn [bind]. cbn [fst snd] in Lo, Lw.
  exists realOut, imagOut. split; [reflexivity|]. split; assumption.
Qed.

Lemma removelast_snoc (s : list Z) (d : Z) : removelast (s ++ [d]) = s.
Proof. apply removelast_last. Qed.

(** [spectro] keeps the leading dimensions and replaces the last one by
    bins and frames. *)
Lemma spectro_ok (fuel : nat) (x : Tensor F) (nFft hopLength : Z)
    (m : nat) (pre : list Z) (length : Z) :
  shape x = pre ++ [length] ->
  alen (data x) = product pre * length ->
  Forall (fun d => 0 <= d) pre ->
  1 <= length ->
  nFft = 2 ^ Z.of_nat m -> (m <= 29)%nat ->
  (Z.to_nat nFft <= fuel)%nat ->
  0 < hopLength ->
  nFft <= length + 2 * (nFft / 2) ->
  let numFrames := (length + nFft / 2 + nFft / 2 - nFft) / hopLength + 1 in
  let numFreqs := nFft / 2 + 1 in
  exists realOut imagOut,
    spectro fuel x nFft (Some hopLength)
    = Ok (mkComplex (mkTensor realOut (pre ++ [numFreqs; numFrames]))
                    (mkTensor imagOut (pre ++ [numFreqs; numFrames])))
    /\ alen realOut = product pre * numFreqs * numFrames
    /\ alen imagOut = product pre * numFreqs * numFrames.
Proof.
  intros Hs Hd Hpre Hlen Hn Hm Hfuel Hhop Hfit numFrames numFreqs.
  pose proof (pow2_pos m) as Hpos. pose proof (product_nonneg _ Hpre) as Hp.
  unfold spectro. rewrite Hs, last_dim_snoc, removelast_snoc, Hd.
  rewrite Z.div_mul by lia.
  destruct (hannWindow_ok nFft ltac:(lia)) as (w & Ew & _). rewrite Ew. cbn [bind].
  destruct (stft_ok fuel (mkTensor (data x) [product pre; length]) nFft hopLength w
              true reflect m (product pre) length eq_refl Hp Hlen Hn Hm Hfuel Hhop Hfit)
    as (ro & io & E & Lr & Li).
  rewrite E. cbn [bind real imag shape data dim nth].
  exists ro, io. split; [reflexivity|]. split; assumption.
Qed.

End StftShapes.

Lemma ceil_div_spec (a b : Z) :
  0 < b -> b * (ceil_div a b - 1) < a <= b * ceil_div a b.
Proof.
  intros Hb. unfold ceil_div.
  pose proof (Z.div_mod (- a) b ltac:(lia)).
  pose proof (Z.mod_pos_bound (- a) b Hb). nia.
Qed.

Section SpecShape.
Context {F : Type} {SF : Scalar F}.

(** What [spec] is made of: the reflect padding, the spectrogram of the
    padded signal, and the window of bins and frames kept from it. *)
Lemma spec_structure (fuel : nat) (x : Tensor F) (pre : list Z) (len : Z) :
  shape x = pre ++ [len] ->
  alen (data x) = product pre * len ->
  Forall (fun d => 0 <= d) pre ->
  1 <= len ->
  (Z.to_nat 4096 <= fuel)%nat ->
  let le := ceil_div len 1024 in
  exists paddedX z0 z,
    pad1d x (1536, 1536 + le * 1024 - len) reflect = Ok paddedX
    /\ shape paddedX = pre ++ [1536 + len + (1536 + le * 1024 - len)]
    /\ spectro fuel paddedX 4096 (Some 1024) = Ok z0
    /\ shape (real z0) = pre ++ [2049; le + 4]
    /\ shape (imag z0) = pre ++ [2049; le + 4]
    /\ spec fuel x = Ok z
    /\ shape (real z) = pre ++ [2048; le]
    /\ shape (imag z) = pre ++ [2048; le]
    /\ alen (data (real z)) = product pre * 2048 * le
    /\ alen (data (imag z)) = product pre * 2048 * le
    /\ forall i freq frame,
         0 <= i < product pre -> 0 <= freq < 2048 -> 0 <= frame < le ->
         aget (data (real z)) ((i * 2048 + freq) * le + frame)
         = aget (data (real z0)) ((i * 2049 + freq) * (le + 4) + (2 + frame))
         /\ aget (data (imag z)) ((i * 2048 + freq) * le + frame)
            = aget (data (imag z0)) ((i * 2049 + freq) * (le + 4) + (2 + frame)).
Proof.
  intros Hs Hd Hpre Hlen Hfuel le.
  pose proof (product_nonneg _ Hpre) as Hp.
  pose proof (ceil_div_spec len 1024 ltac:(lia)) as Hle. fold le in Hle.
  assert (Hle1 : 1 <= le) by lia.
  unfold spec. rewrite Hs, last_dim_snoc. fold le.
  change (1024 / 2 * 3) with 1536.
  destruct (pad1d_ok x 1536 (1536 + le * 1024 - len) reflect pre len Hs Hpre Hlen
              ltac:(lia) ltac:(lia)) as (pd & Ep & Lp).
  rewrite Ep. cbn [bind].
  set (plen := len + 1536 + (1536 + le * 1024 - len)) in *.
  assert (Hplen : plen = 3072 + le * 1024) by (subst plen; lia).
  destruct (spectro_ok fuel (mkTensor pd (pre ++ [plen])) 4096 1024 12%nat pre plen
              eq_refl Lp Hpre ltac:(lia) eq_refl ltac:(lia) Hfuel ltac:(lia)
              ltac:(change (4096 / 2) with 2048; lia)) as (ro0 & io0 & E0 & Lr0 & Li0).
  change (4096 / 2) with 2048 in E0, Lr0, Li0.
  change (2048 + 1) with 2049 in E0, Lr0, Li0.
  replace ((plen + 2048 + 2048 - 4096) / 1024 + 1) with (le + 4) in E0, Lr0, Li0
    by (rewrite Hplen; replace (3072 + le * 1024 + 2048 + 2048 - 4096)
          with ((le + 3) * 1024) by lia; rewrite Z.div_mul by lia; lia).
  rewrite E0. cbn [bind real imag shape data].
  rewrite last_dim2_snoc, set_last2_snoc.
  replace (pre ++ [2049; le + 4]) with ((pre ++ [2049]) ++ [le + 4])
    by now rewrite <- app_assoc.
  rewrite last_dim_snoc. rewrite <- app_assoc. cbn [app].
  change (2049 - 1) with 2048.
  replace (pre ++ [2048; le + 4]) with ((pre ++ [2048]) ++ [le + 4])
    by now rewrite <- app_assoc.
  rewrite set_last_snoc, !product_snoc, <- !app_assoc. cbn [app].
  rewrite Lr0.
  replace (product pre * 2049 * (le + 4) / (2049 * (le + 4))) with (product pre)
    by (rewrite <- Z.mul_assoc, Z.div_mul by lia; reflexivity).
  set (P := product pre) in *.
  set (N1 := P * 2048 * (le + 4)). set (N2 := P * 2048 * le).
  assert (HN1 : 0 <= N1) by (subst N1; nia).
  assert (HN2 : 0 <= N2) by (subst N2; nia).
  rewrite (alloc_ok N1), (alloc_ok N2) by assumption. cbn [bind].
  (* the first nest: every bin but the last *)
  assert (Hinj : forall K L i f t i' f' t',
            0 <= f < K -> 0 <= t < L -> 0 <= f' < K -> 0 <= t' < L ->
            i * K * L + f * L + t = i' * K * L + f' * L + t' ->
            i = i' /\ f = f' /\ t = t').
  { intros K L i f t i' f' t' ? ? ? ? E.
    replace (i * K * L + f * L + t) with ((i * K + f) * L + t) in E by ring.
    replace (i' * K * L + f' * L + t') with ((i' * K + f') * L + t') in E by ring.
    apply index_inj in E; try lia. destruct E as [E ?].
    apply index_inj in E; try lia. }
  set (R1 := fun (src : list F) (j : Z) (v : F) =>
    exists i f t, (0 <= i < P /\ 0 <= f < 2048 /\ 0 <= t < le + 4)
      /\ j = i * 2048 * (le + 4) + f * (le + 4) + t
      /\ v = aget src (i * 2049 * (le + 4) + f * (le + 4) + t)).
  assert (Hf1 : forall src, functional (R1 src)).
  { intros src j v v' (i & f & t & Hr & Hj & Hv) (i' & f' & t' & Hr' & Hj' & Hv').
    rewrite Hj in Hj'. apply Hinj in Hj'; try lia.
    destruct Hj' as (<- & <- & <-). congruence. }
  match goal with
  | |- context [for_ 0 P ?body (zeros N1, zeros N1)] =>
      set (w1 := for_ 0 P body);
      assert (S1r : scatters fst
                      (fun j v => exists i, 0 <= i < P /\ exists f, 0 <= f < 2048
                         /\ exists t, 0 <= t < le + 4
                         /\ j = i * 2048 * (le + 4) + f * (le + 4) + t
                         /\ v = aget ro0 (i * 2049 * (le + 4) + f * (le + 4) + t)) w1)
        by (subst w1; scatter_nest (@fst (list F) (list F)) (R1 ro0) (Hf1 ro0)
              ltac:(apply scatters_aset_fst));
      assert (S1i : scatters snd
                      (fun j v => exists i, 0 <= i < P /\ exists f, 0 <= f < 2048
                         /\ exists t, 0 <= t < le + 4
                         /\ j = i * 2048 * (le + 4) + f * (le + 4) + t
                         /\ v = aget io0 (i * 2049 * (le + 4) + f * (le + 4) + t)) w1)
        by (subst w1; scatter_nest (@snd (list F) (list F)) (R1 io0) (Hf1 io0)
              ltac:(apply scatters_aset_snd))
  end.
  destruct (scatters_zeros fst _ w1 (zeros N1, zeros N1) N1 S1r eq_refl HN1) as (L1r & W1r & _).
  destruct (scatters_zeros snd _ w1 (zeros N1, zeros N1) N1 S1i eq_refl HN1) as (L1i & W1i & _).
  destruct (w1 (zeros N1, zeros N1)) as [newReal newImag]. cbn [fst snd] in *.
  cbv iota beta.
  (* the second nest: the frames from 2 on *)
  set (R2 := fun (src : list F) (j : Z) (v : F) =>
    exists i f t, (0 <= i < P /\ 0 <= f < 2048 /\ 0 <= t < le)
      /\ j = i * 2048 * le + f * le + t
      /\ v = aget src (i * 2048 * (le + 4) + f * (le + 4) + (2 + t))).
  assert (Hf2 : forall src, functional (R2 src)).
  { intros src j v v' (i & f & t & Hr & Hj & Hv) (i' & f' & t' & Hr' & Hj' & Hv').
    rewrite Hj in Hj'. apply Hinj in Hj'; try lia.
    destruct Hj' as (<- & <- & <-). congruence. }
  match goal with
  | |- context [for_ 0 P ?body (zeros N2, zeros N2)] =>
      set (w2 := for_ 0 P body);
      assert (S2r : scatters fst
                      (fun j v => exists i, 0 <= i < P /\ exists f, 0 <= f < 2048
                         /\ exists t, 0 <= t < le
                         /\ j = i * 2048 * le + f * le + t
                         /\ v = aget newReal (i * 2048 * (le + 4) + f * (le + 4) + (2 + t))) w2)
        by (subst w2; scatter_nest (@fst (list F) (list F)) (R2 newReal) (Hf2 newReal)
              ltac:(apply scatters_aset_fst));
      assert (S2i : scatters snd
                      (fun j v => exists i, 0 <= i < P /\ exists f, 0 <= f < 2048
                         /\ exists t, 0 <= t < le
                         /\ j = i * 2048 * le + f * le + t
                         /\ v = aget newImag (i * 2048 * (le + 4) + f * (le + 4) + (2 + t))) w2)
        by (subst w2; scatter_nest (@snd (list F) (list F)) (R2 newImag) (Hf2 newImag)
              ltac:(apply scatters_aset_snd))
  end.
  destruct (scatters_zeros fst _ w2 (zeros N2, zeros N2) N2 S2r eq_refl HN2) as (L2r & W2r & _).
  destruct (scatters_zeros snd _ w2 (zeros N2, zeros N2) N2 S2i eq_refl HN2) as (L2i & W2i & _).
  destruct (w2 (zeros N2, zeros N2)) as [slicedReal slicedImag]. cbn [fst snd] in *.
  cbv iota beta.
  eexists _, _, _. split; [reflexivity|]. split; [cbn [shape]; f_equal; f_equal; lia|].
  split; [exact E0|]. cbn [real imag shape data].
  split; [reflexivity|]. split; [reflexivity|]. split; [reflexivity|].
  cbn [real imag shape data].
  split; [reflexivity|]. split; [reflexivity|].
  split; [exact L2r|]. split; [exact L2i|].
  intros i f t Hi Hf Ht.
  assert (B2 : 0 <= (i * 2048 + f) * le + t < N2).
  { subst N2. apply index_bound; [|lia]. apply index_bound; lia. }
  assert (B1 : 0 <= (i * 2048 + f) * (le + 4) + (2 + t) < N1).
  { subst N1. apply index_bound; [|lia]. apply index_bound; lia. }
  split.
  - rewrite (W2r ((i * 2048 + f) * le + t)
               (aget newReal (i * 2048 * (le + 4) + f * (le + 4) + (2 + t)))); [|  |exact B2].
    + apply W1r; [|replace (i * 2048 * (le + 4) + f * (le + 4) + (2 + t))
                      with ((i * 2048 + f) * (le + 4) + (2 + t)) by ring; exact B1].
      exists i; split; [lia|]. exists f; split; [lia|]. exists (2 + t); split; [lia|].
      split; [reflexivity|f_equal; ring].
    + exists i; split; [lia|]. exists f; split; [lia|]. exists t; split; [lia|].
      split; [ring|reflexivity].
  - rewrite (W2i ((i * 2048 + f) * le + t)
               (aget newImag (i * 2048 * (le + 4) + f * (le + 4) + (2 + t)))); [|  |exact B2].
    + apply W1i; [|replace (i * 2048 * (le + 4) + f * (le + 4) + (2 + t))
                      with ((i * 2048 + f) * (le + 4) + (2 + t)) by ring; exact B1].
      exists i; split; [lia|]. exists f; split; [lia|]. exists (2 + t); split; [lia|].
      split; [reflexivity|f_equal; ring].
    + exists i; split; [lia|]. exists f; split; [lia|]. exists t; split; [lia|].
      split; [ring|reflexivity].
Qed.

End SpecShape.

(** ** Row-by-row copies *)

Lemma forM_pure {St : Type} (lo hi : Z) (f : Z -> St -> St) (s : St) :
  forM lo hi (fun i s => Ok (f i s)) s = Ok (for_ lo hi f s).
Proof.
  unfold forM, for_. generalize (Z.to_nat (hi - lo)) as count. intros count.
  revert lo s. induction count as [|count IH]; intros lo s; cbn [iterateM iterate bind].
  - reflexivity.
  - apply IH.
Qed.

Section CopyRows.
Context {F : Type} {CF : Cell F}.

(** The loop nest shared by the padding and cropping functions: row [i]
    of the source, from [s i 0] on, goes to row [i] of a fresh buffer,
    [dstOff] elements from the start of the row; the rest stays 0. *)
Lemma copy_rows (src : list F) (d s : Z -> Z -> Z) (rows len dstStride dstOff n : Z) :
  (forall i j, d i j = i * dstStride + dstOff + j) ->
  0 <= rows -> 0 <= dstOff -> 0 <= len -> dstOff + len <= dstStride ->
  n = rows * dstStride ->
  let out :=
    for_ 0 rows (fun i out =>
      for_ 0 len (fun j out => aset out (d i j) (aget src (s i j))) out) (zeros n) in
  alen out = n
  /\ (forall i j, 0 <= i < rows -> 0 <= j < len ->
        aget out (i * dstStride + dstOff + j) = aget src (s i j))
  /\ (forall i k, 0 <= i < rows -> 0 <= k < dstStride ->
        ~ (dstOff <= k < dstOff + len) ->
        aget out (i * dstStride + k) = fzero).
Proof.
  intros Hd Hrows Hoff Hlen Hfit Hn out.
  set (Rtot := fun (j : Z) (v : F) =>
    exists i jj, (0 <= i < rows /\ 0 <= jj < len)
      /\ j = d i jj /\ v = aget src (s i jj)).
  assert (Hf : functional Rtot).
  { intros j v v' (i & jj & Hr & Hj & Hv) (i' & jj' & Hr' & Hj' & Hv').
    rewrite Hj, !Hd in Hj'.
    replace (i * dstStride + dstOff + jj) with (i * dstStride + (dstOff + jj)) in Hj' by ring.
    replace (i' * dstStride + dstOff + jj') with (i' * dstStride + (dstOff + jj')) in Hj'
      by ring.
    apply index_inj in Hj'; try lia.
    destruct Hj' as [<- Hjj]. assert (jj = jj') by lia. subst jj'. congruence. }
  assert (S : scatters (fun a : list F => a)
                (fun j v => exists i, 0 <= i < rows /\ exists jj, 0 <= jj < len
                   /\ j = d i jj /\ v = aget src (s i jj))
                (for_ 0 rows (fun i out =>
                   for_ 0 len (fun j out => aset out (d i j) (aget src (s i j))) out)))
    by (scatter_nest (fun a : list F => a) Rtot Hf ltac:(apply scatters_aset)).
  assert (Hn0 : 0 <= n) by nia.
  destruct (scatters_zeros (fun a : list F => a) _ _ (zeros n) n S eq_refl Hn0)
    as (L & W & Z0).
  fold out in L, W, Z0.
  split; [exact L|]. split.
  - intros i j Hi Hj. apply W.
    + exists i. split; [lia|]. exists j. split; [lia|]. now rewrite Hd.
    + subst n. replace (i * dstStride + dstOff + j) with (i * dstStride + (dstOff + j)) by ring.
      apply index_bound; lia.
  - intros i k Hi Hk Hout. apply Z0.
    + subst n. apply index_bound; lia.
    + intros v (i' & Hi' & jj & Hjj & E & _). rewrite Hd in E.
      replace (i' * dstStride + dstOff + jj) with (i' * dstStride + (dstOff + jj)) in E by ring.
      apply index_inj in E; lia.
Qed.

End CopyRows.

(** ** The padding and cropping helpers of [apply.ts] *)

Section ApplyHelpers.
Context {F : Type} {CF : Cell F}.

(** X1. [padToTrainingLength] returns its argument when it is long enough,
    and otherwise extends every row with zeros at its end. *)
Theorem padToTrainingLength_zero_extends (mix : Tensor F) (trainingLength : Z)
    (pre : list Z) (cur : Z) :
  shape mix = pre ++ [cur] ->
  Forall (fun d => 0 <= d) pre ->
  0 <= cur ->
  (trainingLength <= cur -> padToTrainingLength mix trainingLength = Ok mix)
  /\ (cur < trainingLength ->
      exists out,
        padToTrainingLength mix trainingLength = Ok (mkTensor out (pre ++ [trainingLength]))
        /\ alen out = product pre * trainingLength
        /\ forall i j, 0 <= i < product pre -> 0 <= j < trainingLength ->
             aget out (i * trainingLength + j)
             = if j <? cur then aget (data mix) (i * cur + j) else fzero).
Proof.
  intros Hs Hpre Hcur. pose proof (product_nonneg _ Hpre) as Hp.
  unfold padToTrainingLength. rewrite Hs, last_dim_snoc, set_last_snoc, product_snoc.
  split; intros H.
  - destruct (Z.geb_spec cur trainingLength); [reflexivity|lia].
  - destruct (Z.geb_spec cur trainingLength); [lia|].
    rewrite alloc_ok by nia. cbn [bind]. rewrite Z.div_mul by lia.
    destruct (copy_rows (data mix) (fun i j => i * trainingLength + j)
                (fun i j => i * cur + j) (product pre) cur trainingLength 0
                (product pre * trainingLength)) as (L & W & Z0); try lia.
    eexists. split; [reflexivity|]. split; [exact L|].
    intros i j Hi Hj. destruct (Z.ltb_spec j cur).
    + specialize (W i j Hi ltac:(lia)).
      now replace (i * trainingLength + 0 + j) with (i * trainingLength + j) in W by ring.
    + apply Z0; lia.
Qed.

(** X2. [cropToValidLength] returns its argument when it is short enough,
    and otherwise keeps the first [validLength] samples of every row. *)
Theorem cropToValidLength_keeps_prefix (x : Tensor F) (validLength : Z)
    (pre : list Z) (cur : Z) :
  shape x = pre ++ [cur] ->
  Forall (fun d => 0 <= d) pre ->
  (cur <= validLength -> cropToValidLength x validLength = Ok x)
  /\ (0 <= validLength < cur ->
      exists out,
        cropToValidLength x validLength = Ok (mkTensor out (pre ++ [validLength]))
        /\ alen out = product pre * validLength
        /\ forall i j, 0 <= i < product pre -> 0 <= j < validLength ->
             aget out (i * validLength + j) = aget (data x) (i * cur + j)).
Proof.
  intros Hs Hpre. pose proof (product_nonneg _ Hpre) as Hp.
  unfold cropToValidLength. rewrite Hs, last_dim_snoc, set_last_snoc, product_snoc.
  split; intros H.
  - destruct (Z.geb_spec validLength cur); [reflexivity|lia].
  - destruct (Z.geb_spec validLength cur); [lia|].
    rewrite alloc_ok by nia. cbn [bind].
    set (rows := product pre * validLength / validLength).
    assert (Hrows : product pre * validLength = rows * validLength
                    /\ 0 <= rows /\ (0 < validLength -> rows = product pre)).
    { subst rows. destruct (Z.eq_dec validLength 0) as [->|Hne].
      - rewrite Z.mul_0_r. cbn. lia.
      - rewrite Z.div_mul by lia. lia. }
    destruct Hrows as (Hn & Hr0 & Hr).
    destruct (copy_rows (data x) (fun i j => i * validLength + j)
                (fun i j => i * cur + j) rows validLength validLength 0
                (product pre * validLength)) as (L & W & _); try lia.
    eexists. split; [reflexivity|]. split; [exact L|].
    intros i j Hi Hj. rewrite <- Hr in Hi by lia.
    specialize (W i j Hi Hj).
    now replace (i * validLength + 0 + j) with (i * validLength + j) in W by ring.
Qed.

(** [centerTrim] on a tensor that is longer than the reference. *)
Lemma centerTrim_trims (t : Tensor F) (reference : Z) (pre : list Z) (len : Z) :
  shape t = pre ++ [len] ->
  Forall (fun d => 0 <= d) pre ->
  0 <= reference < len ->
  exists out,
    centerTrim t reference = Ok (mkTensor out (pre ++ [reference]))
    /\ alen out = product pre * reference
    /\ forall i j, 0 <= i < product pre -> 0 <= j < reference ->
         aget out (i * reference + j)
         = aget (data t) (i * len + (len - reference) / 2 + j).
Proof.
  intros Hs Hpre H. pose proof (product_nonneg _ Hpre) as Hp.
  unfold centerTrim. rewrite Hs, last_dim_snoc.
  destruct (Z.ltb_spec (len - reference) 0); [lia|].
  destruct (Z.eqb_spec (len - reference) 0); [lia|].
  replace (len - (len - reference - (len - reference) / 2) - (len - reference) / 2)
    with reference by lia.
  rewrite set_last_snoc, product_snoc.
  rewrite alloc_ok by nia. cbn [bind].
  set (rows := product pre * reference / reference).
  assert (Hrows : product pre * reference = rows * reference
                  /\ 0 <= rows /\ (0 < reference -> rows = product pre)).
  { subst rows. destruct (Z.eq_dec reference 0) as [->|Hne].
    - rewrite Z.mul_0_r. cbn. lia.
    - rewrite Z.div_mul by lia. lia. }
  destruct Hrows as (Hn & Hr0 & Hr).
  destruct (copy_rows (data t) (fun i j => i * reference + j)
              (fun i j => i * len + (len - reference) / 2 + j) rows reference reference 0
              (product pre * reference)) as (L & W & _); try lia.
  eexists. split; [reflexivity|]. split; [exact L|].
  intros i j Hi Hj. rewrite <- Hr in Hi by lia.
  specialize (W i j Hi Hj).
  now replace (i * reference + 0 + j) with (i * reference + j) in W by ring.
Qed.

(** X3. [centerTrim] throws when the reference is longer than the tensor,
    returns its argument when the lengths agree, and otherwise drops
    [floor(delta / 2)] samples at the start of every row and the rest of
    [delta] at its end. *)
Theorem centerTrim_keeps_the_middle (t : Tensor F) (reference : Z)
    (pre : list Z) (len : Z) :
  shape t = pre ++ [len] ->
  Forall (fun d => 0 <= d) pre ->
  (len < reference ->
   centerTrim t reference = Throw (Error "tensor must be larger than reference"))
  /\ (len = reference -> centerTrim t reference = Ok t)
  /\ (0 <= reference < len ->
      exists out,
        centerTrim t reference = Ok (mkTensor out (pre ++ [reference]))
        /\ alen out = product pre * reference
        /\ forall i j, 0 <= i < product pre -> 0 <= j < reference ->
             aget out (i * reference + j)
             = aget (data t) (i * len + (len - reference) / 2 + j)).
Proof.
  intros Hs Hpre.
  split; [|split]; intros H.
  - unfold centerTrim. rewrite Hs, last_dim_snoc.
    destruct (Z.ltb_spec (len - reference) 0); [reflexivity|lia].
  - unfold centerTrim. rewrite Hs, last_dim_snoc.
    destruct (Z.ltb_spec (len - reference) 0); [lia|].
    destruct (Z.eqb_spec (len - reference) 0); [reflexivity|lia].
  - now apply centerTrim_trims.
Qed.

End ApplyHelpers.

Section ChunkContent.
Context {F : Type} {CF : Cell F}.

(** What [padded] holds: element [k] of row [i] is the sample at
    [offset - floor(delta / 2) + k] of that row of the tensor, and 0
    where this position falls outside the tensor. *)
Lemma padded_content (this : TensorChunk.t F) (targetLength : Z) (pre : list Z) (total : Z) :
  shape (TensorChunk.tensor this) = pre ++ [total] ->
  Forall (fun d => 0 <= d) pre ->
  0 <= TensorChunk.offset this < total ->
  0 <= TensorChunk.length this <= total - TensorChunk.offset this ->
  TensorChunk.length this <= targetLength ->
  exists out,
    TensorChunk.padded this targetLength = Ok (mkTensor out (pre ++ [targetLength]))
    /\ alen out = product pre * targetLength
    /\ forall i k, 0 <= i < product pre -> 0 <= k < targetLength ->
         let p := TensorChunk.offset this
                  - (targetLength - TensorChunk.length this) / 2 + k in
         aget out (i * targetLength + k)
         = if (0 <=? p) && (p <? total)
           then aget (data (TensorChunk.tensor this)) (i * total + p)
           else fzero.
Proof.
  intros Hs Hpre Hoff Hlen Htgt. pose proof (product_nonneg _ Hpre) as Hp.
  destruct this as [tensor offset length]. cbn [TensorChunk.tensor TensorChunk.offset
    TensorChunk.length] in *.
  unfold TensorChunk.padded.
  cbn [TensorChunk.tensor TensorChunk.offset TensorChunk.length].
  destruct (Z.ltb_spec (targetLength - length) 0); [lia|].
  rewrite Hs, last_dim_snoc, set_last_snoc, last_dim_snoc, product_snoc.
  rewrite alloc_ok by nia. cbn [bind].
  set (start := offset - (targetLength - length) / 2).
  assert (Hst : start <= offset /\ offset + length <= start + targetLength).
  { subst start. pose proof (Z.div_mod (targetLength - length) 2 ltac:(lia)).
    pose proof (Z.mod_pos_bound (targetLength - length) 2 ltac:(lia)). lia. }
  set (rows := product pre * targetLength / targetLength).
  assert (Hrows : product pre * targetLength = rows * targetLength
                  /\ 0 <= rows /\ (0 < targetLength -> rows = product pre)).
  { subst rows. destruct (Z.eq_dec targetLength 0) as [->|Hne].
    - rewrite Z.mul_0_r. cbn. lia.
    - rewrite Z.div_mul by lia. lia. }
  destruct Hrows as (Hn & Hr0 & Hr).
  destruct (copy_rows (data tensor)
              (fun i j => i * targetLength + (Z.max 0 start - start) + j)
              (fun i j => i * total + Z.max 0 start + j)
              rows (Z.min total (start + targetLength) - Z.max 0 start) targetLength
              (Z.max 0 start - start) (product pre * targetLength))
    as (L & W & Z0); try lia.
  match goal with
  | |- context [alen ?o =? _] =>
      assert (Ho : alen o = product pre * targetLength) by exact L
  end.
  rewrite Ho, Z.eqb_refl. cbn [negb].
  eexists. split; [reflexivity|]. split; [exact L|].
  intros i k Hi Hk. cbv zeta. fold start. set (p := start + k).
  rewrite <- Hr in Hi by lia.
  destruct (Z.leb_spec 0 p); destruct (Z.ltb_spec p total); cbn [andb].
  - specialize (W i (k - (Z.max 0 start - start)) Hi ltac:(subst p; lia)).
    cbv beta in W.
    replace (i * targetLength + (Z.max 0 start - start) + (k - (Z.max 0 start - start)))
      with (i * targetLength + k) in W by ring.
    rewrite W. f_equal. subst p. lia.
  - apply Z0; subst p; lia.
  - apply Z0; subst p; lia.
  - apply Z0; subst p; lia.
Qed.

End ChunkContent.

Section ChunkRoundTrip.
Context {F : Type} {CF : Cell F}.

(** X4. A chunk made by the constructor, padded to a target length: the
    chunk sits in the middle, [floor(delta / 2)] samples from the start,
    between the samples that surround it in the tensor, and zeros stand
    where the window leaves the tensor. *)
Theorem padded_centers_the_chunk (tensor : Tensor F) (offset : Z) (length : option Z)
    (targetLength : Z) (pre : list Z) (total : Z) (c : TensorChunk.t F) :
  shape tensor = pre ++ [total] ->
  Forall (fun d => 0 <= d) pre ->
  match length with Some l => 0 <= l | None => True end ->
  TensorChunk.new tensor offset length = Ok c ->
  TensorChunk.length c <= targetLength ->
  exists out,
    TensorChunk.padded c targetLength = Ok (mkTensor out (pre ++ [targetLength]))
    /\ alen out = product pre * targetLength
    /\ forall i k, 0 <= i < product pre -> 0 <= k < targetLength ->
         let p := offset - (targetLength - TensorChunk.length c) / 2 + k in
         aget out (i * targetLength + k)
         = if (0 <=? p) && (p <? total) then aget (data tensor) (i * total + p) else fzero.
Proof.
  intros Hs Hpre Hl Hc Ht.
  apply new_inv in Hc. rewrite Hs, last_dim_snoc in Hc. destruct Hc as [Hoff ->].
  cbn [TensorChunk.length] in *.
  match goal with
  | |- context [TensorChunk.padded ?c _] =>
      destruct (padded_content c targetLength pre total Hs Hpre) as (out & E & L & W)
  end; cbn [TensorChunk.offset TensorChunk.length]; try lia.
  { destruct length; lia. }
  exists out. split; [exact E|]. split; [exact L|]. exact W.
Qed.

(** X5. [centerTrim] gives back what [padded] was given: padding a chunk and
    trimming the result to the chunk's length returns the samples of the
    chunk, whatever the target length. *)
Theorem centerTrim_undoes_padded (this : TensorChunk.t F) (targetLength : Z)
    (pre : list Z) (total : Z) :
  shape (TensorChunk.tensor this) = pre ++ [total] ->
  Forall (fun d => 0 <= d) pre ->
  0 <= TensorChunk.offset this < total ->
  0 <= TensorChunk.length this <= total - TensorChunk.offset this ->
  TensorChunk.length this <= targetLength ->
  exists out,
    (p <- TensorChunk.padded this targetLength ;; centerTrim p (TensorChunk.length this))
    = Ok (mkTensor out (pre ++ [TensorChunk.length this]))
    /\ alen out = product pre * TensorChunk.length this
    /\ forall i j, 0 <= i < product pre -> 0 <= j < TensorChunk.length this ->
         aget out (i * TensorChunk.length this + j)
         = aget (data (TensorChunk.tensor this)) (i * total + TensorChunk.offset this + j).
Proof.
  intros Hs Hpre Hoff Hlen Htgt.
  destruct (padded_content this targetLength pre total Hs Hpre Hoff Hlen Htgt)
    as (pd & E & L & W).
  rewrite E. cbn [bind].
  assert (Hread : forall i j, 0 <= i < product pre -> 0 <= j < TensorChunk.length this ->
            aget pd (i * targetLength
                     + (targetLength - TensorChunk.length this) / 2 + j)
            = aget (data (TensorChunk.tensor this)) (i * total + TensorChunk.offset this + j)).
  { intros i j Hi Hj.
    pose proof (Z.div_mod (targetLength - TensorChunk.length this) 2 ltac:(lia)).
    pose proof (Z.mod_pos_bound (targetLength - TensorChunk.length this) 2 ltac:(lia)).
    rewrite <- Z.add_assoc, W by lia. cbv zeta.
    replace (TensorChunk.offset this - (targetLength - TensorChunk.length this) / 2
             + ((targetLength - TensorChunk.length this) / 2 + j))
      with (TensorChunk.offset this + j) by ring.
    destruct (Z.leb_spec 0 (TensorChunk.offset this + j)); [|lia].
    destruct (Z.ltb_spec (TensorChunk.offset this + j) total); [|lia].
    cbn [andb]. f_equal. ring. }
  destruct (Z.eq_dec (TensorChunk.length this) targetLength) as [Heq|Hne].
  - exists pd. rewrite Heq in *. split; [|split; [exact L|]].
    + unfold centerTrim. cbn [shape]. rewrite last_dim_snoc.
      destruct (Z.ltb_spec (targetLength - targetLength) 0); [lia|].
      destruct (Z.eqb_spec (targetLength - targetLength) 0); [reflexivity|lia].
    + intros i j Hi Hj. rewrite <- (Hread i j Hi Hj).
      rewrite Z.sub_diag. change (0 / 2) with 0. f_equal. ring.
  - destruct (centerTrim_trims (mkTensor pd (pre ++ [targetLength]))
                (TensorChunk.length this) pre targetLength eq_refl Hpre ltac:(lia))
      as (out & Et & Lt & Wt).
    exists out. split; [exact Et|]. split; [exact Lt|].
    intros i j Hi Hj. rewrite (Wt i j Hi Hj). cbn [data]. now apply Hread.
Qed.

End ChunkRoundTrip.

Section AddTensors.
Context {F : Type} {SF : Scalar F}.

Lemma same_shape_eq (a b : list Z) : same_shape a b = true <-> a = b.
Proof.
  revert b. induction a as [|x a IH]; intros [|y b]; cbn [same_shape];
    try (split; [discriminate|discriminate]); [tauto|].
  rewrite andb_true_iff, Z.eqb_eq, IH. split.
  - intros [-> ->]. reflexivity.
  - intros [= -> ->]. split; reflexivity.
Qed.

(** [addTensors] on tensors of one shape. *)
Lemma addTensors_adds (a b : Tensor F) :
  shape a = shape b ->
  exists out,
    addTensors a b = Ok (mkTensor out (shape a))
    /\ alen out = alen (data a)
    /\ forall i, 0 <= i < alen (data a) ->
         aget out i = fadd (aget (data a) i) (aget (data b) i).
Proof.
  intros Hs. unfold addTensors.
  rewrite (proj2 (same_shape_eq _ _) Hs). cbn [negb].
  rewrite alloc_ok by apply alen_nonneg. cbn [bind].
  set (n := alen (data a)).
  set (Rtot := fun (j : Z) (v : F) =>
    exists i, 0 <= i < n /\ j = i /\ v = fadd (aget (data a) i) (aget (data b) i)).
  assert (Hf : functional Rtot).
  { intros j v v' (i & _ & -> & ->) (i' & _ & <- & ->). reflexivity. }
  assert (S : scatters (fun x : list F => x) Rtot
                (for_ 0 n (fun i out =>
                   aset out i (fadd (aget (data a) i) (aget (data b) i))))).
  { apply (scatters_for (fun x : list F => x) Rtot
             (fun i j v => j = i /\ v = fadd (aget (data a) i) (aget (data b) i)) 0 n
             _ Hf).
    - intros i j v Hi [-> ->]. exists i. tauto.
    - intros i Hi. apply scatters_aset. }
  destruct (scatters_zeros (fun x : list F => x) _ _ (zeros n) n S eq_refl
              (alen_nonneg _)) as (L & W & _).
  eexists. split; [reflexivity|]. split; [exact L|].
  intros i Hi. apply W; [|exact Hi]. exists i. tauto.
Qed.

(** X6. [addTensors] throws exactly when the two shapes differ, and otherwise
    adds element by element, over the elements and with the shape of its
    first argument. *)
Theorem addTensors_checks_shapes_then_adds (a b : Tensor F) :
  ((exists e, addTensors a b = Throw e) <-> shape a <> shape b)
  /\ (shape a = shape b ->
      exists out,
        addTensors a b = Ok (mkTensor out (shape a))
        /\ alen out = alen (data a)
        /\ forall i, 0 <= i < alen (data a) ->
             aget out i = fadd (aget (data a) i) (aget (data b) i)).
Proof.
  split; [|apply addTensors_adds].
  split.
  - intros [e He] Hs. destruct (addTensors_adds a b Hs) as (out & E & _). congruence.
  - intros Hne. unfold addTensors.
    destruct (same_shape (shape a) (shape b)) eqn:E.
    + apply same_shape_eq in E. contradiction.
    + cbn [negb]. eauto.
Qed.

End AddTensors.

(** ** Loops that read the array they store into *)

Section SelfReading.
Context {F : Type} {CF : Cell F}.

(** A loop of stores leaves alone every element it does not store to. *)
Lemma for_aset_untouched (idx : Z -> Z) (val : Z -> list F -> F) (lo hi : Z)
    (a : list F) (j : Z) :
  (forall i, lo <= i < hi -> idx i <> j) ->
  aget (for_ lo hi (fun i s => aset s (idx i) (val i s)) a) j = aget a j.
Proof.
  intros H.
  apply (for_preserves (fun s => aget s j = aget a j)); [reflexivity|].
  intros i s Hi Hs. rewrite aget_aset_other; [exact Hs|]. now apply H.
Qed.

Lemma for_aset_alen (idx : Z -> Z) (val : Z -> list F -> F) (lo hi : Z) (a : list F) :
  alen (for_ lo hi (fun i s => aset s (idx i) (val i s)) a) = alen a.
Proof. apply for_alen_id. intros. apply alen_aset. Qed.

(** A loop that copies [s[g i]] to [s[d i]], where no [g i] is ever
    stored to: every [d i] in the array ends with the value that [g i] had
    at the start. *)
Lemma for_gather (d g : Z -> Z) (lo hi : Z) (a : list F) :
  (forall i i', lo <= i < hi -> lo <= i' < hi -> d i = d i' -> i = i') ->
  (forall i i', lo <= i < hi -> lo <= i' < hi -> g i <> d i') ->
  forall i, lo <= i < hi -> 0 <= d i < alen a ->
    aget (for_ lo hi (fun i s => aset s (d i) (aget s (g i))) a) (d i) = aget a (g i).
Proof.
  intros Hinj Hdis i Hi Hd.
  assert (G : forall k, lo <= k <= hi ->
            let s := for_ lo k (fun i s => aset s (d i) (aget s (g i))) a in
            alen s = alen a
            /\ (forall i', lo <= i' < hi -> aget s (g i') = aget a (g i'))
            /\ (forall i', lo <= i' < k -> 0 <= d i' < alen a ->
                  aget s (d i') = aget a (g i'))).
  { intros k Hk. cbv zeta.
    apply (for_invariant
             (fun k s => alen s = alen a
                /\ (forall i', lo <= i' < hi -> aget s (g i') = aget a (g i'))
                /\ (forall i', lo <= i' < k -> 0 <= d i' < alen a ->
                      aget s (d i') = aget a (g i')))); [lia| |].
    - split; [reflexivity|]. split; [reflexivity|]. intros; lia.
    - intros c s Hc (L & Hg & Hdd). split; [now rewrite alen_aset|]. split.
      + intros i' Hi'. rewrite aget_aset_other; [now apply Hg|].
        intros E. apply (Hdis i' c); [assumption|lia|now symmetry].
      + intros i' Hi' Hr. destruct (Z.eq_dec i' c) as [->|Hne].
        * rewrite aget_aset_same by (rewrite L; assumption). apply Hg. lia.
        * rewrite aget_aset_other; [apply Hdd; [lia|assumption]|].
          intros E. apply Hne. symmetry. apply Hinj; [lia|lia|assumption]. }
  destruct (G hi ltac:(lia)) as (_ & _ & H). now apply H.
Qed.

End SelfReading.

(** ** Reflect padding, in general *)

Section PadReflect.
Context {F : Type} {CF : Cell F}.

(** The three loops of [padReflect], one after the other. *)
Lemma padReflect_loops (arr : list F) (padLeft padRight : Z) :
  0 <= padLeft -> 0 <= padRight ->
  exists r1 r2 r3,
    padReflect arr padLeft padRight = Ok r3
    /\ r1 = for_ 0 (alen arr) (fun i result => aset result (padLeft + i) (aget arr i))
              (zeros (alen arr + padLeft + padRight))
    /\ r2 = for_ 0 padLeft (fun i result => aset result i (aget result (padLeft - i))) r1
    /\ r3 = for_ 0 padRight (fun i result =>
              aset result (padLeft + alen arr + i)
                (aget result (padLeft + alen arr - 2 - i))) r2
    /\ alen r1 = alen arr + padLeft + padRight
    /\ alen r2 = alen arr + padLeft + padRight
    /\ alen r3 = alen arr + padLeft + padRight
    /\ (forall i, 0 <= i < alen arr -> aget r1 (padLeft + i) = aget arr i)
    /\ (forall j, 0 <= j < padLeft -> aget r1 j = fzero).
Proof.
  intros Hl Hr. pose proof (alen_nonneg arr) as Hn.
  unfold padReflect. rewrite alloc_ok by lia. cbn [bind].
  eexists _, _, _. split; [reflexivity|].
  split; [reflexivity|]. split; [reflexivity|]. split; [reflexivity|].
  assert (L1 : alen (for_ 0 (alen arr) (fun i result => aset result (padLeft + i) (aget arr i))
                  (zeros (alen arr + padLeft + padRight)))
               = alen arr + padLeft + padRight)
    by (rewrite (for_aset_alen (fun i => padLeft + i) (fun i _ => aget arr i));
        apply alen_zeros; lia).
  split; [exact L1|].
  split; [now rewrite (for_aset_alen (fun i => i) (fun i s => aget s (padLeft - i)))|].
  split.
  { rewrite (for_aset_alen (fun i => padLeft + alen arr + i)
               (fun i s => aget s (padLeft + alen arr - 2 - i))).
    now rewrite (for_aset_alen (fun i => i) (fun i s => aget s (padLeft - i))). }
  split.
  - intros i Hi.
    set (Rtot := fun (j : Z) (v : F) =>
      exists i, 0 <= i < alen arr /\ j = padLeft + i /\ v = aget arr i).
    assert (Hf : functional Rtot).
    { intros j v v' (a & _ & -> & ->) (b & _ & E & ->). f_equal. lia. }
    assert (S : scatters (fun x : list F => x) Rtot
                  (for_ 0 (alen arr) (fun i result =>
                     aset result (padLeft + i) (aget arr i)))).
    { apply (scatters_for (fun x : list F => x) Rtot
               (fun i j v => j = padLeft + i /\ v = aget arr i) 0 (alen arr) _ Hf).
      - intros a j v Ha [-> ->]. exists a. tauto.
      - intros a Ha. apply scatters_aset. }
    destruct (S (zeros (alen arr + padLeft + padRight))) as (_ & W & _).
    apply W; [exists i; tauto|rewrite alen_zeros; lia].
  - intros j Hj.
    rewrite (for_aset_untouched (fun i => padLeft + i) (fun i _ => aget arr i)) by (intros; lia).
    apply aget_zeros. lia.
Qed.

(** The middle and the right pad of [padReflect], in terms of the
    signal. *)
Lemma padReflect_middle_and_right (arr : list F) (padLeft padRight : Z) :
  0 <= padLeft ->
  0 <= padRight <= alen arr - 1 ->
  exists r,
    padReflect arr padLeft padRight = Ok r
    /\ alen r = alen arr + padLeft + padRight
    /\ (forall i, 0 <= i < alen arr -> aget r (padLeft + i) = aget arr i)
    /\ (forall i, 0 <= i < padRight ->
          aget r (padLeft + alen arr + i) = aget arr (alen arr - 2 - i)).
Proof.
  intros Hl Hr.
  destruct (padReflect_loops arr padLeft padRight Hl ltac:(lia))
    as (r1 & r2 & r3 & E & E1 & E2 & E3 & L1 & L2 & L3 & Hmid & _).
  assert (Hmid2 : forall i, 0 <= i < alen arr -> aget r2 (padLeft + i) = aget arr i).
  { intros i Hi. rewrite E2.
    rewrite (for_aset_untouched (fun i => i) (fun i s => aget s (padLeft - i)))
      by (intros; lia).
    now apply Hmid. }
  exists r3. split; [exact E|]. split; [exact L3|]. split.
  - intros i Hi. rewrite E3.
    rewrite (for_aset_untouched (fun i => padLeft + alen arr + i)
               (fun i s => aget s (padLeft + alen arr - 2 - i))) by (intros; lia).
    now apply Hmid2.
  - intros i Hi. rewrite E3.
    rewrite (for_gather (fun i => padLeft + alen arr + i)
               (fun i => padLeft + alen arr - 2 - i)); try lia.
    replace (padLeft + alen arr - 2 - i) with (padLeft + (alen arr - 2 - i)) by ring.
    apply Hmid2. lia.
Qed.

(** X7. [padReflect] keeps the signal in the middle and mirrors it on the
    right around its last sample, without repeating that sample: the
    [k]-th sample after the signal equals the [k]-th sample before its
    last one. *)
Theorem padReflect_mirrors_on_the_right (arr : list F) (padLeft padRight : Z) :
  0 <= padLeft ->
  0 <= padRight <= alen arr - 1 ->
  exists r,
    padReflect arr padLeft padRight = Ok r
    /\ alen r = alen arr + padLeft + padRight
    /\ (forall i, 0 <= i < alen arr -> aget r (padLeft + i) = aget arr i)
    /\ (forall k, 0 <= k < padRight ->
          aget r (padLeft + alen arr - 1 + (1 + k))
          = aget r (padLeft + alen arr - 1 - (1 + k))).
Proof.
  intros Hl Hr.
  destruct (padReflect_middle_and_right arr padLeft padRight Hl Hr)
    as (r & E & L & Hmid & Hright).
  exists r. split; [exact E|]. split; [exact L|]. split; [exact Hmid|].
  intros k Hk.
  replace (padLeft + alen arr - 1 + (1 + k)) with (padLeft + alen arr + k) by ring.
  replace (padLeft + alen arr - 1 - (1 + k)) with (padLeft + (alen arr - 2 - k)) by ring.
  rewrite Hright by assumption. symmetry. apply Hmid. lia.
Qed.

(** X8. The left pad of [padReflect], as the loop computes it: the first
    sample of the signal, then zeros.  This is the behaviour of C1 on
    every input. *)
Theorem padReflect_left_pad (arr : list F) (padLeft padRight : Z) :
  1 <= alen arr ->
  1 <= padLeft ->
  0 <= padRight <= alen arr - 1 ->
  exists r,
    padReflect arr padLeft padRight = Ok r
    /\ aget r 0 = aget arr 0
    /\ (forall i, 0 < i < padLeft -> aget r i = fzero).
Proof.
  intros Hn Hl Hr.
  destruct (padReflect_loops arr padLeft padRight ltac:(lia) ltac:(lia))
    as (r1 & r2 & r3 & E & E1 & E2 & E3 & L1 & L2 & L3 & Hmid & Hz).
  assert (H2 : aget r2 0 = aget arr 0 /\ forall i, 0 < i < padLeft -> aget r2 i = fzero).
  { rewrite E2.
    destruct (for_invariant
                (fun k s => alen s = alen r1
                   /\ aget s padLeft = aget arr 0
                   /\ (forall i, 0 < i < padLeft -> aget s i = fzero)
                   /\ (0 < k -> aget s 0 = aget arr 0))
                0 padLeft (fun i result => aset result i (aget result (padLeft - i))) r1)
      as (_ & _ & Hzz & H0); [lia| | |].
    - split; [reflexivity|]. split.
      + specialize (Hmid 0 ltac:(lia)). now rewrite Z.add_0_r in Hmid.
      + split; [intros; apply Hz; lia|lia].
    - intros k s Hk (L & Hp & Hzz & H0). split; [now rewrite alen_aset|]. split.
      + rewrite aget_aset_other by lia. exact Hp.
      + split.
        * intros i Hi. destruct (Z.eq_dec k i) as [->|Hne].
          -- rewrite aget_aset_same by lia. apply Hzz. lia.
          -- rewrite aget_aset_other by assumption. now apply Hzz.
        * intros _. destruct (Z.eq_dec k 0) as [->|Hne].
          -- rewrite aget_aset_same by lia. now rewrite Z.sub_0_r.
          -- rewrite aget_aset_other by assumption. apply H0. lia.
    - split; [apply H0; lia|exact Hzz]. }
  exists r3. split; [exact E|]. rewrite E3. split.
  - rewrite (for_aset_untouched (fun i => padLeft + alen arr + i)
               (fun i s => aget s (padLeft + alen arr - 2 - i))) by (intros; lia).
    apply H2.
  - intros i Hi.
    rewrite (for_aset_untouched (fun i => padLeft + alen arr + i)
               (fun i s => aget s (padLeft + alen arr - 2 - i))) by (intros; lia).
    now apply H2.
Qed.

End PadReflect.

(** ** [pad1d], row by row *)

Section Pad1dContent.
Context {F : Type} {CF : Cell F}.

Lemma alen_aslice (a : list F) (lo hi : Z) :
  0 <= lo -> lo <= hi <= alen a -> alen (aslice a lo hi) = hi - lo.
Proof.
  intros Hlo Hhi. unfold aslice, alen in *.
  rewrite length_firstn, length_skipn. lia.
Qed.

Lemma aget_aslice (a : list F) (lo hi k : Z) :
  0 <= lo -> lo <= hi <= alen a -> 0 <= k < hi - lo ->
  aget (aslice a lo hi) k = aget a (lo + k).
Proof.
  intros Hlo Hhi Hk. unfold aget.
  rewrite !in_range_true by (rewrite ?alen_aslice; lia).
  unfold aslice. rewrite nth_firstn.
  destruct (Nat.ltb_spec (Z.to_nat k) (Z.to_nat (hi - lo))); [|lia].
  rewrite nth_skipn. f_equal. lia.
Qed.

(** X9. [pad1d] in [constant] mode puts every row between [left] zeros and
    [right] zeros. *)
Theorem pad1d_constant_zero_fills (x : Tensor F) (left right : Z) (pre : list Z) (len : Z) :
  shape x = pre ++ [len] ->
  Forall (fun d => 0 <= d) pre ->
  1 <= len -> 0 <= left -> 0 <= right ->
  exists out,
    pad1d x (left, right) constant = Ok (mkTensor out (pre ++ [len + left + right]))
    /\ alen out = product pre * (len + left + right)
    /\ forall i k, 0 <= i < product pre -> 0 <= k < len + left + right ->
         aget out (i * (len + left + right) + k)
         = if (left <=? k) && (k <? left + len)
           then aget (data x) (i * len + (k - left))
           else fzero.
Proof.
  intros Hs Hpre Hlen Hl Hr. pose proof (product_nonneg _ Hpre) as Hp.
  unfold pad1d. cbv beta iota. cbn [bind]. rewrite Hs.
  rewrite !last_dim_snoc, set_last_snoc, last_dim_snoc, product_snoc.
  rewrite alloc_ok by nia. cbn [bind].
  rewrite Z.div_mul by lia. rewrite forM_pure. cbn [bind].
  destruct (copy_rows (data x) (fun i j => i * (len + left + right) + left + j)
              (fun i j => i * len + j) (product pre) len (len + left + right) left
              (product pre * (len + left + right))) as (L & W & Z0); try lia.
  eexists. split; [reflexivity|]. split; [exact L|].
  intros i k Hi Hk.
  destruct (Z.leb_spec left k); destruct (Z.ltb_spec k (left + len)); cbn [andb].
  - specialize (W i (k - left) Hi ltac:(lia)). cbv beta in W.
    now replace (i * (len + left + right) + left + (k - left))
      with (i * (len + left + right) + k) in W by ring.
  - apply Z0; lia.
  - apply Z0; lia.
  - apply Z0; lia.
Qed.

(** X10. [pad1d] in [reflect] mode with pads shorter than the rows: every row
    of the result holds the row of the input, followed by its mirror
    image around its last sample. *)
Theorem pad1d_reflect_rows (x : Tensor F) (left right : Z) (pre : list Z) (len : Z) :
  shape x = pre ++ [len] ->
  alen (data x) = product pre * len ->
  Forall (fun d => 0 <= d) pre ->
  0 <= left < len -> 0 <= right < len ->
  exists out,
    pad1d x (left, right) reflect = Ok (mkTensor out (pre ++ [len + left + right]))
    /\ alen out = product pre * (len + left + right)
    /\ forall i, 0 <= i < product pre ->
         (forall k, 0 <= k < len ->
            aget out (i * (len + left + right) + left + k) = aget (data x) (i * len + k))
         /\ (forall k, 0 <= k < right ->
               aget out (i * (len + left + right) + left + len + k)
               = aget (data x) (i * len + (len - 2 - k))).
Proof.
  intros Hs Hd Hpre Hl Hr. pose proof (product_nonneg _ Hpre) as Hp.
  unfold pad1d. rewrite Hs, !last_dim_snoc.
  destruct (Z.leb_spec len (Z.max left right)); [lia|]. cbn [bind].
  rewrite !last_dim_snoc, set_last_snoc, last_dim_snoc, product_snoc.
  rewrite alloc_ok by nia. cbn [bind].
  rewrite Z.div_mul by lia.
  set (L := len + left + right). set (N := product pre * L).
  assert (Hrow : forall i, 0 <= i < product pre ->
            alen (aslice (data x) (i * len) (i * len + len)) = len
            /\ forall k, 0 <= k < len ->
                 aget (aslice (data x) (i * len) (i * len + len)) k
                 = aget (data x) (i * len + k)).
  { intros i Hi. assert (i * len + len <= alen (data x)) by (rewrite Hd; nia).
    split.
    - rewrite alen_aslice by nia. lia.
    - intros k Hk. apply aget_aslice; nia. }
  match goal with
  | |- context [forM 0 (product pre) ?body ?s0] =>
      destruct (forM_invariant
                  (fun i out =>
                     alen out = N
                     /\ forall i' k r, 0 <= i' < i -> 0 <= k < L ->
                          padReflect (aslice (data x) (i' * len) (i' * len + len)) left right
                          = Ok r ->
                          aget out (i' * L + k) = aget r k)
                  0 (product pre) body s0) as (out & E & Lo & Wo)
  end.
  { lia. }
  { split; [apply alen_zeros; subst N L; nia|]. intros; lia. }
  { intros i out Hi [Lo Wo]. cbv beta.
    destruct (Hrow i Hi) as [Ls _].
    destruct (padReflect_ok (aslice (data x) (i * len) (i * len + len)) left right)
      as (r & Er & Lr); [lia|].
    rewrite Er. cbn [bind]. eexists. split; [reflexivity|]. split.
    - now rewrite (for_aset_alen (fun j => i * L + j) (fun j _ => aget r j)).
    - intros i' k r' Hi' Hk Er'.
      destruct (Z.eq_dec i' i) as [->|Hne].
      + assert (r' = r) by congruence. subst r'.
        set (Rtot := fun (j : Z) (v : F) =>
          exists c, 0 <= c < L /\ j = i * L + c /\ v = aget r c).
        assert (Hf : functional Rtot).
        { intros j v v' (a & _ & -> & ->) (b & _ & Eb & ->). f_equal. lia. }
        assert (S : scatters (fun y : list F => y) Rtot
                      (for_ 0 L (fun j out => aset out (i * L + j) (aget r j)))).
        { apply (scatters_for (fun y : list F => y) Rtot
                   (fun c j v => j = i * L + c /\ v = aget r c) 0 L _ Hf).
          - intros a j v Ha [-> ->]. exists a. tauto.
          - intros a Ha. apply scatters_aset. }
        destruct (S out) as (_ & W & _).
        apply W; [exists k; tauto|]. rewrite Lo. subst N. apply index_bound; lia.
      + rewrite (for_aset_untouched (fun j => i * L + j) (fun j _ => aget r j)).
        * apply Wo; [lia|assumption|assumption].
        * intros j Hj E0. apply index_inj in E0; lia. }
  rewrite E. cbn [bind]. exists out. split; [reflexivity|]. split; [exact Lo|].
  intros i Hi. destruct (Hrow i Hi) as [Ls Hs'].
  destruct (padReflect_middle_and_right
              (aslice (data x) (i * len) (i * len + len)) left right)
    as (r & Er & Lr & Hmid & Hright); [lia|lia|].
  rewrite Ls in *.
  split.
  - intros k Hk. rewrite <- Z.add_assoc, (Wo i (left + k) r) by (try assumption; subst L; lia).
    rewrite Hmid by assumption. now apply Hs'.
  - intros k Hk.
    replace (i * L + left + len + k) with (i * L + (left + len + k)) by ring.
    rewrite (Wo i (left + len + k) r) by (try assumption; subst L; lia).
    rewrite Hright by assumption. apply Hs'. lia.
Qed.

End Pad1dContent.

(** ** The size rule of [fft] *)

Section FftSizes.
Context {F : Type} {SF : Scalar F}.

Lemma pow2_exponent_bound (m : Z) : 0 <= m -> 2 ^ m <= 2 ^ 29 -> m <= 29.
Proof.
  intros Hm H. destruct (Z_le_gt_dec m 29) as [|Hgt]; [assumption|].
  assert (2 ^ 30 <= 2 ^ m) by (apply Z.pow_le_mono_r; lia). lia.
Qed.

(** X11. On an array of 1 to 2^29 samples, and with fuel for one step per
    sample, [fft] returns two arrays as long as its input when the number
    of samples is a power of two, and throws its size error otherwise. *)
Theorem fft_size_rule (fuel : nat) (realInput : list F) (imagInput : option (list F)) :
  1 <= alen realInput <= 2 ^ 29 ->
  (Z.to_nat (alen realInput) <= fuel)%nat ->
  ((exists m, 0 <= m /\ alen realInput = 2 ^ m) ->
     exists real imag,
       fft fuel realInput imagInput = Ok (real, imag)
       /\ alen real = alen realInput
       /\ alen imag = match imagInput with
                      | Some imagInput => alen imagInput
                      | None => alen realInput
                      end)
  /\ (~ (exists m, 0 <= m /\ alen realInput = 2 ^ m) ->
        fft fuel realInput imagInput = Throw (Error "FFT size must be power of 2")).
Proof.
  intros Hn Hfuel. split.
  - intros (m & Hm & E).
    assert (Hm29 : m <= 29) by (apply pow2_exponent_bound; [assumption|lia]).
    destruct (fft_ok (Z.to_nat m) fuel realInput imagInput) as (re & im & Efft & Lr & Li).
    + lia.
    + rewrite Z2Nat.id by assumption. exact E.
    + rewrite Z2Nat.id by assumption. now rewrite <- E.
    + rewrite Z2Nat.id in Lr, Li by assumption.
      exists re, im. split; [exact Efft|]. split; [congruence|].
      destruct imagInput; [exact Li|congruence].
  - intros Hnot. apply fft_rejects_non_powers; [|exact Hnot].
    assert (2 ^ 29 < 2 ^ 31) by (apply Z.pow_lt_mono_r; lia). lia.
Qed.

End FftSizes.

(** ** [planarize] *)

Section Planarize.
Context {F : Type} {SF : Scalar F}.

(** A loop of stores of given values: every index stored to once holds
    its value at the end. *)
Lemma for_store (d : Z -> Z) (v : Z -> F) (lo hi : Z) (a : list F) :
  (forall i i', lo <= i < hi -> lo <= i' < hi -> d i = d i' -> i = i') ->
  forall i, lo <= i < hi -> 0 <= d i < alen a ->
    aget (for_ lo hi (fun i s => aset s (d i) (v i)) a) (d i) = v i.
Proof.
  intros Hinj i Hi Hd.
  assert (G : forall k, lo <= k <= hi ->
            let s := for_ lo k (fun i s => aset s (d i) (v i)) a in
            alen s = alen a
            /\ (forall i', lo <= i' < k -> 0 <= d i' < alen a -> aget s (d i') = v i')).
  { intros k Hk. cbv zeta.
    apply (for_invariant
             (fun k s => alen s = alen a
                /\ (forall i', lo <= i' < k -> 0 <= d i' < alen a ->
                      aget s (d i') = v i'))); [lia| |].
    - split; [reflexivity|]. intros; lia.
    - intros c s Hc (L & Hdd). split; [now rewrite alen_aset|].
      intros i' Hi' Hr. destruct (Z.eq_dec i' c) as [->|Hne].
      + apply aget_aset_same. now rewrite L.
      + rewrite aget_aset_other; [apply Hdd; [lia|assumption]|].
        intros E. apply Hne. symmetry. apply Hinj; [lia|lia|assumption]. }
  destruct (G hi ltac:(lia)) as (_ & H). now apply H.
Qed.

(** [a.set(src, at)] inside the array. *)
Lemma aset_all_ok (a src : list F) (at_ : Z) :
  0 <= at_ -> at_ + alen src <= alen a ->
  exists r,
    aset_all a src at_ = Ok r
    /\ alen r = alen a
    /\ (forall i, 0 <= i < alen src -> aget r (at_ + i) = aget src i)
    /\ (forall j, ~ (at_ <= j < at_ + alen src) -> aget r j = aget a j).
Proof.
  intros Hat Hfit. unfold aset_all.
  destruct (Z.ltb_spec at_ 0); [lia|].
  destruct (Z.ltb_spec (alen a) (at_ + alen src)); [lia|]. cbn [orb].
  eexists. split; [reflexivity|]. split; [|split].
  - apply (for_aset_alen (fun i => at_ + i) (fun i _ => aget src i)).
  - intros i Hi.
    apply (for_store (fun i => at_ + i) (fun i => aget src i)); [intros; lia|lia|lia].
  - intros j Hj.
    apply (for_aset_untouched (fun i => at_ + i) (fun i _ => aget src i)).
    intros; lia.
Qed.

Lemma alen_concat (samples : Z) (l : list (list F)) :
  Forall (fun ch => alen ch = samples) l ->
  alen (concat l) = alen l * samples.
Proof.
  induction 1 as [|ch l Hch _ IH]; [reflexivity|].
  cbn [concat]. unfold alen in *. rewrite length_app. cbn [List.length]. lia.
Qed.

Lemma aget_concat (samples : Z) (l : list (list F)) (k i : Z) :
  Forall (fun ch => alen ch = samples) l ->
  0 <= k < alen l -> 0 <= i < samples ->
  aget (concat l) (k * samples + i) = aget (nth (Z.to_nat k) l []) i.
Proof.
  intros Hl. revert k. induction Hl as [|ch l Hch Hl IH]; intros k Hk Hi.
  - unfold alen in Hk. cbn [List.length] in Hk. lia.
  - assert (Hlen : alen (concat (ch :: l)) = alen (ch :: l) * samples)
      by (apply alen_concat; now constructor).
    assert (Hcons : alen (ch :: l) = 1 + alen l)
      by (unfold alen; cbn [List.length]; lia).
    pose proof (alen_concat samples l Hl) as Hlen'.
    pose proof (alen_nonneg l) as Hnn.
    destruct (Z.eq_dec k 0) as [->|Hk0].
    + unfold aget.
      rewrite (in_range_true (concat (ch :: l))) by (rewrite Hlen, Hcons; nia).
      cbn [Z.to_nat nth concat].
      rewrite in_range_true by lia.
      replace (0 * samples + i) with i by ring.
      apply app_nth1. unfold alen in Hch. lia.
    + replace (Z.to_nat k) with (S (Z.to_nat (k - 1))) by lia. cbn [nth].
      rewrite <- (IH (k - 1)) by lia.
      unfold aget.
      rewrite (in_range_true (concat (ch :: l))) by (rewrite Hlen, Hcons; nia).
      rewrite (in_range_true (concat l)) by (rewrite Hlen'; nia).
      cbn [concat].
      rewrite app_nth2 by (unfold alen in Hch; nia).
      f_equal. unfold alen in Hch. nia.
Qed.

(** X12. [planarize] on channels of one length returns their samples one
    channel after the other. *)
Theorem planarize_concatenates (channelData : list (list F)) (samples : Z) :
  channelData <> [] ->
  Forall (fun ch => alen ch = samples) channelData ->
  planarize channelData = Ok (concat channelData).
Proof.
  intros Hne Hall. unfold planarize.
  destruct channelData as [|channel0 rest] eqn:Ecd; [congruence|]. rewrite <- Ecd in *.
  assert (H0 : alen channel0 = samples).
  { rewrite Ecd in Hall. now inversion Hall. }
  rewrite H0.
  destruct (Z.eqb_spec (alen channelData) 1) as [H1|H1].
  - rewrite Ecd in *. destruct rest.
    + cbn [concat]. now rewrite app_nil_r.
    + unfold alen in H1. cbn [List.length] in H1. lia.
  - pose proof (alen_nonneg channelData) as Hc.
    pose proof (alen_nonneg channel0) as Hs. rewrite H0 in Hs.
    rewrite alloc_ok by nia. cbn [bind].
    destruct (forM_invariant
                (fun c data =>
                   alen data = alen channelData * samples
                   /\ forall k i, 0 <= k < c -> 0 <= i < samples ->
                        aget data (k * samples + i)
                        = aget (nth (Z.to_nat k) channelData []) i)
                0 (alen channelData)
                (fun c data =>
                   aset_all data (nth (Z.to_nat c) channelData []) (c * samples))
                (zeros (alen channelData * samples)))
      as (out & E & L & Hout).
    + assumption.
    + split; [apply alen_zeros; nia|]. intros; lia.
    + intros c data Hcr (L & Hd).
      assert (Hch : alen (nth (Z.to_nat c) channelData []) = samples).
      { rewrite Forall_forall in Hall. apply Hall. apply nth_In. unfold alen in Hcr. lia. }
      destruct (aset_all_ok data (nth (Z.to_nat c) channelData []) (c * samples))
        as (r & Er & Lr & Hin & Hout); [nia|rewrite Hch, L; nia|].
      exists r. split; [exact Er|]. split; [congruence|].
      intros k i Hk Hi. destruct (Z.eq_dec k c) as [->|Hkc].
      * apply Hin. now rewrite Hch.
      * rewrite Hout by (rewrite Hch; nia). apply Hd; lia.
    + rewrite E. f_equal. apply array_ext.
      * rewrite L. symmetry. now apply alen_concat.
      * intros j Hj. rewrite L in Hj.
        destruct (index_split j (alen channelData) samples Hj Hc) as (k & i & Hk & Hi & ->).
        rewrite Hout by assumption. symmetry. now apply aget_concat.
Qed.

End Planarize.

(** ** The Hann window, over the reals *)

Section HannReal.

#[local] Open Scope R_scope.

Lemma hann_half : Q2R 0.5 = / 2.
Proof. unfold Q2R. cbn. lra. Qed.

(** The entries of [hannWindow n], in exact arithmetic. *)
Lemma hannWindow_entries (n : Z) :
  (0 <= n)%Z ->
  exists w,
    hannWindow (F := R) n = Ok w
    /\ alen w = n
    /\ forall i, (0 <= i < n)%Z ->
         aget w i = / 2 * (1 - cos (2 * PI * IZR i / IZR n)).
Proof.
  intros Hn. unfold hannWindow. rewrite alloc_ok by assumption. cbn [bind].
  eexists. split; [reflexivity|]. split.
  - etransitivity; [|apply (alen_zeros n Hn)].
    apply (for_aset_alen (F := R) (fun i => i)
             (fun i _ => fmul (of_Q 0.5%Q)
                (fsub (of_Z 1)
                   (fcos (fdiv (fmul (fmul (of_Z 2) fpi) (of_Z i)) (of_Z n)))))).
  - intros i Hi.
    etransitivity.
    { apply (for_store (F := R) (SF := Scalar_R) (fun i => i)
               (fun i => fmul (of_Q 0.5%Q)
                  (fsub (of_Z 1)
                     (fcos (fdiv (fmul (fmul (of_Z 2) fpi) (of_Z i)) (of_Z n))))));
        [intros; assumption|assumption|rewrite alen_zeros; lia]. }
    cbn [fmul fsub fcos fdiv of_Q of_Z fpi Scalar_R]. now rewrite hann_half.
Qed.

(** X13. In exact arithmetic [hannWindow n] is the periodic Hann window: it
    starts at 0, stays between 0 and 1, and reads the same from sample
    [i] and from sample [n - i]. *)
Theorem hannWindow_periodic_window (n : Z) :
  (1 <= n)%Z ->
  exists w,
    hannWindow (F := R) n = Ok w
    /\ alen w = n
    /\ aget w 0 = 0
    /\ (forall i, (0 <= i < n)%Z -> 0 <= aget w i <= 1)
    /\ (forall i, (1 <= i < n)%Z -> aget w (n - i) = aget w i).
Proof.
  intros Hn. destruct (hannWindow_entries n ltac:(lia)) as (w & E & L & Hw).
  assert (Hn0 : IZR n <> 0) by (apply not_0_IZR; lia).
  exists w. split; [exact E|]. split; [exact L|]. split; [|split].
  - rewrite Hw by lia.
    replace (2 * PI * 0 / IZR n) with 0 by (field; exact Hn0).
    rewrite cos_0. lra.
  - intros i Hi. rewrite Hw by assumption.
    pose proof (COS_bound (2 * PI * IZR i / IZR n)) as [Hlo Hhi]. lra.
  - intros i Hi. rewrite !Hw by lia. rewrite minus_IZR.
    replace (2 * PI * (IZR n - IZR i) / IZR n)
      with (- (2 * PI * IZR i / IZR n) + 2 * INR 1 * PI)
      by (cbn [INR]; field; exact Hn0).
    now rewrite cos_period, cos_neg.
Qed.

End HannReal.

(** ** [padComplex] *)

Section PadComplex.
Context {F : Type} {CF : Cell F}.

Lemma last_dim_snoc2 (s : list Z) (c d : Z) : last_dim (s ++ [c; d]) = d.
Proof. change (s ++ [c; d]) with (s ++ [c] ++ [d]). rewrite app_assoc. apply last_dim_snoc. Qed.

Lemma set_last_snoc2 (s : list Z) (c d v : Z) : set_last (s ++ [c; d]) v = s ++ [c; v].
Proof.
  change (s ++ [c; d]) with (s ++ [c] ++ [d]). rewrite app_assoc, set_last_snoc.
  now rewrite <- app_assoc.
Qed.

Lemma product_snoc2 (s : list Z) (c d : Z) : product (s ++ [c; d]) = product s * (c * d).
Proof. rewrite product_app, !product_cons, product_nil. ring. Qed.

(** What the loops of [padComplex] store, and where. *)
Lemma padComplex_spec (z : ComplexTensor F) (fl fr tl tr : Z) (pre : list Z) (Fr T : Z) :
  shape (real z) = pre ++ [Fr; T] ->
  Forall (fun d => 0 <= d) pre ->
  0 <= Fr -> 0 <= T -> 0 <= fl -> 0 <= fr -> 0 <= tl -> 0 <= tr ->
  0 < (Fr + fl + fr) * (T + tl + tr) ->
  let Fr' := Fr + fl + fr in
  let T' := T + tl + tr in
  exists ro io,
    padComplex z (fl, fr) (tl, tr)
    = Ok (mkComplex (mkTensor ro (pre ++ [Fr'; T'])) (mkTensor io (pre ++ [Fr'; T'])))
    /\ alen ro = product pre * (Fr' * T')
    /\ alen io = product pre * (Fr' * T')
    /\ (forall i f t, 0 <= i < product pre -> 0 <= f < Fr -> 0 <= t < T ->
          aget ro (i * Fr' * T' + (f + fl) * T' + (t + tl))
          = aget (data (real z)) (i * Fr * T + f * T + t)
          /\ aget io (i * Fr' * T' + (f + fl) * T' + (t + tl))
             = aget (data (imag z)) (i * Fr * T + f * T + t))
    /\ (forall j, 0 <= j < product pre * (Fr' * T') ->
          (forall i f t, 0 <= i < product pre -> 0 <= f < Fr -> 0 <= t < T ->
             j <> i * Fr' * T' + (f + fl) * T' + (t + tl)) ->
          aget ro j = fzero /\ aget io j = fzero).
Proof.
  intros Hs Hpre HFr HT Hfl Hfr Htl Htr Hpos Fr' T'.
  pose proof (product_nonneg _ Hpre) as Hp.
  unfold padComplex. rewrite Hs.
  rewrite last_dim2_snoc, last_dim_snoc2, set_last2_snoc, set_last_snoc2, product_snoc2.
  fold Fr' T'. set (N := product pre * (Fr' * T')).
  assert (HN : 0 <= N) by (subst N; nia).
  rewrite alloc_ok by assumption. cbn [bind].
  replace (N / (Fr' * T')) with (product pre) by (subst N; now rewrite Z.div_mul by lia).
  set (Rre := fun (j : Z) (v : F) =>
    exists i f t,
      (0 <= i < product pre /\ 0 <= f < Fr /\ 0 <= t < T)
      /\ j = i * Fr' * T' + (f + fl) * T' + (t + tl)
      /\ v = aget (data (real z)) (i * Fr * T + f * T + t)).
  set (Rim := fun (j : Z) (v : F) =>
    exists i f t,
      (0 <= i < product pre /\ 0 <= f < Fr /\ 0 <= t < T)
      /\ j = i * Fr' * T' + (f + fl) * T' + (t + tl)
      /\ v = aget (data (imag z)) (i * Fr * T + f * T + t)).
  assert (Hinj : forall i f t i' f' t',
            0 <= f < Fr -> 0 <= t < T -> 0 <= f' < Fr -> 0 <= t' < T ->
            i * Fr' * T' + (f + fl) * T' + (t + tl)
            = i' * Fr' * T' + (f' + fl) * T' + (t' + tl) ->
            i = i' /\ f = f' /\ t = t').
  { intros i f t i' f' t' ? ? ? ? E.
    replace (i * Fr' * T' + (f + fl) * T' + (t + tl))
      with ((i * Fr' + (f + fl)) * T' + (t + tl)) in E by ring.
    replace (i' * Fr' * T' + (f' + fl) * T' + (t' + tl))
      with ((i' * Fr' + (f' + fl)) * T' + (t' + tl)) in E by ring.
    apply index_inj in E; try (subst T'; lia). destruct E as [E ?].
    apply index_inj in E; try (subst Fr'; lia). }
  assert (Hfre : functional Rre).
  { intros j v v' (i & f & t & Hr & Hj & Hv) (i' & f' & t' & Hr' & Hj' & Hv').
    rewrite Hj in Hj'. apply Hinj in Hj'; try lia.
    destruct Hj' as (<- & <- & <-). congruence. }
  assert (Hfim : functional Rim).
  { intros j v v' (i & f & t & Hr & Hj & Hv) (i' & f' & t' & Hr' & Hj' & Hv').
    rewrite Hj in Hj'. apply Hinj in Hj'; try lia.
    destruct Hj' as (<- & <- & <-). congruence. }
  match goal with
  | |- context [for_ 0 (product pre) ?body (zeros N, zeros N)] =>
      set (w := for_ 0 (product pre) body);
      assert (Sre : scatters fst
                      (fun j v => exists i, 0 <= i < product pre /\ exists f, 0 <= f < Fr
                         /\ exists t, 0 <= t < T
                         /\ j = i * Fr' * T' + (f + fl) * T' + (t + tl)
                         /\ v = aget (data (real z)) (i * Fr * T + f * T + t)) w)
        by (subst w; scatter_nest (@fst (list F) (list F)) Rre Hfre
              ltac:(apply scatters_aset_fst));
      assert (Sim : scatters snd
                      (fun j v => exists i, 0 <= i < product pre /\ exists f, 0 <= f < Fr
                         /\ exists t, 0 <= t < T
                         /\ j = i * Fr' * T' + (f + fl) * T' + (t + tl)
                         /\ v = aget (data (imag z)) (i * Fr * T + f * T + t)) w)
        by (subst w; scatter_nest (@snd (list F) (list F)) Rim Hfim
              ltac:(apply scatters_aset_snd))
  end.
  destruct (scatters_zeros fst _ w (zeros N, zeros N) N Sre eq_refl HN) as (Lr & Wr & Zr).
  destruct (scatters_zeros snd _ w (zeros N, zeros N) N Sim eq_refl HN) as (Li & Wi & Zi).
  destruct (w (zeros N, zeros N)) as [ro io]. cbn [fst snd] in *.
  exists ro, io. split; [reflexivity|]. split; [exact Lr|]. split; [exact Li|]. split.
  - intros i f t Hi Hf Ht.
    assert (Hj : 0 <= i * Fr' * T' + (f + fl) * T' + (t + tl) < N).
    { subst N. replace (i * Fr' * T' + (f + fl) * T' + (t + tl))
        with ((i * Fr' + (f + fl)) * T' + (t + tl)) by ring.
      rewrite Z.mul_assoc. apply index_bound; [|subst T'; lia].
      apply index_bound; subst Fr'; lia. }
    split.
    + apply Wr; [|exact Hj].
      exists i; split; [lia|]. exists f; split; [lia|]. exists t; split; [lia|].
      split; reflexivity.
    + apply Wi; [|exact Hj].
      exists i; split; [lia|]. exists f; split; [lia|]. exists t; split; [lia|].
      split; reflexivity.
  - intros j Hj Hno. split.
    + apply Zr; [exact Hj|]. intros v (i & Hi & f & Hf & t & Ht & E & _).
      now apply (Hno i f t).
    + apply Zi; [exact Hj|]. intros v (i & Hi & f & Hf & t & Ht & E & _).
      now apply (Hno i f t).
Qed.

(** X14. [padComplex] puts every [Fr] by [T] block of the real and of the
    imaginary part in a block of zeros, [fl] rows down and [tl] columns
    to the right. *)
Theorem padComplex_pads_with_zeros (z : ComplexTensor F) (fl fr tl tr : Z)
    (pre : list Z) (Fr T : Z) :
  shape (real z) = pre ++ [Fr; T] ->
  Forall (fun d => 0 <= d) pre ->
  0 <= Fr -> 0 <= T -> 0 <= fl -> 0 <= fr -> 0 <= tl -> 0 <= tr ->
  0 < (Fr + fl + fr) * (T + tl + tr) ->
  let Fr' := Fr + fl + fr in
  let T' := T + tl + tr in
  exists ro io,
    padComplex z (fl, fr) (tl, tr)
    = Ok (mkComplex (mkTensor ro (pre ++ [Fr'; T'])) (mkTensor io (pre ++ [Fr'; T'])))
    /\ forall i f t, 0 <= i < product pre -> 0 <= f < Fr' -> 0 <= t < T' ->
         if (fl <=? f) && (f <? fl + Fr) && (tl <=? t) && (t <? tl + T)
         then aget ro ((i * Fr' + f) * T' + t)
              = aget (data (real z)) ((i * Fr + (f - fl)) * T + (t - tl))
              /\ aget io ((i * Fr' + f) * T' + t)
                 = aget (data (imag z)) ((i * Fr + (f - fl)) * T + (t - tl))
         else aget ro ((i * Fr' + f) * T' + t) = fzero
              /\ aget io ((i * Fr' + f) * T' + t) = fzero.
Proof.
  intros Hs Hpre HFr HT Hfl Hfr Htl Htr Hpos Fr' T'.
  destruct (padComplex_spec z fl fr tl tr pre Fr T Hs Hpre HFr HT Hfl Hfr Htl Htr Hpos)
    as (ro & io & E & Lr & Li & Hin & Hout).
  fold Fr' T' in E, Lr, Li, Hin, Hout.
  exists ro, io. split; [exact E|]. intros i f t Hi Hf Ht.
  assert (Hblock : forall i' f' t', 0 <= f' < Fr -> 0 <= t' < T ->
            (i * Fr' + f) * T' + t = i' * Fr' * T' + (f' + fl) * T' + (t' + tl) ->
            i = i' /\ f = f' + fl /\ t = t' + tl).
  { intros i' f' t' Hf' Ht' Ej.
    replace (i' * Fr' * T' + (f' + fl) * T' + (t' + tl))
      with ((i' * Fr' + (f' + fl)) * T' + (t' + tl)) in Ej by ring.
    apply index_inj in Ej; try (subst T'; lia). destruct Ej as [Ej ?].
    apply index_inj in Ej; try (subst Fr'; lia). }
  destruct ((fl <=? f) && (f <? fl + Fr) && (tl <=? t) && (t <? tl + T)) eqn:Eb.
  - rewrite !andb_true_iff in Eb. destruct Eb as [[[H1 H2] H3] H4].
    apply Z.leb_le in H1, H3. apply Z.ltb_lt in H2, H4.
    destruct (Hin i (f - fl) (t - tl)) as [Hre Him]; try lia.
    replace (i * Fr' * T' + (f - fl + fl) * T' + (t - tl + tl))
      with ((i * Fr' + f) * T' + t) in Hre, Him by ring.
    replace (i * Fr * T + (f - fl) * T + (t - tl))
      with ((i * Fr + (f - fl)) * T + (t - tl)) in Hre, Him by ring.
    now split.
  - apply Hout.
    + rewrite Z.mul_assoc. apply index_bound; [|lia]. apply index_bound; lia.
    + intros i' f' t' Hi' Hf' Ht' Ej.
      destruct (Hblock i' f' t' Hf' Ht' Ej) as (_ & -> & ->).
      rewrite !andb_false_iff in Eb.
      rewrite !Z.leb_gt, !Z.ltb_ge in Eb. lia.
Qed.

End PadComplex.

(** ** The inverse spectrogram *)

Section Ispec.
Context {F : Type} {SF : Scalar F}.

(** [ispectro] with a given length: every row of the result has that
    length less [nFft]. *)
Lemma ispectro_ok (fuel : nat) (z : ComplexTensor F) (hopLength length nFft : Z)
    (m : nat) (pre : list Z) (freqs frames : Z) :
  shape (real z) = pre ++ [freqs; frames] ->
  alen (data (real z)) = product pre * (freqs * frames) ->
  0 < freqs * frames ->
  2 * freqs - 2 = nFft ->
  nFft = 2 ^ Z.of_nat m -> (m <= 29)%nat ->
  (Z.to_nat nFft <= fuel)%nat ->
  0 <= product pre * (length - nFft) ->
  exists out,
    ispectro fuel z (Some hopLength) (Some length)
    = Ok (mkTensor out (pre ++ [length - nFft]))
    /\ alen out = product pre * (length - nFft).
Proof.
  intros Hs Hd Hpos Hn Hm Hm29 Hfuel Hout.
  unfold ispectro. rewrite Hs, last_dim2_snoc, last_dim_snoc2, Hn, Hd.
  rewrite Z.div_mul by lia.
  destruct (hannWindow_ok (F := F) nFft) as (w & Ew & _).
  { rewrite Hm. apply Z.pow_nonneg. lia. }
  rewrite Ew. cbn [bind].
  destruct (istft_ok fuel
              (mkComplex (mkTensor (data (real z)) [product pre; freqs; frames])
                         (mkTensor (data (imag z)) [product pre; freqs; frames]))
              nFft hopLength w true (Some length) true m (product pre) freqs frames
              eq_refl Hn Hm Hm29 Hfuel Hout) as (out & Eo & Lo).
  rewrite Eo. cbn [bind shape dim nth data].
  exists out. split; [|exact Lo].
  change (pre ++ [freqs; frames]) with (pre ++ [freqs] ++ [frames]).
  now rewrite app_assoc, !removelast_snoc.
Qed.

(** [ispec]: the two paddings, the inverse spectrogram [x] and the crop. *)
Lemma ispec_spec (fuel : nat) (z : ComplexTensor F) (length : Z)
    (m : nat) (pre : list Z) (Fr T : Z) :
  shape (real z) = pre ++ [Fr; T] ->
  Forall (fun d => 0 <= d) pre ->
  1 <= Fr -> 1 <= T -> 1 <= length ->
  2 * Fr = 2 ^ Z.of_nat m -> (m <= 29)%nat ->
  (Z.to_nat (2 * Fr) <= fuel)%nat ->
  let rowLength := 1024 * ceil_div length 1024 + 3072 - 2 * Fr in
  0 <= rowLength ->
  exists p1 p2 x out,
    padComplex z (0, 1) (0, 0) = Ok p1
    /\ padComplex p1 (0, 0) (2, 2) = Ok p2
    /\ ispectro fuel p2 (Some 1024) (Some (1024 * ceil_div length 1024 + 3072))
       = Ok (mkTensor x (pre ++ [rowLength]))
    /\ alen x = product pre * rowLength
    /\ ispec fuel z length = Ok (mkTensor out (pre ++ [length]))
    /\ alen out = product pre * length
    /\ forall i j, 0 <= i < product pre -> 0 <= j < length ->
         aget out (i * length + j) = aget x (i * rowLength + 1536 + j).
Proof.
  intros Hs Hpre HFr HT Hlen Hm Hm29 Hfuel rowLength Hrow.
  pose proof (product_nonneg _ Hpre) as Hp.
  destruct (padComplex_spec z 0 1 0 0 pre Fr T Hs Hpre) as (r1 & i1 & E1 & L1 & _);
    try lia; try nia.
  set (p1 := mkComplex (mkTensor r1 (pre ++ [Fr + 0 + 1; T + 0 + 0]))
                       (mkTensor i1 (pre ++ [Fr + 0 + 1; T + 0 + 0]))) in *.
  destruct (padComplex_spec p1 0 0 2 2 pre (Fr + 0 + 1) (T + 0 + 0) eq_refl Hpre)
    as (r2 & i2 & E2 & L2 & _); try lia; try nia.
  set (p2 := mkComplex
               (mkTensor r2 (pre ++ [Fr + 0 + 1 + 0 + 0; T + 0 + 0 + 2 + 2]))
               (mkTensor i2 (pre ++ [Fr + 0 + 1 + 0 + 0; T + 0 + 0 + 2 + 2]))) in *.
  destruct (ispectro_ok fuel p2 1024 (1024 * ceil_div length 1024 + 3072) (2 * Fr) m pre
              (Fr + 0 + 1 + 0 + 0) (T + 0 + 0 + 2 + 2) eq_refl L2)
    as (x & Ex & Lx); try assumption; try lia; try (fold rowLength; nia).
  fold rowLength in Ex, Lx.
  exists p1, p2, x. unfold ispec. rewrite E1. cbn [bind]. rewrite E2. cbn [bind].
  cbv zeta. change (1024 / 2 * 3) with 1536.
  replace (1024 * ceil_div length 1024 + 2 * 1536)
    with (1024 * ceil_div length 1024 + 3072) by ring.
  rewrite Ex. cbn [bind shape data].
  rewrite last_dim_snoc, set_last_snoc, product_snoc.
  rewrite alloc_ok by nia. cbn [bind].
  rewrite Z.div_mul by lia.
  destruct (copy_rows x (fun i j => i * length + j)
              (fun i j => i * rowLength + 1536 + j) (product pre) length length 0
              (product pre * length)) as (L & W & _); try lia.
  eexists. split; [reflexivity|]. split; [reflexivity|]. split; [reflexivity|].
  split; [exact Lx|]. split; [reflexivity|]. split; [exact L|].
  intros i j Hi Hj. specialize (W i j Hi Hj). cbv beta in W.
  now replace (i * length + 0 + j) with (i * length + j) in W by ring.
Qed.

(** X15. [ispec] returns rows of the requested length; sample [j] of a row is
    sample [1536 + j] of the same row of the inverse spectrogram as long
    as that row reaches so far. *)
Theorem ispec_crops_each_row (fuel : nat) (z : ComplexTensor F) (length : Z)
    (m : nat) (pre : list Z) (Fr T : Z) :
  shape (real z) = pre ++ [Fr; T] ->
  Forall (fun d => 0 <= d) pre ->
  1 <= Fr -> 1 <= T -> 1 <= length ->
  2 * Fr = 2 ^ Z.of_nat m -> (m <= 29)%nat ->
  (Z.to_nat (2 * Fr) <= fuel)%nat ->
  let rowLength := 1024 * ceil_div length 1024 + 3072 - 2 * Fr in
  0 <= rowLength ->
  exists p1 p2 x out,
    padComplex z (0, 1) (0, 0) = Ok p1
    /\ padComplex p1 (0, 0) (2, 2) = Ok p2
    /\ ispectro fuel p2 (Some 1024) (Some (1024 * ceil_div length 1024 + 3072))
       = Ok (mkTensor x (pre ++ [rowLength]))
    /\ ispec fuel z length = Ok (mkTensor out (pre ++ [length]))
    /\ alen out = product pre * length
    /\ forall i j, 0 <= i < product pre -> 0 <= j < length ->
         1536 + j < rowLength ->
         aget out (i * length + j) = aget x (i * rowLength + (1536 + j)).
Proof.
  intros Hs Hpre HFr HT Hlen Hm Hm29 Hfuel rowLength Hrow.
  destruct (ispec_spec fuel z length m pre Fr T Hs Hpre HFr HT Hlen Hm Hm29 Hfuel Hrow)
    as (p1 & p2 & x & out & E1 & E2 & Ex & Lx & E & L & Hc).
  exists p1, p2, x, out. repeat (split; [assumption|]).
  intros i j Hi Hj _. rewrite Z.add_assoc. now apply Hc.
Qed.

(** X16. With the 2048 bins of the model the rows of the inverse spectrogram
    are shorter than the requested length, and the crop runs over their
    end: in the last row of the result the last 1536 samples are NaN. *)
Theorem ispec_last_row_ends_in_NaN (fuel : nat) (z : ComplexTensor F) (length : Z)
    (pre : list Z) (T : Z) :
  shape (real z) = pre ++ [2048; T] ->
  Forall (fun d => 0 <= d) pre ->
  1 <= product pre ->
  1 <= T -> 1 <= length ->
  (4096 <= fuel)%nat ->
  exists out,
    ispec fuel z length = Ok (mkTensor out (pre ++ [length]))
    /\ alen out = product pre * length
    /\ forall j, 0 <= j < length -> length - 1536 <= j ->
         aget out ((product pre - 1) * length + j) = fnan.
Proof.
  intros Hs Hpre Hrows HT Hlen Hfuel.
  pose proof (ceil_div_spec length 1024 ltac:(lia)) as Hceil.
  destruct (ispec_spec fuel z length 12 pre 2048 T Hs Hpre) as
    (p1 & p2 & x & out & _ & _ & _ & Lx & E & L & Hc); try lia.
  exists out. split; [exact E|]. split; [exact L|].
  intros j Hj Htail. rewrite Hc by lia.
  apply aget_outside. rewrite Lx. nia.
Qed.

End Ispec.

(** ** One chunk through [applyInference] *)

Section ApplyInference.
Context {F : Type} {SF : Scalar F}.

(** The shape and the size of what [applyInference] returns for a chunk
    no longer than the training length, under a session that answers
    with tensors of the shapes of the model. *)
Lemma applyInference_ok (fuel : nat) (model : ONNXHTDemucs F)
    (mix : TensorChunk.t F) (B C total S T' : Z) :
  let training := Qfloor (segment model * samplerate model) in
  shape (TensorChunk.tensor mix) = [B; C; total] ->
  0 <= B -> 0 <= C -> 0 <= S -> 1 <= T' ->
  1 <= training ->
  0 <= TensorChunk.length mix <= training ->
  (4096 <= fuel)%nat ->
  (forall paddedMix magspec : Tensor F,
     shape paddedMix = [B; C; training] ->
     shape magspec = [B; C * 2; 2048; ceil_div training 1024] ->
     exists outX outXt,
       session model paddedMix magspec = Ok (outX, outXt)
       /\ shape outX = [B; S; C * 2; 2048; T']
       /\ shape outXt = [B; S; C; training]
       /\ alen (data outXt) = B * S * C * training) ->
  exists out,
    applyInference fuel model mix = Ok (mkTensor out [B; S; C; TensorChunk.length mix])
    /\ alen out = B * S * C * TensorChunk.length mix.
Proof.
  intros training Hs HB HC HS HT' Htr Hlen Hfuel Hsession.
  assert (Hpre2 : Forall (fun d => 0 <= d) [B; C]) by (repeat constructor; assumption).
  assert (Hpre3 : Forall (fun d => 0 <= d) [B; S; C]) by (repeat constructor; assumption).
  assert (P2 : product [B; C] = B * C) by (rewrite !product_cons, product_nil; ring).
  assert (P3 : product [B; S; C] = B * S * C) by (rewrite !product_cons, product_nil; ring).
  unfold applyInference, validLength. fold training.
  destruct (Z.ltb_spec training (TensorChunk.length mix)); [lia|]. cbn [bind].
  destruct (padded_ok mix training [B; C] total Hs Hpre2 ltac:(lia) ltac:(lia))
    as (pm & Epm & Lpm).
  rewrite Epm. cbn [bind app].
  unfold padToTrainingLength. cbn [shape].
  change [B; C; training] with ([B; C] ++ [training]). rewrite last_dim_snoc.
  destruct (Z.geb_spec training training); [|lia]. cbn [bind].
  destruct (spec_structure fuel (mkTensor pm ([B; C] ++ [training])) [B; C] training
              eq_refl Lpm Hpre2 Htr ltac:(lia))
    as (_ & _ & z & _ & _ & _ & _ & _ & Ez & Hzr & _).
  rewrite Ez. cbn [bind].
  destruct (magnitude_spec z B C 2048 (ceil_div training 1024) Hzr HB HC ltac:(lia))
    as (mg & Emg & _).
  { pose proof (ceil_div_spec training 1024 ltac:(lia)). lia. }
  rewrite Emg. cbn [bind].
  destruct (Hsession (mkTensor pm ([B; C] ++ [training]))
              (mkTensor mg [B; C * 2; 2048; ceil_div training 1024]) eq_refl eq_refl)
    as (outX & outXt & Eses & HsX & HsXt & LXt).
  unfold forward. rewrite Eses. cbn [bind].
  destruct (mask_spec (mkTensor (data outX) (shape outX)) B S C 2048 T' HsX HB HS HC
              ltac:(lia) ltac:(lia)) as (ro & io & Emask & _).
  rewrite Emask. cbn [bind].
  destruct (ispec_spec fuel
              (mkComplex (mkTensor ro [B; S; C; 2048; T']) (mkTensor io [B; S; C; 2048; T']))
              training 12 [B; S; C] 2048 T' eq_refl Hpre3)
    as (_ & _ & _ & ts & _ & _ & _ & _ & Eis & _); try lia.
  { pose proof (ceil_div_spec training 1024 ltac:(lia)). lia. }
  rewrite Eis. cbn [bind app].
  destruct (addTensors_adds (mkTensor (data outXt) (shape outXt))
              (mkTensor ts [B; S; C; training]) HsXt) as (sm & Eadd & Lsm & _).
  rewrite Eadd. cbn [bind shape data] in *. rewrite HsXt.
  unfold cropToValidLength. cbn [shape].
  change [B; S; C; training] with ([B; S; C] ++ [training]). rewrite last_dim_snoc.
  destruct (Z.geb_spec training training); [|lia]. cbn [bind].
  destruct (Z.eq_dec (TensorChunk.length mix) training) as [Eq|Hne].
  - unfold centerTrim. cbn [shape]. rewrite last_dim_snoc, Eq, Z.sub_diag.
    cbn [Z.ltb Z.eqb Z.compare]. exists sm. split; [reflexivity|]. congruence.
  - destruct (centerTrim_trims (mkTensor sm ([B; S; C] ++ [training]))
                (TensorChunk.length mix) [B; S; C] training eq_refl Hpre3 ltac:(lia))
      as (out & Eo & Lo & _).
    rewrite Eo. exists out. split; [reflexivity|]. now rewrite Lo, P3.
Qed.

(** X17. A chunk no longer than the training length goes through
    [applyInference] without an error and comes back as one track per
    source, as long as the chunk: the session is only asked to answer a
    mix of shape [[B; C; training]] and a spectrogram of shape
    [[B; 2C; 2048; ceil (training / 1024)]] with a mask of 2048 bins and
    a waveform of the training length for each of its [S] sources. *)
Theorem applyInference_returns_the_chunk_length (fuel : nat) (model : ONNXHTDemucs F)
    (mix : TensorChunk.t F) (B C total S T' : Z) :
  let training := Qfloor (segment model * samplerate model) in
  shape (TensorChunk.tensor mix) = [B; C; total] ->
  0 <= B -> 0 <= C -> 0 <= S -> 1 <= T' ->
  1 <= training ->
  0 <= TensorChunk.length mix <= training ->
  (4096 <= fuel)%nat ->
  (forall paddedMix magspec : Tensor F,
     shape paddedMix = [B; C; training] ->
     shape magspec = [B; C * 2; 2048; ceil_div training 1024] ->
     exists outX outXt,
       session model paddedMix magspec = Ok (outX, outXt)
       /\ shape outX = [B; S; C * 2; 2048; T']
       /\ shape outXt = [B; S; C; training]
       /\ alen (data outXt) = B * S * C * training) ->
  exists out,
    applyInference fuel model mix = Ok (mkTensor out [B; S; C; TensorChunk.length mix])
    /\ alen out = B * S * C * TensorChunk.length mix.
Proof.
  intros training Hs HB HC HS HT' Htr Hlen Hfuel Hsession.
  assert (Hpre2 : Forall (fun d => 0 <= d) [B; C]) by (repeat constructor; assumption).
  assert (Hpre3 : Forall (fun d => 0 <= d) [B; S; C]) by (repeat constructor; assumption).
  assert (P2 : product [B; C] = B * C) by (rewrite !product_cons, product_nil; ring).
  assert (P3 : product [B; S; C] = B * S * C) by (rewrite !product_cons, product_nil; ring).
  unfold applyInference, validLength. fold training.
  destruct (Z.ltb_spec training (TensorChunk.length mix)); [lia|]. cbn [bind].
  destruct (padded_ok mix training [B; C] total Hs Hpre2 ltac:(lia) ltac:(lia))
    as (pm & Epm & Lpm).
  rewrite Epm. cbn [bind app].
  unfold padToTrainingLength. cbn [shape].
  change [B; C; training] with ([B; C] ++ [training]). rewrite last_dim_snoc.
  destruct (Z.geb_spec training training); [|lia]. cbn [bind].
  destruct (spec_structure fuel (mkTensor pm ([B; C] ++ [training])) [B; C] training
              eq_refl Lpm Hpre2 Htr ltac:(lia))
    as (_ & _ & z & _ & _ & _ & _ & _ & Ez & Hzr & _).
  rewrite Ez. cbn [bind].
  destruct (magnitude_spec z B C 2048 (ceil_div training 1024) Hzr HB HC ltac:(lia))
    as (mg & Emg & _).
  { pose proof (ceil_div_spec training 1024 ltac:(lia)). lia. }
  rewrite Emg. cbn [bind].
  destruct (Hsession (mkTensor pm ([B; C] ++ [training]))
              (mkTensor mg [B; C * 2; 2048; ceil_div training 1024]) eq_refl eq_refl)
    as (outX & outXt & Eses & HsX & HsXt & LXt).
  unfold forward. rewrite Eses. cbn [bind].
  destruct (mask_spec (mkTensor (data outX) (shape outX)) B S C 2048 T' HsX HB HS HC
              ltac:(lia) ltac:(lia)) as (ro & io & Emask & _).
  rewrite Emask. cbn [bind].
  destruct (ispec_spec fuel
              (mkComplex (mkTensor ro [B; S; C; 2048; T']) (mkTensor io [B; S; C; 2048; T']))
              training 12 [B; S; C] 2048 T' eq_refl Hpre3)
    as (_ & _ & _ & ts & _ & _ & _ & _ & Eis & _); try lia.
  { pose proof (ceil_div_spec training 1024 ltac:(lia)). lia. }
  rewrite Eis. cbn [bind app].
  destruct (addTensors_adds (mkTensor (data outXt) (shape outXt))
              (mkTensor ts [B; S; C; training]) HsXt) as (sm & Eadd & Lsm & _).
  rewrite Eadd. cbn [bind shape data] in *. rewrite HsXt.
  unfold cropToValidLength. cbn [shape].
  change [B; S; C; training] with ([B; S; C] ++ [training]). rewrite last_dim_snoc.
  destruct (Z.geb_spec training training); [|lia]. cbn [bind].
  destruct (Z.eq_dec (TensorChunk.length mix) training) as [Eq|Hne].
  - unfold centerTrim. cbn [shape]. rewrite last_dim_snoc, Eq, Z.sub_diag.
    cbn [Z.ltb Z.eqb Z.compare]. exists sm. split; [reflexivity|]. congruence.
  - destruct (centerTrim_trims (mkTensor sm ([B; S; C] ++ [training]))
                (TensorChunk.length mix) [B; S; C] training eq_refl Hpre3 ltac:(lia))
      as (out & Eo & Lo & _).
    rewrite Eo. exists out. split; [reflexivity|]. now rewrite Lo, P3.
Qed.

End ApplyInference.

(** ** [spectro] followed by [ispectro] *)

Section SpectroRoundTrip.
Context {F : Type} {SF : Scalar F}.

(** [ispectro] without a length: the rows are as long as the hops
    between the first and the last frame. *)
Lemma ispectro_default_length (fuel : nat) (z : ComplexTensor F) (hopLength : option Z)
    (nFft : Z) (m : nat) (pre : list Z) (freqs frames : Z) :
  shape (real z) = pre ++ [freqs; frames] ->
  alen (data (real z)) = product pre * (freqs * frames) ->
  0 < freqs * frames ->
  2 * freqs - 2 = nFft ->
  nFft = 2 ^ Z.of_nat m -> (m <= 29)%nat ->
  (Z.to_nat nFft <= fuel)%nat ->
  let hop := match hopLength with Some h => h | None => nFft / 4 end in
  0 <= product pre * ((frames - 1) * hop) ->
  exists out,
    ispectro fuel z hopLength None = Ok (mkTensor out (pre ++ [(frames - 1) * hop]))
    /\ alen out = product pre * ((frames - 1) * hop).
Proof.
  intros Hs Hd Hpos Hn Hm Hm29 Hfuel hop Hout.
  unfold ispectro. rewrite Hs, last_dim2_snoc, last_dim_snoc2, Hn, Hd. fold hop.
  rewrite Z.div_mul by lia.
  destruct (hannWindow_ok (F := F) nFft) as (w & Ew & _).
  { rewrite Hm. apply Z.pow_nonneg. lia. }
  rewrite Ew. cbn [bind].
  destruct (istft_ok fuel
              (mkComplex (mkTensor (data (real z)) [product pre; freqs; frames])
                         (mkTensor (data (imag z)) [product pre; freqs; frames]))
              nFft hop w true None true m (product pre) freqs frames
              eq_refl Hn Hm Hm29 Hfuel) as (out & Eo & Lo).
  { now replace (nFft + (frames - 1) * hop - nFft) with ((frames - 1) * hop) by ring. }
  replace (nFft + (frames - 1) * hop - nFft) with ((frames - 1) * hop) in Eo, Lo by ring.
  rewrite Eo. cbn [bind shape dim nth data].
  exists out. split; [|exact Lo].
  change (pre ++ [freqs; frames]) with (pre ++ [freqs] ++ [frames]).
  now rewrite app_assoc, !removelast_snoc.
Qed.

(** X18. [ispectro] after [spectro], with the same positive hop (the
    default, a quarter of [nFft], is positive from [nFft = 4] on): the
    leading dimensions come back, and the last one is the original length
    rounded down to a whole number of hops. *)
Theorem ispectro_of_spectro_length (fuel : nat) (x : Tensor F) (nFft : Z)
    (hopLength : option Z) (m : nat) (pre : list Z) (length : Z) :
  shape x = pre ++ [length] ->
  alen (data x) = product pre * length ->
  Forall (fun d => 0 <= d) pre ->
  1 <= length ->
  nFft = 2 ^ Z.of_nat m -> (1 <= m <= 29)%nat ->
  (Z.to_nat nFft <= fuel)%nat ->
  let hop := match hopLength with Some h => h | None => nFft / 4 end in
  0 < hop ->
  exists z y,
    spectro fuel x nFft hopLength = Ok z
    /\ shape (real z) = pre ++ [nFft / 2 + 1; length / hop + 1]
    /\ ispectro fuel z hopLength None = Ok (mkTensor y (pre ++ [length / hop * hop]))
    /\ alen y = product pre * (length / hop * hop).
Proof.
  intros Hs Hd Hpre Hlen Hn Hm Hfuel hop Hhop.
  pose proof (product_nonneg _ Hpre) as Hp.
  assert (Heven : nFft = 2 * (nFft / 2)).
  { rewrite Hn. replace (Z.of_nat m) with (1 + Z.of_nat (m - 1)) by lia.
    rewrite Z.pow_add_r by lia. change (2 ^ 1) with 2.
    now rewrite Z.mul_comm, Z.div_mul, Z.mul_comm by lia. }
  assert (Hpos : 0 < nFft) by (rewrite Hn; apply Z.pow_pos_nonneg; lia).
  assert (Espectro : spectro fuel x nFft hopLength = spectro fuel x nFft (Some hop))
    by (destruct hopLength; reflexivity).
  destruct (spectro_ok fuel x nFft hop m pre length Hs Hd Hpre Hlen Hn ltac:(lia)
              Hfuel Hhop ltac:(lia)) as (ro & io & Ez & Lr & _).
  replace (length + nFft / 2 + nFft / 2 - nFft) with length in Ez, Lr by lia.
  pose proof (Z.div_pos length hop ltac:(lia) Hhop) as Hq.
  rewrite <- Espectro in Ez.
  destruct (ispectro_default_length fuel
              (mkComplex (mkTensor ro (pre ++ [nFft / 2 + 1; length / hop + 1]))
                         (mkTensor io (pre ++ [nFft / 2 + 1; length / hop + 1])))
              hopLength nFft m pre (nFft / 2 + 1) (length / hop + 1) eq_refl)
    as (y & Ey & Ly); try assumption; try lia.
  { cbn [real data]. rewrite Lr. ring. }
  fold hop in Ey, Ly.
  replace (length / hop + 1 - 1) with (length / hop) in Ey, Ly by ring.
  eexists _, y. split; [exact Ez|]. split; [reflexivity|]. split; [exact Ey|exact Ly].
Qed.

End SpectroRoundTrip.

(** ** The properties above at small inputs *)

(** Two samples padded to three: the third is zero. *)
Lemma padToTrainingLength_zero_extends_witness :
  exists out,
    padToTrainingLength (mkTensor [Some 1; Some 2] [1; 2]) 3 = Ok (mkTensor out [1; 3])
    /\ aget out 2 = Some 0.
Proof.
  destruct (padToTrainingLength_zero_extends (mkTensor [Some 1; Some 2] [1; 2]) 3 [1] 2)
    as [_ H]; [reflexivity|repeat constructor; lia|lia|].
  destruct (H ltac:(lia)) as (out & E & _ & W).
  exists out. split; [exact E|]. apply (W 0 2); cbn; lia.
Defined.

(** Three samples cropped to two. *)
Lemma cropToValidLength_keeps_prefix_witness :
  exists out,
    cropToValidLength (mkTensor [Some 1; Some 2; Some 3] [1; 3]) 2
    = Ok (mkTensor out [1; 2])
    /\ aget out 1 = Some 2.
Proof.
  destruct (cropToValidLength_keeps_prefix (mkTensor [Some 1; Some 2; Some 3] [1; 3]) 2
              [1] 3) as [_ H]; [reflexivity|repeat constructor; lia|].
  destruct (H ltac:(lia)) as (out & E & _ & W).
  exists out. split; [exact E|]. apply (W 0 1); cbn; lia.
Defined.

(** Four samples trimmed to the two in the middle. *)
Lemma centerTrim_keeps_the_middle_witness :
  exists out,
    centerTrim (mkTensor [Some 1; Some 2; Some 3; Some 4] [1; 4]) 2
    = Ok (mkTensor out [1; 2])
    /\ aget out 0 = Some 2.
Proof.
  destruct (centerTrim_keeps_the_middle (mkTensor [Some 1; Some 2; Some 3; Some 4] [1; 4])
              2 [1] 4) as (_ & _ & H); [reflexivity|repeat constructor; lia|].
  destruct (H ltac:(lia)) as (out & E & _ & W).
  exists out. split; [exact E|]. apply (W 0 0); cbn; lia.
Defined.

(** The middle sample of three as a chunk, padded to three samples. *)
Lemma padded_centers_the_chunk_witness :
  let tensor := mkTensor [Some 1; Some 2; Some 3] [1; 3] in
  exists out,
    TensorChunk.padded (TensorChunk.mk tensor 1 1) 3 = Ok (mkTensor out [1; 3])
    /\ aget out 0 = Some 1.
Proof.
  intros tensor.
  destruct (padded_centers_the_chunk tensor 1 (Some 1) 3 [1] 3 (TensorChunk.mk tensor 1 1))
    as (out & E & _ & W);
    [reflexivity|repeat constructor; lia|lia|reflexivity|cbn; lia|].
  exists out. split; [exact E|]. apply (W 0 0); cbn; lia.
Defined.

(** The same chunk, padded to three samples and trimmed back to one. *)
Lemma centerTrim_undoes_padded_witness :
  let this := TensorChunk.mk (mkTensor [Some 1; Some 2; Some 3] [1; 3]) 1 1 in
  exists out,
    (p <- TensorChunk.padded this 3 ;; centerTrim p 1) = Ok (mkTensor out [1; 1])
    /\ aget out 0 = Some 2.
Proof.
  intros this.
  destruct (centerTrim_undoes_padded this 3 [1] 3) as (out & E & _ & W);
    [reflexivity|repeat constructor; lia|cbn; lia|cbn; lia|cbn; lia|].
  exists out. split; [exact E|]. apply (W 0 0); cbn; lia.
Defined.

(** 1 + 2 on tensors of one element. *)
Lemma addTensors_checks_shapes_then_adds_witness :
  exists out,
    addTensors (mkTensor [1%R] [1]) (mkTensor [2%R] [1]) = Ok (mkTensor out [1])
    /\ aget out 0 = (1 + 2)%R.
Proof.
  destruct (addTensors_checks_shapes_then_adds (mkTensor [1%R] [1]) (mkTensor [2%R] [1]))
    as [_ H].
  destruct (H eq_refl) as (out & E & _ & W).
  exists out. split; [exact E|]. apply (W 0). cbn. lia.
Defined.

(** Three samples with two more on the right. *)
Lemma padReflect_mirrors_on_the_right_witness :
  exists r,
    padReflect [Some 1; Some 2; Some 3] 0 2 = Ok r
    /\ aget r 3 = aget r 1.
Proof.
  destruct (padReflect_mirrors_on_the_right [Some 1; Some 2; Some 3] 0 2)
    as (r & E & _ & _ & W); [lia|cbn; lia|].
  exists r. split; [exact E|]. apply (W 0). lia.
Defined.

(** Three samples with two more on the left. *)
Lemma padReflect_left_pad_witness :
  exists r,
    padReflect [Some 1; Some 2; Some 3] 2 0 = Ok r
    /\ aget r 0 = Some 1
    /\ aget r 1 = Some 0.
Proof.
  destruct (padReflect_left_pad [Some 1; Some 2; Some 3] 2 0)
    as (r & E & H0 & W); [cbn; lia|lia|cbn; lia|].
  exists r. split; [exact E|]. split; [exact H0|]. apply (W 1). lia.
Defined.

(** A row of two samples between two zeros. *)
Lemma pad1d_constant_zero_fills_witness :
  exists out,
    pad1d (mkTensor [Some 1; Some 2] [1; 2]) (1, 1) constant = Ok (mkTensor out [1; 4])
    /\ aget out 0 = Some 0
    /\ aget out 1 = Some 1.
Proof.
  destruct (pad1d_constant_zero_fills (mkTensor [Some 1; Some 2] [1; 2]) 1 1 [1] 2)
    as (out & E & _ & W); [reflexivity|repeat constructor; lia|lia|lia|lia|].
  exists out. split; [exact E|]. split.
  - apply (W 0 0); cbn; lia.
  - apply (W 0 1); cbn; lia.
Defined.

(** A row of three samples and its mirror image on the right. *)
Lemma pad1d_reflect_rows_witness :
  exists out,
    pad1d (mkTensor [Some 1; Some 2; Some 3] [1; 3]) (0, 2) reflect
    = Ok (mkTensor out [1; 5])
    /\ aget out 3 = Some 2.
Proof.
  destruct (pad1d_reflect_rows (mkTensor [Some 1; Some 2; Some 3] [1; 3]) 0 2 [1] 3)
    as (out & E & _ & W); [reflexivity|reflexivity|repeat constructor; lia|lia|lia|].
  exists out. split; [exact E|].
  destruct (W 0 ltac:(cbn; lia)) as [_ Wr]. apply (Wr 0). lia.
Defined.

(** Two samples are a power of two. *)
Lemma fft_size_rule_witness :
  exists real imag,
    fft 2 [1%R; 2%R] None = Ok (real, imag) /\ alen real = 2.
Proof.
  destruct (fft_size_rule 2 [1%R; 2%R] None) as [H _]; [cbn; lia|cbn; lia|].
  destruct H as (re & im & E & L & _); [exists 1; split; [lia|reflexivity]|].
  exists re, im. split; [exact E|exact L].
Defined.

(** Two channels of one sample. *)
Lemma planarize_concatenates_witness :
  planarize [[1%R]; [2%R]] = Ok [1%R; 2%R].
Proof.
  apply (planarize_concatenates [[1%R]; [2%R]] 1); [discriminate|repeat constructor].
Defined.

(** The window of four samples starts at 0. *)
Lemma hannWindow_periodic_window_witness :
  exists w, hannWindow (F := R) 4 = Ok w /\ aget w 0 = 0%R.
Proof.
  destruct (hannWindow_periodic_window 4) as (w & E & _ & H0 & _); [lia|].
  exists w. split; [exact E|exact H0].
Defined.

(** One bin with a zero bin added under it. *)
Lemma padComplex_pads_with_zeros_witness :
  exists ro io,
    padComplex (mkComplex (mkTensor [Some 1] [1; 1]) (mkTensor [Some 2] [1; 1])) (0, 1) (0, 0)
    = Ok (mkComplex (mkTensor ro [2; 1]) (mkTensor io [2; 1]))
    /\ aget ro 0 = Some 1
    /\ aget ro 1 = Some 0.
Proof.
  destruct (padComplex_pads_with_zeros
              (mkComplex (mkTensor [Some 1] [1; 1]) (mkTensor [Some 2] [1; 1]))
              0 1 0 0 [] 1 1) as (ro & io & E & W);
    [reflexivity|constructor|lia|lia|lia|lia|lia|lia|lia|].
  exists ro, io. split; [exact E|]. split.
  - exact (proj1 (W 0 0 0 ltac:(cbn; lia) ltac:(lia) ltac:(lia))).
  - exact (proj1 (W 0 1 0 ltac:(cbn; lia) ltac:(lia) ltac:(lia))).
Defined.

(** One bin and one frame, for one sample. *)
Lemma ispec_crops_each_row_witness :
  exists out,
    ispec 2 (mkComplex (mkTensor [1%R] [1; 1; 1]) (mkTensor [0%R] [1; 1; 1])) 1
    = Ok (mkTensor out [1; 1])
    /\ alen out = 1.
Proof.
  destruct (ispec_crops_each_row 2
              (mkComplex (mkTensor [1%R] [1; 1; 1]) (mkTensor [0%R] [1; 1; 1]))
              1 1 [1] 1 1)
    as (_ & _ & _ & out & _ & _ & _ & E & L & _);
    [reflexivity|repeat constructor; lia|lia|lia|lia|reflexivity|lia|apply le_n
    |vm_compute; discriminate|].
  exists out. split; [exact E|exact L].
Defined.

(** 2048 bins and one frame, for one sample. *)
Lemma ispec_last_row_ends_in_NaN_witness :
  exists out,
    ispec (Z.to_nat 4096)
      (mkComplex (mkTensor ([] : list R) [1; 2048; 1]) (mkTensor [] [1; 2048; 1])) 1
    = Ok (mkTensor out [1; 1])
    /\ aget out 0 = fnan.
Proof.
  destruct (ispec_last_row_ends_in_NaN (Z.to_nat 4096)
              (mkComplex (mkTensor ([] : list R) [1; 2048; 1]) (mkTensor [] [1; 2048; 1]))
              1 [1] 1)
    as (out & E & _ & W);
    [reflexivity|repeat constructor; lia|cbn; lia|lia|lia|apply le_n|].
  exists out. split; [exact E|]. apply (W 0); lia.
Defined.

(** A model of one source with a training length of 8 samples, and a
    chunk of 8 samples. *)
Lemma applyInference_returns_the_chunk_length_witness :
  let model :=
    mkModel ["a"%string] 1 8%Q 1%Q
      (fun _ _ => Ok (mkTensor ([] : list R) [1; 1; 1 * 2; 2048; 1],
                      mkTensor (zeros 8) [1; 1; 1; 8])) in
  let mix := TensorChunk.mk (mkTensor (zeros 8) [1; 1; 8]) 0 8 in
  exists out,
    applyInference (Z.to_nat 4096) model mix = Ok (mkTensor out [1; 1; 1; 8]).
Proof.
  intros model mix.
  destruct (applyInference_returns_the_chunk_length (Z.to_nat 4096) model mix 1 1 8 1 1)
    as (out & E & _);
    [reflexivity|lia|lia|lia|lia|vm_compute; discriminate
    |split; vm_compute; discriminate|apply le_n| |].
  - intros paddedMix magspec _ _. eexists _, _.
    split; [reflexivity|]. split; [reflexivity|]. split; reflexivity.
  - exists out. exact E.
Defined.

(** Four samples, FFTs of four points, the default hop of one sample. *)
Lemma ispectro_of_spectro_length_witness :
  exists z y,
    spectro 4 (mkTensor [1%R; 2%R; 3%R; 4%R] [4]) 4 None = Ok z
    /\ ispectro 4 z None None = Ok (mkTensor y [4]).
Proof.
  destruct (ispectro_of_spectro_length 4 (mkTensor [1%R; 2%R; 3%R; 4%R] [4]) 4 None 2 [] 4)
    as (z & y & Ez & _ & Ey & _);
    [reflexivity|reflexivity|constructor|lia|reflexivity|lia|apply le_n|cbn; lia|].
  exists z, y. split; [exact Ez|exact Ey].
Defined.

(** ** Bytes *)

Lemma blen_app (a b : list Z) : blen (a ++ b) = blen a + blen b.
Proof. unfold blen. rewrite length_app. lia. Qed.

Lemma blen_nonneg (a : list Z) : 0 <= blen a.
Proof. unfold blen. lia. Qed.

Lemma blen_bzeros (n : Z) : 0 <= n -> blen (bzeros n) = n.
Proof. intros H. unfold blen, bzeros. rewrite repeat_length. lia. Qed.

Lemma bzeros_add (a b : Z) : 0 <= a -> 0 <= b -> bzeros (a + b) = bzeros a ++ bzeros b.
Proof.
  intros Ha Hb. unfold bzeros. rewrite Z2Nat.inj_add by assumption. apply repeat_app.
Qed.

Lemma le_bytes_length (n : nat) (v : Z) : List.length (le_bytes n v) = n.
Proof. revert v. induction n as [|n IH]; intros v; cbn [le_bytes List.length]; auto. Qed.

Lemma blen_le_bytes (n : nat) (v : Z) : blen (le_bytes n v) = Z.of_nat n.
Proof. unfold blen. now rewrite le_bytes_length. Qed.

Lemma le_value_le_bytes (n : nat) (v : Z) : le_value (le_bytes n v) = v mod 256 ^ Z.of_nat n.
Proof.
  revert v. induction n as [|n IH]; intros v.
  - cbn. now rewrite Z.mod_1_r.
  - cbn [le_bytes le_value]. rewrite IH.
    replace (Z.of_nat (S n)) with (1 + Z.of_nat n) by lia.
    rewrite Z.pow_add_r by lia. change (256 ^ 1) with 256.
    symmetry. apply Z.rem_mul_r; [lia|]. apply Z.pow_pos_nonneg; lia.
Qed.

Lemma firstn_app_exact {A : Type} (a b : list A) : firstn (List.length a) (a ++ b) = a.
Proof.
  rewrite firstn_app, firstn_all, Nat.sub_diag. cbn [firstn]. apply app_nil_r.
Qed.

Lemma skipn_app_exact {A : Type} (a b : list A) : skipn (List.length a) (a ++ b) = b.
Proof.
  rewrite skipn_app, skipn_all, Nat.sub_diag. reflexivity.
Qed.

(** A [DataView] setter inside the array replaces the bytes it covers. *)
Lemma view_set_splice (pre mid rest : list Z) (offset : Z) (n : nat) (v : Z) :
  blen pre = offset -> List.length mid = n ->
  view_set (pre ++ mid ++ rest) offset n v = Ok (pre ++ le_bytes n v ++ rest).
Proof.
  intros Ho Hm. unfold view_set.
  pose proof (blen_nonneg pre). pose proof (blen_nonneg rest).
  rewrite !blen_app. unfold blen at 2. rewrite Hm.
  destruct (Z.ltb_spec offset 0); [lia|].
  destruct (Z.ltb_spec (blen pre + (Z.of_nat n + blen rest)) (offset + Z.of_nat n)); [lia|].
  cbn [orb]. f_equal.
  replace (Z.to_nat offset) with (List.length pre) by (unfold blen in Ho; lia).
  rewrite firstn_app_exact. f_equal. f_equal.
  rewrite <- Hm, <- length_app, app_assoc. apply skipn_app_exact.
Qed.

(** A [DataView] getter reads the bytes a setter has put. *)
Lemma view_get_splice (pre rest : list Z) (offset : Z) (n : nat) (v : Z) :
  blen pre = offset ->
  view_get (pre ++ le_bytes n v ++ rest) offset n = Ok (v mod 256 ^ Z.of_nat n).
Proof.
  intros Ho. unfold view_get.
  pose proof (blen_nonneg pre). pose proof (blen_nonneg rest).
  rewrite !blen_app, blen_le_bytes.
  destruct (Z.ltb_spec offset 0); [lia|].
  destruct (Z.ltb_spec (blen pre + (Z.of_nat n + blen rest)) (offset + Z.of_nat n)); [lia|].
  cbn [orb]. f_equal.
  replace (Z.to_nat offset) with (List.length pre) by (unfold blen in Ho; lia).
  rewrite skipn_app_exact.
  rewrite <- (le_bytes_length n v) at 1. rewrite firstn_app_exact.
  apply le_value_le_bytes.
Qed.

(** A getter past a prefix reads the rest. *)
Lemma view_get_app (pre rest : list Z) (offset : Z) (n : nat) :
  0 <= offset ->
  view_get (pre ++ rest) (blen pre + offset) n = view_get rest offset n.
Proof.
  intros Ho. unfold view_get. pose proof (blen_nonneg pre).
  rewrite blen_app.
  destruct (Z.ltb_spec (blen pre + offset) 0); [lia|].
  destruct (Z.ltb_spec offset 0); [lia|]. cbn [orb].
  destruct (Z.ltb_spec (blen pre + blen rest) (blen pre + offset + Z.of_nat n));
    destruct (Z.ltb_spec (blen rest) (offset + Z.of_nat n)); try lia; [reflexivity|].
  f_equal. f_equal. f_equal.
  replace (Z.to_nat (blen pre + offset)) with (Z.to_nat offset + List.length pre)%nat
    by (unfold blen; lia).
  now rewrite <- skipn_skipn, skipn_app_exact.
Qed.

Lemma bget_app_l (pre rest : list Z) (i : Z) :
  0 <= i < blen pre -> bget (pre ++ rest) i = bget pre i.
Proof.
  intros Hi. unfold bget. pose proof (blen_nonneg rest). rewrite blen_app.
  destruct (Z.leb_spec 0 i); [|lia].
  destruct (Z.ltb_spec i (blen pre + blen rest)); [|lia].
  destruct (Z.ltb_spec i (blen pre)); [|lia]. cbn [andb].
  apply nth_error_app1. unfold blen in Hi. lia.
Qed.

Lemma bget_app_r (pre rest : list Z) (i : Z) :
  0 <= i -> bget (pre ++ rest) (blen pre + i) = bget rest i.
Proof.
  intros Hi. unfold bget. pose proof (blen_nonneg pre). rewrite blen_app.
  destruct (Z.leb_spec 0 (blen pre + i)); [|lia].
  destruct (Z.leb_spec 0 i); [|lia]. cbn [andb].
  destruct (Z.ltb_spec (blen pre + i) (blen pre + blen rest));
    destruct (Z.ltb_spec i (blen rest)); try lia; [|reflexivity].
  rewrite nth_error_app2 by (unfold blen; lia). f_equal. unfold blen. lia.
Qed.

Lemma bset_splice (pre rest : list Z) (x : Z) (offset v : Z) :
  blen pre = offset ->
  bset (pre ++ x :: rest) offset v = pre ++ v mod 256 :: rest.
Proof.
  intros Ho. unfold bset. pose proof (blen_nonneg pre). pose proof (blen_nonneg rest).
  rewrite blen_app. unfold blen at 2. cbn [List.length].
  destruct (Z.leb_spec 0 offset); [|lia].
  destruct (Z.ltb_spec offset (blen pre + Z.of_nat (S (List.length rest)))); [|lia].
  cbn [andb].
  replace (Z.to_nat offset) with (List.length pre) by (unfold blen in Ho; lia).
  rewrite firstn_app_exact. f_equal. f_equal.
  change (S (List.length pre)) with (1 + List.length pre)%nat.
  rewrite <- skipn_skipn, skipn_app_exact. reflexivity.
Qed.

(** ** Strings in a byte array *)

Lemma skipn_nth_cons {A : Type} (l : list A) (k : nat) (d : A) :
  (k < List.length l)%nat -> skipn k l = nth k l d :: skipn (S k) l.
Proof.
  revert k. induction l as [|x l IH]; intros k Hk; cbn [List.length] in Hk; [lia|].
  destruct k as [|k]; [reflexivity|]. cbn [skipn nth]. apply IH. lia.
Qed.

Lemma firstn_snoc_nth {A : Type} (l : list A) (k : nat) (d : A) :
  (k < List.length l)%nat -> firstn (S k) l = firstn k l ++ [nth k l d].
Proof.
  revert k. induction l as [|x l IH]; intros k Hk; cbn [List.length] in Hk; [lia|].
  destruct k as [|k]; [reflexivity|].
  change (firstn (S (S k)) (x :: l)) with (x :: firstn (S k) l).
  rewrite (IH k) by lia. reflexivity.
Qed.

Lemma charCodes_length (str : string) : List.length (charCodes str) = String.length str.
Proof.
  unfold charCodes. rewrite length_map.
  induction str as [|c str IH]; cbn [list_ascii_of_string List.length String.length]; auto.
Qed.

Lemma charCodeAt_nth (str : string) (k : nat) :
  (k < String.length str)%nat ->
  charCodeAt str (Z.of_nat k) mod 256 = nth k (charCodes str) 0.
Proof.
  unfold charCodeAt, charCodes. rewrite Nat2Z.id. revert k.
  induction str as [|c str IH]; intros k Hk; cbn [String.length] in Hk; [lia|].
  destruct k as [|k].
  - cbn [String.get list_ascii_of_string map nth].
    apply Z.mod_small. pose proof (Ascii.nat_ascii_bounded c). lia.
  - cbn [String.get list_ascii_of_string map nth]. apply IH. lia.
Qed.

Section WavStrings.
Context {F : Type} {PF : Pcm F}.

(** [writeString] inside the array replaces the bytes it covers by the
    char codes of the string. *)
Lemma writeString_splice (pre mid rest : list Z) (str : string) (offset : Z) :
  blen pre = offset -> List.length mid = String.length str ->
  writeString (pre ++ mid ++ rest) str offset = pre ++ charCodes str ++ rest.
Proof.
  intros Ho Hm. unfold writeString.
  pose proof (charCodes_length str) as Hc.
  assert (G : (fun k b => b = pre ++ firstn (Z.to_nat k) (charCodes str)
                            ++ skipn (Z.to_nat k) mid ++ rest)
                (Z.of_nat (String.length str))
                (for_ 0 (Z.of_nat (String.length str))
                   (fun i buffer => bset buffer (offset + i) (charCodeAt str i))
                   (pre ++ mid ++ rest))).
  { apply for_invariant; [lia|reflexivity|].
    intros i b Hi ->.
    rewrite (skipn_nth_cons mid (Z.to_nat i) 0) by lia.
    rewrite (app_assoc pre). cbn [app].
    rewrite bset_splice by (rewrite blen_app, Ho; unfold blen; rewrite length_firstn; lia).
    replace (Z.to_nat (i + 1)) with (S (Z.to_nat i)) by lia.
    rewrite (firstn_snoc_nth (charCodes str) (Z.to_nat i) 0) by lia.
    rewrite <- (charCodeAt_nth str (Z.to_nat i)) by lia.
    rewrite Z2Nat.id by lia.
    rewrite <- !app_assoc. reflexivity. }
  cbv beta in G. rewrite G, Nat2Z.id.
  rewrite <- Hc at 1. rewrite firstn_all, <- Hm, skipn_all. reflexivity.
Qed.

End WavStrings.

(** ** The layout of the file that [samplesToWav] writes *)

Lemma zseq_succ (n : Z) : 0 <= n -> zseq (n + 1) = zseq n ++ [n].
Proof.
  intros Hn. unfold zseq.
  replace (Z.to_nat (n + 1)) with (S (Z.to_nat n)) by lia.
  rewrite seq_S, map_app. cbn [map Nat.add]. now rewrite Z2Nat.id.
Qed.

Lemma zseq_0 : zseq 0 = [].
Proof. reflexivity. Qed.

(** Blocks of one size, one after the other. *)
Lemma blen_blocks (f : Z -> list Z) (m n : Z) :
  0 <= n -> (forall i, 0 <= i < n -> blen (f i) = m) ->
  blen (flat_map f (zseq n)) = m * n.
Proof.
  intros Hn. pattern n. apply natlike_ind; [| |assumption].
  - intros _. rewrite zseq_0. cbn. lia.
  - intros k Hk IH Hf. unfold Z.succ in *. rewrite zseq_succ, flat_map_app by assumption.
    cbn [flat_map]. rewrite app_nil_r, blen_app, IH, Hf by (intros; try apply Hf; lia).
    lia.
Qed.

Lemma view_set_append (pre mid rest : list Z) (offset : Z) (n : nat) (v : Z) :
  blen pre = offset -> List.length mid = n ->
  view_set (pre ++ mid ++ rest) offset n v = Ok ((pre ++ le_bytes n v) ++ rest).
Proof. intros. rewrite <- app_assoc. now apply view_set_splice. Qed.

Lemma writeString_append (pre mid rest : list Z) (str : string) (offset : Z) :
  blen pre = offset -> List.length mid = String.length str ->
  writeString (pre ++ mid ++ rest) str offset = (pre ++ charCodes str) ++ rest.
Proof. intros. rewrite <- app_assoc. now apply writeString_splice. Qed.

Lemma writeString_head (mid rest : list Z) (str : string) :
  List.length mid = String.length str ->
  writeString (mid ++ rest) str 0 = charCodes str ++ rest.
Proof. intros. now apply (writeString_splice [] mid rest str 0). Qed.

Section Encoder.
Context {F : Type} {PF : Pcm F}.

(** The file that [samplesToWav] returns: the 44 bytes of the header,
    then the samples, interleaved. *)
Lemma samplesToWav_spec (channelData : list (list F)) (sampleRate : Z) (asFloat : bool) :
  channelData <> [] ->
  let channels := alen channelData in
  let samples := alen (hd [] channelData) in
  let bitsPerSample := if asFloat then 32 else 16 in
  let dataSize := samples * channels * (bitsPerSample / 8) in
  samplesToWav channelData sampleRate asFloat
  = Ok (wav_header (36 + dataSize) (if asFloat then 3 else 1) channels sampleRate
          (sampleRate * channels * (bitsPerSample / 8)) (channels * (bitsPerSample / 8))
          bitsPerSample dataSize
        ++ interleaved (if asFloat then 4%nat else 2%nat)
             (fun s c =>
                let sample := aget (nth (Z.to_nat c) channelData []) s in
                if asFloat then float32_bits sample else pcm16 sample)
             samples channels).
Proof.
  intros Hne. destruct channelData as [|channel0 rest]; [congruence|].
  unfold samplesToWav. cbv beta iota zeta. cbn [hd].
  set (channelData := channel0 :: rest).
  set (channels := alen channelData). set (samples := alen channel0).
  set (bitsPerSample := if asFloat then 32 else 16).
  set (dataSize := samples * channels * (bitsPerSample / 8)).
  pose proof (alen_nonneg channelData) as Hc. fold channels in Hc.
  pose proof (alen_nonneg channel0) as Hs0. fold samples in Hs0.
  assert (Hd : 0 <= dataSize) by (subst dataSize bitsPerSample; destruct asFloat; cbn; nia).
  rewrite (bzeros_add 44 dataSize) by lia.
  change (bzeros 44)
    with (bzeros 4 ++ bzeros 4 ++ bzeros 4 ++ bzeros 4 ++ bzeros 4 ++ bzeros 2 ++ bzeros 2
          ++ bzeros 4 ++ bzeros 4 ++ bzeros 2 ++ bzeros 2 ++ bzeros 4 ++ bzeros 4).
  rewrite <- !app_assoc.
  unfold setUint32, setUint16.
  rewrite writeString_head by reflexivity.
  rewrite view_set_append by reflexivity. cbn [bind].
  rewrite writeString_append by reflexivity.
  rewrite writeString_append by reflexivity.
  rewrite view_set_append by reflexivity. cbn [bind].
  rewrite view_set_append by reflexivity. cbn [bind].
  rewrite view_set_append by reflexivity. cbn [bind].
  rewrite view_set_append by reflexivity. cbn [bind].
  rewrite view_set_append by reflexivity. cbn [bind].
  rewrite view_set_append by reflexivity. cbn [bind].
  rewrite view_set_append by reflexivity. cbn [bind].
  rewrite writeString_append by reflexivity.
  rewrite view_set_append by reflexivity. cbn [bind app].
  match goal with
  | |- context [forM 0 samples _ (?H0 ++ bzeros dataSize, ?o)] =>
      set (H := H0); set (o0 := o)
  end.
  set (n := if asFloat then 4%nat else 2%nat).
  set (code := fun s c : Z =>
                 let sample := aget (nth (Z.to_nat c) channelData []) s in
                 if asFloat then float32_bits sample else pcm16 sample).
  set (rowf := fun s => flat_map (fun c => le_bytes n (code s c)) (zseq channels)).
  assert (HN : Z.of_nat n = bitsPerSample / 8)
    by (subst n bitsPerSample; destruct asFloat; reflexivity).
  assert (HH : blen H = 44) by (subst H; reflexivity).
  assert (Ho : o0 = 44) by (subst o0; reflexivity).
  assert (Hrow : forall s, blen (rowf s) = Z.of_nat n * channels).
  { intros s. apply blen_blocks; [assumption|]. intros. apply blen_le_bytes. }
  match goal with
  | |- context [forM 0 samples ?body (H ++ bzeros dataSize, o0)] =>
      destruct (forM_invariant
                  (fun s st =>
                     st = ((H ++ flat_map rowf (zseq s))
                           ++ bzeros (Z.of_nat n * channels * (samples - s)),
                           44 + Z.of_nat n * channels * s))
                  0 samples body (H ++ bzeros dataSize, o0)) as (st & Est & Pst)
  end.
  - assumption.
  - rewrite zseq_0. cbn [flat_map]. rewrite app_nil_r, Ho. f_equal; [|lia].
    f_equal. f_equal. subst dataSize. rewrite HN. ring.
  - intros s st Hsr ->.
    match goal with
    | |- context [forM 0 channels ?body ?st0] =>
        destruct (forM_invariant
                    (fun c st =>
                       st = ((H ++ flat_map rowf (zseq s)
                                ++ flat_map (fun c => le_bytes n (code s c)) (zseq c))
                             ++ bzeros (Z.of_nat n * (channels - c)
                                        + Z.of_nat n * channels * (samples - s - 1)),
                             44 + Z.of_nat n * (channels * s + c)))
                    0 channels body st0) as (st' & Est' & Pst')
    end.
    + assumption.
    + rewrite zseq_0. cbn [flat_map]. rewrite app_nil_r. f_equal; [|lia].
      f_equal. f_equal. ring.
    + intros c st' Hcr ->.
      replace (Z.of_nat n * (channels - c) + Z.of_nat n * channels * (samples - s - 1))
        with (Z.of_nat n + (Z.of_nat n * (channels - (c + 1))
                            + Z.of_nat n * channels * (samples - s - 1))) by ring.
      assert (0 <= Z.of_nat n * (channels - (c + 1))) by nia.
      assert (0 <= Z.of_nat n * channels * (samples - s - 1))
        by (apply Z.mul_nonneg_nonneg; nia).
      rewrite bzeros_add by lia.
      assert (Hpre : blen (H ++ flat_map rowf (zseq s)
                             ++ flat_map (fun c => le_bytes n (code s c)) (zseq c))
                     = 44 + Z.of_nat n * (channels * s + c)).
      { rewrite !blen_app, HH.
        rewrite (blen_blocks rowf (Z.of_nat n * channels) s) by (intros; try apply Hrow; lia).
        rewrite (blen_blocks _ (Z.of_nat n) c) by (intros; try apply blen_le_bytes; lia).
        ring. }
      assert (Hmid : List.length (bzeros (Z.of_nat n)) = n)
        by (unfold bzeros; rewrite repeat_length; lia).
      subst n code bitsPerSample.
      destruct asFloat; cbv beta iota zeta in *; unfold setFloat32, setInt16;
        rewrite (view_set_append _ _ _ _ _ _ Hpre Hmid); cbn [bind];
        (eexists; split; [reflexivity|]);
        (f_equal; [|rewrite <- HN; ring]);
        f_equal; rewrite zseq_succ, flat_map_app by lia;
        cbn [flat_map]; rewrite app_nil_r, <- !app_assoc; reflexivity.
    + rewrite Est'. subst st'. eexists. split; [reflexivity|].
      rewrite zseq_succ, flat_map_app by lia. cbn [flat_map]. rewrite app_nil_r.
      f_equal; [|ring]. f_equal. f_equal. ring.
  - rewrite Est. subst st. cbn [bind]. f_equal.
    rewrite Z.sub_diag, Z.mul_0_r. change (bzeros 0) with (@nil Z). rewrite app_nil_r.
    f_equal.
Qed.

End Encoder.

(** ** Reading a header back *)

Lemma string_app_nil_r (s : string) : (s ++ "")%string = s.
Proof. induction s as [|c s IH]; cbn [String.append]; [reflexivity|now rewrite IH]. Qed.

Lemma string_app_assoc (a b c : string) : ((a ++ b) ++ c)%string = (a ++ (b ++ c))%string.
Proof. induction a as [|x a IH]; cbn [String.append]; [reflexivity|now rewrite IH]. Qed.

Lemma bget_middle (pre rest : list Z) (x offset : Z) :
  blen pre = offset -> bget (pre ++ x :: rest) offset = Some x.
Proof.
  intros Ho. replace offset with (blen pre + 0) by lia.
  rewrite bget_app_r by lia. reflexivity.
Qed.

Lemma fromCharCode_code (c : Ascii.ascii) :
  fromCharCode (Some (Z.of_nat (Ascii.nat_of_ascii c))) = String c EmptyString.
Proof. unfold fromCharCode. now rewrite Nat2Z.id, Ascii.ascii_nat_embedding. Qed.

Lemma iterate_readString (str : string) :
  forall (pre rest : list Z) (acc : string) (i0 offset : Z),
    blen pre = offset + i0 ->
    iterate (fun i acc => (acc ++ fromCharCode (bget (pre ++ charCodes str ++ rest)
                                                   (offset + i)))%string)
      i0 (String.length str) acc
    = (acc ++ str)%string.
Proof.
  induction str as [|c str IH]; intros pre rest acc i0 offset Ho.
  - cbn [String.length iterate]. now rewrite string_app_nil_r.
  - cbn [String.length iterate].
    change (charCodes (String c str))
      with (Z.of_nat (Ascii.nat_of_ascii c) :: charCodes str).
    cbn [app]. rewrite (bget_middle pre _ _ _ Ho), fromCharCode_code.
    replace (pre ++ Z.of_nat (Ascii.nat_of_ascii c) :: charCodes str ++ rest)
      with ((pre ++ [Z.of_nat (Ascii.nat_of_ascii c)]) ++ charCodes str ++ rest)
      by (now rewrite <- app_assoc).
    rewrite IH.
    + now rewrite string_app_assoc.
    + rewrite blen_app. change (blen [Z.of_nat (Ascii.nat_of_ascii c)]) with 1. lia.
Qed.

(** [readString] over the char codes of a string returns the string. *)
Lemma readString_splice (pre rest : list Z) (str : string) (offset : Z) :
  blen pre = offset ->
  readString (pre ++ charCodes str ++ rest) offset (Z.of_nat (String.length str)) = str.
Proof.
  intros Ho. unfold readString, for_.
  rewrite Z.sub_0_r, Nat2Z.id.
  now rewrite (iterate_readString str pre rest EmptyString 0 offset) by lia.
Qed.

(** The fields of a header of 44 bytes, as [wavToSamples] reads them. *)
Lemma wav_header_fields (fileSize audioFormat numChannels sampleRate byteRate blockAlign
                         bitsPerSample dataSize : Z) (data : list Z) :
  let buffer :=
    wav_header fileSize audioFormat numChannels sampleRate byteRate blockAlign
      bitsPerSample dataSize ++ data in
  readString buffer 0 4 = "RIFF"%string
  /\ view_get buffer 4 4 = Ok (fileSize mod 2 ^ 32)
  /\ readString buffer 8 4 = "WAVE"%string
  /\ readString buffer 12 4 = "fmt "%string
  /\ view_get buffer 16 4 = Ok 16
  /\ view_get buffer 20 2 = Ok (audioFormat mod 2 ^ 16)
  /\ view_get buffer 22 2 = Ok (numChannels mod 2 ^ 16)
  /\ view_get buffer 24 4 = Ok (sampleRate mod 2 ^ 32)
  /\ view_get buffer 28 4 = Ok (byteRate mod 2 ^ 32)
  /\ view_get buffer 32 2 = Ok (blockAlign mod 2 ^ 16)
  /\ view_get buffer 34 2 = Ok (bitsPerSample mod 2 ^ 16)
  /\ readString buffer 36 4 = "data"%string
  /\ view_get buffer 40 4 = Ok (dataSize mod 2 ^ 32)
  /\ (forall offset n, 0 <= offset -> view_get buffer (44 + offset) n = view_get data offset n)
  /\ blen buffer = 44 + blen data.
Proof.
  intros buffer. subst buffer. unfold wav_header. rewrite <- !app_assoc.
  split; [apply (readString_splice [] _ "RIFF" 0); reflexivity|].
  split; [apply (view_get_splice _ _ 4 4); reflexivity|].
  rewrite app_assoc.
  split; [apply (readString_splice _ _ "WAVE" 8); reflexivity|].
  rewrite app_assoc.
  split; [apply (readString_splice _ _ "fmt " 12); reflexivity|].
  rewrite app_assoc.
  split; [apply (view_get_splice _ _ 16 4 16); reflexivity|].
  rewrite app_assoc.
  split; [apply (view_get_splice _ _ 20 2); reflexivity|].
  rewrite app_assoc.
  split; [apply (view_get_splice _ _ 22 2); reflexivity|].
  rewrite app_assoc.
  split; [apply (view_get_splice _ _ 24 4); reflexivity|].
  rewrite app_assoc.
  split; [apply (view_get_splice _ _ 28 4); reflexivity|].
  rewrite app_assoc.
  split; [apply (view_get_splice _ _ 32 2); reflexivity|].
  rewrite app_assoc.
  split; [apply (view_get_splice _ _ 34 2); reflexivity|].
  rewrite app_assoc.
  split; [apply (readString_splice _ _ "data" 36); reflexivity|].
  rewrite app_assoc.
  split; [apply (view_get_splice _ _ 40 4); reflexivity|].
  rewrite app_assoc.
  split.
  - intros offset n Ho.
    match goal with
    | |- view_get (?H ++ data) _ _ = _ =>
        change 44 with (blen H); now apply view_get_app
    end.
  - now rewrite blen_app.
Qed.

(** ** Reading 16-bit PCM *)

Lemma view_get_ok (buffer : list Z) (offset : Z) (n : nat) :
  0 <= offset -> offset + Z.of_nat n <= blen buffer ->
  view_get buffer offset n = Ok (le_value (firstn n (skipn (Z.to_nat offset) buffer))).
Proof.
  intros Ho Hn. unfold view_get.
  destruct (Z.ltb_spec offset 0); [lia|].
  destruct (Z.ltb_spec (blen buffer) (offset + Z.of_nat n)); [lia|]. reflexivity.
Qed.

Section Decoder.
Context {F : Type} {PF : Pcm F}.

(** [wavToSamples] on a file of 16-bit PCM with the header of 44 bytes:
    the samples land in one buffer, channel after channel, and the
    channels are the slices of this buffer. *)
Lemma wavToSamples_pcm16_spec (fuel : nat)
    (fileSize numChannels sampleRate byteRate blockAlign dataSize : Z) (data : list Z) :
  (1 <= fuel)%nat ->
  1 <= numChannels < 2 ^ 16 -> 0 <= sampleRate < 2 ^ 32 -> 0 <= dataSize < 2 ^ 32 ->
  let numSamples := dataSize / (2 * numChannels) in
  2 * numChannels * numSamples <= blen data ->
  exists buffer_data,
    wavToSamples fuel
      (wav_header fileSize 1 numChannels sampleRate byteRate blockAlign 16 dataSize ++ data)
    = Ok (mkRawAudio
            (map (fun c => aslice buffer_data (c * numSamples) (c * numSamples + numSamples))
                 (zseq numChannels))
            sampleRate)
    /\ alen buffer_data = numChannels * numSamples
    /\ forall c s, 0 <= c < numChannels -> 0 <= s < numSamples ->
         aget buffer_data (c * numSamples + s)
         = fdiv (of_Z (signed 16
                         (le_value (firstn 2 (skipn (Z.to_nat (2 * (s * numChannels + c)))
                                                data)))))
                (of_Z 32768).
Proof.
  intros Hfuel HC Hrate Hd numSamples Hdata.
  destruct (wav_header_fields fileSize 1 numChannels sampleRate byteRate blockAlign 16
              dataSize data)
    as (R0 & G4 & R8 & R12 & G16 & G20 & G22 & G24 & G28 & G32 & G34 & R36 & G40 & Gd & HB).
  set (B := wav_header fileSize 1 numChannels sampleRate byteRate blockAlign 16 dataSize
            ++ data) in *.
  rewrite Z.mod_small in G22, G24, G40 by lia.
  change (1 mod 2 ^ 16) with 1 in G20. change (16 mod 2 ^ 16) with 16 in G34.
  assert (Hns : 0 <= numSamples) by (apply Z.div_pos; lia).
  set (val := fun s c : Z =>
    @fdiv F _ (of_Z (signed 16
                  (le_value (firstn 2 (skipn (Z.to_nat (2 * (s * numChannels + c))) data)))))
         (of_Z 32768)).
  unfold wavToSamples, getUint32, getUint16. cbv zeta.
  destruct fuel as [|fuel]; [lia|]. cbn [while_].
  change (0 + 4) with 4. rewrite R0.
  change (negb ("RIFF" =? "RIFF")%string) with false. cbv beta iota.
  rewrite G4. cbn [bind]. change (4 + 4) with 8. rewrite R8.
  change (negb ("WAVE" =? "WAVE")%string) with false. cbv beta iota.
  change (8 + 4) with 12. rewrite R12.
  change (negb ("fmt " =? "fmt ")%string) with false. cbv beta iota. cbn [bind].
  cbv beta iota.
  change (12 + 4) with 16. rewrite G16. cbn [bind].
  change (16 + 4) with 20. rewrite G20. cbn [bind].
  change (20 + 2) with 22. rewrite G22. cbn [bind].
  change (22 + 2) with 24. rewrite G24. cbn [bind].
  change (24 + 4) with 28. rewrite G28. cbn [bind].
  change (28 + 4) with 32. rewrite G32. cbn [bind].
  change (32 + 2) with 34. rewrite G34. cbn [bind].
  change (34 + 2 + (16 - 16)) with 36. rewrite R36.
  change (negb ("data" =? "data")%string) with false. cbv beta iota. cbn [bind].
  cbv beta iota.
  change (36 + 4) with 40. rewrite G40. cbn [bind]. change (40 + 4) with 44.
  destruct (Z.eqb_spec (numChannels * 16) 0); [lia|].
  replace (8 * dataSize / (numChannels * 16)) with numSamples.
  2:{ subst numSamples. replace (numChannels * 16) with (8 * (2 * numChannels)) by ring.
      now rewrite Z.div_mul_cancel_l by lia. }
  rewrite alloc_ok by nia. cbn [bind]. change (16 / 8) with 2.
  match goal with
  | |- context [forM 0 numSamples ?body (?s0, 44)] =>
      destruct (forM_invariant
                  (fun s st =>
                     snd st = 44 + 2 * (s * numChannels)
                     /\ alen (fst st) = numChannels * numSamples
                     /\ forall c' s', 0 <= c' < numChannels -> 0 <= s' < numSamples ->
                          s' < s -> aget (fst st) (c' * numSamples + s') = val s' c')
                  0 numSamples body (s0, 44)) as ([bd off] & Est & Ho & L & Hv)
  end.
  - assumption.
  - cbn [fst snd]. split; [lia|]. split; [apply alen_zeros; nia|]. intros; lia.
  - intros s [bd off] Hsr (Ho & L & Hv). cbn [fst snd] in *.
    match goal with
    | |- context [forM 0 numChannels ?body (bd, off)] =>
        destruct (forM_invariant
                    (fun c st =>
                       snd st = 44 + 2 * (s * numChannels + c)
                       /\ alen (fst st) = numChannels * numSamples
                       /\ forall c' s', 0 <= c' < numChannels -> 0 <= s' < numSamples ->
                            s' < s \/ (s' = s /\ c' < c) ->
                            aget (fst st) (c' * numSamples + s') = val s' c')
                    0 numChannels body (bd, off)) as ([bd' off'] & Est' & Ho' & L' & Hv')
    end.
    + lia.
    + cbn [fst snd]. split; [lia|]. split; [exact L|].
      intros c' s' Hc' Hs' [Hlt|[_ Hlt]]; [now apply Hv|lia].
    + intros c [bd1 off1] Hcr (Ho1 & L1 & Hv1). cbn [fst snd] in *.
      unfold readSample, getInt16.
      change (1 =? 1) with true. change (16 =? 16) with true. cbv beta iota.
      rewrite Ho1, Gd by nia. rewrite view_get_ok by nia. cbn [bind].
      eexists. split; [reflexivity|]. cbn [fst snd].
      split; [lia|]. split; [now rewrite alen_aset|].
      intros c' s' Hc' Hs' Hcase.
      pose proof (index_bound c numChannels s numSamples Hcr Hsr) as Hin.
      destruct (Z.eq_dec c' c) as [->|Hne].
      * destruct (Z.eq_dec s' s) as [->|Hne'].
        -- rewrite aget_aset_same by (rewrite L1; lia). reflexivity.
        -- rewrite aget_aset_other by lia. apply Hv1; try assumption. lia.
      * rewrite aget_aset_other.
        -- apply Hv1; try assumption. lia.
        -- intros E. apply index_inj in E; lia.
    + cbn [fst snd] in *. rewrite Est'. eexists. split; [reflexivity|]. cbn [fst snd].
      split; [lia|]. split; [exact L'|].
      intros c' s' Hc' Hs' Hlt. apply Hv'; try assumption. lia.
  - cbn [fst snd] in *. rewrite Est. cbn [bind]. cbv beta iota.
    match goal with
    | |- context [forM 0 numChannels ?body []] =>
        destruct (forM_invariant
                    (fun c acc =>
                       acc = map (fun c => aslice bd (c * numSamples)
                                             (c * numSamples + numSamples)) (zseq c))
                    0 numChannels body []) as (chans & Ech & ->)
    end.
    + lia.
    + reflexivity.
    + intros c acc Hcr ->. unfold aview. rewrite L.
      destruct (Z.ltb_spec (c * numSamples) 0); [nia|].
      destruct (Z.ltb_spec numSamples 0); [lia|].
      destruct (Z.ltb_spec (numChannels * numSamples) (c * numSamples + numSamples)); [nia|].
      cbn [orb bind]. eexists. split; [reflexivity|].
      rewrite zseq_succ, map_app by lia. reflexivity.
    + rewrite Ech. cbn [bind]. exists bd. split; [reflexivity|]. split; [exact L|].
      intros c s Hc Hs. apply Hv; lia.
Qed.

End Decoder.

(** ** Writing a file and reading it back *)

Lemma Ok_inj {A : Type} (a b : A) : Ok a = Ok b -> a = b.
Proof. congruence. Qed.

Lemma zseq_length (n : Z) : List.length (zseq n) = Z.to_nat n.
Proof. unfold zseq. now rewrite length_map, length_seq. Qed.

Lemma nth_map_zseq {A : Type} (f : Z -> A) (n : Z) (k : nat) (d : A) :
  (k < Z.to_nat n)%nat -> nth k (map f (zseq n)) d = f (Z.of_nat k).
Proof.
  intros Hk. unfold zseq. rewrite map_map.
  rewrite (nth_indep _ d (f (Z.of_nat 0))) by (rewrite length_map, length_seq; lia).
  rewrite (map_nth (fun x => f (Z.of_nat x)) (seq 0 (Z.to_nat n)) 0%nat k).
  now rewrite seq_nth by lia.
Qed.

(** The blocks before a block, the block, and the blocks after it. *)
Lemma blocks_split (f : Z -> list Z) (n i : Z) :
  0 <= i < n ->
  exists rest, flat_map f (zseq n) = flat_map f (zseq i) ++ f i ++ rest.
Proof.
  intros [Hi Hn]. assert (Hn0 : 0 <= n) by lia.
  revert Hn. pattern n. apply natlike_ind; [intros; lia| |exact Hn0].
  intros k Hk IH Hlt. unfold Z.succ in *.
  rewrite zseq_succ, flat_map_app by assumption. cbn [flat_map]. rewrite app_nil_r.
  destruct (Z.eq_dec i k) as [->|Hne].
  - exists []. now rewrite app_nil_r.
  - destruct IH as (rest & ->); [lia|]. exists (rest ++ f k).
    now rewrite <- !app_assoc.
Qed.

(** Where the bytes of a sample stand among the interleaved samples. *)
Lemma interleaved_at (n : nat) (code : Z -> Z -> Z) (samples channels s c : Z) :
  0 <= s < samples -> 0 <= c < channels ->
  view_get (interleaved n code samples channels) (Z.of_nat n * (s * channels + c)) n
  = Ok (code s c mod 256 ^ Z.of_nat n).
Proof.
  intros Hs Hc. unfold interleaved.
  set (rowf := fun s => flat_map (fun c => le_bytes n (code s c)) (zseq channels)).
  destruct (blocks_split rowf samples s Hs) as (rest1 & ->).
  unfold rowf at 2.
  destruct (blocks_split (fun c => le_bytes n (code s c)) channels c Hc) as (rest2 & ->).
  rewrite <- !app_assoc. rewrite (app_assoc (flat_map rowf (zseq s))).
  apply view_get_splice.
  rewrite blen_app.
  rewrite (blen_blocks rowf (Z.of_nat n * channels) s); [|lia|].
  - rewrite (blen_blocks _ (Z.of_nat n) c); [ring|lia|]. intros. apply blen_le_bytes.
  - intros. apply blen_blocks; [lia|]. intros. apply blen_le_bytes.
Qed.

Lemma blen_interleaved (n : nat) (code : Z -> Z -> Z) (samples channels : Z) :
  0 <= samples -> 0 <= channels ->
  blen (interleaved n code samples channels) = Z.of_nat n * channels * samples.
Proof.
  intros Hs Hc. unfold interleaved. apply blen_blocks; [assumption|].
  intros. apply blen_blocks; [assumption|]. intros. apply blen_le_bytes.
Qed.

Section WavRoundTrip.
Context {F : Type} {PF : Pcm F}.

Lemma aget_map (g : F -> F) (l : list F) (s : Z) :
  0 <= s < alen l -> aget (map g l) s = g (aget l s).
Proof.
  intros Hs. unfold aget.
  rewrite !in_range_true by (unfold alen in *; rewrite ?length_map; lia).
  rewrite (nth_indep _ fnan (g fnan)) by (unfold alen in Hs; rewrite length_map; lia).
  apply map_nth.
Qed.

(** X19. [samplesToWav] returns a file of 44 bytes of header and the samples,
    sample index by sample index and channel by channel inside, each as
    16 bits of [Math.round(clamp(sample) * 32767)] or as the 32 bits of
    the float, little-endian; a missing sample of a channel shorter than
    the first is written as NaN is. *)
Theorem samplesToWav_layout (channelData : list (list F)) (sampleRate : Z) (asFloat : bool) :
  channelData <> [] ->
  let channels := alen channelData in
  let samples := alen (hd [] channelData) in
  let bitsPerSample := if asFloat then 32 else 16 in
  let dataSize := samples * channels * (bitsPerSample / 8) in
  exists file,
    samplesToWav channelData sampleRate asFloat = Ok file
    /\ blen file = 44 + dataSize
    /\ file
       = wav_header (36 + dataSize) (if asFloat then 3 else 1) channels sampleRate
           (sampleRate * channels * (bitsPerSample / 8)) (channels * (bitsPerSample / 8))
           bitsPerSample dataSize
         ++ interleaved (if asFloat then 4%nat else 2%nat)
              (fun s c =>
                 let sample := aget (nth (Z.to_nat c) channelData []) s in
                 if asFloat then float32_bits sample else pcm16 sample)
              samples channels.
Proof.
  intros Hne channels samples bitsPerSample dataSize.
  pose proof (samplesToWav_spec channelData sampleRate asFloat Hne) as E. cbv zeta in E.
  fold channels samples bitsPerSample dataSize in E.
  eexists. split; [exact E|]. split; [|reflexivity].
  rewrite blen_app, blen_interleaved
    by (subst channels samples; apply alen_nonneg).
  change (blen (wav_header (36 + dataSize) (if asFloat then 3 else 1) channels sampleRate
                  (sampleRate * channels * (bitsPerSample / 8))
                  (channels * (bitsPerSample / 8)) bitsPerSample dataSize)) with 44.
  subst dataSize bitsPerSample.
  destruct asFloat; [change (32 / 8) with 4|change (16 / 8) with 2]; lia.
Qed.

(** X20. [wavToSamples] on a file made of the 44-byte header of 16-bit PCM
    and enough data: one channel per announced channel, each of
    [floor(dataSize / (2 * numChannels))] samples, sample [s] of channel
    [c] being the 16-bit integer at byte [2 * (s * numChannels + c)] of
    the data, over 32768. *)
Theorem wavToSamples_reads_pcm16 (fuel : nat)
    (fileSize numChannels sampleRate byteRate blockAlign dataSize : Z) (data : list Z) :
  (1 <= fuel)%nat ->
  1 <= numChannels < 2 ^ 16 -> 0 <= sampleRate < 2 ^ 32 -> 0 <= dataSize < 2 ^ 32 ->
  let numSamples := dataSize / (2 * numChannels) in
  2 * numChannels * numSamples <= blen data ->
  exists channelData,
    wavToSamples fuel
      (wav_header fileSize 1 numChannels sampleRate byteRate blockAlign 16 dataSize ++ data)
    = Ok (mkRawAudio channelData sampleRate)
    /\ alen channelData = numChannels
    /\ forall c s, 0 <= c < numChannels -> 0 <= s < numSamples ->
         alen (nth (Z.to_nat c) channelData []) = numSamples
         /\ aget (nth (Z.to_nat c) channelData []) s
            = fdiv (of_Z (signed 16
                            (le_value (firstn 2 (skipn (Z.to_nat (2 * (s * numChannels + c)))
                                                   data)))))
                   (of_Z 32768).
Proof.
  intros Hfuel HC Hrate Hd numSamples Hdata.
  destruct (wavToSamples_pcm16_spec fuel fileSize numChannels sampleRate byteRate blockAlign
              dataSize data Hfuel HC Hrate Hd Hdata) as (bd & E & L & Hv).
  fold numSamples in E, L, Hv.
  assert (Hns : 0 <= numSamples) by (apply Z.div_pos; lia).
  eexists. split; [exact E|]. split.
  - unfold alen. rewrite length_map, zseq_length. lia.
  - intros c s Hc Hs.
    rewrite (nth_map_zseq _ numChannels (Z.to_nat c) []) by lia.
    rewrite Z2Nat.id by lia. split.
    + rewrite alen_aslice; [lia|nia|]. rewrite L. nia.
    + rewrite aget_aslice; [now apply Hv|nia| |lia]. rewrite L. nia.
Qed.

(** X21. A file written by [samplesToWav] as 16-bit PCM is read back by
    [wavToSamples] with the same sample rate and the same channels, every
    sample replaced by its 16-bit rounding over 32768. *)
Theorem wavToSamples_of_samplesToWav (fuel : nat) (channelData : list (list F))
    (sampleRate samples : Z) :
  (1 <= fuel)%nat ->
  channelData <> [] ->
  Forall (fun channel => alen channel = samples) channelData ->
  alen channelData < 2 ^ 16 ->
  0 <= sampleRate < 2 ^ 32 ->
  samples * alen channelData * 2 < 2 ^ 32 ->
  (file <- samplesToWav channelData sampleRate false ;; wavToSamples fuel file)
  = Ok (mkRawAudio (map (map (fun sample => of_pcm16 (pcm16 sample))) channelData) sampleRate).
Proof.
  intros Hfuel Hne Hall HC Hrate Hsize.
  pose proof (samplesToWav_spec channelData sampleRate false Hne) as E. cbv zeta in E.
  assert (Hhd : alen (hd [] channelData) = samples).
  { destruct channelData; [congruence|]. now inversion Hall. }
  rewrite Hhd in E. change (16 / 8) with 2 in E.
  set (channels := alen channelData) in *.
  assert (Hc1 : 1 <= channels).
  { subst channels. destruct channelData; [congruence|]. unfold alen. cbn [List.length]. lia. }
  assert (Hs0 : 0 <= samples) by (rewrite <- Hhd; apply alen_nonneg).
  rewrite E. cbn [bind].
  set (code := fun s c : Z => pcm16 (aget (nth (Z.to_nat c) channelData []) s)).
  assert (Hq : samples * channels * 2 / (2 * channels) = samples).
  { replace (samples * channels * 2) with (samples * (2 * channels)) by ring.
    apply Z.div_mul. lia. }
  destruct (wavToSamples_pcm16_spec fuel (36 + samples * channels * 2) channels sampleRate
              (sampleRate * channels * 2) (channels * 2) (samples * channels * 2)
              (interleaved 2 code samples channels))
    as (bd & Ew & L & Hv); try lia.
  { rewrite Hq, blen_interleaved by lia. lia. }
  rewrite Hq in Ew, L, Hv. rewrite Ew. f_equal. f_equal.
  apply (nth_ext _ _ [] []).
  { rewrite !length_map, zseq_length. subst channels. unfold alen. lia. }
  intros k Hk. rewrite length_map, zseq_length in Hk.
  rewrite nth_map_zseq by assumption.
  change (@nil F) with (map (fun sample : F => of_pcm16 (pcm16 sample)) []) at 1.
  rewrite map_nth.
  assert (Hch : alen (nth k channelData []) = samples).
  { rewrite Forall_forall in Hall. apply Hall. apply nth_In.
    subst channels. unfold alen in Hk. lia. }
  assert (Hkc : 0 <= Z.of_nat k < channels) by lia.
  apply array_ext.
  - rewrite alen_aslice; [|nia|rewrite L; nia].
    unfold alen. rewrite length_map. fold (alen (nth k channelData [])). lia.
  - intros s Hs. rewrite alen_aslice in Hs; [|nia|rewrite L; nia].
    rewrite aget_aslice; [|nia|rewrite L; nia|lia].
    rewrite aget_map by lia. rewrite Hv by lia.
    unfold of_pcm16. f_equal. f_equal. f_equal.
    pose proof (interleaved_at 2 code samples channels s (Z.of_nat k) ltac:(lia) Hkc) as Hat.
    rewrite view_get_ok in Hat.
    + apply Ok_inj in Hat. change (Z.of_nat 2 * (s * channels + Z.of_nat k))
        with (2 * (s * channels + Z.of_nat k)) in Hat. rewrite Hat.
      subst code. cbv beta. now rewrite Nat2Z.id.
    + nia.
    + rewrite blen_interleaved by lia. change (Z.of_nat 2) with 2. nia.
Qed.

End WavRoundTrip.

(** ** WAV files at small inputs *)

(** One channel of one sample: 44 bytes of header and 2 of data. *)
Lemma samplesToWav_layout_witness :
  exists file, samplesToWav [[1%R]] 44100 false = Ok file /\ blen file = 46.
Proof.
  destruct (samplesToWav_layout [[1%R]] 44100 false) as (file & E & L & _); [discriminate|].
  exists file. split; [exact E|exact L].
Defined.

(** A file of one channel and one sample. *)
Lemma wavToSamples_reads_pcm16_witness :
  exists channelData : list (list R),
    wavToSamples 1 (wav_header 38 1 1 44100 88200 2 16 2 ++ [0; 64])
    = Ok (mkRawAudio channelData 44100)
    /\ alen channelData = 1.
Proof.
  destruct (wavToSamples_reads_pcm16 (F := R) 1 38 1 44100 88200 2 2 [0; 64])
    as (channelData & E & L & _);
    [apply le_n|lia|lia|lia|vm_compute; discriminate|].
  exists channelData. split; [exact E|exact L].
Defined.

(** One channel of one sample, written and read back. *)
Lemma wavToSamples_of_samplesToWav_witness :
  (file <- samplesToWav [[1%R]] 44100 false ;; wavToSamples 1 file)
  = Ok (mkRawAudio [[of_pcm16 (pcm16 1%R)]] 44100).
Proof.
  apply (wavToSamples_of_samplesToWav 1 [[1%R]] 44100 1);
    [apply le_n|discriminate|repeat constructor|cbn; lia|lia|cbn; lia].
Defined.

(** ** 24-bit samples *)

Lemma bget_nat (buffer : list Z) (k : nat) : bget buffer (Z.of_nat k) = nth_error buffer k.
Proof.
  unfold bget, blen. destruct (Z.leb_spec 0 (Z.of_nat k)); [|lia].
  destruct (Z.ltb_spec (Z.of_nat k) (Z.of_nat (List.length buffer))); cbn [andb].
  - now rewrite Nat2Z.id.
  - symmetry. apply nth_error_None. lia.
Qed.

Lemma testbit_above (a k i : Z) : 0 <= a < 2 ^ k -> 0 <= k <= i -> Z.testbit a i = false.
Proof.
  intros Ha Hk. apply Z.testbit_false; [lia|].
  rewrite Z.div_small; [reflexivity|].
  assert (2 ^ k <= 2 ^ i) by (apply Z.pow_le_mono_r; lia). lia.
Qed.

Lemma land_low_high (a b k : Z) : 0 <= a < 2 ^ k -> 0 <= k -> Z.land a (b * 2 ^ k) = 0.
Proof.
  intros Ha Hk. apply Z.bits_inj'. intros i Hi.
  rewrite Z.land_spec, Z.bits_0.
  destruct (Z_lt_ge_dec i k).
  - rewrite Z.mul_pow2_bits_low by assumption. apply andb_false_r.
  - rewrite (testbit_above a k i) by lia. reflexivity.
Qed.

Lemma lor_low_high (a b k : Z) : 0 <= a < 2 ^ k -> 0 <= k -> Z.lor a (b * 2 ^ k) = a + b * 2 ^ k.
Proof.
  intros Ha Hk. rewrite <- Z.add_lor_land, land_low_high by assumption. lia.
Qed.

Lemma shl32_small (b k : Z) : 0 <= b < 256 -> 0 <= k <= 16 -> shl32 b k = b * 2 ^ k.
Proof.
  intros Hb Hk. unfold shl32.
  assert (2 ^ k <= 2 ^ 16) by (apply Z.pow_le_mono_r; lia).
  assert (0 < 2 ^ k) by (apply Z.pow_pos_nonneg; lia).
  rewrite (toInt32_small b) by lia.
  rewrite (Z.mod_small k 32) by lia. rewrite Z.shiftl_mul_pow2 by lia.
  apply toInt32_small. nia.
Qed.

(** [x & 0x800000] tells whether a 24-bit number has its top bit set. *)
Lemma and32_top_bit (x : Z) : 0 <= x < 2 ^ 24 -> (and32 x 8388608 =? 0) = (x <? 2 ^ 23).
Proof.
  intros Hx. unfold and32. rewrite !toInt32_small by lia.
  change 8388608 with (1 * 2 ^ 23).
  destruct (Z.ltb_spec x (2 ^ 23)) as [Hlt|Hge].
  - rewrite land_low_high by lia. reflexivity.
  - replace x with ((x - 2 ^ 23) + 1 * 2 ^ 23) by ring.
    rewrite <- lor_low_high by lia.
    rewrite Z.land_lor_distr_l, land_low_high, Z.land_diag by lia.
    reflexivity.
Qed.

Section Pcm24.
Context {F : Type} {PF : Pcm F}.

(** X22. A 24-bit PCM sample: the three bytes are put together little-endian,
    the sign is extended from bit 23, and the integer is divided by
    2^23. *)
Theorem readSample_pcm24_sign_extends (pre rest : list Z) (b1 b2 b3 offset : Z) :
  blen pre = offset ->
  0 <= b1 < 256 -> 0 <= b2 < 256 -> 0 <= b3 < 256 ->
  readSample (pre ++ b1 :: b2 :: b3 :: rest) 1 24 offset
  = Ok (fdiv (of_Z (signed 24 (le_value [b1; b2; b3]))) (of_Z 8388608)).
Proof.
  intros Ho H1 H2 H3. subst offset. unfold readSample.
  change (1 =? 1) with true. change (24 =? 16) with false. change (24 =? 24) with true.
  cbv beta iota zeta.
  rewrite !bget_app_r by lia.
  rewrite (bget_nat (b1 :: b2 :: b3 :: rest) 0 : bget _ 0 = _).
  rewrite (bget_nat (b1 :: b2 :: b3 :: rest) 1 : bget _ 1 = _).
  rewrite (bget_nat (b1 :: b2 :: b3 :: rest) 2 : bget _ 2 = _).
  cbn [nth_error].
  rewrite !shl32_small by lia.
  rewrite (lor_low_high b1 b2 8) by lia.
  rewrite (lor_low_high (b1 + b2 * 2 ^ 8) b3 16) by lia.
  set (x := b1 + b2 * 2 ^ 8 + b3 * 2 ^ 16).
  assert (Hx : 0 <= x < 2 ^ 24) by (subst x; lia).
  rewrite and32_top_bit by assumption.
  replace (le_value [b1; b2; b3]) with x by (subst x; cbn [le_value]; lia).
  unfold signed. change (2 ^ (24 - 1)) with (2 ^ 23).
  destruct (Z.ltb_spec x (2 ^ 23)); cbn [negb]; [reflexivity|].
  change (Z.lnot 16777215) with (- 1 * 2 ^ 24).
  rewrite lor_low_high by lia. do 3 f_equal; lia.
Qed.

End Pcm24.

(** The bytes 0, 0, 128 are the sample -1. *)
Lemma readSample_pcm24_sign_extends_witness :
  readSample (F := R) [0; 0; 128] 1 24 0
  = Ok (fdiv (of_Z (signed 24 (le_value [0; 0; 128]))) (of_Z 8388608)).
Proof.
  exact (readSample_pcm24_sign_extends (F := R) [] [] 0 0 128 0 eq_refl
           ltac:(lia) ltac:(lia) ltac:(lia)).
Defined.

(** ** The padding inside [spec] *)

Section ReflectRows.
Context {F : Type} {CF : Cell F}.

(** What [padReflect] leaves in the left pad: the first sample of the
    signal, then the zeros of the fresh array. *)
Lemma padReflect_left_zeros (arr : list F) (padLeft padRight : Z) :
  1 <= alen arr -> 1 <= padLeft -> 0 <= padRight ->
  exists r,
    padReflect arr padLeft padRight = Ok r
    /\ alen r = alen arr + padLeft + padRight
    /\ aget r 0 = aget arr 0
    /\ (forall i, 0 < i < padLeft -> aget r i = fzero).
Proof.
  intros Hn Hl Hr.
  destruct (padReflect_loops arr padLeft padRight ltac:(lia) Hr)
    as (r1 & r2 & r3 & E & E1 & E2 & E3 & L1 & L2 & L3 & Hmid & Hz).
  assert (H2 : aget r2 0 = aget arr 0 /\ forall i, 0 < i < padLeft -> aget r2 i = fzero).
  { rewrite E2.
    destruct (for_invariant
                (fun k s => alen s = alen r1
                   /\ (forall i, 0 < i < padLeft -> aget s i = fzero)
                   /\ aget s padLeft = aget arr 0
                   /\ (0 < k -> aget s 0 = aget arr 0))
                0 padLeft (fun i result => aset result i (aget result (padLeft - i))) r1)
      as (_ & Hzz & _ & H0); [lia| | |].
    - split; [reflexivity|]. split; [intros; apply Hz; lia|]. split; [|lia].
      specialize (Hmid 0 ltac:(lia)). now rewrite Z.add_0_r in Hmid.
    - intros k s Hk (L & Hzz & Hp & H0). split; [now rewrite alen_aset|]. split.
      + intros i Hi. destruct (Z.eq_dec k i) as [->|Hne].
        * rewrite aget_aset_same by lia. apply Hzz. lia.
        * rewrite aget_aset_other by assumption. now apply Hzz.
      + split.
        * rewrite aget_aset_other by lia. exact Hp.
        * intros _. destruct (Z.eq_dec k 0) as [->|Hne].
          -- rewrite aget_aset_same by lia. now rewrite Z.sub_0_r.
          -- rewrite aget_aset_other by assumption. apply H0. lia.
    - split; [apply H0; lia|exact Hzz]. }
  exists r3. split; [exact E|]. split; [exact L3|]. rewrite E3. split.
  - rewrite (for_aset_untouched (fun i => padLeft + alen arr + i)
               (fun i s => aget s (padLeft + alen arr - 2 - i))) by (intros; lia).
    apply H2.
  - intros i Hi.
    rewrite (for_aset_untouched (fun i => padLeft + alen arr + i)
               (fun i s => aget s (padLeft + alen arr - 2 - i))) by (intros; lia).
    now apply H2.
Qed.

(** [pad1d] in [reflect] mode with pads shorter than the rows, row by
    row: the first sample of the row, zeros up to [left], the row, and
    its mirror image on the right. *)
Lemma pad1d_reflect_row_content (x : Tensor F) (left right : Z) (pre : list Z) (len : Z) :
  shape x = pre ++ [len] ->
  alen (data x) = product pre * len ->
  Forall (fun d => 0 <= d) pre ->
  1 <= left < len -> 0 <= right < len ->
  exists out,
    pad1d x (left, right) reflect = Ok (mkTensor out (pre ++ [len + left + right]))
    /\ alen out = product pre * (len + left + right)
    /\ forall i, 0 <= i < product pre ->
         aget out (i * (len + left + right)) = aget (data x) (i * len)
         /\ (forall k, 0 < k < left -> aget out (i * (len + left + right) + k) = fzero)
         /\ (forall k, 0 <= k < len ->
               aget out (i * (len + left + right) + left + k) = aget (data x) (i * len + k))
         /\ (forall k, 0 <= k < right ->
               aget out (i * (len + left + right) + left + len + k)
               = aget (data x) (i * len + (len - 2 - k))).
Proof.
  intros Hs Hd Hpre Hl Hr. pose proof (product_nonneg _ Hpre) as Hp.
  unfold pad1d. rewrite Hs, !last_dim_snoc.
  destruct (Z.leb_spec len (Z.max left right)); [lia|]. cbn [bind].
  rewrite !last_dim_snoc, set_last_snoc, last_dim_snoc, product_snoc.
  rewrite alloc_ok by nia. cbn [bind].
  rewrite Z.div_mul by lia.
  set (L := len + left + right). set (N := product pre * L).
  assert (Hrow : forall i, 0 <= i < product pre ->
            alen (aslice (data x) (i * len) (i * len + len)) = len
            /\ forall k, 0 <= k < len ->
                 aget (aslice (data x) (i * len) (i * len + len)) k
                 = aget (data x) (i * len + k)).
  { intros i Hi. assert (i * len + len <= alen (data x)) by (rewrite Hd; nia).
    split.
    - rewrite alen_aslice by nia. lia.
    - intros k Hk. apply aget_aslice; nia. }
  match goal with
  | |- context [forM 0 (product pre) ?body ?s0] =>
      destruct (forM_invariant
                  (fun i out =>
                     alen out = N
                     /\ forall i' k r, 0 <= i' < i -> 0 <= k < L ->
                          padReflect (aslice (data x) (i' * len) (i' * len + len)) left right
                          = Ok r ->
                          aget out (i' * L + k) = aget r k)
                  0 (product pre) body s0) as (out & E & Lo & Wo)
  end.
  { lia. }
  { split; [apply alen_zeros; subst N L; nia|]. intros; lia. }
  { intros i out Hi [Lo Wo]. cbv beta.
    destruct (Hrow i Hi) as [Ls _].
    destruct (padReflect_ok (aslice (data x) (i * len) (i * len + len)) left right)
      as (r & Er & Lr); [lia|].
    rewrite Er. cbn [bind]. eexists. split; [reflexivity|]. split.
    - now rewrite (for_aset_alen (fun j => i * L + j) (fun j _ => aget r j)).
    - intros i' k r' Hi' Hk Er'.
      destruct (Z.eq_dec i' i) as [->|Hne].
      + assert (r' = r) by congruence. subst r'.
        set (Rtot := fun (j : Z) (v : F) =>
          exists c, 0 <= c < L /\ j = i * L + c /\ v = aget r c).
        assert (Hf : functional Rtot).
        { intros j v v' (a & _ & -> & ->) (b & _ & Eb & ->). f_equal. lia. }
        assert (S : scatters (fun y : list F => y) Rtot
                      (for_ 0 L (fun j out => aset out (i * L + j) (aget r j)))).
        { apply (scatters_for (fun y : list F => y) Rtot
                   (fun c j v => j = i * L + c /\ v = aget r c) 0 L _ Hf).
          - intros a j v Ha [-> ->]. exists a. tauto.
          - intros a Ha. apply scatters_aset. }
        destruct (S out) as (_ & W & _).
        apply W; [exists k; tauto|]. rewrite Lo. subst N. apply index_bound; lia.
      + rewrite (for_aset_untouched (fun j => i * L + j) (fun j _ => aget r j)).
        * apply Wo; [lia|assumption|assumption].
        * intros j Hj E0. apply index_inj in E0; lia. }
  rewrite E. cbn [bind]. exists out. split; [reflexivity|]. split; [exact Lo|].
  intros i Hi. destruct (Hrow i Hi) as [Ls Hs'].
  destruct (padReflect_middle_and_right
              (aslice (data x) (i * len) (i * len + len)) left right)
    as (r & Er & Lr & Hmid & Hright); [lia|lia|].
  destruct (padReflect_left_zeros
              (aslice (data x) (i * len) (i * len + len)) left right)
    as (r' & Er' & _ & H0 & Hz); [lia|lia|lia|].
  assert (r' = r) by congruence. subst r'.
  rewrite Ls in *.
  split; [|split; [|split]].
  - replace (i * L) with (i * L + 0) by ring.
    rewrite (Wo i 0 r) by (try assumption; subst L; lia).
    rewrite H0. rewrite (Hs' 0) by lia. now rewrite Z.add_0_r.
  - intros k Hk. rewrite (Wo i k r) by (try assumption; subst L; lia). now apply Hz.
  - intros k Hk. rewrite <- Z.add_assoc, (Wo i (left + k) r) by (try assumption; subst L; lia).
    rewrite Hmid by assumption. now apply Hs'.
  - intros k Hk.
    replace (i * L + left + len + k) with (i * L + (left + len + k)) by ring.
    rewrite (Wo i (left + len + k) r) by (try assumption; subst L; lia).
    rewrite Hright by assumption. apply Hs'. lia.
Qed.

End ReflectRows.

Section SpecPadding.
Context {F : Type} {SF : Scalar F}.

(** The signal that [spec] hands to [spectro], for rows longer than both
    pads: on the left the first sample of the row and 1535 zeros, then the
    row, then its mirror image. *)
Lemma spec_padded_signal (fuel : nat) (x : Tensor F) (pre : list Z) (len : Z) :
  shape x = pre ++ [len] ->
  alen (data x) = product pre * len ->
  Forall (fun d => 0 <= d) pre ->
  1 <= len ->
  (Z.to_nat 4096 <= fuel)%nat ->
  let le := ceil_div len 1024 in
  let right := 1536 + le * 1024 - len in
  Z.max 1536 right < len ->
  exists paddedX z0 z,
    pad1d x (1536, right) reflect = Ok paddedX
    /\ spectro fuel paddedX 4096 (Some 1024) = Ok z0
    /\ spec fuel x = Ok z
    /\ shape (real z) = pre ++ [2048; le]
    /\ (forall i freq frame,
          0 <= i < product pre -> 0 <= freq < 2048 -> 0 <= frame < le ->
          aget (data (real z)) ((i * 2048 + freq) * le + frame)
          = aget (data (real z0)) ((i * 2049 + freq) * (le + 4) + (2 + frame)))
    /\ forall i, 0 <= i < product pre ->
         aget (data paddedX) (i * (len + 1536 + right)) = aget (data x) (i * len)
         /\ (forall k, 0 < k < 1536 ->
               aget (data paddedX) (i * (len + 1536 + right) + k) = fzero)
         /\ (forall k, 0 <= k < len ->
               aget (data paddedX) (i * (len + 1536 + right) + 1536 + k)
               = aget (data x) (i * len + k)).
Proof.
  intros Hs Hd Hpre Hlen Hfuel le right Hdirect.
  pose proof (ceil_div_spec len 1024 ltac:(lia)) as Hle. fold le in Hle.
  destruct (spec_structure fuel x pre len Hs Hd Hpre Hlen Hfuel)
    as (paddedX & z0 & z & H1 & _ & H3 & _ & _ & H6 & H7 & _ & _ & _ & H9).
  fold le in H1, H3, H6, H7, H9. fold right in H1.
  destruct (pad1d_reflect_row_content x 1536 right pre len Hs Hd Hpre)
    as (out & Eo & _ & Hrows); [lia|subst right; lia|].
  assert (paddedX = mkTensor out (pre ++ [len + 1536 + right])) by congruence.
  subst paddedX.
  eexists _, z0, z. split; [exact Eo|]. split; [exact H3|]. split; [exact H6|].
  split; [exact H7|]. split.
  - intros i freq frame Hi Hf Hfr. now apply H9.
  - intros i Hi. destruct (Hrows i Hi) as (A & B & C & _). cbn [data].
    split; [exact A|]. split; [exact B|exact C].
Qed.

End SpecPadding.

(** C3, as the source has it: on a signal of 2048 ones [spec] returns 2048
    bins by 2 frames, the frames 2 and 3 of the transform of the padded
    signal; but the 1536 samples on the left of that signal are not the
    reflection of the input: sample 1535 is 0, where reflection puts the
    sample 1 of the input, which is 1. *)
Theorem spec_left_pad_is_not_a_reflection :
  let x := mkTensor (repeat 1%R 2048) [2048] in
  exists paddedX z0 z,
    pad1d x (1536, 1536) reflect = Ok paddedX
    /\ spectro (Z.to_nat 4096) paddedX 4096 (Some 1024) = Ok z0
    /\ spec (Z.to_nat 4096) x = Ok z
    /\ shape (real z) = [2048; 2]
    /\ (forall freq frame, 0 <= freq < 2048 -> 0 <= frame < 2 ->
          aget (data (real z)) (freq * 2 + frame)
          = aget (data (real z0)) (freq * 6 + (2 + frame)))
    /\ aget (data x) 1 = 1%R
    /\ aget (data paddedX) (1536 - 1) = 0%R
    /\ aget (data paddedX) (1536 - 1) <> aget (data x) 1.
Proof.
  intros x.
  destruct (spec_padded_signal (Z.to_nat 4096) x [] 2048)
    as (paddedX & z0 & z & E1 & E2 & E3 & E4 & E5 & E6);
    [reflexivity|reflexivity|constructor|lia|apply le_n|vm_compute; reflexivity|].
  change (ceil_div 2048 1024) with 2 in *.
  change (1536 + 2 * 1024 - 2048) with 1536 in *.
  exists paddedX, z0, z.
  split; [exact E1|]. split; [exact E2|]. split; [exact E3|]. split; [exact E4|].
  assert (Hx : aget (data x) 1 = 1%R) by reflexivity.
  assert (Hp : aget (data paddedX) (1536 - 1) = 0%R).
  { destruct (E6 0 ltac:(cbn; lia)) as (_ & B & _).
    specialize (B 1535 ltac:(lia)). exact B. }
  split.
  - intros freq frame Hf Hfr.
    specialize (E5 0 freq frame ltac:(cbn; lia) Hf Hfr).
    replace ((0 * 2048 + freq) * 2 + frame) with (freq * 2 + frame) in E5 by ring.
    replace ((0 * 2049 + freq) * (2 + 4) + (2 + frame)) with (freq * 6 + (2 + frame))
      in E5 by ring.
    exact E5.
  - split; [exact Hx|]. split; [exact Hp|].
    rewrite Hp, Hx. apply not_eq_sym. exact R1_neq_R0.
Qed.

(** ** The chunk loop of [applySplits] *)

Lemma turns_snoc {St : Type} (body : St -> result St) (k : nat) :
  forall s, turns body (S k) s = (s' <- turns body k s ;; body s').
Proof.
  induction k as [|k IH]; intros s.
  - cbn [turns bind]. now destruct (body s).
  - change (turns body (S (S k)) s) with (s' <- body s ;; turns body (S k) s').
    cbn [turns]. destruct (body s) as [s'|e]; cbn [bind]; [|reflexivity].
    apply IH.
Qed.

(** A [while] loop whose condition holds before each of its first
    [count] turns and fails after them makes exactly these turns. *)
Lemma while_turns {St : Type} (cond : St -> bool) (body : St -> result St) (count : nat) :
  forall (fuel : nat) (s s' : St),
    (forall k, (k < count)%nat -> exists sk, turns body k s = Ok sk /\ cond sk = true) ->
    turns body count s = Ok s' ->
    cond s' = false ->
    (count < fuel)%nat ->
    while_ fuel cond body s = Ok s'.
Proof.
  induction count as [|count IH]; intros fuel s s' Hk E Hend Hfuel.
  - destruct fuel as [|fuel]; [lia|]. cbn [turns] in E. injection E as <-.
    cbn [while_]. now rewrite Hend.
  - destruct fuel as [|fuel]; [lia|]. cbn [while_].
    destruct (Hk O ltac:(lia)) as (s0 & E0 & C0). cbn [turns] in E0. injection E0 as <-.
    rewrite C0. cbn [turns] in E.
    destruct (body s) as [s1|e] eqn:Eb; cbn [bind] in *; [|discriminate].
    apply IH; [|assumption|assumption|lia].
    intros k Hlt. destruct (Hk (S k) ltac:(lia)) as (sk & Ek & Ck).
    cbn [turns] in Ek. rewrite Eb in Ek. cbn [bind] in Ek. eauto.
Qed.

Lemma progress_0 (total : Z) : progress total 0 = [(0, total)].
Proof. reflexivity. Qed.

Lemma progress_succ (total k : Z) :
  0 <= k -> progress total (k + 1) = progress total k ++ [(k + 1, total)].
Proof.
  intros Hk. unfold progress. rewrite (zseq_succ (k + 1)) by lia.
  now rewrite map_app.
Qed.

Lemma ceil_div_nonneg (length stride : Z) :
  0 <= length -> 1 <= stride -> 0 <= ceil_div length stride.
Proof.
  intros Hl Hs. pose proof (ceil_div_spec length stride ltac:(lia)). nia.
Qed.

(** [k * stride] is inside the signal for the [k] below
    [ceil (length / stride)], and for no other. *)
Lemma ceil_div_turns (length stride k : Z) :
  1 <= stride -> (k * stride < length <-> k < ceil_div length stride).
Proof.
  intros Hs. pose proof (ceil_div_spec length stride ltac:(lia)).
  split; intros; nia.
Qed.

Section SplitsRun.
Context {F : Type} {FF : Floor F}.

Lemma applySplits_weight_ok (segment : Z) :
  0 <= segment -> exists weight : list F, applySplits_weight segment = Ok weight.
Proof.
  intros H. unfold applySplits_weight. rewrite alloc_ok by assumption. cbn [bind]. eauto.
Qed.

Section Run.
Variables (fuel : nat) (model : ONNXHTDemucs F) (mix : Tensor F).
Variables (stride total : Z) (weight : list F).
Variables (batch channels length S T' : Z).

Variable seg : Z.

Hypothesis Hseg : seg = Qfloor (samplerate model * segment model).
Hypothesis Hshape : shape mix = [batch; channels; length].
Hypothesis Hbatch : 0 <= batch.
Hypothesis Hchannels : 0 <= channels.
Hypothesis HS : 0 <= S.
Hypothesis HT' : 1 <= T'.
Hypothesis Hsegment : 1 <= seg.
Hypothesis Hfuel : (4096 <= fuel)%nat.
Hypothesis Hsession :
  forall paddedMix magspec : Tensor F,
    shape paddedMix = [batch; channels; seg] ->
    shape magspec = [batch; channels * 2; 2048; ceil_div seg 1024] ->
    exists outX outXt,
      session model paddedMix magspec = Ok (outX, outXt)
      /\ shape outX = [batch; S; channels * 2; 2048; T']
      /\ shape outXt = [batch; S; channels; seg]
      /\ alen (data outXt) = batch * S * channels * seg.

Lemma segment_training : Qfloor (segment model * samplerate model) = seg.
Proof. rewrite Hseg. apply Qfloor_comp. apply Qmult_comm. Qed.

Lemma applySplits_chunk_ok (outData sumWeight : list F) (offset chunkIndex : Z)
    (calls : list (Z * Z)) :
  0 <= offset < length ->
  exists outData',
    applySplits_chunk fuel model mix seg stride total weight
      (outData, sumWeight, offset, chunkIndex, calls)
    = Ok (outData', add_weights weight (Z.min (length - offset) seg) offset sumWeight,
          offset + stride, chunkIndex + 1, calls ++ [(chunkIndex + 1, total)])
    /\ alen outData' = alen outData.
Proof.
  intros Ho. unfold applySplits_chunk. rewrite Hshape. cbn [dim nth].
  unfold TensorChunk.new. rewrite Hshape.
  change [batch; channels; length] with ([batch; channels] ++ [length]).
  rewrite last_dim_snoc.
  destruct (Z.ltb_spec offset 0); [lia|].
  destruct (Z.geb_spec offset length); [lia|]. cbn [bind].
  destruct (applyInference_ok fuel model
              (TensorChunk.mk mix offset (Z.min (length - offset) seg))
              batch channels length S T' Hshape Hbatch Hchannels HS HT')
    as (out & E & L).
  - rewrite segment_training. exact Hsegment.
  - cbn [TensorChunk.length]. rewrite segment_training. lia.
  - exact Hfuel.
  - rewrite segment_training. exact Hsession.
  - rewrite E. cbn [bind shape TensorChunk.length].
    change [batch; S; channels; Z.min (length - offset) seg]
      with ([batch; S; channels] ++ [Z.min (length - offset) seg]).
    rewrite last_dim_snoc.
    eexists. split; [reflexivity|]. now alen_loops.
Qed.

Hypothesis Hlength : 0 <= length.
Hypothesis Hstride : 1 <= stride.
Hypothesis Htotal : total = ceil_div length stride.

(** The state of the chunk loop after [k] turns, for [k] up to [total]. *)
Lemma turns_chunks (Inv : Z -> list F -> Prop) (outData0 sumWeight0 : list F) :
  Inv 0 sumWeight0 ->
  (forall k sumWeight, 0 <= k < total -> Inv k sumWeight ->
     Inv (k + 1)
       (add_weights weight (Z.min (length - k * stride) seg) (k * stride) sumWeight)) ->
  forall k : nat, Z.of_nat k <= total ->
    exists outData sumWeight,
      turns (applySplits_chunk fuel model mix seg stride total weight) k
        (outData0, sumWeight0, 0, 0, [(0, total)])
      = Ok (outData, sumWeight, Z.of_nat k * stride, Z.of_nat k, progress total (Z.of_nat k))
      /\ alen outData = alen outData0
      /\ Inv (Z.of_nat k) sumWeight.
Proof.
  intros H0 Hstep. induction k as [|k IH]; intros Hk.
  - exists outData0, sumWeight0. cbn [turns Z.of_nat]. rewrite progress_0.
    split; [reflexivity|]. split; [reflexivity|exact H0].
  - destruct (IH ltac:(lia)) as (od & sw & E & L & HI).
    rewrite turns_snoc, E. cbn [bind].
    destruct (applySplits_chunk_ok od sw (Z.of_nat k * stride) (Z.of_nat k)
                (progress total (Z.of_nat k))) as (od' & E' & L').
    { split; [nia|]. rewrite Htotal in Hk. apply ceil_div_turns; lia. }
    rewrite E'. eexists od', _.
    rewrite Nat2Z.inj_succ. unfold Z.succ.
    rewrite progress_succ by lia.
    replace ((Z.of_nat k + 1) * stride) with (Z.of_nat k * stride + stride) by ring.
    split; [reflexivity|]. split; [congruence|].
    apply Hstep; [lia|exact HI].
Qed.

(** The chunk loop makes [total] turns. *)
Lemma chunk_loop (Inv : Z -> list F -> Prop) (outData0 sumWeight0 : list F) :
  Inv 0 sumWeight0 ->
  (forall k sumWeight, 0 <= k < total -> Inv k sumWeight ->
     Inv (k + 1)
       (add_weights weight (Z.min (length - k * stride) seg) (k * stride) sumWeight)) ->
  (Z.to_nat total < fuel)%nat ->
  exists outData sumWeight,
    while_ fuel (fun '(_, _, offset, _, _) => offset <? length)
      (applySplits_chunk fuel model mix seg stride total weight)
      (outData0, sumWeight0, 0, 0, [(0, total)])
    = Ok (outData, sumWeight, total * stride, total, progress total total)
    /\ alen outData = alen outData0
    /\ Inv total sumWeight.
Proof.
  intros H0 Hstep Hf.
  assert (Ht : 0 <= total) by (rewrite Htotal; now apply ceil_div_nonneg).
  destruct (turns_chunks Inv outData0 sumWeight0 H0 Hstep (Z.to_nat total) ltac:(lia))
    as (od & sw & E & L & HI).
  rewrite Z2Nat.id in E, HI by assumption.
  exists od, sw. split; [|split; assumption].
  apply (while_turns _ _ (Z.to_nat total)); [|exact E| |exact Hf].
  - intros k Hk.
    destruct (turns_chunks Inv outData0 sumWeight0 H0 Hstep k ltac:(lia))
      as (odk & swk & Ek & _).
    eexists. split; [exact Ek|]. cbv beta iota.
    apply Z.ltb_lt. apply ceil_div_turns; lia.
  - cbv beta iota. apply Z.ltb_ge.
    pose proof (ceil_div_turns length stride total Hstride). lia.
Qed.

End Run.
End SplitsRun.

(** ** [applySplits]: chunks and progress *)

Section SplitsTheorems.
Context {F : Type} {FF : Floor F}.

(** [applySplits] under a session that answers: the chunk loop makes
    [total] turns, and the result has the size its shape announces. *)
Lemma applySplits_ok (Inv : Z -> list F -> Prop)
    (fuel : nat) (model : ONNXHTDemucs F) (mix : Tensor F) (overlap : F)
    (batch channels length S T' seg stride total : Z) :
  seg = Qfloor (samplerate model * segment model) ->
  stride = ffloor (fmul (fsub (of_Z 1) overlap) (of_Z seg)) ->
  total = ceil_div length stride ->
  shape mix = [batch; channels; length] ->
  0 <= batch -> 0 <= channels -> 0 <= length ->
  1 <= seg -> 1 <= stride ->
  0 <= S -> 1 <= T' ->
  (4096 <= fuel)%nat -> (Z.to_nat total < fuel)%nat ->
  (forall paddedMix magspec : Tensor F,
     shape paddedMix = [batch; channels; seg] ->
     shape magspec = [batch; channels * 2; 2048; ceil_div seg 1024] ->
     exists outX outXt,
       session model paddedMix magspec = Ok (outX, outXt)
       /\ shape outX = [batch; S; channels * 2; 2048; T']
       /\ shape outXt = [batch; S; channels; seg]
       /\ alen (data outXt) = batch * S * channels * seg) ->
  exists weight,
    applySplits_weight seg = Ok weight
    /\ (Inv 0 (zeros length) ->
        (forall k sumWeight, 0 <= k < total -> Inv k sumWeight ->
           Inv (k + 1)
             (add_weights weight (Z.min (length - k * stride) seg) (k * stride) sumWeight)) ->
        exists outData sumWeight out,
          applySplits_chunks fuel model mix overlap
          = Ok (outData, sumWeight, progress total total)
          /\ alen outData = batch * alen (sources model) * channels * length
          /\ Inv total sumWeight
          /\ applySplits fuel model mix overlap
             = Ok (mkTensor out [batch; alen (sources model); channels; length],
                   progress total total)
          /\ alen out = batch * alen (sources model) * channels * length).
Proof.
  intros Eseg Estride Etotal Hs HB HC HL Hseg Hstride HS HT' Hfuel Hfuel' Hsession.
  destruct (applySplits_weight_ok seg ltac:(lia)) as (weight & Ew).
  exists weight. split; [exact Ew|]. intros H0 Hstep.
  pose proof (alen_nonneg (sources model)) as Hsrc.
  assert (HN : 0 <= batch * alen (sources model) * channels * length) by nia.
  destruct (chunk_loop fuel model mix stride total weight batch channels length S T' seg
              Eseg Hs HB HC HS HT' Hseg Hfuel Hsession HL Hstride Etotal Inv
              (zeros (batch * alen (sources model) * channels * length)) (zeros length)
              H0 Hstep Hfuel')
    as (od & sw & E & L & HI).
  rewrite alen_zeros in L by assumption.
  assert (Ec : applySplits_chunks fuel model mix overlap = Ok (od, sw, progress total total)).
  { unfold applySplits_chunks. rewrite Hs. cbn [dim nth].
    rewrite !alloc_ok by assumption. cbn [bind].
    rewrite <- Eseg, Ew. cbn [bind]. rewrite <- Estride, <- Etotal.
    rewrite E. reflexivity. }
  exists od, sw. eexists. split; [exact Ec|]. split; [exact L|]. split; [exact HI|].
  unfold applySplits. rewrite Ec. cbn [bind]. rewrite Hs. cbn [dim nth].
  split; [reflexivity|]. now alen_loops.
Qed.

(** C4. For a mix of [length] samples and a stride of at least one
    sample, under a session that answers every chunk: after [k] turns
    of the chunk loop, for every [k] up to [total = ceil (length /
    stride)], the offset is [k * stride], the chunk index is [k] and the
    progress callback has been called with [(0, total)], [(1, total)],
    ..., [(k, total)], in this order; the offset is inside the signal
    for [k < total] and past its end for [k = total], so that
    [applySplits] makes exactly these [total] turns and returns with
    the calls [(0, total)], ..., [(total, total)] made, each step once
    and in ascending order. *)
Theorem applySplits_progress
    (fuel : nat) (model : ONNXHTDemucs F) (mix : Tensor F) (overlap : F)
    (batch channels length S T' : Z) :
  let seg := Qfloor (samplerate model * segment model) in
  let stride := ffloor (fmul (fsub (of_Z 1) overlap) (of_Z seg)) in
  let total := ceil_div length stride in
  shape mix = [batch; channels; length] ->
  0 <= batch -> 0 <= channels -> 1 <= length ->
  1 <= seg -> 1 <= stride ->
  0 <= S -> 1 <= T' ->
  (4096 <= fuel)%nat -> (Z.to_nat total < fuel)%nat ->
  (forall paddedMix magspec : Tensor F,
     shape paddedMix = [batch; channels; seg] ->
     shape magspec = [batch; channels * 2; 2048; ceil_div seg 1024] ->
     exists outX outXt,
       session model paddedMix magspec = Ok (outX, outXt)
       /\ shape outX = [batch; S; channels * 2; 2048; T']
       /\ shape outXt = [batch; S; channels; seg]
       /\ alen (data outXt) = batch * S * channels * seg) ->
  exists weight,
    applySplits_weight seg = Ok weight
    /\ 1 <= total
    /\ (forall k, 0 <= k <= total ->
          (k * stride < length <-> k < total)
          /\ exists outData sumWeight,
               turns (applySplits_chunk fuel model mix seg stride total weight) (Z.to_nat k)
                 (zeros (batch * alen (sources model) * channels * length), zeros length,
                  0, 0, [(0, total)])
               = Ok (outData, sumWeight, k * stride, k, progress total k))
    /\ exists out,
         applySplits fuel model mix overlap
         = Ok (mkTensor out [batch; alen (sources model); channels; length],
               progress total total).
Proof.
  intros seg stride total Hs HB HC HL Hseg Hstride HS HT' Hfuel Hfuel' Hsession.
  destruct (applySplits_ok (fun _ _ => True) fuel model mix overlap batch channels length S T'
              seg stride total eq_refl eq_refl eq_refl
              Hs HB HC ltac:(lia) Hseg Hstride HS HT' Hfuel Hfuel' Hsession)
    as (weight & Ew & Hrun).
  exists weight. split; [exact Ew|].
  split; [|split].
  - pose proof (ceil_div_spec length stride ltac:(lia)) as Hc. fold total in Hc. nia.
  - intros k Hk. split; [now apply ceil_div_turns|].
    destruct (turns_chunks fuel model mix stride total weight batch channels length S T' seg
                eq_refl Hs HB HC HS HT' Hseg Hfuel Hsession Hstride eq_refl
                (fun _ _ => True)
                (zeros (batch * alen (sources model) * channels * length)) (zeros length)
                I (fun _ _ _ _ => I) (Z.to_nat k) ltac:(lia))
      as (od & sw & E & _).
    rewrite Z2Nat.id in E by lia. exists od, sw. exact E.
  - destruct Hrun as (od & sw & out & _ & _ & _ & E & _); [exact I|intros; exact I|].
    exists out. exact E.
Qed.

End SplitsTheorems.

(** ** [separateTracks] on one second of audio *)

Section SeparateTracks.
Context {F : Type} {FF : Floor F}.

Lemma aview_ok (a : list F) (start n : Z) :
  0 <= start -> 0 <= n -> start + n <= alen a ->
  aview a start n = Ok (aslice a start (start + n)).
Proof.
  intros Hs Hn Hfit. unfold aview.
  destruct (Z.ltb_spec start 0); [lia|].
  destruct (Z.ltb_spec n 0); [lia|].
  destruct (Z.ltb_spec (alen a) (start + n)); [lia|]. reflexivity.
Qed.

(** C5. One second of mono audio through [separateTracks], with the
    initial values of the class for the model, an overlap of 0.25 whose
    stride comes out as 257985 samples, and a session that answers the
    one chunk with four sources: the chunk loop makes one turn, which
    takes the offset past the 44100 samples; the progress callback is
    called with (0, 1) and then with (1, 1); and the four tracks, named
    drums, bass, other and vocals in this order, have one channel of
    44100 samples each at the sample rate of the input. *)
Theorem separateTracks_one_second (fuel : nat)
    (run : Tensor F -> Tensor F -> result (Tensor F * Tensor F))
    (channel : list F) (rate T' : Z) :
  let model := ONNXHTDemucs_init run in
  let mix := mkTensor channel [1; 1; 44100] in
  alen channel = 44100 ->
  ffloor (fmul (fsub (of_Z 1) (of_Q 0.25)) (of_Z 343980)) = 257985 ->
  1 <= T' ->
  (4096 <= fuel)%nat ->
  (forall paddedMix magspec : Tensor F,
     shape paddedMix = [1; 1; 343980] ->
     shape magspec = [1; 2; 2048; 336] ->
     exists outX outXt,
       run paddedMix magspec = Ok (outX, outXt)
       /\ shape outX = [1; 4; 2; 2048; T']
       /\ shape outXt = [1; 4; 1; 343980]
       /\ alen (data outXt) = 4 * 343980) ->
  exists weight outData sumWeight drums bass other vocals,
    applySplits_weight 343980 = Ok weight
    /\ turns (applySplits_chunk fuel model mix 343980 257985 1 weight) 1
         (zeros (4 * 44100), zeros 44100, 0, 0, [(0, 1)])
       = Ok (outData, sumWeight, 257985, 1, [(0, 1); (1, 1)])
    /\ separateTracks fuel model (mkRawAudio [channel] rate) (of_Q 0.25)
       = Ok ([("drums"%string, mkRawAudio [drums] rate);
              ("bass"%string, mkRawAudio [bass] rate);
              ("other"%string, mkRawAudio [other] rate);
              ("vocals"%string, mkRawAudio [vocals] rate)],
             [(0, 1); (1, 1)])
    /\ alen drums = 44100 /\ alen bass = 44100
    /\ alen other = 44100 /\ alen vocals = 44100.
Proof.
  intros model mix Hch Hstride HT' Hfuel Hsession.
  assert (Eseg : Qfloor (samplerate model * segment model) = 343980) by reflexivity.
  assert (Etotal : ceil_div 44100 257985 = 1) by reflexivity.
  destruct (applySplits_ok (fun _ _ => True) fuel model mix (of_Q 0.25) 1 1 44100 4 T'
              343980 257985 1 eq_refl (eq_sym Hstride) eq_refl eq_refl
              ltac:(lia) ltac:(lia) ltac:(lia) ltac:(lia) ltac:(lia) ltac:(lia) HT'
              Hfuel ltac:(change (Z.to_nat 1) with 1%nat; lia) Hsession)
    as (weight & Ew & Hrun).
  destruct Hrun as (od & sw & out & _ & _ & _ & E & L); [exact I|intros; exact I|].
  change (alen (sources model)) with 4 in E, L.
  change (1 * 4 * 1 * 44100) with 176400 in L.
  change (progress 1 1) with [(0, 1); (1, 1)] in E.
  destruct (turns_chunks fuel model mix 257985 1 weight 1 1 44100 4 T' 343980
              eq_refl eq_refl ltac:(lia) ltac:(lia) ltac:(lia) HT' ltac:(lia)
              Hfuel Hsession ltac:(lia) (eq_sym Etotal)
              (fun _ _ => True) (zeros (4 * 44100)) (zeros 44100) I
              (fun _ _ _ _ => I) 1%nat ltac:(lia))
    as (od1 & sw1 & E1 & _).
  change (Z.of_nat 1 * 257985) with 257985 in E1.
  change (Z.of_nat 1) with 1 in E1.
  change (progress 1 1) with [(0, 1); (1, 1)] in E1.
  exists weight, od1, sw1.
  exists (aslice out 0 44100), (aslice out 44100 88200),
    (aslice out 88200 132300), (aslice out 132300 176400).
  split; [exact Ew|]. split; [exact E1|].
  split; [|repeat split; apply alen_aslice; lia].
  unfold separateTracks. cbn [channelData sampleRate planarize].
  change (alen [channel]) with 1. cbn [Z.eqb Pos.eqb bind]. rewrite Hch. fold mix.
  unfold applyModel. rewrite E. cbn [bind shape dim nth data].
  assert (Hin : forall s, 0 <= s < 4 ->
            forM 0 1
              (fun (c : Z) (channelData : list (list F)) =>
                 channelArray <- aview out (s * 1 * 44100 + c * 44100) 44100 ;;
                 Ok (channelData ++ [channelArray])) []
            = Ok [aslice out (s * 44100) (s * 44100 + 44100)]).
  { intros s Hs. rewrite forM_first by lia. cbv beta.
    rewrite aview_ok; [|lia|lia|rewrite L; lia].
    cbn [bind app]. rewrite forM_nop by lia.
    now replace (s * 1 * 44100 + 0 * 44100) with (s * 44100) by lia. }
  do 4 (rewrite forM_first by lia; rewrite Hin by lia; cbn [bind]).
  rewrite forM_nop by lia. reflexivity.
Qed.
End SeparateTracks.

(** ** The weights of [applySplits] over the reals *)

Section UpdateLoops.
Context {F : Type} {CF : Cell F}.

(** A loop that updates the elements at distinct indices, each from
    its own old value. *)
Lemma for_update (d : Z -> Z) (f : Z -> F -> F) (lo hi : Z) (a : list F) :
  (forall i i', lo <= i < hi -> lo <= i' < hi -> d i = d i' -> i = i') ->
  forall i, lo <= i < hi -> 0 <= d i < alen a ->
    aget (for_ lo hi (fun i s => aset s (d i) (f i (aget s (d i)))) a) (d i)
    = f i (aget a (d i)).
Proof.
  intros Hinj i Hi Hd.
  assert (G : forall k, lo <= k <= hi ->
            let s := for_ lo k (fun i s => aset s (d i) (f i (aget s (d i)))) a in
            alen s = alen a
            /\ (forall i', lo <= i' < k -> 0 <= d i' < alen a ->
                  aget s (d i') = f i' (aget a (d i')))
            /\ (forall i', k <= i' < hi -> aget s (d i') = aget a (d i'))).
  { intros k Hk. cbv zeta.
    apply (for_invariant
             (fun k s => alen s = alen a
                /\ (forall i', lo <= i' < k -> 0 <= d i' < alen a ->
                      aget s (d i') = f i' (aget a (d i')))
                /\ (forall i', k <= i' < hi -> aget s (d i') = aget a (d i'))));
      [lia| |].
    - split; [reflexivity|]. split; intros; [lia|reflexivity].
    - intros c s Hc (L & Hdone & Hnext). split; [now rewrite alen_aset|]. split.
      + intros i' Hi' Hr. destruct (Z.eq_dec i' c) as [->|Hne].
        * rewrite aget_aset_same by now rewrite L. f_equal. apply Hnext. lia.
        * rewrite aget_aset_other; [apply Hdone; [lia|assumption]|].
          intros E. apply Hne. symmetry. apply Hinj; [lia|lia|assumption].
      + intros i' Hi'. rewrite aget_aset_other; [apply Hnext; lia|].
        intros E. apply Hinj in E; lia. }
  destruct (G hi ltac:(lia)) as (_ & H & _). now apply H.
Qed.

End UpdateLoops.

Lemma Int_part_IZR (z : Z) : Int_part (IZR z) = z.
Proof.
  unfold Int_part.
  assert (H : (z + 1)%Z = up (IZR z)).
  { apply tech_up; rewrite plus_IZR; lra. }
  lia.
Qed.

Lemma Int_part_le (x : R) (n : Z) : (x <= IZR n)%R -> Int_part x <= n.
Proof.
  intros H. destruct (base_Int_part x) as (H1 & _).
  apply le_IZR. lra.
Qed.

Lemma fold_Rmax_ge_init (l : list R) : forall a, (a <= fold_left Rmax l a)%R.
Proof.
  induction l as [|x l IH]; intros a; cbn [fold_left]; [lra|].
  eapply Rle_trans; [apply Rmax_l|apply IH].
Qed.

Lemma fold_Rmax_ge (l : list R) (x : R) :
  In x l -> forall a, (x <= fold_left Rmax l a)%R.
Proof.
  induction l as [|y l IH]; intros Hin a; [contradiction|].
  cbn [fold_left]. destruct Hin as [->|Hin].
  - eapply Rle_trans; [apply Rmax_r|apply fold_Rmax_ge_init].
  - now apply IH.
Qed.

(** Every entry of the triangle-shaped weight is positive. *)
Lemma applySplits_weight_positive (segment : Z) (weight : list R) :
  1 <= segment ->
  applySplits_weight segment = Ok weight ->
  alen weight = segment
  /\ forall t, 0 <= t < segment -> (0 < aget weight t)%R.
Proof.
  intros Hseg. unfold applySplits_weight.
  change (@floor_scalar R Floor_R) with Scalar_R.
  rewrite alloc_ok by lia. cbn [bind].
  set (w1 := for_ 0 (segment / 2 + 1) _ _).
  set (w2 := for_ (segment / 2 + 1) segment _ w1).
  set (maxWeight := fold_left _ w2 _).
  intros [= <-].
  pose proof (Z.div_pos segment 2 ltac:(lia) ltac:(lia)) as Hh0.
  assert (Hh : segment / 2 + 1 <= segment).
  { pose proof (Z.div_mod segment 2 ltac:(lia)).
    pose proof (Z.mod_pos_bound segment 2 ltac:(lia)). lia. }
  assert (L1 : alen w1 = segment).
  { unfold w1. rewrite for_aset_alen. apply alen_zeros. lia. }
  assert (L2 : alen w2 = segment) by (unfold w2; now rewrite for_aset_alen).
  assert (H2 : forall t, 0 <= t < segment -> (1 <= aget w2 t)%R).
  { intros t Ht. destruct (Z_lt_ge_dec t (segment / 2 + 1)) as [Hlow|Hhigh].
    - unfold w2.
      rewrite (for_aset_untouched (fun i => i) (fun i _ => of_Z (segment - i)))
        by (intros; lia).
      unfold w1.
      rewrite (for_store (SF := Scalar_R) (fun i => i) (fun i => of_Z (i + 1)));
        [|intros; lia|lia|rewrite alen_zeros; lia].
      cbn. apply IZR_le. lia.
    - unfold w2.
      rewrite (for_store (SF := Scalar_R) (fun i => i) (fun i => of_Z (segment - i)));
        [|intros; lia|lia|rewrite L1; lia].
      cbn. apply IZR_le. lia. }
  assert (Hmax : (1 <= maxWeight)%R).
  { eapply Rle_trans; [apply (H2 0); lia|].
    unfold maxWeight. apply (fold_Rmax_ge w2 (aget w2 0)).
    unfold aget. rewrite in_range_true by lia. apply nth_In. unfold alen in L2. lia. }
  split; [now rewrite for_aset_alen|].
  intros t Ht.
  rewrite (for_update (CF := @scalar_cell R Scalar_R) (fun i => i) (fun _ v => @fdiv R Scalar_R v maxWeight));
    [|intros; lia|lia|lia].
  cbn. apply Rdiv_lt_0_compat; [|lra].
  pose proof (H2 t Ht). lra.
Qed.


(** ** Runs of [applySplits] and [separateTracks] over the reals *)

Lemma stride_without_overlap : Int_part ((1 - 0) * 8) = 8.
Proof.
  replace ((1 - 0) * 8)%R with (IZR 8) by lra. apply Int_part_IZR.
Qed.

Lemma stride_of_the_model : Int_part ((1 - Q2R 0.25) * 343980) = 257985.
Proof.
  replace ((1 - Q2R 0.25) * 343980)%R with (IZR 257985);
    [apply Int_part_IZR|unfold Q2R; cbn [Qnum Qden]; lra].
Qed.

(** A model of one source with a training length of 8 samples, no
    overlap, and a mix of 12 samples: two chunks. *)
Lemma applySplits_progress_witness :
  let model :=
    mkModel ["a"%string] 1 8%Q 1%Q
      (fun _ _ => Ok (mkTensor ([] : list R) [1; 1; 1 * 2; 2048; 1],
                      mkTensor (zeros 8) [1; 1; 1; 8])) in
  let mix := mkTensor (zeros 12) [1; 1; 12] in
  exists out calls,
    applySplits (Z.to_nat 4096) model mix 0%R = Ok (mkTensor out [1; 1; 1; 12], calls).
Proof.
  intros model mix.
  destruct (applySplits_progress (Z.to_nat 4096) model mix 0%R 1 1 12 1 1)
    as (_ & _ & _ & _ & out & E);
    [reflexivity|lia|lia|lia|vm_compute; discriminate
    |change (1 <= Int_part ((1 - 0) * 8)); rewrite stride_without_overlap; lia
    |lia|lia|apply le_n
    |change (Z.to_nat (ceil_div 12 (Int_part ((1 - 0) * 8))) < Z.to_nat 4096)%nat;
     rewrite stride_without_overlap; change (ceil_div 12 8) with 2; lia
    | |].
  - intros paddedMix magspec _ _. eexists _, _.
    split; [reflexivity|]. split; [reflexivity|]. split; reflexivity.
  - exists out. eexists. exact E.
Defined.

(** One second of silence, and a session that answers with silence. *)
Lemma separateTracks_one_second_witness :
  let run := fun _ _ : Tensor R =>
    Ok (mkTensor ([] : list R) [1; 4; 2; 2048; 1],
        mkTensor (zeros (4 * 343980)) [1; 4; 1; 343980]) in
  exists tracks,
    separateTracks (Z.to_nat 4096) (ONNXHTDemucs_init run)
      (mkRawAudio [zeros 44100] 44100) (of_Q 0.25)
    = Ok (tracks, [(0, 1); (1, 1)])
    /\ map fst tracks = ["drums"; "bass"; "other"; "vocals"]%string.
Proof.
  intros run.
  destruct (separateTracks_one_second (Z.to_nat 4096) run (zeros 44100) 44100 1)
    as (_ & _ & _ & drums & bass & other & vocals & _ & _ & E & _);
    [apply alen_zeros; lia|exact stride_of_the_model|lia|apply le_n| |].
  - intros paddedMix magspec _ _. eexists _, _.
    split; [reflexivity|]. split; [reflexivity|]. split; [reflexivity|].
    apply alen_zeros. lia.
  - eexists. split; [exact E|reflexivity].
Defined.


(** ** The Fourier transform over the reals *)

Ltac calg :=
  repeat match goal with a : complex |- _ => destruct a end;
  unfold cadd, csub, cmul, cconj, cscale; cbn [fst snd]; f_equal; ring.

Lemma cadd_comm (a b : complex) : cadd a b = cadd b a.
Proof. calg. Qed.

Lemma cadd_assoc (a b c : complex) : cadd a (cadd b c) = cadd (cadd a b) c.
Proof. calg. Qed.

Lemma cadd_0_l (a : complex) : cadd (0, 0)%R a = a.
Proof. calg. Qed.

Lemma cadd_0_r (a : complex) : cadd a (0, 0)%R = a.
Proof. calg. Qed.

Lemma cmul_comm (a b : complex) : cmul a b = cmul b a.
Proof. calg. Qed.

Lemma cmul_assoc (a b c : complex) : cmul a (cmul b c) = cmul (cmul a b) c.
Proof. calg. Qed.

Lemma cmul_1_r (a : complex) : cmul a (1, 0)%R = a.
Proof. calg. Qed.

Lemma cmul_0_l (a : complex) : cmul (0, 0)%R a = (0, 0)%R.
Proof. calg. Qed.

Lemma cmul_add_l (a b c : complex) : cmul a (cadd b c) = cadd (cmul a b) (cmul a c).
Proof. calg. Qed.

Lemma cmul_add_r (a b c : complex) : cmul (cadd a b) c = cadd (cmul a c) (cmul b c).
Proof. calg. Qed.

(** *** Roots of unity *)

Lemma cis_period (x : R) (c : Z) :
  cos (x + 2 * IZR c * PI) = cos x /\ sin (x + 2 * IZR c * PI) = sin x.
Proof.
  destruct (Z_le_gt_dec 0 c) as [Hc|Hc].
  - rewrite <- (Z2Nat.id c Hc), <- INR_IZR_INZ. split; [apply cos_period|apply sin_period].
  - set (y := (x + 2 * IZR c * PI)%R).
    assert (E : x = (y + 2 * INR (Z.to_nat (- c)) * PI)%R).
    { unfold y. rewrite INR_IZR_INZ, Z2Nat.id, opp_IZR by lia. ring. }
    rewrite E at 1 2. now rewrite cos_period, sin_period.
Qed.

Lemma root_0 (n : Z) : root n 0 = (1, 0)%R.
Proof.
  unfold root. replace (- (2 * PI * 0) / IZR n)%R with 0%R.
  - now rewrite cos_0, sin_0.
  - unfold Rdiv. ring.
Qed.

Lemma root_add (n a b : Z) : root n (a + b) = cmul (root n a) (root n b).
Proof.
  unfold root, cmul. cbn [fst snd]. rewrite plus_IZR.
  replace (- (2 * PI * (IZR a + IZR b)) / IZR n)%R
    with (- (2 * PI * IZR a) / IZR n + - (2 * PI * IZR b) / IZR n)%R
    by (unfold Rdiv; ring).
  rewrite cos_plus, sin_plus. f_equal. ring.
Qed.

Lemma root_period (n e c : Z) : 0 < n -> root n (e + n * c) = root n e.
Proof.
  intros Hn. unfold root.
  assert (Hn' : IZR n <> 0%R) by (apply not_0_IZR; lia).
  replace (- (2 * PI * IZR (e + n * c)) / IZR n)%R
    with (- (2 * PI * IZR e) / IZR n + 2 * IZR (- c) * PI)%R.
  - destruct (cis_period (- (2 * PI * IZR e) / IZR n) (- c)) as [-> ->]. reflexivity.
  - rewrite plus_IZR, mult_IZR, opp_IZR. field. exact Hn'.
Qed.

Lemma root_double (n e : Z) : 0 < n -> root (2 * n) (2 * e) = root n e.
Proof.
  intros Hn. unfold root.
  assert (Hn' : IZR n <> 0%R) by (apply not_0_IZR; lia).
  replace (- (2 * PI * IZR (2 * e)) / IZR (2 * n))%R with (- (2 * PI * IZR e) / IZR n)%R;
    [reflexivity|].
  rewrite !mult_IZR. field. exact Hn'.
Qed.

Lemma root_half (n : Z) : 0 < n -> root (2 * n) n = (-1, 0)%R.
Proof.
  intros Hn. unfold root.
  assert (Hn' : IZR n <> 0%R) by (apply not_0_IZR; lia).
  replace (- (2 * PI * IZR n) / IZR (2 * n))%R with (- PI)%R
    by (rewrite mult_IZR; field; exact Hn').
  rewrite cos_neg, sin_neg, cos_PI, sin_PI. f_equal. ring.
Qed.

Lemma conj_root (n e : Z) : cconj (root n e) = root n (- e).
Proof.
  unfold cconj, root. cbn [fst snd]. rewrite opp_IZR.
  replace (- (2 * PI * - IZR e) / IZR n)%R with (- (- (2 * PI * IZR e) / IZR n))%R
    by (unfold Rdiv; ring).
  now rewrite cos_neg, sin_neg.
Qed.

(** *** Sums *)

Lemma csum_ext (n : nat) (f g : Z -> complex) :
  (forall t, 0 <= t < Z.of_nat n -> f t = g t) -> csum n f = csum n g.
Proof.
  induction n as [|n IH]; intros H; cbn [csum]; [reflexivity|].
  rewrite IH by (intros; apply H; lia). f_equal. apply H. lia.
Qed.

Lemma csum_add (n : nat) (f g : Z -> complex) :
  csum n (fun t => cadd (f t) (g t)) = cadd (csum n f) (csum n g).
Proof.
  induction n as [|n IH]; cbn [csum]; [calg|]. rewrite IH. calg.
Qed.

Lemma csum_cmul_l (n : nat) (c : complex) (f : Z -> complex) :
  csum n (fun t => cmul c (f t)) = cmul c (csum n f).
Proof.
  induction n as [|n IH]; cbn [csum]; [calg|]. rewrite IH. calg.
Qed.

Lemma csum_cmul_r (n : nat) (c : complex) (f : Z -> complex) :
  csum n (fun t => cmul (f t) c) = cmul (csum n f) c.
Proof.
  induction n as [|n IH]; cbn [csum]; [calg|]. rewrite IH. calg.
Qed.

Lemma csum_conj (n : nat) (f : Z -> complex) :
  cconj (csum n f) = csum n (fun t => cconj (f t)).
Proof.
  induction n as [|n IH]; cbn [csum]; [calg|]. rewrite <- IH. calg.
Qed.

Lemma csum_zero (n : nat) (f : Z -> complex) :
  (forall t, 0 <= t < Z.of_nat n -> f t = (0, 0)%R) -> csum n f = (0, 0)%R.
Proof.
  induction n as [|n IH]; intros H; cbn [csum]; [reflexivity|].
  rewrite IH by (intros; apply H; lia). rewrite H by lia. calg.
Qed.

(** A sum with one term that is not zero. *)
Lemma csum_single (n : nat) (f : Z -> complex) (t : Z) :
  0 <= t < Z.of_nat n ->
  (forall u, 0 <= u < Z.of_nat n -> u <> t -> f u = (0, 0)%R) ->
  csum n f = f t.
Proof.
  induction n as [|n IH]; intros Ht H; [lia|]. cbn [csum].
  destruct (Z.eq_dec t (Z.of_nat n)) as [->|Hne].
  - rewrite csum_zero by (intros; apply H; lia). apply cadd_0_l.
  - rewrite IH by (try lia; intros; apply H; lia).
    rewrite (H (Z.of_nat n)) by lia. apply cadd_0_r.
Qed.

Lemma csum_swap (n m : nat) (f : Z -> Z -> complex) :
  csum n (fun k => csum m (fun u => f k u)) = csum m (fun u => csum n (fun k => f k u)).
Proof.
  induction n as [|n IH]; cbn [csum].
  - symmetry. now apply csum_zero.
  - rewrite IH. now rewrite <- csum_add.
Qed.

(** The terms at the even and at the odd indices. *)
Lemma csum_even_odd (n : nat) (f : Z -> complex) :
  csum (2 * n) f
  = cadd (csum n (fun u => f (2 * u))) (csum n (fun u => f (2 * u + 1))).
Proof.
  induction n as [|n IH]; [cbn; calg|].
  replace (2 * S n)%nat with (S (S (2 * n))) by lia. cbn [csum]. rewrite IH.
  replace (Z.of_nat (2 * n)) with (2 * Z.of_nat n) by lia.
  replace (Z.of_nat (S (2 * n))) with (2 * Z.of_nat n + 1) by lia.
  calg.
Qed.

(** *** The sum of the powers of a root of unity *)

Lemma csum_ones (n : nat) : csum n (fun _ => (1, 0)%R) = (IZR (Z.of_nat n), 0%R).
Proof.
  induction n as [|n IH]; [reflexivity|].
  cbn [csum]. rewrite IH, Nat2Z.inj_succ, succ_IZR. unfold cadd. cbn [fst snd].
  f_equal. ring.
Qed.

Lemma csum_shift (n : nat) (g : Z -> complex) :
  cadd (csum n (fun k => g (k + 1))) (g 0) = cadd (csum n g) (g (Z.of_nat n)).
Proof.
  induction n as [|n IH]; [reflexivity|].
  cbn [csum]. replace (Z.of_nat (S n)) with (Z.of_nat n + 1) by lia.
  rewrite <- IH. generalize (csum n (fun k => g (k + 1))), (g (Z.of_nat n + 1)), (g 0).
  intros a b c. calg.
Qed.

Lemma cos_lt_1 (x : R) : (0 < x < 2 * PI)%R -> (cos x < 1)%R.
Proof.
  intros Hx. replace x with (2 * (x / 2))%R by field.
  rewrite cos_2a_sin.
  assert (0 < sin (x / 2))%R by (apply sin_gt_0; lra).
  nra.
Qed.

Lemma root_neq_1 (n d : Z) : 0 < n -> - n < d < n -> d <> 0 -> fst (root n d) <> 1%R.
Proof.
  intros Hn Hd Hd0. unfold root. cbn [fst].
  assert (Hn' : (0 < IZR n)%R) by (apply IZR_lt; lia).
  pose proof PI_RGT_0 as Hpi.
  assert (Hlt : forall e, 0 < e < n -> (cos (2 * PI * IZR e / IZR n) < 1)%R).
  { intros e He. apply cos_lt_1.
    assert (0 < IZR e)%R by (apply IZR_lt; lia).
    assert (IZR e < IZR n)%R by (apply IZR_lt; lia).
    split.
    - apply Rdiv_lt_0_compat; [|assumption]. nra.
    - apply (Rmult_lt_reg_r (IZR n)); [assumption|].
      unfold Rdiv. rewrite Rmult_assoc, Rinv_l by lra. nra. }
  destruct (Z_lt_ge_dec 0 d) as [Hpos|Hneg].
  - replace (- (2 * PI * IZR d) / IZR n)%R with (- (2 * PI * IZR d / IZR n))%R
      by (unfold Rdiv; ring).
    rewrite cos_neg. specialize (Hlt d ltac:(lia)). lra.
  - replace (- (2 * PI * IZR d) / IZR n)%R with (2 * PI * IZR (- d) / IZR n)%R
      by (rewrite opp_IZR; unfold Rdiv; ring).
    specialize (Hlt (- d) ltac:(lia)). lra.
Qed.

Lemma cmul_fixed (z s : complex) : fst z <> 1%R -> cmul z s = s -> s = (0, 0)%R.
Proof.
  destruct z as [c t], s as [a b]. unfold cmul. cbn [fst snd]. intros Hc [= H1 H2].
  assert (Hq : (0 < (c - 1) * (c - 1) + t * t)%R) by nra.
  assert (E1 : ((c - 1) * a - t * b = 0)%R) by lra.
  assert (E2 : ((c - 1) * b + t * a = 0)%R) by lra.
  assert (Ha : (a * ((c - 1) * (c - 1) + t * t) = 0)%R).
  { replace (a * ((c - 1) * (c - 1) + t * t))%R
      with ((c - 1) * ((c - 1) * a - t * b) + t * ((c - 1) * b + t * a))%R by ring.
    rewrite E1, E2. ring. }
  assert (Hb : (b * ((c - 1) * (c - 1) + t * t) = 0)%R).
  { replace (b * ((c - 1) * (c - 1) + t * t))%R
      with ((c - 1) * ((c - 1) * b + t * a) - t * ((c - 1) * a - t * b))%R by ring.
    rewrite E1, E2. ring. }
  apply Rmult_integral in Ha, Hb.
  f_equal; [destruct Ha|destruct Hb]; lra.
Qed.

(** The roots of unity are orthogonal. *)
Lemma root_sum (n d : Z) :
  0 < n -> - n < d < n ->
  csum (Z.to_nat n) (fun k => root n (k * d))
  = if d =? 0 then (IZR n, 0%R) else (0, 0)%R.
Proof.
  intros Hn Hd. destruct (Z.eqb_spec d 0) as [->|Hd0].
  - rewrite (csum_ext _ _ (fun _ => (1, 0)%R)).
    + rewrite csum_ones. now rewrite Z2Nat.id by lia.
    + intros t _. rewrite Z.mul_0_r. apply root_0.
  - apply (cmul_fixed (root n d)); [now apply root_neq_1|].
    rewrite <- csum_cmul_l.
    rewrite (csum_ext _ _ (fun k => (fun k => root n (k * d)) (k + 1))).
    + pose proof (csum_shift (Z.to_nat n) (fun k => root n (k * d))) as H.
      cbv beta in H. rewrite Z2Nat.id in H by lia.
      rewrite Z.mul_0_l, root_0 in H.
      replace (n * d) with (0 + n * d) in H by ring.
      rewrite root_period, root_0 in H by assumption.
      cbv beta.
      revert H. generalize (csum (Z.to_nat n) (fun k => root n ((k + 1) * d))).
      generalize (csum (Z.to_nat n) (fun k => root n (k * d))).
      intros [a b] [a' b']. unfold cadd. cbn [fst snd]. intros [= H1 H2].
      f_equal; lra.
    + intros t _. cbv beta. rewrite <- root_add. f_equal. ring.
Qed.

(** *** Bit reversal *)

Lemma rev_bits_even (q : nat) (b : Z) : rev_bits (S q) (2 * b) = rev_bits q b.
Proof.
  change (rev_bits (S q) (2 * b))
    with (((2 * b) mod 2) * 2 ^ Z.of_nat q + rev_bits q ((2 * b) / 2)).
  replace (2 * b) with (b * 2) by ring.
  rewrite Z.mod_mul, Z.div_mul by lia. lia.
Qed.

Lemma rev_bits_odd (q : nat) (b : Z) :
  rev_bits (S q) (2 * b + 1) = 2 ^ Z.of_nat q + rev_bits q b.
Proof.
  change (rev_bits (S q) (2 * b + 1))
    with (((2 * b + 1) mod 2) * 2 ^ Z.of_nat q + rev_bits q ((2 * b + 1) / 2)).
  replace (2 * b + 1) with (1 + b * 2) by ring.
  rewrite Z.mod_add, Z.div_add by lia.
  change (1 mod 2) with 1. change (1 / 2) with 0. rewrite Z.add_0_l. lia.
Qed.

Lemma rev_bits_snoc (m : nat) :
  forall b r, 0 <= b <= 1 -> 0 <= r < 2 ^ Z.of_nat m ->
    rev_bits (S m) (b * 2 ^ Z.of_nat m + r) = 2 * rev_bits m r + b.
Proof.
  induction m as [|m IH]; intros b r Hb Hr.
  - change (2 ^ Z.of_nat 0) with 1 in *. replace r with 0 by lia.
    assert (Hb' : b = 0 \/ b = 1) by lia.
    destruct Hb' as [-> | ->]; reflexivity.
  - rewrite Nat2Z.inj_succ, Z.pow_succ_r in * by lia.
    change (rev_bits (S (S m)) (b * (2 * 2 ^ Z.of_nat m) + r))
      with (((b * (2 * 2 ^ Z.of_nat m) + r) mod 2) * 2 ^ Z.of_nat (S m)
            + rev_bits (S m) ((b * (2 * 2 ^ Z.of_nat m) + r) / 2)).
    replace ((b * (2 * 2 ^ Z.of_nat m) + r) mod 2) with (r mod 2).
    2:{ replace (b * (2 * 2 ^ Z.of_nat m) + r) with (r + (b * 2 ^ Z.of_nat m) * 2) by ring.
        now rewrite Z.mod_add by lia. }
    replace ((b * (2 * 2 ^ Z.of_nat m) + r) / 2) with (b * 2 ^ Z.of_nat m + r / 2).
    2:{ replace (b * (2 * 2 ^ Z.of_nat m) + r) with (r + (b * 2 ^ Z.of_nat m) * 2) by ring.
        rewrite Z.div_add by lia. ring. }
    rewrite IH; [|assumption|].
    + change (rev_bits (S m) r) with ((r mod 2) * 2 ^ Z.of_nat m + rev_bits m (r / 2)).
      rewrite Nat2Z.inj_succ, Z.pow_succ_r by lia. ring.
    + pose proof (Z.div_mod r 2 ltac:(lia)). pose proof (Z.mod_pos_bound r 2 ltac:(lia)).
      split; [apply Z.div_pos; lia|]. apply Z.div_lt_upper_bound; lia.
Qed.

Lemma rev_bits_involutive (m : nat) :
  forall x, 0 <= x < 2 ^ Z.of_nat m -> rev_bits m (rev_bits m x) = x.
Proof.
  induction m as [|m IH]; intros x Hx.
  - cbn in Hx. cbn [rev_bits]. lia.
  - rewrite Nat2Z.inj_succ, Z.pow_succ_r in Hx by lia.
    pose proof (Z.div_mod x 2 ltac:(lia)) as Hdm.
    pose proof (Z.mod_pos_bound x 2 ltac:(lia)) as Hmod.
    assert (Hhalf : 0 <= x / 2 < 2 ^ Z.of_nat m).
    { split; [apply Z.div_pos; lia|]. apply Z.div_lt_upper_bound; lia. }
    change (rev_bits (S m) x) with ((x mod 2) * 2 ^ Z.of_nat m + rev_bits m (x / 2)).
    rewrite rev_bits_snoc; [|lia|apply rev_bits_bound].
    rewrite IH by assumption. lia.
Qed.

Section BitReversal.
Context {F : Type} {SF : Scalar F}.

Lemma bitrev_step_pair (m : nat) (i : Z) (re im : list F) :
  bitrev_step m i (re, im) = (swap_step m i re, swap_step m i im).
Proof.
  unfold bitrev_step, swap_step. cbv zeta. now destruct (i <? rev_bits m i).
Qed.

Lemma swap_loop (m : nat) (a : list F) :
  alen a = 2 ^ Z.of_nat m ->
  forall c, 0 <= c <= 2 ^ Z.of_nat m - 1 ->
    alen (for_ 0 c (swap_step m) a) = alen a
    /\ forall p, 0 <= p < 2 ^ Z.of_nat m ->
         aget (for_ 0 c (swap_step m) a) p
         = if (p <? c) || (rev_bits m p <? c) then aget a (rev_bits m p) else aget a p.
Proof.
  intros Hn hi Hhi.
  apply (for_invariant
           (fun c s =>
              alen s = alen a
              /\ forall p, 0 <= p < 2 ^ Z.of_nat m ->
                   aget s p
                   = if (p <? c) || (rev_bits m p <? c)
                     then aget a (rev_bits m p) else aget a p)); [lia| |].
  - split; [reflexivity|]. intros p Hp.
    pose proof (rev_bits_bound m p) as Hr.
    destruct (Z.ltb_spec p 0); [lia|]. destruct (Z.ltb_spec (rev_bits m p) 0); [lia|].
    reflexivity.
  - intros c s Hc (L & Hs).
    pose proof (rev_bits_bound m c) as Hj.
    pose proof (rev_bits_involutive m c ltac:(lia)) as Hinv.
    unfold swap_step. cbv zeta.
    destruct (Z.ltb_spec c (rev_bits m c)) as [Hlt|Hge].
    + split; [now rewrite !alen_aset|].
      intros p Hp. pose proof (rev_bits_bound m p) as Hr.
      destruct (Z.eq_dec p (rev_bits m c)) as [->|Hpj].
      * rewrite aget_aset_same by (rewrite alen_aset, L, Hn; lia).
        rewrite Hs by lia. rewrite Hinv.
        destruct (Z.ltb_spec c c); [lia|].
        destruct (Z.ltb_spec (rev_bits m c) c); [lia|]. cbn [orb].
        destruct (Z.ltb_spec c (c + 1)); [|lia].
        now rewrite orb_true_r.
      * rewrite aget_aset_other by congruence.
        destruct (Z.eq_dec p c) as [->|Hpc].
        -- rewrite aget_aset_same by (rewrite L, Hn; lia).
           rewrite Hs by lia. rewrite Hinv.
           destruct (Z.ltb_spec (rev_bits m c) c); [lia|].
           destruct (Z.ltb_spec c c); [lia|]. cbn [orb].
           destruct (Z.ltb_spec c (c + 1)); [|lia]. reflexivity.
        -- rewrite aget_aset_other by congruence.
           rewrite Hs by assumption.
           assert (Hrp : rev_bits m p <> c).
           { intros E. apply Hpj. rewrite <- E. symmetry.
             now apply rev_bits_involutive. }
           destruct (Z.ltb_spec p c), (Z.ltb_spec p (c + 1)),
             (Z.ltb_spec (rev_bits m p) c), (Z.ltb_spec (rev_bits m p) (c + 1));
             try lia; reflexivity.
    + split; [exact L|]. intros p Hp. pose proof (rev_bits_bound m p) as Hr.
      rewrite Hs by assumption.
      destruct (Z.eq_dec p c) as [->|Hpc].
      * destruct (Z.ltb_spec c c); [lia|].
        destruct (Z.ltb_spec c (c + 1)); [|lia]. cbn [orb].
        destruct (Z.ltb_spec (rev_bits m c) c); [reflexivity|].
        now replace (rev_bits m c) with c by lia.
      * destruct (Z.eq_dec (rev_bits m p) c) as [Erp|Hrp].
        -- assert (Ep : p = rev_bits m c)
             by (rewrite <- Erp; symmetry; now apply rev_bits_involutive).
           destruct (Z.ltb_spec p c); [|lia].
           destruct (Z.ltb_spec p (c + 1)); [|lia]. reflexivity.
        -- destruct (Z.ltb_spec p c), (Z.ltb_spec p (c + 1)),
             (Z.ltb_spec (rev_bits m p) c), (Z.ltb_spec (rev_bits m p) (c + 1));
             try lia; reflexivity.
Qed.

(** The bit-reversal loop of [fft] puts the element of index
    [rev_bits m p] at index [p]. *)
Lemma bitrev_loop (m : nat) (re im : list F) :
  alen re = 2 ^ Z.of_nat m -> alen im = 2 ^ Z.of_nat m ->
  exists re' im',
    for_ 0 (2 ^ Z.of_nat m - 1) (bitrev_step m) (re, im) = (re', im')
    /\ alen re' = 2 ^ Z.of_nat m /\ alen im' = 2 ^ Z.of_nat m
    /\ forall p, 0 <= p < 2 ^ Z.of_nat m ->
         aget re' p = aget re (rev_bits m p) /\ aget im' p = aget im (rev_bits m p).
Proof.
  intros Lr Li. pose proof (pow2_pos m) as Hpos.
  exists (for_ 0 (2 ^ Z.of_nat m - 1) (swap_step m) re),
         (for_ 0 (2 ^ Z.of_nat m - 1) (swap_step m) im).
  split.
  - rewrite <- for_pair. apply for_ext. intros i [a b] _. apply bitrev_step_pair.
  - destruct (swap_loop m re Lr (2 ^ Z.of_nat m - 1) ltac:(lia)) as (L1 & H1).
    destruct (swap_loop m im Li (2 ^ Z.of_nat m - 1) ltac:(lia)) as (L2 & H2).
    split; [congruence|]. split; [congruence|].
    assert (G : forall (a : list F) p, 0 <= p < 2 ^ Z.of_nat m ->
              (if (p <? 2 ^ Z.of_nat m - 1) || (rev_bits m p <? 2 ^ Z.of_nat m - 1)
               then aget a (rev_bits m p) else aget a p) = aget a (rev_bits m p)).
    { intros a p Hp. pose proof (rev_bits_bound m p) as Hr.
      destruct (Z.ltb_spec p (2 ^ Z.of_nat m - 1)); [reflexivity|].
      destruct (Z.ltb_spec (rev_bits m p) (2 ^ Z.of_nat m - 1)); [reflexivity|].
      cbn [orb]. f_equal. lia. }
    intros p Hp. rewrite H1, H2 by assumption. now rewrite !G.
Qed.

End BitReversal.

(** *** The butterflies *)

(** The butterflies of one block: the lower half gets the sums, the
    upper half the differences, with the twiddle factors [w^j] for [w]
    of argument [angle]. *)
Lemma fft_block_spec (angle : R) (h i : Z) (re im : list R) :
  0 <= i -> 0 <= h -> i + 2 * h <= alen re -> alen im = alen re ->
  exists re' im',
    fft_block (SF := Scalar_R) angle h i (re, im) = (re', im')
    /\ alen re' = alen re /\ alen im' = alen re
    /\ forall p,
         cget (re', im') p
         = if (i <=? p) && (p <? i + h)
           then cadd (cget (re, im) p)
                  (cmul (cos (IZR (p - i) * angle), sin (IZR (p - i) * angle))
                     (cget (re, im) (p + h)))
           else if (i + h <=? p) && (p <? i + 2 * h)
           then csub (cget (re, im) (p - h))
                  (cmul (cos (IZR (p - h - i) * angle), sin (IZR (p - h - i) * angle))
                     (cget (re, im) p))
           else cget (re, im) p.
Proof.
  intros Hi Hh Hfit Lim.
  assert (G : forall j, 0 <= j <= h ->
            match for_ 0 j (butterfly (SF := Scalar_R) angle h i) (re, im, 1%R, 0%R) with
            | (re', im', wr, wi) =>
                alen re' = alen re /\ alen im' = alen re
                /\ wr = cos (IZR j * angle) /\ wi = sin (IZR j * angle)
                /\ forall p,
                     cget (re', im') p
                     = if (i <=? p) && (p <? i + j)
                       then cadd (cget (re, im) p)
                              (cmul (cos (IZR (p - i) * angle), sin (IZR (p - i) * angle))
                                 (cget (re, im) (p + h)))
                       else if (i + h <=? p) && (p <? i + h + j)
                       then csub (cget (re, im) (p - h))
                              (cmul (cos (IZR (p - h - i) * angle),
                                     sin (IZR (p - h - i) * angle))
                                 (cget (re, im) p))
                       else cget (re, im) p
            end).
  { intros j Hj.
    apply (for_invariant
             (fun j st =>
                match st with
                | (re', im', wr, wi) =>
                    alen re' = alen re /\ alen im' = alen re
                    /\ wr = cos (IZR j * angle) /\ wi = sin (IZR j * angle)
                    /\ forall p,
                         cget (re', im') p
                         = if (i <=? p) && (p <? i + j)
                           then cadd (cget (re, im) p)
                                  (cmul (cos (IZR (p - i) * angle),
                                         sin (IZR (p - i) * angle))
                                     (cget (re, im) (p + h)))
                           else if (i + h <=? p) && (p <? i + h + j)
                           then csub (cget (re, im) (p - h))
                                  (cmul (cos (IZR (p - h - i) * angle),
                                         sin (IZR (p - h - i) * angle))
                                     (cget (re, im) p))
                           else cget (re, im) p
                end)); [lia| |].
    - split; [reflexivity|]. split; [exact Lim|].
      rewrite Rmult_0_l, cos_0, sin_0. split; [reflexivity|]. split; [reflexivity|].
      intros p.
      destruct (Z.leb_spec i p), (Z.ltb_spec p (i + 0)),
        (Z.leb_spec (i + h) p), (Z.ltb_spec p (i + h + 0)); cbn [andb]; try lia; reflexivity.
    - intros c [[[re' im'] wr] wi] Hc (L1 & L2 & Hwr & Hwi & Hs).
      unfold butterfly. cbv zeta. change (@scalar_cell R Scalar_R) with Cell_R.
      split; [now rewrite !alen_aset|]. split; [now rewrite !alen_aset|].
      split; [|split].
      + subst wr wi. cbn [fsub fmul fcos fsin Scalar_R].
        rewrite plus_IZR, Rmult_plus_distr_r, Rmult_1_l, cos_plus. reflexivity.
      + subst wr wi. cbn [fadd fmul fcos fsin Scalar_R].
        rewrite plus_IZR, Rmult_plus_distr_r, Rmult_1_l, sin_plus. ring.
      + assert (Hk : cget (re', im') (i + c) = cget (re, im) (i + c)).
        { rewrite Hs.
          destruct (Z.leb_spec i (i + c)), (Z.ltb_spec (i + c) (i + c)),
            (Z.leb_spec (i + h) (i + c)), (Z.ltb_spec (i + c) (i + h + c));
            cbn [andb]; try lia; reflexivity. }
        assert (Hl : cget (re', im') (i + c + h) = cget (re, im) (i + c + h)).
        { rewrite Hs.
          destruct (Z.leb_spec i (i + c + h)), (Z.ltb_spec (i + c + h) (i + c)),
            (Z.leb_spec (i + h) (i + c + h)), (Z.ltb_spec (i + c + h) (i + h + c));
            cbn [andb]; try lia; reflexivity. }
        unfold cget in Hk, Hl. cbn [fst snd] in Hk, Hl.
        injection Hk as Hkr Hki. injection Hl as Hlr Hli.
        intros p. unfold cget at 1. cbn [fst snd].
        destruct (Z.eq_dec p (i + c)) as [->|Hpk].
        * rewrite !aget_aset_same by (rewrite ?alen_aset; lia).
          rewrite !aget_aset_other by lia.
          rewrite Hkr, Hki, Hlr, Hli.
          destruct (Z.leb_spec i (i + c)); [|lia].
          destruct (Z.ltb_spec (i + c) (i + (c + 1))); [|lia]. cbn [andb].
          replace (i + c - i) with c by ring.
          subst wr wi. unfold cadd, cmul, cget.
          cbn [fst snd fadd fsub fmul Scalar_R]. reflexivity.
        * rewrite (aget_aset_other _ (i + c)) by lia.
          rewrite (aget_aset_other _ (i + c)) by lia.
          destruct (Z.eq_dec p (i + c + h)) as [->|Hpl].
          -- rewrite !aget_aset_same by lia.
             rewrite Hkr, Hki, Hlr, Hli.
             destruct (Z.leb_spec i (i + c + h)); [|lia].
             destruct (Z.ltb_spec (i + c + h) (i + (c + 1))); [lia|]. cbn [andb].
             destruct (Z.leb_spec (i + h) (i + c + h)); [|lia].
             destruct (Z.ltb_spec (i + c + h) (i + h + (c + 1))); [|lia]. cbn [andb].
             replace (i + c + h - h) with (i + c) by ring.
             replace (i + c - i) with c by ring.
             subst wr wi. unfold csub, cmul, cget.
             cbn [fst snd fadd fsub fmul Scalar_R]. reflexivity.
          -- rewrite !aget_aset_other by lia.
             specialize (Hs p). unfold cget at 1 in Hs. cbn [fst snd] in Hs.
             rewrite Hs.
             destruct (Z.leb_spec i p), (Z.ltb_spec p (i + c)),
               (Z.ltb_spec p (i + (c + 1))), (Z.leb_spec (i + h) p),
               (Z.ltb_spec p (i + h + c)), (Z.ltb_spec p (i + h + (c + 1)));
               cbn [andb]; try lia; reflexivity. }
  specialize (G h ltac:(lia)). unfold fft_block.
  destruct (for_ 0 h (butterfly angle h i) (re, im, of_Z 1, of_Z 0))
    as [[[re' im'] wr] wi] eqn:E.
  change (@of_Z R Scalar_R 1) with 1%R in E. change (@of_Z R Scalar_R 0) with 0%R in E.
  rewrite E in G. destruct G as (L1 & L2 & _ & _ & Hs).
  exists re', im'. split; [reflexivity|]. split; [exact L1|]. split; [exact L2|].
  intros p. rewrite Hs. now replace (i + h + h) with (i + 2 * h) by ring.
Qed.

Lemma twiddle_root (len j : Z) :
  (cos (IZR j * (IZR (-2) * PI / IZR len)), sin (IZR j * (IZR (-2) * PI / IZR len)))
  = root len j.
Proof.
  unfold root.
  replace (IZR j * (IZR (-2) * PI / IZR len))%R with (- (2 * PI * IZR j) / IZR len)%R;
    [reflexivity|].
  unfold Rdiv. ring.
Qed.

(** One stage: every block of [2 * L] elements is replaced by the sums
    and the differences of its two halves. *)
Lemma fft_stage_spec (n L blocks : Z) (re im : list R) :
  1 <= L -> 0 <= blocks -> n = blocks * (2 * L) ->
  alen re = n -> alen im = n ->
  exists re' im',
    fft_stage (SF := Scalar_R) n (2 * L) (re, im) = (re', im')
    /\ alen re' = n /\ alen im' = n
    /\ forall b j, 0 <= b < blocks -> 0 <= j < L ->
         cget (re', im') (b * (2 * L) + j)
         = cadd (cget (re, im) (b * (2 * L) + j))
             (cmul (root (2 * L) j) (cget (re, im) (b * (2 * L) + j + L)))
         /\ cget (re', im') (b * (2 * L) + j + L)
            = csub (cget (re, im) (b * (2 * L) + j))
                (cmul (root (2 * L) j) (cget (re, im) (b * (2 * L) + j + L))).
Proof.
  intros HL Hb Hn Lr Li. unfold fft_stage.
  replace (n / (2 * L)) with blocks by (rewrite Hn, Z.div_mul by lia; reflexivity).
  replace (2 * L / 2) with L by (rewrite Z.mul_comm, Z.div_mul by lia; reflexivity).
  cbn [fdiv fmul of_Z fpi Scalar_R].
  set (angle := (IZR (-2) * PI / IZR (2 * L))%R).
  assert (G : forall c, 0 <= c <= blocks ->
            let s := for_ 0 c (fun b s => fft_block (SF := Scalar_R) angle L (b * (2 * L)) s)
                       (re, im) in
            alen (fst s) = n /\ alen (snd s) = n
            /\ (forall p, c * (2 * L) <= p -> cget s p = cget (re, im) p)
            /\ forall b j, 0 <= b < c -> 0 <= j < L ->
                 cget s (b * (2 * L) + j)
                 = cadd (cget (re, im) (b * (2 * L) + j))
                     (cmul (root (2 * L) j) (cget (re, im) (b * (2 * L) + j + L)))
                 /\ cget s (b * (2 * L) + j + L)
                    = csub (cget (re, im) (b * (2 * L) + j))
                        (cmul (root (2 * L) j) (cget (re, im) (b * (2 * L) + j + L)))).
  { intros c Hc. cbv zeta.
    apply (for_invariant
             (fun c s =>
                alen (fst s) = n /\ alen (snd s) = n
                /\ (forall p, c * (2 * L) <= p -> cget s p = cget (re, im) p)
                /\ forall b j, 0 <= b < c -> 0 <= j < L ->
                     cget s (b * (2 * L) + j)
                     = cadd (cget (re, im) (b * (2 * L) + j))
                         (cmul (root (2 * L) j) (cget (re, im) (b * (2 * L) + j + L)))
                     /\ cget s (b * (2 * L) + j + L)
                        = csub (cget (re, im) (b * (2 * L) + j))
                            (cmul (root (2 * L) j)
                               (cget (re, im) (b * (2 * L) + j + L))))); [lia| |].
    - cbn [fst snd]. split; [exact Lr|]. split; [exact Li|].
      split; [reflexivity|]. intros; lia.
    - intros k [re1 im1] Hk (L1 & L2 & Hrest & Hdone). cbn [fst snd] in L1, L2.
      destruct (fft_block_spec angle L (k * (2 * L)) re1 im1)
        as (re2 & im2 & E & L1' & L2' & Hs); [nia|lia|nia|congruence|].
      rewrite E. cbn [fst snd].
      split; [congruence|]. split; [congruence|]. split.
      + intros p Hp. rewrite Hs.
        destruct (Z.leb_spec (k * (2 * L)) p), (Z.ltb_spec p (k * (2 * L) + L)),
          (Z.leb_spec (k * (2 * L) + L) p), (Z.ltb_spec p (k * (2 * L) + 2 * L));
          cbn [andb]; try lia.
        apply Hrest. lia.
      + intros b j Hbk Hj.
        destruct (Z.eq_dec b k) as [->|Hne].
        * split.
          -- rewrite Hs.
             destruct (Z.leb_spec (k * (2 * L)) (k * (2 * L) + j)); [|lia].
             destruct (Z.ltb_spec (k * (2 * L) + j) (k * (2 * L) + L)); [|lia].
             cbn [andb].
             replace (k * (2 * L) + j - k * (2 * L)) with j by ring.
             unfold angle. rewrite twiddle_root.
             now rewrite !Hrest by lia.
          -- rewrite Hs.
             destruct (Z.leb_spec (k * (2 * L)) (k * (2 * L) + j + L)); [|lia].
             destruct (Z.ltb_spec (k * (2 * L) + j + L) (k * (2 * L) + L)); [lia|].
             cbn [andb].
             destruct (Z.leb_spec (k * (2 * L) + L) (k * (2 * L) + j + L)); [|lia].
             destruct (Z.ltb_spec (k * (2 * L) + j + L) (k * (2 * L) + 2 * L)); [|lia].
             cbn [andb].
             replace (k * (2 * L) + j + L - L) with (k * (2 * L) + j) by ring.
             replace (k * (2 * L) + j - k * (2 * L)) with j by ring.
             unfold angle. rewrite twiddle_root.
             now rewrite !Hrest by lia.
        * assert (Hlow : b * (2 * L) + j + L < k * (2 * L)) by nia.
          destruct (Hdone b j ltac:(lia) Hj) as (H1 & H2).
          split.
          -- rewrite Hs.
             destruct (Z.leb_spec (k * (2 * L)) (b * (2 * L) + j)); [lia|].
             cbn [andb].
             destruct (Z.leb_spec (k * (2 * L) + L) (b * (2 * L) + j)); [lia|].
             cbn [andb]. exact H1.
          -- rewrite Hs.
             destruct (Z.leb_spec (k * (2 * L)) (b * (2 * L) + j + L)); [lia|].
             cbn [andb].
             destruct (Z.leb_spec (k * (2 * L) + L) (b * (2 * L) + j + L)); [lia|].
             cbn [andb]. exact H2. }
  specialize (G blocks ltac:(lia)). cbv zeta in G.
  destruct (for_ 0 blocks _ (re, im)) as [re' im'].
  cbn [fst snd] in G. destruct G as (L1 & L2 & _ & H).
  exists re', im'. split; [reflexivity|]. split; [exact L1|]. split; [exact L2|exact H].
Qed.

(** *** The stages *)

Lemma stage_sum_split (m s : nat) (x : Z -> complex) (b j j' : Z) (sign : complex) :
  (s < m)%nat ->
  root (2 ^ Z.of_nat (S s)) j' = cmul sign (root (2 ^ Z.of_nat (S s)) j) ->
  (exists c, j' = j + 2 ^ Z.of_nat s * c) ->
  stage_sum m (S s) x b j'
  = cadd (stage_sum m s x (2 * b) j)
      (cmul sign (cmul (root (2 ^ Z.of_nat (S s)) j) (stage_sum m s x (2 * b + 1) j))).
Proof.
  intros Hs Hsign (c & Hc). unfold stage_sum.
  pose proof (pow2_pos s) as HL.
  assert (E2L : 2 ^ Z.of_nat (S s) = 2 * 2 ^ Z.of_nat s)
    by (rewrite Nat2Z.inj_succ, Z.pow_succ_r by lia; reflexivity).
  replace (m - s)%nat with (S (m - S s)) by lia.
  set (q := (m - S s)%nat).
  assert (E2q : 2 ^ Z.of_nat (S q) = 2 * 2 ^ Z.of_nat q)
    by (rewrite Nat2Z.inj_succ, Z.pow_succ_r by lia; reflexivity).
  rewrite rev_bits_even, rev_bits_odd.
  rewrite E2L. rewrite E2L in Hsign.
  replace (Z.to_nat (2 * 2 ^ Z.of_nat s)) with (2 * Z.to_nat (2 ^ Z.of_nat s))%nat by lia.
  rewrite csum_even_odd. f_equal.
  - apply csum_ext. intros u _. f_equal.
    + f_equal. rewrite E2q. ring.
    + replace (j' * (2 * u)) with (2 * (j' * u)) by ring.
      rewrite root_double by assumption.
      rewrite Hc. replace ((j + 2 ^ Z.of_nat s * c) * u)
        with (j * u + 2 ^ Z.of_nat s * (c * u)) by ring.
      now apply root_period.
  - rewrite <- !csum_cmul_l. apply csum_ext. intros u _.
    replace (j' * (2 * u + 1)) with (2 * (j' * u) + j') by ring.
    rewrite root_add, root_double, Hsign by assumption.
    rewrite Hc at 1. replace ((j + 2 ^ Z.of_nat s * c) * u)
      with (j * u + 2 ^ Z.of_nat s * (c * u)) by ring.
    rewrite root_period by assumption.
    replace ((2 * u + 1) * 2 ^ Z.of_nat q + rev_bits q b)
      with (u * 2 ^ Z.of_nat (S q) + (2 ^ Z.of_nat q + rev_bits q b))
      by (rewrite E2q; ring).
    generalize (x (u * 2 ^ Z.of_nat (S q) + (2 ^ Z.of_nat q + rev_bits q b))).
    generalize (root (2 ^ Z.of_nat s) (j * u)), (root (2 * 2 ^ Z.of_nat s) j).
    intros w1 w2 v. calg.
Qed.

Lemma fft_stage_step (m s : nat) (x : Z -> complex) (re im : list R) :
  (s < m)%nat ->
  alen re = 2 ^ Z.of_nat m -> alen im = 2 ^ Z.of_nat m ->
  (forall b j, 0 <= b < 2 ^ Z.of_nat (m - s) -> 0 <= j < 2 ^ Z.of_nat s ->
     cget (re, im) (b * 2 ^ Z.of_nat s + j) = stage_sum m s x b j) ->
  exists re' im',
    fft_stage (SF := Scalar_R) (2 ^ Z.of_nat m) (2 ^ (Z.of_nat s + 1)) (re, im) = (re', im')
    /\ alen re' = 2 ^ Z.of_nat m /\ alen im' = 2 ^ Z.of_nat m
    /\ forall b j, 0 <= b < 2 ^ Z.of_nat (m - S s) -> 0 <= j < 2 ^ Z.of_nat (S s) ->
         cget (re', im') (b * 2 ^ Z.of_nat (S s) + j) = stage_sum m (S s) x b j.
Proof.
  intros Hs Lr Li Hinv.
  pose proof (pow2_pos s) as HL. pose proof (pow2_pos (m - S s)) as Hq.
  assert (E2L : 2 ^ Z.of_nat (S s) = 2 * 2 ^ Z.of_nat s)
    by (rewrite Nat2Z.inj_succ, Z.pow_succ_r by lia; reflexivity).
  assert (Eq : 2 ^ Z.of_nat (m - s) = 2 * 2 ^ Z.of_nat (m - S s)).
  { replace (m - s)%nat with (S (m - S s)) by lia.
    rewrite Nat2Z.inj_succ, Z.pow_succ_r by lia. reflexivity. }
  assert (En : 2 ^ Z.of_nat m = 2 ^ Z.of_nat (m - S s) * (2 * 2 ^ Z.of_nat s)).
  { rewrite <- E2L, <- Z.pow_add_r by lia. f_equal. lia. }
  replace (2 ^ (Z.of_nat s + 1)) with (2 * 2 ^ Z.of_nat s)
    by (rewrite Z.pow_add_r by lia; lia).
  destruct (fft_stage_spec (2 ^ Z.of_nat m) (2 ^ Z.of_nat s) (2 ^ Z.of_nat (m - S s)) re im)
    as (re' & im' & E & L1 & L2 & H); [lia|lia|exact En|exact Lr|exact Li|].
  exists re', im'. split; [exact E|]. split; [exact L1|]. split; [exact L2|].
  intros b j Hb Hj. rewrite E2L in *.
  assert (Hhalf : root (2 * 2 ^ Z.of_nat s) (2 ^ Z.of_nat s) = (-1, 0)%R)
    by now apply root_half.
  destruct (Z_lt_ge_dec j (2 ^ Z.of_nat s)) as [Hlow|Hhigh].
  - destruct (H b j ltac:(lia) ltac:(lia)) as (H1 & _). rewrite H1.
    rewrite (stage_sum_split m s x b j j (1, 0)%R Hs).
    + replace (b * (2 * 2 ^ Z.of_nat s) + j) with (2 * b * 2 ^ Z.of_nat s + j) by ring.
      replace (2 * b * 2 ^ Z.of_nat s + j + 2 ^ Z.of_nat s)
        with ((2 * b + 1) * 2 ^ Z.of_nat s + j) by ring.
      rewrite !Hinv by lia. rewrite E2L.
      generalize (stage_sum m s x (2 * b) j), (stage_sum m s x (2 * b + 1) j),
        (root (2 * 2 ^ Z.of_nat s) j).
      intros a c w. calg.
    + rewrite E2L. generalize (root (2 * 2 ^ Z.of_nat s) j). intros w. calg.
    + exists 0. ring.
  - destruct (H b (j - 2 ^ Z.of_nat s) ltac:(lia) ltac:(lia)) as (_ & H2).
    replace (b * (2 * 2 ^ Z.of_nat s) + (j - 2 ^ Z.of_nat s) + 2 ^ Z.of_nat s)
      with (b * (2 * 2 ^ Z.of_nat s) + j) in H2 by ring.
    rewrite H2.
    rewrite (stage_sum_split m s x b (j - 2 ^ Z.of_nat s) j (-1, 0)%R Hs).
    + replace (b * (2 * 2 ^ Z.of_nat s) + (j - 2 ^ Z.of_nat s))
        with (2 * b * 2 ^ Z.of_nat s + (j - 2 ^ Z.of_nat s)) by ring.
      replace (b * (2 * 2 ^ Z.of_nat s) + j)
        with ((2 * b + 1) * 2 ^ Z.of_nat s + (j - 2 ^ Z.of_nat s)) by ring.
      rewrite !Hinv by lia. rewrite E2L.
      generalize (stage_sum m s x (2 * b) (j - 2 ^ Z.of_nat s)),
        (stage_sum m s x (2 * b + 1) (j - 2 ^ Z.of_nat s)),
        (root (2 * 2 ^ Z.of_nat s) (j - 2 ^ Z.of_nat s)).
      intros a c w. calg.
    + rewrite E2L.
      replace j with ((j - 2 ^ Z.of_nat s) + 2 ^ Z.of_nat s) at 1 by ring.
      rewrite root_add, Hhalf.
      generalize (root (2 * 2 ^ Z.of_nat s) (j - 2 ^ Z.of_nat s)). intros w. calg.
    + exists 1. ring.
Qed.

(** The loops of [fft] compute the discrete Fourier transform. *)
Lemma fft_loops_dft (m : nat) (re im : list R) :
  alen re = 2 ^ Z.of_nat m -> alen im = 2 ^ Z.of_nat m ->
  exists re' im',
    fft_loops (SF := Scalar_R) m re im = (re', im')
    /\ alen re' = 2 ^ Z.of_nat m /\ alen im' = 2 ^ Z.of_nat m
    /\ forall k, 0 <= k < 2 ^ Z.of_nat m ->
         cget (re', im') k = dft (2 ^ Z.of_nat m) (cget (re, im)) k.
Proof.
  intros Lr Li. pose proof (pow2_pos m) as Hn.
  unfold fft_loops, fft_stages.
  destruct (bitrev_loop (SF := Scalar_R) m re im Lr Li) as (re0 & im0 & E0 & Lr0 & Li0 & H0).
  rewrite E0. change (@scalar_cell R Scalar_R) with Cell_R in H0.
  assert (G : forall c, 0 <= c <= Z.of_nat m ->
            let s := for_ 0 c
                       (fun st s => fft_stage (SF := Scalar_R) (2 ^ Z.of_nat m) (2 ^ (st + 1)) s)
                       (re0, im0) in
            alen (fst s) = 2 ^ Z.of_nat m /\ alen (snd s) = 2 ^ Z.of_nat m
            /\ forall b j, 0 <= b < 2 ^ Z.of_nat (m - Z.to_nat c) ->
                 0 <= j < 2 ^ Z.of_nat (Z.to_nat c) ->
                 cget s (b * 2 ^ Z.of_nat (Z.to_nat c) + j)
                 = stage_sum m (Z.to_nat c) (cget (re, im)) b j).
  { intros c Hc. cbv zeta.
    apply (for_invariant
             (fun c s =>
                alen (fst s) = 2 ^ Z.of_nat m /\ alen (snd s) = 2 ^ Z.of_nat m
                /\ forall b j, 0 <= b < 2 ^ Z.of_nat (m - Z.to_nat c) ->
                     0 <= j < 2 ^ Z.of_nat (Z.to_nat c) ->
                     cget s (b * 2 ^ Z.of_nat (Z.to_nat c) + j)
                     = stage_sum m (Z.to_nat c) (cget (re, im)) b j)); [lia| |].
    - cbn [fst snd]. split; [exact Lr0|]. split; [exact Li0|].
      change (Z.to_nat 0) with O. rewrite Nat.sub_0_r.
      change (2 ^ Z.of_nat 0) with 1. intros b j Hb Hj.
      replace j with 0 by lia. rewrite Z.mul_1_r, Z.add_0_r.
      unfold stage_sum. change (2 ^ Z.of_nat 0) with 1. rewrite Nat.sub_0_r.
      change (Z.to_nat 1) with 1%nat. cbn [csum Z.of_nat].
      rewrite Z.mul_0_l, Z.add_0_l, root_0, cadd_0_l, cmul_1_r.
      unfold cget. cbn [fst snd]. destruct (H0 b Hb) as [-> ->]. reflexivity.
    - intros st [re1 im1] Hst (L1 & L2 & Hinv). cbn [fst snd] in L1, L2.
      destruct (fft_stage_step m (Z.to_nat st) (cget (re, im)) re1 im1)
        as (re2 & im2 & E & L1' & L2' & H); [lia|exact L1|exact L2|exact Hinv|].
      rewrite Z2Nat.id in E by lia. rewrite E. cbn [fst snd].
      split; [exact L1'|]. split; [exact L2'|].
      replace (Z.to_nat (st + 1)) with (S (Z.to_nat st)) by lia. exact H. }
  specialize (G (Z.of_nat m) ltac:(lia)). cbv zeta in G.
  destruct (for_ 0 (Z.of_nat m) _ (re0, im0)) as [re' im'].
  cbn [fst snd] in G. destruct G as (L1 & L2 & H).
  exists re', im'. split; [reflexivity|]. split; [exact L1|]. split; [exact L2|].
  intros k Hk. rewrite Nat2Z.id, Nat.sub_diag in H.
  specialize (H 0 k ltac:(cbn; lia) Hk). rewrite Z.mul_0_l, Z.add_0_l in H.
  rewrite H. unfold stage_sum, dft. rewrite Nat.sub_diag.
  apply csum_ext. intros t _. cbn [rev_bits]. change (2 ^ Z.of_nat 0) with 1.
  now rewrite Z.mul_1_r, Z.add_0_r.
Qed.

(** *** The inverse transform *)

(** The inverse of the transform: the conjugate of the transform of the
    conjugates, over [n]. *)
Lemma dft_inverse (n : Z) (x : Z -> complex) (t : Z) :
  0 < n -> 0 <= t < n ->
  cconj (dft n (fun k => cconj (dft n x k)) t) = cscale (IZR n) (x t).
Proof.
  intros Hn Ht. unfold dft. rewrite csum_conj.
  rewrite (csum_ext _ _
             (fun k => csum (Z.to_nat n)
                         (fun u => cmul (x u) (root n (k * (u - t)))))).
  2:{ intros k _. cbv beta.
      assert (Econj : forall a b, cconj (cmul (cconj a) b) = cmul a (cconj b))
        by (intros; calg).
      rewrite Econj, conj_root, <- csum_cmul_r.
      apply csum_ext. intros u _. rewrite <- cmul_assoc, <- root_add.
      do 2 f_equal. ring. }
  rewrite csum_swap.
  rewrite (csum_single _ _ t); [|lia|].
  - rewrite csum_cmul_l.
    rewrite (csum_ext _ _ (fun k => root n (k * 0)))
      by (intros; do 2 f_equal; ring).
    rewrite root_sum by lia. cbn [Z.eqb]. destruct (x t). unfold cmul, cscale.
    cbn [fst snd]. f_equal; ring.
  - intros u Hu Hne. rewrite csum_cmul_l, root_sum by lia.
    destruct (Z.eqb_spec (u - t) 0); [lia|]. destruct (x u). unfold cmul. cbn [fst snd].
    f_equal; ring.
Qed.

(** [fft] on [2^m] real or complex samples is the discrete Fourier
    transform. *)
Lemma fft_dft (m : nat) (fuel : nat) (re im : list R) :
  (m <= 29)%nat ->
  alen re = 2 ^ Z.of_nat m -> alen im = 2 ^ Z.of_nat m ->
  (Z.to_nat (2 ^ Z.of_nat m) <= fuel)%nat ->
  exists re' im',
    fft (SF := Scalar_R) fuel re (Some im) = Ok (re', im')
    /\ alen re' = 2 ^ Z.of_nat m /\ alen im' = 2 ^ Z.of_nat m
    /\ forall k, 0 <= k < 2 ^ Z.of_nat m ->
         cget (re', im') k = dft (2 ^ Z.of_nat m) (cget (re, im)) k.
Proof.
  intros Hm Lr Li Hfuel.
  rewrite (fft_eval m) by assumption.
  destruct (fft_loops_dft m re im Lr Li) as (re' & im' & E & H).
  rewrite E. now exists re', im'.
Qed.

Lemma dft_ext (n : Z) (x y : Z -> complex) (k : Z) :
  (forall t, 0 <= t < n -> x t = y t) -> dft n x k = dft n y k.
Proof.
  intros H. unfold dft. apply csum_ext. intros t Ht. rewrite H by lia. reflexivity.
Qed.

Lemma aget_map_R (f : R -> R) (a : list R) (i : Z) :
  0 <= i < alen a -> aget (CF := Cell_R) (map f a) i = f (aget (CF := Cell_R) a i).
Proof.
  intros Hi. unfold aget.
  rewrite !in_range_true by (unfold alen in *; rewrite ?length_map; lia).
  rewrite (nth_indep _ fnan (f fnan)) by (unfold alen in Hi; rewrite length_map; lia).
  apply map_nth.
Qed.

Lemma for_update_map (f : R -> R) (a : list R) :
  for_ 0 (alen a) (fun i s => aset s i (f (aget (CF := Cell_R) s i))) a = map f a.
Proof.
  apply (array_ext (CF := Cell_R)).
  - rewrite (for_aset_alen (fun i => i) (fun i s => f (aget s i))).
    unfold alen. now rewrite length_map.
  - intros t Ht. rewrite (for_aset_alen (fun i => i) (fun i s => f (aget s i))) in Ht.
    rewrite (for_update (CF := Cell_R) (fun i => i) (fun _ v => f v));
      [|intros; lia|lia|lia].
    symmetry. now apply aget_map_R.
Qed.

(** [ifft] is the conjugate of [fft] of the conjugate, over [n]. *)
Lemma ifft_by_fft (m : nat) (fuel : nat) (re im : list R) :
  (m <= 29)%nat ->
  alen re = 2 ^ Z.of_nat m -> alen im = 2 ^ Z.of_nat m ->
  (Z.to_nat (2 ^ Z.of_nat m) <= fuel)%nat ->
  exists re2 im2,
    fft (SF := Scalar_R) fuel re (Some (map Ropp im)) = Ok (re2, im2)
    /\ alen re2 = 2 ^ Z.of_nat m /\ alen im2 = 2 ^ Z.of_nat m
    /\ ifft (SF := Scalar_R) fuel re im
       = Ok (map (fun v => v / IZR (2 ^ Z.of_nat m))%R re2,
             map (fun v => - v / IZR (2 ^ Z.of_nat m))%R im2).
Proof.
  intros Hm Lre Lim Hfuel. pose proof (pow2_pos m) as Hn.
  set (n := 2 ^ Z.of_nat m) in *.
  destruct (fft_ok (SF := Scalar_R) m fuel re (Some (map Ropp im)) Hm Lre Hfuel)
    as (re2 & im2 & E2 & Lre2 & Lim2). fold n in Lre2.
  assert (Lim2' : alen im2 = n).
  { rewrite Lim2. unfold alen. rewrite length_map. exact Lim. }
  exists re2, im2. split; [exact E2|]. split; [exact Lre2|]. split; [exact Lim2'|].
  unfold ifft. rewrite Lre, alloc_ok by lia. cbn [bind].
  change (@scalar_cell R Scalar_R) with Cell_R.
  assert (Ec : for_ 0 n (fun i imagConj => aset imagConj i (fneg (aget im i))) (zeros n)
               = map Ropp im).
  { apply (array_ext (CF := Cell_R)).
    - rewrite (for_aset_alen (fun i => i) (fun i _ => fneg (aget im i))).
      rewrite (alen_zeros (CF := Cell_R)) by lia. unfold alen. rewrite length_map.
      symmetry. exact Lim.
    - intros t Ht. rewrite (for_aset_alen (fun i => i) (fun i _ => fneg (aget im i))) in Ht.
      rewrite (alen_zeros (CF := Cell_R)) in Ht by lia.
      rewrite (for_store (SF := Scalar_R) (fun i => i) (fun i => fneg (aget im i)));
        [|intros; lia|lia|rewrite (alen_zeros (CF := Cell_R)); lia].
      rewrite aget_map_R by lia. reflexivity. }
  rewrite Ec, E2. cbn [bind]. f_equal.
  transitivity
    (for_ 0 n
       (fun i '(real, imag) =>
          ((fun i real => aset real i (fdiv (aget real i) (of_Z n))) i real,
           (fun i imag => aset imag i (fdiv (fneg (aget imag i)) (of_Z n))) i imag))
       (re2, im2)); [reflexivity|].
  rewrite for_pair. f_equal.
  - rewrite <- Lre2 at 1. apply (for_update_map (fun v => v / IZR n)%R).
  - rewrite <- Lim2' at 1. apply (for_update_map (fun v => - v / IZR n)%R).
Qed.

(** X23. Over the reals, on [2^m] samples for [m] up to 29, with fuel
    for the loops:
    [fft] of real samples returns their discrete Fourier transform;
    [ifft] runs [fft] on the conjugate of its input, and returns the
    conjugate of the result with both parts divided by the number of
    samples; and [ifft] of what [fft] returns for real samples is the
    samples again, with an imaginary part of zeros. *)
Theorem ifft_of_fft (m : nat) (fuel : nat) (x : list R) :
  (m <= 29)%nat ->
  alen x = 2 ^ Z.of_nat m ->
  (Z.to_nat (2 ^ Z.of_nat m) <= fuel)%nat ->
  (forall y, alen y = 2 ^ Z.of_nat m ->
     exists re2 im2,
       fft (SF := Scalar_R) fuel x (Some (map Ropp y)) = Ok (re2, im2)
       /\ ifft (SF := Scalar_R) fuel x y
          = Ok (map (fun v => v / IZR (2 ^ Z.of_nat m))%R re2,
                map (fun v => - v / IZR (2 ^ Z.of_nat m))%R im2))
  /\ exists re im,
       fft (SF := Scalar_R) fuel x None = Ok (re, im)
       /\ (forall k, 0 <= k < 2 ^ Z.of_nat m ->
             cget (re, im) k = dft (2 ^ Z.of_nat m) (fun t => (aget x t, 0%R)) k)
       /\ ifft (SF := Scalar_R) fuel re im = Ok (x, zeros (2 ^ Z.of_nat m)).
Proof.
  intros Hm Lx Hfuel. pose proof (pow2_pos m) as Hn.
  split.
  { intros y Ly. destruct (ifft_by_fft m fuel x y Hm Lx Ly Hfuel)
      as (re2 & im2 & E & _ & _ & Ei).
    now exists re2, im2. }
  set (n := 2 ^ Z.of_nat m) in *.
  assert (Hn' : IZR n <> 0%R) by (apply not_0_IZR; lia).
  (* the forward transform *)
  assert (E0 : fft (SF := Scalar_R) fuel x None
               = fft (SF := Scalar_R) fuel x (Some (zeros n))).
  { unfold fft. rewrite Lx. now rewrite alloc_ok by lia. }
  destruct (fft_dft m fuel x (zeros n) Hm Lx ltac:(apply alen_zeros; lia) Hfuel)
    as (re & im & E1 & Lre & Lim & H1). fold n in Lre, Lim, H1, E1.
  exists re, im. rewrite E0. split; [exact E1|].
  assert (Hin : forall t, 0 <= t < n -> cget (x, zeros n) t = (aget x t, 0%R)).
  { intros t Ht. unfold cget. cbn [fst snd].
    now rewrite (aget_zeros (CF := Cell_R)) by lia. }
  assert (H1' : forall k, 0 <= k < n ->
            cget (re, im) k = dft n (fun t => (aget x t, 0%R)) k).
  { intros k Hk. rewrite H1 by assumption. apply dft_ext. exact Hin. }
  split; [exact H1'|].
  (* the inverse transform *)
  destruct (ifft_by_fft m fuel re im Hm Lre Lim Hfuel)
    as (re2 & im2 & E2 & Lre2 & Lim2 & Ei). fold n in E2, Lre2, Lim2, Ei.
  assert (Lc : alen (map Ropp im) = n) by (unfold alen; rewrite length_map; exact Lim).
  destruct (fft_dft m fuel re (map Ropp im) Hm Lre Lc Hfuel)
    as (re2' & im2' & E2' & _ & _ & H2). fold n in H2, E2'.
  rewrite E2 in E2'. injection E2' as <- <-.
  assert (Hout : forall t, 0 <= t < n ->
            cget (re2, im2) t = cconj (cscale (IZR n) (aget x t, 0%R))).
  { intros t Ht. rewrite H2 by assumption.
    rewrite <- (dft_inverse n (fun t => (aget x t, 0%R)) t) by lia.
    assert (Econj : forall a, cconj (cconj a) = a)
      by (intros [a b]; unfold cconj; cbn; f_equal; ring).
    rewrite Econj. apply dft_ext. intros k Hk.
    rewrite <- H1' by assumption. unfold cget, cconj. cbn [fst snd].
    now rewrite aget_map_R by lia. }
  rewrite Ei. do 2 f_equal.
  - apply (array_ext (CF := Cell_R)).
    + unfold alen in *. rewrite length_map. congruence.
    + intros t Ht. assert (Ht' : 0 <= t < n).
      { unfold alen in *. rewrite length_map in Ht. lia. }
      rewrite aget_map_R by lia.
      specialize (Hout t Ht'). unfold cget, cconj, cscale in Hout.
      cbn [fst snd] in Hout. injection Hout as Hr _. rewrite Hr.
      field. exact Hn'.
  - apply (array_ext (CF := Cell_R)).
    + unfold alen at 1. rewrite length_map. fold (alen im2).
      rewrite (alen_zeros (CF := Cell_R)) by lia. exact Lim2.
    + intros t Ht. assert (Ht' : 0 <= t < n).
      { unfold alen in *. rewrite length_map in Ht. lia. }
      rewrite aget_map_R by lia.
      specialize (Hout t Ht'). unfold cget, cconj, cscale in Hout.
      cbn [fst snd] in Hout. injection Hout as _ Hi. rewrite Hi.
      rewrite (aget_zeros (CF := Cell_R)) by lia.
      cbn [fzero Cell_R]. field. exact Hn'.
Qed.

(** Four samples. *)
Lemma ifft_of_fft_witness :
  exists re im,
    fft (SF := Scalar_R) 4 [1; 2; 3; 4]%R None = Ok (re, im)
    /\ ifft (SF := Scalar_R) 4 re im = Ok ([1; 2; 3; 4]%R, [0; 0; 0; 0]%R).
Proof.
  destruct (ifft_of_fft 2 4 [1; 2; 3; 4]%R) as (_ & re & im & E & _ & Ei);
    [lia|reflexivity|apply le_n|].
  exists re, im. split; [exact E|exact Ei].
Defined.

(** ** [fft] on [2^30] samples *)

(** A [while] loop whose condition holds on every state it reaches does
    not return. *)
Lemma while_stays {St : Type} (Inv : St -> Prop) (cond : St -> bool)
    (body : St -> result St) :
  (forall s, Inv s -> cond s = true) ->
  (forall s s', Inv s -> body s = Ok s' -> Inv s') ->
  forall (fuel : nat) (s r : St), Inv s -> while_ fuel cond body s <> Ok r.
Proof.
  intros Hc Hb. induction fuel as [|fuel IH]; intros s r Hs; cbn [while_]; [discriminate|].
  rewrite (Hc s Hs). destruct (body s) as [s'|e] eqn:Eb; cbn [bind]; [|discriminate].
  apply IH. eapply Hb; eassumption.
Qed.

Section FftOverflow.
Context {F : Type} {SF : Scalar F}.

(** C2, at [2^30] samples, real or complex: [len <<= 1] takes the length
    of the stages from [2^30] to [-2^31], which is still at most the
    number of samples, so the loop over the stages goes on and [fft]
    does not return, whatever the fuel; there is nothing for [ifft] to
    invert.  (Up to [2^29] samples the round trip holds: X23.) *)
Theorem fft_does_not_return_on_2_30_samples
    (fuel : nat) (realInput : list F) (imagInput : option (list F)) :
  alen realInput = 2 ^ 30 ->
  fft fuel realInput imagInput = Throw OutOfFuel.
Proof.
  intros Hn. unfold fft. rewrite Hn, pow2_check_pow by lia. cbn [Z.eqb negb].
  assert (Ei : exists imag,
            match imagInput with Some imagInput => Ok imagInput | None => alloc (2 ^ 30) end
            = Ok imag).
  { destruct imagInput as [im|]; [now exists im|].
    rewrite alloc_ok by lia. eauto. }
  destruct Ei as (imag & ->). cbn [bind].
  match goal with
  | |- bind ?m _ = _ => destruct m as [[[re im] j]|e0] eqn:E1; cbn [bind]
  end.
  2:{ f_equal. revert E1. apply (forM_throws (fun e => e = OutOfFuel)).
      intros i [[re im] j] e'. cbv beta iota.
      destruct (if i <? j then _ else _) as [re' im'].
      match goal with
      | |- bind ?m _ = _ -> _ => destruct m as [[j' k']|e1] eqn:E2; cbn [bind]
      end; [discriminate|].
      intros [= <-]. revert E2. apply (while_throws (fun e => e = OutOfFuel)).
      - reflexivity.
      - intros [j' k'] e'. discriminate. }
  match goal with
  | |- bind ?m _ = _ => destruct m as [[[re' im'] len]|e0] eqn:E2; cbn [bind]
  end.
  - exfalso. revert E2.
    apply (while_stays
             (fun '(_, _, len) =>
                (exists k, 1 <= k <= 30 /\ len = 2 ^ k) \/ len = - 2 ^ 31 \/ len = 0)).
    + intros [[re1 im1] len1] [(k & Hk & ->)|[->| ->]]; [|reflexivity|reflexivity].
      apply Z.leb_le. apply Z.pow_le_mono_r; lia.
    + intros [[re1 im1] len1] [[re2 im2] len2] Hlen.
      match goal with
      | |- bind ?m _ = _ -> _ => destruct m as [[[re3 im3] i3]|e1]; cbn [bind]
      end; [|discriminate].
      intros [= _ _ <-].
      destruct Hlen as [(k & Hk & ->)|[->| ->]]; [|right; right; reflexivity..].
      destruct (Z.eq_dec k 30) as [->|Hne]; [right; left; reflexivity|].
      left. exists (k + 1). split; [lia|].
      rewrite shl32_1, Z.pow_add_r by (try split; try apply Z.pow_lt_mono_r; lia). ring.
    + left. exists 1. split; [lia|reflexivity].
  - f_equal. revert E2. apply (while_throws (fun e => e = OutOfFuel)); [reflexivity|].
    intros [[re1 im1] len1] e'.
    match goal with
    | |- bind ?m _ = _ -> _ => destruct m as [[[re2 im2] i2]|e1] eqn:E3; cbn [bind]
    end; [discriminate|].
    intros [= <-]. revert E3. apply (while_throws (fun e => e = OutOfFuel)); [reflexivity|].
    intros [[re2 im2] i2] e'. cbv beta iota.
    destruct (for_ _ _ _ _) as [[[? ?] ?] ?]. discriminate.
Qed.

End FftOverflow.

(** Silence, with fuel for [2^31] steps of each loop. *)
Lemma fft_does_not_return_on_2_30_samples_witness :
  fft (SF := Scalar_R) (Z.to_nat (2 ^ 31)) (zeros (2 ^ 30)) None = Throw OutOfFuel.
Proof.
  apply (fft_does_not_return_on_2_30_samples (SF := Scalar_R)
           (Z.to_nat (2 ^ 31)) (zeros (2 ^ 30)) None).
  apply alen_zeros. apply Z.pow_nonneg. lia.
Defined.
